(** * MamaTY: the transition graph of objects, its complexity propagation,
      its cycle analysis and the sub-graph view, embedded from
      [mamaty/databank.py], [mamaty/graph.py] and [mamaty/subgraph.py]. *)

From Stdlib Require Import ZArith Lia.
From stdpp Require Import base option list gmap strings relations.

Local Open Scope Z_scope.

#[local] Set Warnings "-clear-no-such-hyp".

(** ** Python exceptions the modelled code can raise *)

Inductive error := KeyError | AssertionError | IndexError | RecursionError.

Definition result (A : Type) : Type := error + A.

Definition ok {A} (a : A) : result A := inr a.
Definition raise {A} (e : error) : result A := inl e.

#[global] Instance result_ret : MRet result := fun A a => inr a.
#[global] Instance result_bind : MBind result := fun A B f m =>
  match m with inl e => inl e | inr a => f a end.

(** [assert b] *)
Definition assert (b : bool) : result unit :=
  if b then ok tt else raise AssertionError.

(** [l[i]] on a Python list, with a non-negative index. *)
Definition index {A} (l : list A) (i : nat) : result A :=
  match l !! i with Some a => ok a | None => raise IndexError end.

(** [d[k]] on a Python dict. *)
Definition getitem (d : gmap Z nat) (k : Z) : result nat :=
  match d !! k with Some a => ok a | None => raise KeyError end.

(** [l[i] = x] on a Python list, with a non-negative index. *)
Definition setitem {A} (l : list A) (i : nat) (x : A) : result (list A) :=
  if decide (i < length l)%nat then ok (<[i := x]> l) else raise IndexError.

(** A [for x in l: ...] loop whose body can raise, threading the state. *)
Fixpoint for_each {A S} (l : list A) (body : A → S → result S) (s : S)
  : result S :=
  match l with
  | [] => ok s
  | x :: l' => s' ← body x s; for_each l' body s'
  end.

(** ** databank.py *)

Record Object := mkObject {
  identifier : Z;
  name : string;
  is_natural : bool;
  is_category : bool;
  (* the contained objects, kept by identifier: the graph only reads
     [contains.identifier] *)
  category_contains : list Z
}.

Module TransitionType.
Inductive t := NATURAL | BARE_HANDS | INTERACT | DROP | CRAFT.
#[global] Instance eq_dec : EqDecision t.
Proof. solve_decision. Defined.
End TransitionType.

Record Transition := mkTransition {
  actor : Z;
  target : Z;
  new_actor : Z;
  new_target : Z;
  last_use_actor : bool;
  last_use_target : bool;
  auto_decay_seconds : Z
}.

(** The [type] attribute computed by [Transition.__init__]. *)
Definition Transition_type (t : Transition) : TransitionType.t :=
  if actor t =? -1 then TransitionType.NATURAL
  else if actor t =? 0 then TransitionType.BARE_HANDS
  else if actor t =? -2 then TransitionType.INTERACT
  else if target t =? -1 then TransitionType.DROP
  else TransitionType.CRAFT.

(** The assertions of [Transition.__init__]. *)
Definition Transition_asserts (t : Transition) : bool :=
  (if actor t =? -1 then 0 <? target t
   else if actor t =? 0 then 0 <? target t
   else if actor t =? -2 then 0 <? target t
   else if target t =? -1 then 0 <? actor t
   else true)
  && eqb (bool_decide (Transition_type t = TransitionType.NATURAL))
         (negb (auto_decay_seconds t =? 0)).

Definition get_input_objects (t : Transition) : list Z :=
  (if 0 <? actor t then [actor t] else [])
  ++ (if 0 <? target t then [target t] else []).

Definition get_output_objects (t : Transition) : list Z :=
  (if 0 <? new_actor t then [new_actor t] else [])
  ++ (if 0 <? new_target t then [new_target t] else []).

(** ** graph.py: nodes *)

Definition DEFAULT_COMPLEXITY : Z := 9999999999.

Inductive GraphNode :=
| NodeObject (obj : Object) (complexity : Z)
| NodeTransition (transition : Transition) (complexity : Z).

Definition complexity (n : GraphNode) : Z :=
  match n with NodeObject _ c => c | NodeTransition _ c => c end.

Definition is_NodeObject (n : GraphNode) : bool :=
  match n with NodeObject _ _ => true | NodeTransition _ _ => false end.

(** [NodeObject.__init__] *)
Definition NodeObject_init (obj : Object) : result GraphNode :=
  let c := if is_natural obj then 0 else DEFAULT_COMPLEXITY in
  _ ← assert (identifier obj <? DEFAULT_COMPLEXITY);
  ok (NodeObject obj c).

(** [NodeTransition.__init__] *)
Definition NodeTransition_init (t : Transition) : GraphNode :=
  NodeTransition t (-1).

(** [update_complexity]: the updated node and the returned flag. *)
Definition update_complexity (n : GraphNode) (incoming_complexity : Z)
  : result (GraphNode * bool) :=
  _ ← assert (incoming_complexity <? DEFAULT_COMPLEXITY);
  match n with
  | NodeObject obj c =>
      if incoming_complexity <? c
      then ok (NodeObject obj incoming_complexity, true)
      else ok (n, false)
  | NodeTransition t c =>
      if c =? -1
      then ok (NodeTransition t incoming_complexity,
               bool_decide (length (get_input_objects t) = 1%nat))
      else ok (NodeTransition t (Z.max c incoming_complexity), true)
  end.

(** ** graph.py: edges *)

Module EdgeType.
Inductive t :=
| NATURAL | BARE_HANDS | INTERACT | DROP | CONSUME | TOOL
| TRANSITION | CATEGORY | OTHER.
#[global] Instance eq_dec : EqDecision t.
Proof. solve_decision. Defined.
End EdgeType.

Record Edge := mkEdge {
  from_node : nat;
  to_node : nat;
  category : EdgeType.t;
  transition : option Transition;
  looping : bool
}.

(** [Edge.__init__] *)
Definition Edge_init (f t : nat) (c : EdgeType.t) (tr : option Transition)
  : Edge := mkEdge f t c tr false.

(** [Edge.cost] *)
Definition cost (e : Edge) : Z :=
  match category e with
  | EdgeType.NATURAL | EdgeType.TRANSITION => 0
  | _ => 1
  end.

Definition _transition_type_to_edge_type (tt : TransitionType.t)
  : result EdgeType.t :=
  let edge_type :=
    match tt with
    | TransitionType.NATURAL => EdgeType.NATURAL
    | TransitionType.BARE_HANDS => EdgeType.BARE_HANDS
    | TransitionType.INTERACT => EdgeType.INTERACT
    | TransitionType.DROP => EdgeType.DROP
    | TransitionType.CRAFT => EdgeType.CONSUME
    end in
  _ ← assert (negb (bool_decide (edge_type = EdgeType.OTHER)));
  ok edge_type.

(** ** graph.py: the graph *)

Record Graph := mkGraph {
  _nodes : list GraphNode;
  _edges : list Edge;
  _incoming_edges : list (list nat);
  _out_edges : list (list nat);
  obj_to_node : gmap Z nat
}.

Definition set_nodes (g : Graph) (ns : list GraphNode) : Graph :=
  mkGraph ns (_edges g) (_incoming_edges g) (_out_edges g) (obj_to_node g).
Definition set_edges (g : Graph) (es : list Edge) : Graph :=
  mkGraph (_nodes g) es (_incoming_edges g) (_out_edges g) (obj_to_node g).

(** [Graph.__init__] before the two calls. *)
Definition Graph_empty : Graph := mkGraph [] [] [] [] ∅.

(** *** [Graph._create] *)

(* first loop: one node per object of positive identifier *)
Definition create_node (obj : Object) (g : Graph) : result Graph :=
  if 0 <? identifier obj then
    let o2n := <[identifier obj := length (_nodes g)]> (obj_to_node g) in
    n ← NodeObject_init obj;
    ok (mkGraph (_nodes g ++ [n]) (_edges g) (_incoming_edges g)
                (_out_edges g) o2n)
  else ok g.

(* second loop: the category edges *)
Definition create_category_edges (obj : Object) (g : Graph) : result Graph :=
  for_each (category_contains obj) (fun contains g =>
    f ← getitem (obj_to_node g) contains;
    t ← getitem (obj_to_node g) (identifier obj);
    ok (set_edges g (_edges g ++ [Edge_init f t EdgeType.CATEGORY None]))) g.

(* third loop: one node and its edges per transition *)
Definition create_transition (tr : Transition) (g : Graph) : result Graph :=
  let node := length (_nodes g) in
  let g := set_nodes g (_nodes g ++ [NodeTransition_init tr]) in
  let outputs := get_output_objects tr in
  let inputs := get_input_objects tr in
  g ← for_each outputs (fun output g =>
         if bool_decide (output ∈ inputs) then ok g
         else
           t ← getitem (obj_to_node g) output;
           ok (set_edges g
                 (_edges g ++ [Edge_init node t EdgeType.TRANSITION None]))) g;
  for_each inputs (fun input_ g =>
    edge_type ← _transition_type_to_edge_type (Transition_type tr);
    let edge_type :=
      if bool_decide (edge_type = EdgeType.CONSUME)
         && bool_decide (input_ ∈ outputs)
      then EdgeType.TOOL else edge_type in
    f ← getitem (obj_to_node g) input_;
    ok (set_edges g (_edges g ++ [Edge_init f node edge_type (Some tr)]))) g.

(** [objects] is [objects.values()], in the order of the dict. *)
Definition _create (objects : list Object) (transitions : list Transition)
  (g : Graph) : result Graph :=
  g ← for_each objects create_node g;
  g ← for_each objects create_category_edges g;
  for_each transitions create_transition g.

(** *** [Graph._finish_computation]: the adjacency lists *)

(* [l[i].append(x)] *)
Definition append_at (l : list (list nat)) (i x : nat)
  : result (list (list nat)) :=
  li ← index l i;
  ok (<[i := li ++ [x]]> l).

Definition update_adjacency (g : Graph) : result Graph :=
  let n := length (_nodes g) in
  '(inc, out) ←
    for_each (imap (fun i e => (i, e)) (_edges g))
      (fun '(i, edge) '(inc, out) =>
         out ← append_at out (from_node edge) i;
         inc ← append_at inc (to_node edge) i;
         ok (inc, out))
      (replicate n [], replicate n []);
  ok (mkGraph (_nodes g) (_edges g) inc out (obj_to_node g)).

(** ** Work-set loops

    [while to_visit: current = to_visit.pop(); ...] occurs three times in
    the code.  [set.pop] removes an arbitrary element, so the loop is a
    relation: any element of the work-set may be the one popped.
    [body current s tv] is one iteration, [tv] being the set once
    [current] is out. *)

Section WorkSet.
Context {S : Type}.
Variable body : nat → S → gset nat → result (S * gset nat).

Inductive ws_step : S * gset nat → S * gset nat → Prop :=
| ws_step_pop s tv current s' tv' :
    current ∈ tv →
    body current s (tv ∖ {[current]}) = inr (s', tv') →
    ws_step (s, tv) (s', tv').

(** A whole execution of the loop, to its result. *)
Inductive ws_run : S → gset nat → result S → Prop :=
| ws_done s : ws_run s ∅ (inr s)
| ws_pop s tv current s' tv' r :
    current ∈ tv →
    body current s (tv ∖ {[current]}) = inr (s', tv') →
    ws_run s' tv' r →
    ws_run s tv r
| ws_raise s tv current e :
    current ∈ tv →
    body current s (tv ∖ {[current]}) = inl e →
    ws_run s tv (inl e).

(** The loop popping the elements in the order [sched] gives. *)
Fixpoint ws_sched (sched : list nat) (s : S) (tv : gset nat)
  : option (result S) :=
  match sched with
  | [] => if decide (tv = ∅) then Some (inr s) else None
  | current :: sched' =>
      if decide (current ∈ tv) then
        match body current s (tv ∖ {[current]}) with
        | inl e => Some (inl e)
        | inr (s', tv') => ws_sched sched' s' tv'
        end
      else None
  end.

(** Every execution of at most [fuel] iterations; [None] stands for one
    that needs more. *)
Fixpoint ws_all (fuel : nat) (s : S) (tv : gset nat)
  : list (option (result S)) :=
  match fuel with
  | O => [None]
  | Datatypes.S fuel' =>
      if decide (tv = ∅) then [Some (inr s)]
      else
        flat_map (fun current =>
          match body current s (tv ∖ {[current]}) with
          | inl e => [Some (inl e)]
          | inr (s', tv') => ws_all fuel' s' tv'
          end) (elements tv)
  end.

End WorkSet.

(** *** [Graph.__propagate_complexity] *)

(** The body of the [for] over the out edges of [current]. *)
Definition propagate_edge (g : Graph) (distance : Z) (edge_n : nat)
  (s : list GraphNode * gset nat) : result (list GraphNode * gset nat) :=
  let '(ns, to_visit) := s in
  edge ← index (_edges g) edge_n;
  n ← index ns (to_node edge);
  '(n', b) ← update_complexity n (distance + cost edge);
  let ns := <[to_node edge := n']> ns in
  ok (ns, if b : bool then {[to_node edge]} ∪ to_visit else to_visit).

(** One iteration of the [while]. *)
Definition propagate_visit (g : Graph) (current : nat)
  (ns : list GraphNode) (to_visit : gset nat)
  : result (list GraphNode * gset nat) :=
  current_node ← index ns current;
  let distance := complexity current_node in
  out ← index (_out_edges g) current;
  for_each out (propagate_edge g distance) (ns, to_visit).

(** [set(i for i, node in enumerate(self._nodes) if node.complexity == 0)] *)
Definition zero_nodes (ns : list GraphNode) : gset nat :=
  list_to_set
    (omap (fun '(i, n) => if complexity n =? 0 then Some i else None)
          (imap (fun i n => (i, n)) ns)).

(** The nodes after [__propagate_complexity]; the printed warnings are not
    part of the state. *)
Definition propagate_complexity (g : Graph) (r : result (list GraphNode))
  : Prop :=
  ws_run (propagate_visit g) (_nodes g) (zero_nodes (_nodes g)) r.

Definition propagate_complexity_sched (g : Graph) (sched : list nat)
  : option (result (list GraphNode)) :=
  ws_sched (propagate_visit g) sched (_nodes g) (zero_nodes (_nodes g)).

Definition propagate_complexity_all (g : Graph) (fuel : nat)
  : list (option (result (list GraphNode))) :=
  ws_all (propagate_visit g) fuel (_nodes g) (zero_nodes (_nodes g)).

(** A [for] loop whose body contains a work-set loop. *)
Inductive for_each_rel {A S} (body : A → S → result S → Prop)
  : list A → S → result S → Prop :=
| for_each_rel_nil s : for_each_rel body [] s (inr s)
| for_each_rel_cons x l s s' r :
    body x s (inr s') → for_each_rel body l s' r →
    for_each_rel body (x :: l) s r
| for_each_rel_raise x l s e :
    body x s (inl e) → for_each_rel body (x :: l) s (inl e).

(** *** [Graph.__tarjan] *)

Record tarjan_state := mkTarjan {
  t_index : Z;
  indexes : list Z;
  low_link : list Z;
  on_stack : list bool;
  stack : list nat;      (* the top of the stack is the head *)
  scc : list Z;
  scc_index : Z
}.

(** The [while other_node != node] loop that pops one component. *)
Fixpoint pop_component (node : nat) (stk : list nat) (on_stk : list bool)
  (sc : list Z) (sc_index : Z) : result (list nat * list bool * list Z) :=
  match stk with
  | [] => raise IndexError
  | other_node :: stk' =>
      on_stk ← setitem on_stk other_node false;
      sc ← setitem sc other_node sc_index;
      if decide (other_node = node) then ok (stk', on_stk, sc)
      else pop_component node stk' on_stk sc sc_index
  end.

(** The first statements of [__strongconnect]: the node gets its index and
    goes on the stack. *)
Definition strongconnect_enter (node : nat) (st : tarjan_state)
  : result tarjan_state :=
  ixs ← setitem (indexes st) node (t_index st);
  lls ← setitem (low_link st) node (t_index st);
  ons ← setitem (on_stack st) node true;
  ok (mkTarjan (t_index st + 1) ixs lls ons (node :: stack st)
               (scc st) (scc_index st)).

Definition set_low_link (st : tarjan_state) (lls : list Z) : tarjan_state :=
  mkTarjan (t_index st) (indexes st) lls (on_stack st) (stack st) (scc st)
           (scc_index st).

(** The body of the [for] over the out edges; [recurse] is the recursive
    call. *)
Definition strongconnect_edge
  (recurse : nat → tarjan_state → result tarjan_state)
  (g : Graph) (node : nat) (edge_n : nat) (st : tarjan_state)
  : result tarjan_state :=
  edge ← index (_edges g) edge_n;
  let other_node := to_node edge in
  io ← index (indexes st) other_node;
  if io =? -1 then
    st ← recurse other_node st;
    ln ← index (low_link st) node;
    lo ← index (low_link st) other_node;
    lls ← setitem (low_link st) node (Z.min ln lo);
    ok (set_low_link st lls)
  else
    os ← index (on_stack st) other_node;
    if os : bool then
      ln ← index (low_link st) node;
      io ← index (indexes st) other_node;
      lls ← setitem (low_link st) node (Z.min ln io);
      ok (set_low_link st lls)
    else ok st.

(** The last statement: the node that is its own low link closes a
    component. *)
Definition strongconnect_exit (node : nat) (st : tarjan_state)
  : result tarjan_state :=
  ln ← index (low_link st) node;
  ix ← index (indexes st) node;
  if ln =? ix then
    '(stk, ons, sc) ←
      pop_component node (stack st) (on_stack st) (scc st) (scc_index st);
    ok (mkTarjan (t_index st) (indexes st) (low_link st) ons stk sc
                 (scc_index st + 1))
  else ok st.

(** [__strongconnect]; [depth] is the recursion depth Python still allows. *)
Fixpoint strongconnect (g : Graph) (depth : nat) (node : nat)
  (st : tarjan_state) : result tarjan_state :=
  match depth with
  | O => raise RecursionError
  | Datatypes.S depth' =>
      st ← strongconnect_enter node st;
      out ← index (_out_edges g) node;
      st ← for_each out (strongconnect_edge (strongconnect g depth') g node)
             st;
      strongconnect_exit node st
  end.

Definition tarjan_init (n : nat) : tarjan_state :=
  mkTarjan 0 (replicate n (-1)) (replicate n (-1)) (replicate n false) []
           (replicate n (-1)) 0.

Definition tarjan (g : Graph) (depth : nat) : result (list Z) :=
  let n := length (_nodes g) in
  st ← for_each (seq 0 n) (fun node st =>
          ix ← index (indexes st) node;
          if ix =? -1 then strongconnect g depth node st else ok st)
        (tarjan_init n);
  _ ← assert (negb (bool_decide (-1 ∈ scc st)));
  ok (scc st).

(** *** [Graph.get_out] *)
Definition get_out (g : Graph) (node : nat) : result (list (nat * nat)) :=
  out ← index (_out_edges g) node;
  for_each out (fun edge_n acc =>
    edge ← index (_edges g) edge_n;
    ok (acc ++ [(to_node edge, edge_n)])) [].

(** *** [Graph.__remove_loops] *)

Definition action_category (c : EdgeType.t) : bool :=
  match c with
  | EdgeType.BARE_HANDS | EdgeType.INTERACT | EdgeType.NATURAL
  | EdgeType.DROP | EdgeType.CONSUME => true
  | _ => false
  end.

(** The first loop: the triples [(possible_from, possible_to,
    possible_edge)], kept zipped. *)
Definition possible_loops (g : Graph) (sc : list Z)
  : result (list (nat * nat * nat)) :=
  for_each (seq 0 (length (_nodes g))) (fun i acc =>
    inc ← index (_incoming_edges g) i;
    in_edges ← for_each inc (fun j l => e ← index (_edges g) j; ok (l ++ [e])) [];
    for_each in_edges (fun e acc =>
      scp ← index sc (from_node e);
      sci ← index sc i;
      if scp =? sci then
        let parent := from_node e in
        if action_category (category e) then
          np ← index (_nodes g) parent;
          let distance := complexity np in
          outs ← get_out g i;
          for_each outs (fun '(c, edge_child) acc =>
            scc_c ← index sc c;
            sci ← index sc i;
            if scc_c =? sci then
              nc ← index (_nodes g) c;
              if complexity nc <? distance
              then ok (acc ++ [(parent, c, edge_child)])
              else ok acc
            else ok acc) acc
        else ok acc
      else ok acc) acc) [].

(** One iteration of the inner [while] of the second loop. *)
Definition distances_visit (g : Graph) (sc : list Z) (to : nat)
  (current : nat) (distances : list Z) (to_visit : gset nat)
  : result (list Z * gset nat) :=
  current_distance ← index distances current;
  outs ← get_out g current;
  for_each outs (fun '(child, child_edge) '(distances, to_visit) =>
    scc_child ← index sc child;
    scc_to ← index sc to;
    if negb (scc_child =? scc_to) then ok (distances, to_visit)
    else
      e ← index (_edges g) child_edge;
      let new_dist := current_distance + cost e in
      dc ← index distances child;
      if (dc =? -1) || (new_dist <? dc) then
        distances ← setitem distances child new_dist;
        ok (distances, {[child]} ∪ to_visit)
      else ok (distances, to_visit)) (distances, to_visit).

(** The body of the second loop for one triple: the edges to delete,
    extended or not. *)
Definition check_loop (g : Graph) (sc : list Z) (cand : nat * nat * nat)
  (delete_edges : list nat) (r : result (list nat)) : Prop :=
  let '(from, to, edg) := cand in
  match setitem (replicate (length (_nodes g)) (-1)) to 0 with
  | inl e => r = inl e
  | inr distances0 =>
      ∃ rd, ws_run (distances_visit g sc to) distances0 {[to]} rd ∧
        r = (distances ← rd;
             nf ← index (_nodes g) from;
             nt ← index (_nodes g) to;
             let diff := complexity nf - complexity nt in
             df ← index distances from;
             if df <=? diff then ok (delete_edges ++ [edg])
             else ok delete_edges)
  end.

Definition set_looping (e : Edge) : Edge :=
  mkEdge (from_node e) (to_node e) (category e) (transition e) true.

Definition remove_loops (g : Graph) (sc : list Z) (r : result Graph) : Prop :=
  match possible_loops g sc with
  | inl e => r = inl e
  | inr possible =>
      ∃ rdel, for_each_rel (check_loop g sc) possible [] rdel ∧
        r = (delete_edges ← rdel;
             es ← for_each delete_edges (fun delete es =>
                    e ← index es delete;
                    ok (<[delete := set_looping e]> es)) (_edges g);
             ok (set_edges g es))
  end.

(** *** [Graph._finish_computation] and [Graph.__init__] *)

Definition _finish_computation (depth : nat) (g : Graph) (r : result Graph)
  : Prop :=
  match update_adjacency g with
  | inl e => r = inl e
  | inr g =>
      ∃ rns, propagate_complexity g rns ∧
        match rns with
        | inl e => r = inl e
        | inr ns =>
            let g := set_nodes g ns in
            match tarjan g depth with
            | inl e => r = inl e
            | inr sc => remove_loops g sc r
            end
        end
  end.

Definition Graph_init (depth : nat) (objects : list Object)
  (transitions : list Transition) (r : result Graph) : Prop :=
  match _create objects transitions Graph_empty with
  | inl e => r = inl e
  | inr g => _finish_computation depth g r
  end.

(** *** [Graph._is_edge_valid] and what [Graph.to_graphviz] emits *)

Definition _get_node_through_proxy (node : nat) (proxy : gmap nat nat) : nat :=
  match proxy !! node with Some p => p | None => node end.

Definition _is_edge_valid (g : Graph) (edge_id : nat)
  (ignored_nodes ignored_edges : gset nat) (proxy_nodes : gmap nat nat)
  : result bool :=
  if decide (edge_id ∈ ignored_edges) then ok false
  else
    edge ← index (_edges g) edge_id;
    let from := _get_node_through_proxy (from_node edge) proxy_nodes in
    let to := _get_node_through_proxy (to_node edge) proxy_nodes in
    if decide (from = to) then ok false
    else ok (negb (bool_decide (from ∈ ignored_nodes)
                   || bool_decide (to ∈ ignored_nodes))).

(** The indices of the nodes and of the edges for which [to_graphviz]
    writes a line, in the order of the lines (the text of a line is the
    formatter's). *)
Definition to_graphviz (g : Graph) (ignored_nodes ignored_edges : gset nat)
  (proxy_nodes : gmap nat nat) : result (list nat * list nat) :=
  let decls :=
    filter (fun i => (i ∉ ignored_nodes) ∧ proxy_nodes !! i = None)
           (seq 0 (length (_nodes g))) in
  es ← for_each (seq 0 (length (_edges g))) (fun i acc =>
         b ← _is_edge_valid g i ignored_nodes ignored_edges proxy_nodes;
         ok (if b : bool then acc ++ [i] else acc)) [];
  ok (decls, es).

(** ** subgraph.py *)

Module IgnoreMode.
Inductive t :=
| NO_PARENTS | LEAST_COMPLEX_PARENT | ONLY_EXISTING_PARENTS | ALL_PARENTS.
#[global] Instance eq_dec : EqDecision t.
Proof. solve_decision. Defined.
End IgnoreMode.

Record SubGraph := mkSubGraph {
  graph : Graph;
  ignored_nodes : gset nat;
  ignored_edges : gset nat;
  max_distance : Z;
  ignore_categories : IgnoreMode.t;
  ignore_natural : IgnoreMode.t;
  ignore_others : IgnoreMode.t
}.

(** [SubGraph.__init__] *)
Definition SubGraph_init (g : Graph) : SubGraph :=
  let ignored :=
    list_to_set
      (omap (fun '(i, e) => if looping e then Some i else None)
            (imap (fun i e => (i, e)) (_edges g))) in
  mkSubGraph g ∅ ignored 50 IgnoreMode.ONLY_EXISTING_PARENTS
             IgnoreMode.NO_PARENTS IgnoreMode.LEAST_COMPLEX_PARENT.

Definition _get_ignore_type (sg : SubGraph) (node_index : nat)
  : result IgnoreMode.t :=
  node ← index (_nodes (graph sg)) node_index;
  match node with
  | NodeTransition _ _ => ok IgnoreMode.ALL_PARENTS
  | NodeObject obj c =>
      if c =? 0 then ok (ignore_natural sg)
      else if is_category obj then ok (ignore_categories sg)
      else ok (ignore_others sg)
  end.

Definition _get_all_parents (sg : SubGraph) (node : nat)
  : result (list nat) :=
  inc ← index (_incoming_edges (graph sg)) node;
  for_each inc (fun edge_n acc =>
    if decide (edge_n ∈ ignored_edges sg) then ok acc
    else
      e ← index (_edges (graph sg)) edge_n;
      let parent := from_node e in
      if decide (parent ∈ ignored_nodes sg) then ok acc
      else ok (acc ++ [parent])) [].

(** The [for parent in parents] loop of [_get_parents]. *)
Fixpoint least_complex (g : Graph) (parents : list nat) (chosen : nat)
  (c : Z) : result nat :=
  match parents with
  | [] => ok chosen
  | parent :: parents' =>
      n ← index (_nodes g) parent;
      if complexity n <? c
      then least_complex g parents' parent (complexity n)
      else least_complex g parents' chosen c
  end.

Definition _get_parents (sg : SubGraph) (node : nat) : result (list nat) :=
  mode ← _get_ignore_type sg node;
  match mode with
  | IgnoreMode.NO_PARENTS | IgnoreMode.ONLY_EXISTING_PARENTS => ok []
  | IgnoreMode.ALL_PARENTS => _get_all_parents sg node
  | IgnoreMode.LEAST_COMPLEX_PARENT =>
      parents ← _get_all_parents sg node;
      chosen ← index parents 0;
      n ← index (_nodes (graph sg)) chosen;
      chosen ← least_complex (graph sg) parents chosen (complexity n);
      ok [chosen]
  end.

Definition _get_children (sg : SubGraph) (node : nat) : result (list nat) :=
  out ← index (_out_edges (graph sg)) node;
  for_each out (fun edge_n acc =>
    if decide (edge_n ∈ ignored_edges sg) then ok acc
    else
      e ← index (_edges (graph sg)) edge_n;
      let child := to_node e in
      if decide (child ∈ ignored_nodes sg) then ok acc
      else
        ps ← _get_parents sg child;
        if bool_decide (node ∈ ps) then ok (acc ++ [child]) else ok acc) [].

Definition _compute_proxy (sg : SubGraph) : result (gmap nat nat) :=
  for_each (imap (fun i n => (i, n)) (_nodes (graph sg)))
    (fun '(i, node) (proxy : gmap nat nat) =>
       if is_NodeObject node then ok proxy
       else
         ps ← _get_parents sg i;
         if bool_decide (length ps = 1%nat) then
           children ← _get_children sg i;
           match children with
           | [child] => ok (<[i := child]> proxy)
           | _ => ok proxy
           end
         else ok proxy) ∅.

Definition SubGraph_to_graphviz (sg : SubGraph)
  : result (list nat * list nat) :=
  proxy ← _compute_proxy sg;
  to_graphviz (graph sg) (ignored_nodes sg) (ignored_edges sg) proxy.

Definition _edges_ignored_by_no_parent_nodes (sg : SubGraph)
  : result (gset nat) :=
  for_each (seq 0 (length (_nodes (graph sg)))) (fun i (ignored : gset nat) =>
    mode ← _get_ignore_type sg i;
    if decide (mode = IgnoreMode.NO_PARENTS) then
      inc ← index (_incoming_edges (graph sg)) i;
      ok (ignored ∪ list_to_set inc)
    else ok ignored) ∅.

(** One iteration of the [while] of [leading_to_obj]; the state is
    [(visited, distances)]. *)
Definition leading_visit (sg : SubGraph) (current : nat)
  (s : gset nat * list Z) (to_visit : gset nat)
  : result ((gset nat * list Z) * gset nat) :=
  let '(visited, distances) := s in
  distance ← (if 0 <? max_distance sg then index distances current
              else ok (-1));
  if max_distance sg <? distance then ok (s, to_visit)
  else
    ps ← _get_parents sg current;
    for_each ps (fun parent '((visited, distances), to_visit) =>
      if decide (parent ∉ visited) then
        distances ← setitem distances parent (distance + 1);
        ok (({[parent]} ∪ visited, distances), {[parent]} ∪ to_visit)
      else
        dp ← index distances parent;
        if dp <? distance + 1 then
          distances ← setitem distances parent (distance + 1);
          ok ((visited, distances), {[parent]} ∪ to_visit)
        else ok ((visited, distances), to_visit))
      ((visited, distances), to_visit).

Definition set_ignored_nodes (sg : SubGraph) (ign : gset nat) : SubGraph :=
  mkSubGraph (graph sg) ign (ignored_edges sg) (max_distance sg)
             (ignore_categories sg) (ignore_natural sg) (ignore_others sg).

Definition leading_to_obj (sg : SubGraph) (obj : Z) (r : result SubGraph)
  : Prop :=
  (* the union is computed and dropped: [set.union] returns a new set *)
  match _edges_ignored_by_no_parent_nodes sg with
  | inl e => r = inl e
  | inr no_parent_edges =>
      let _unused := ignored_edges sg ∪ no_parent_edges in
      match getitem (obj_to_node (graph sg)) obj with
      | inl e => r = inl e
      | inr start =>
          let n := length (_nodes (graph sg)) in
          ∃ rv, ws_run (leading_visit sg) ({[start]}, replicate n 0)
                       {[start]} rv ∧
            r = ('(visited, _) ← rv;
                 ok (set_ignored_nodes sg
                       (ignored_nodes sg ∪
                        list_to_set (filter (fun i => i ∉ visited)
                                            (seq 0 n)))))
      end
  end.

(** ** Scenarios *)

(** [_create] followed by the adjacency part of [_finish_computation]:
    the graph on which [__propagate_complexity] starts. *)
Definition built (objects : list Object) (transitions : list Transition)
  : result Graph :=
  g ← _create objects transitions Graph_empty; update_adjacency g.

Definition complexity_at (ns : list GraphNode) (i : nat) : option Z :=
  complexity <$> ns !! i.

(** Stone, worked with bare hands into a stone block. *)
Definition stone_objects : list Object :=
  [ mkObject 0 "Bare Hands" true false [];
    mkObject 1 "Stone" true false [];
    mkObject 2 "Stone Block" false false [] ].
Definition stone_transition : Transition :=
  mkTransition 0 1 0 2 false false 0.

(** What the scenario yields, the complexity of the transition node
    being [c_transition]. *)
Definition stone_scenario (c_transition : Z) : Prop :=
  ∃ g, built stone_objects [stone_transition] = inr g ∧
    ∃ stone block t e_in e_out,
      obj_to_node g !! 1 = Some stone ∧
      obj_to_node g !! 2 = Some block ∧
      _nodes g !! t = Some (NodeTransition_init stone_transition) ∧
      _edges g !! e_in
        = Some (mkEdge stone t EdgeType.BARE_HANDS (Some stone_transition)
                       false) ∧
      (cost <$> _edges g !! e_in) = Some 1 ∧
      _edges g !! e_out
        = Some (mkEdge t block EdgeType.TRANSITION None false) ∧
      (cost <$> _edges g !! e_out) = Some 0 ∧
      (∃ r, propagate_complexity g r) ∧
      ∀ r, propagate_complexity g r →
        ∃ ns, r = inr ns ∧
          complexity_at ns stone = Some 0 ∧
          complexity_at ns t = Some c_transition ∧
          complexity_at ns block = Some 1.

(** A graph [g] is the one [Graph(objects, transitions)] builds, whatever
    the order of the pops, once the recursion depth suffices. *)
Definition decorates (objects : list Object) (transitions : list Transition)
  (g : Graph) : Prop :=
  ∀ depth r, (length (_nodes g) ≤ depth)%nat →
    Graph_init depth objects transitions r ↔ r = inr g.

(** [subgraph.max_distance = d] *)
Definition set_max_distance (sg : SubGraph) (d : Z) : SubGraph :=
  mkSubGraph (graph sg) (ignored_nodes sg) (ignored_edges sg) d
             (ignore_categories sg) (ignore_natural sg) (ignore_others sg).

(** An object that is not natural and that no transition makes. *)
Definition orphan_objects : list Object :=
  [ mkObject 0 "Bare Hands" true false [];
    mkObject 1 "Stone" true false [];
    mkObject 2 "Orphan" false false [] ].

(** Flint, worked with bare hands, leaves a stone in the hand and chips on
    the ground; stone and chips make a blade. *)
Definition flint_objects : list Object :=
  [ mkObject 0 "Bare Hands" true false [];
    mkObject 1 "Flint" true false [];
    mkObject 2 "Stone" true false [];
    mkObject 3 "Chips" false false [];
    mkObject 4 "Blade" false false [] ].
Definition flint_transitions : list Transition :=
  [ mkTransition 0 1 2 3 false false 0;
    mkTransition 2 3 0 4 false false 0 ].

(** ** Reachability along the edges of the graph *)

(** [v] is reachable from [u] along edges, the edge of index [without]
    left out when there is one. *)
Inductive reach (g : Graph) (without : option nat) : nat → nat → Prop :=
| reach_refl u : reach g without u u
| reach_edge u j e w :
    reach g without u (from_node e) →
    _edges g !! j = Some e →
    without ≠ Some j →
    to_node e = w →
    reach g without u w.

(** [v] is reachable from the nodes of complexity 0. *)
Definition reachable_from_zero (g : Graph) (without : option nat) (v : nat)
  : Prop :=
  ∃ u n, _nodes g !! u = Some n ∧ complexity n = 0 ∧ reach g without u v.

(** Removing a looping edge leaves reachable what was. *)
Definition looping_removal_is_safe (g : Graph) : Prop :=
  ∀ j e v, _edges g !! j = Some e → looping e = true →
    reachable_from_zero g None v → reachable_from_zero g (Some j) v.

(** ** More scenarios *)

(** A and B, each made from the other. *)
Definition cycle_objects : list Object :=
  [ mkObject 0 "Bare Hands" true false [];
    mkObject 1 "A" true false [];
    mkObject 2 "B" false false [] ].
Definition cycle_transitions : list Transition :=
  [ mkTransition 1 0 2 0 false false 0;
    mkTransition 2 0 1 0 false false 0 ].

(** N is natural and decays into the category q that contains it; q and
    the category p make c, and p contains c. *)
Definition shortcut_objects : list Object :=
  [ mkObject 0 "Bare Hands" true false [];
    mkObject 1 "N" true false [];
    mkObject 2 "@q" false true [1];
    mkObject 3 "@p" false true [4];
    mkObject 4 "c" false false [] ].
Definition shortcut_transitions : list Transition :=
  [ mkTransition (-1) 1 0 2 false false 10;
    mkTransition 2 3 0 4 false false 0 ].

(** A and B make C. *)
Definition craft_transition : Transition := mkTransition 1 2 0 3 false false 0.
Definition craft_objects (b_natural : bool) : list Object :=
  [ mkObject 0 "Bare Hands" true false [];
    mkObject 1 "A" true false [];
    mkObject 2 "B" b_natural false [];
    mkObject 3 "C" false false [] ].

(** ** The claims on the propagation, as predicates *)


(** Running the propagation again from the nodes [ns] stops, whatever the
    pops, and gives [ns] back. *)
Definition rerun_changes_nothing (g : Graph) (ns : list GraphNode) : Prop :=
  sn (ws_step (propagate_visit g)) (ns, zero_nodes ns) ∧
  ∀ r, propagate_complexity (set_nodes g ns) r ↔ r = inr ns.


(** ** Well-formed graphs and the invariant of the propagation *)

(** The cost of the input edges of a transition. *)
Definition input_cost (tr : Transition) : Z :=
  match Transition_type tr with TransitionType.NATURAL => 0 | _ => 1 end.

(** The input edges of the node [t] of a transition: one edge per element
    of [inputs], of distinct indices. *)
Definition input_edges (g : Graph) (t : nat) (inputs : list Z) : Prop :=
  ∃ js, NoDup js ∧
    Forall2 (fun j a => ∃ e, _edges g !! j = Some e ∧ to_node e = t ∧
               obj_to_node g !! a = Some (from_node e))
            js inputs.

(** What [_create] guarantees on the graph.  While the edges of the
    transition of node [t] are being added, [during] is [Some (t, done)],
    [done] being the inputs whose edge is there. *)
Record created_upto (g : Graph) (during : option (nat * list Z)) : Prop :=
  mk_created {
  cr_bounds : ∀ j e, _edges g !! j = Some e →
    (from_node e < length (_nodes g))%nat ∧
    (to_node e < length (_nodes g))%nat;
  cr_into_transition : ∀ j e tr c, _edges g !! j = Some e →
    _nodes g !! to_node e = Some (NodeTransition tr c) →
    cost e = input_cost tr ∧
    ∃ a o c', a ∈ get_input_objects tr ∧
      obj_to_node g !! a = Some (from_node e) ∧
      _nodes g !! from_node e = Some (NodeObject o c');
  cr_from_transition : ∀ j e tr c, _edges g !! j = Some e →
    _nodes g !! from_node e = Some (NodeTransition tr c) →
    ∃ o c', _nodes g !! to_node e = Some (NodeObject o c');
  cr_inputs : ∀ t tr c, _nodes g !! t = Some (NodeTransition tr c) →
    input_edges g t
      (match during with
       | Some (t', done) =>
           if decide (t = t') then done else get_input_objects tr
       | None => get_input_objects tr
       end);
  cr_obj : ∀ a na, obj_to_node g !! a = Some na →
    ∃ o c, _nodes g !! na = Some (NodeObject o c) ∧ identifier o = a;
  cr_init_obj : ∀ i o c, _nodes g !! i = Some (NodeObject o c) →
    c = if is_natural o then 0 else DEFAULT_COMPLEXITY;
  cr_init_tr : ∀ i tr c, _nodes g !! i = Some (NodeTransition tr c) → c = -1
}.

(** What [_create] and the adjacency loop guarantee on the graph. *)
Definition wf_graph (g : Graph) : Prop :=
  created_upto g None ∧
  length (_out_edges g) = length (_nodes g) ∧
  ∀ u out j, _out_edges g !! u = Some out →
    (j ∈ out ↔ ∃ e, _edges g !! j = Some e ∧ from_node e = u).

(** The propagation has reached the node. *)
Definition reached (n : GraphNode) : Prop :=
  match n with
  | NodeObject _ c => c < DEFAULT_COMPLEXITY
  | NodeTransition _ c => c ≠ -1
  end.

Definition same_payload (n0 n : GraphNode) : Prop :=
  match n0, n with
  | NodeObject o _, NodeObject o' _ => o = o'
  | NodeTransition t _, NodeTransition t' _ => t = t'
  | _, _ => False
  end.

(** The iteration in progress: the node popped, its complexity when it
    was, and the out edges already through the body. *)
Definition progress : Type := option (nat * Z * list nat).

(** The edge [j], [e] has carried the complexity [c] of its source, an
    object node that is reached and that waits for no visit. *)
Definition delivered (ns : list GraphNode) (tv : gset nat) (cur : progress)
  (j : nat) (e : Edge) (c : Z) : Prop :=
  (∃ o, ns !! from_node e = Some (NodeObject o c)) ∧
  c < DEFAULT_COMPLEXITY ∧
  (from_node e ∉ tv) ∧
  ∀ d done, cur = Some (from_node e, d, done) → j ∈ done.

(** The target of [e] accounts for the complexity [c] of the source. *)
Definition target_ok (ns : list GraphNode) (e : Edge) (c : Z) : Prop :=
  c + cost e < DEFAULT_COMPLEXITY ∧
  ∀ nv, ns !! to_node e = Some nv →
    match nv with
    | NodeObject _ cv => cv ≤ c + cost e
    | NodeTransition _ cv => cv ≠ -1 ∧ c + cost e ≤ cv
    end.

Definition fired_closed (g : Graph) (ns : list GraphNode) (t : nat) (c : Z)
  : Prop :=
  ∀ j e, _edges g !! j = Some e → from_node e = t → target_ok ns e c.

(** At most one edge into [t] has delivered. *)
Definition pending (g : Graph) (ns : list GraphNode) (tv : gset nat)
  (cur : progress) (t : nat) : Prop :=
  ∀ j1 e1 c1 j2 e2 c2,
    _edges g !! j1 = Some e1 → _edges g !! j2 = Some e2 →
    to_node e1 = t → to_node e2 = t →
    delivered ns tv cur j1 e1 c1 → delivered ns tv cur j2 e2 c2 → j1 = j2.

Record prop_inv (g : Graph) (ns : list GraphNode) (tv : gset nat)
  (cur : progress) : Prop := mk_prop_inv {
  pi_kinds : Forall2 same_payload (_nodes g) ns;
  pi_obj_range : ∀ i o c, ns !! i = Some (NodeObject o c) →
    0 ≤ c ≤ DEFAULT_COMPLEXITY ∧ (is_natural o = true → c = 0);
  pi_tr_range : ∀ i tr c, ns !! i = Some (NodeTransition tr c) →
    c = -1 ∨ 0 ≤ c;
  pi_tv : ∀ i, i ∈ tv → ∃ n, ns !! i = Some n ∧ reached n;
  pi_cur : ∀ u d done, cur = Some (u, d, done) →
    (u ∉ tv) ∧ (∃ n, ns !! u = Some n ∧ complexity n = d ∧ reached n) ∧
    ∀ j, j ∈ done → ∃ e, _edges g !! j = Some e ∧ from_node e = u;
  pi_deliv : ∀ j e c, _edges g !! j = Some e →
    delivered ns tv cur j e c → target_ok ns e c;
  pi_fired : ∀ t tr c, ns !! t = Some (NodeTransition tr c) →
    c ≠ -1 → t ∉ tv → (∀ d done, cur ≠ Some (t, d, done)) →
    fired_closed g ns t c ∨
    (length (get_input_objects tr) ≠ 1%nat ∧ pending g ns tv cur t);
  pi_cur_tr : ∀ t d done tr c, cur = Some (t, d, done) →
    ns !! t = Some (NodeTransition tr c) →
    ∀ j e, j ∈ done → _edges g !! j = Some e → target_ok ns e c;
  pi_upper : ∀ t tr c, ns !! t = Some (NodeTransition tr c) → c ≠ -1 →
    ∃ j e o c0, _edges g !! j = Some e ∧ to_node e = t ∧
      _nodes g !! from_node e = Some (NodeObject o c0) ∧ c ≤ c0 + cost e
}.

(** ** Reachable and derivable nodes *)

Definition reachable_from_natural (g : Graph) (v : nat) : Prop :=
  ∃ u o c, _nodes g !! u = Some (NodeObject o c) ∧ is_natural o = true ∧
    reach g None u v.

(** The nodes one can derive from the natural objects: an object node
    from any derivable node with an edge to it, a transition node from all
    its input objects together. *)
Inductive derivable (g : Graph) : nat → Prop :=
| derivable_natural i o c :
    _nodes g !! i = Some (NodeObject o c) → is_natural o = true →
    derivable g i
| derivable_object j e o c :
    _edges g !! j = Some e → derivable g (from_node e) →
    _nodes g !! to_node e = Some (NodeObject o c) →
    derivable g (to_node e)
| derivable_transition1 t tr c a na :
    _nodes g !! t = Some (NodeTransition tr c) →
    get_input_objects tr = [a] →
    obj_to_node g !! a = Some na → derivable g na →
    derivable g t
| derivable_transition2 t tr c a b na nb :
    _nodes g !! t = Some (NodeTransition tr c) →
    get_input_objects tr = [a; b] →
    obj_to_node g !! a = Some na → derivable g na →
    obj_to_node g !! b = Some nb → derivable g nb →
    derivable g t.

(** The natural object nodes are at 0 and the object nodes that [R] holds
    reachable are at a complexity from 0, below the unreached value. *)
Definition settles (R : Graph → nat → Prop) (g : Graph)
  (ns : list GraphNode) : Prop :=
  (∀ i o c, ns !! i = Some (NodeObject o c) → is_natural o = true → c = 0) ∧
  (∀ i o c, ns !! i = Some (NodeObject o c) → R g i →
     0 ≤ c < DEFAULT_COMPLEXITY).

(** ** Running the propagation again *)

Definition is_object_at (ns : list GraphNode) (i : nat) : bool :=
  match ns !! i with Some (NodeObject _ _) => true | _ => false end.

(** Every transition node that is reached has all its input objects
    reached. *)
Definition inputs_reached (g : Graph) (ns : list GraphNode) : Prop :=
  ∀ t tr c a, ns !! t = Some (NodeTransition tr c) → c ≠ -1 →
    a ∈ get_input_objects tr →
    ∃ na o ca, obj_to_node g !! a = Some na ∧
      ns !! na = Some (NodeObject o ca) ∧ ca < DEFAULT_COMPLEXITY.

(** What decreases at each iteration of the second run. *)
Definition rerun_measure (ns : list GraphNode) (tv : gset nat) : nat :=
  ((length ns + 1) * size (filter (fun i => is_object_at ns i = true) tv)
   + size (filter (fun i => is_object_at ns i = false) tv))%nat.

(** ** What [__remove_loops] checks on an edge it marks *)

(** The check of the second loop passes for [from] and [to]: some run of
    the inner [while] finds [from] at a distance from [to] of at most the
    gap of the complexities. *)
Definition return_check (g : Graph) (sc : list Z) (from to : nat) : Prop :=
  ∃ distances df nf nt,
    ws_run (distances_visit g sc to)
           (<[to := 0]> (replicate (length (_nodes g)) (-1))) {[to]}
           (inr distances) ∧
    distances !! from = Some df ∧
    _nodes g !! from = Some nf ∧ _nodes g !! to = Some nt ∧
    df ≤ complexity nf - complexity nt.

(** The triple [(parent, child, edge_child)] is one the first loop finds:
    [edge_child] goes out of a node [i] to [child], [parent] comes into
    [i] over an edge of an action, all three in one component, and
    [child] is less complex than [parent]. *)
Definition loop_candidate (g : Graph) (sc : list Z)
  (parent child edge_child : nat) : Prop :=
  ∃ i inc k ep out ec np nc s,
    _incoming_edges g !! i = Some inc ∧ k ∈ inc ∧
    _edges g !! k = Some ep ∧ from_node ep = parent ∧
    action_category (category ep) = true ∧
    _out_edges g !! i = Some out ∧ edge_child ∈ out ∧
    _edges g !! edge_child = Some ec ∧ to_node ec = child ∧
    sc !! i = Some s ∧ sc !! parent = Some s ∧ sc !! child = Some s ∧
    _nodes g !! parent = Some np ∧ _nodes g !! child = Some nc ∧
    complexity nc < complexity np.

(** All that [__remove_loops] changes from [g] to [g']: flags. *)
Definition only_flags (g g' : Graph) (flagged : nat → Prop) : Prop :=
  _nodes g' = _nodes g ∧
  _incoming_edges g' = _incoming_edges g ∧
  _out_edges g' = _out_edges g ∧
  obj_to_node g' = obj_to_node g ∧
  length (_edges g') = length (_edges g) ∧
  ∀ j e, _edges g !! j = Some e →
    ∃ e', _edges g' !! j = Some e' ∧
      from_node e' = from_node e ∧ to_node e' = to_node e ∧
      category e' = category e ∧ transition e' = transition e ∧
      (looping e' = true → looping e = true ∨ flagged j).

(** ** The invariant of [__tarjan] *)

(** The adjacency lists agree with the edges, whose ends are nodes. *)
Definition adjacency (g : Graph) : Prop :=
  length (_out_edges g) = length (_nodes g) ∧
  (∀ u out j, _out_edges g !! u = Some out →
     (j ∈ out ↔ ∃ e, _edges g !! j = Some e ∧ from_node e = u)) ∧
  (∀ j e, _edges g !! j = Some e →
     (from_node e < length (_nodes g))%nat ∧
     (to_node e < length (_nodes g))%nat).

Definition succ (g : Graph) (u v : nat) : Prop :=
  ∃ j e, _edges g !! j = Some e ∧ from_node e = u ∧ to_node e = v.

(** [indexes[v]], [low_link[v]] and [scc[v]]. *)
Definition num (st : tarjan_state) (v : nat) : Z := indexes st !!! v.
Definition low (st : tarjan_state) (v : nat) : Z := low_link st !!! v.
Definition comp (st : tarjan_state) (v : nat) : Z := scc st !!! v.

Definition visited (g : Graph) (st : tarjan_state) (v : nat) : Prop :=
  (v < length (_nodes g))%nat ∧ num st v ≠ -1.

(** The state of the search, [gray] being the nodes whose call is in
    progress. *)
Record wf_env (g : Graph) (st : tarjan_state) (gray : list nat) : Prop :=
  mk_wf_env {
  we_len_indexes : length (indexes st) = length (_nodes g);
  we_len_low : length (low_link st) = length (_nodes g);
  we_len_on : length (on_stack st) = length (_nodes g);
  we_len_scc : length (scc st) = length (_nodes g);
  we_index_nonneg : 0 ≤ t_index st;
  we_scc_index_nonneg : 0 ≤ scc_index st;
  we_num_range : ∀ v, (v < length (_nodes g))%nat →
    num st v = -1 ∨ 0 ≤ num st v < t_index st;
  we_num_inj : ∀ u v, visited g st u → visited g st v →
    num st u = num st v → u = v;
  we_stack_nodup : NoDup (stack st);
  we_on_stack : ∀ v, (v < length (_nodes g))%nat →
    (on_stack st !!! v = true ↔ v ∈ stack st);
  we_stack_visited : ∀ v, v ∈ stack st → visited g st v;
  we_comp : ∀ v, (v < length (_nodes g))%nat →
    (comp st v ≠ -1 ↔ visited g st v ∧ v ∉ stack st);
  we_comp_range : ∀ v, (v < length (_nodes g))%nat →
    comp st v = -1 ∨ 0 ≤ comp st v < scc_index st;
  we_gray : ∀ z, z ∈ gray → z ∈ stack st;
  we_sorted : ∀ s1 a s2, stack st = s1 ++ a :: s2 →
    ∀ b, b ∈ s2 → num st b < num st a;
  we_no_black_white : ∀ u v, visited g st u → u ∉ gray → succ g u v →
    visited g st v;
  we_stack_reach : ∀ x y, x ∈ stack st → y ∈ stack st →
    num st x ≤ num st y → reach g None x y;
  we_stack_gray : ∀ y, y ∈ stack st →
    ∃ z, z ∈ gray ∧ num st z ≤ num st y ∧ reach g None y z;
  we_done_closed : ∀ u v, (u < length (_nodes g))%nat →
    comp st u ≠ -1 → succ g u v → comp st v ≠ -1;
  we_scc : ∀ v w, (v < length (_nodes g))%nat →
    (w < length (_nodes g))%nat → comp st v ≠ -1 →
    (comp st w = comp st v ↔ reach g None v w ∧ reach g None w v)
}.

(** From the state [st] to a later state [st']: the stack grows by nodes
    that were not visited, and the visited nodes keep their index. *)
Definition sub_env (g : Graph) (st st' : tarjan_state) : Prop :=
  (∃ s, stack st' = s ++ stack st ∧ ∀ v, v ∈ s → ¬ visited g st v) ∧
  (∀ v, visited g st v → num st' v = num st v) ∧
  t_index st ≤ t_index st' ∧
  (∀ v, visited g st' v → ¬ visited g st v → t_index st ≤ num st' v).

(** The nodes visited in [st] keep their low link. *)
Definition low_frame (g : Graph) (st st' : tarjan_state) : Prop :=
  ∀ v, visited g st v → low st' v = low st v.

(** What a call of [__strongconnect] on [x] from the state [st]
    guarantees of the state [st'] it returns. *)
Definition strongconnect_post (g : Graph) (gray : list nat) (x : nat)
  (st st' : tarjan_state) : Prop :=
  wf_env g st' gray ∧ sub_env g st st' ∧ low_frame g st st' ∧
  visited g st' x ∧
  low st' x ≤ num st' x ∧
  (x ∈ stack st' →
   ∃ y, y ∈ stack st' ∧ num st' y = low st' x ∧ reach g None x y) ∧
  (x ∉ stack st' → low st' x = num st' x) ∧
  (∀ s w y, stack st' = s ++ stack st → w ∈ s → succ g w y →
     y ∈ stack st → low st' x ≤ num st' y).

(** The state when the node [x] has got its index. *)
Definition entered (x : nat) (st : tarjan_state) : tarjan_state :=
  mkTarjan (t_index st + 1) (<[x := t_index st]> (indexes st))
           (<[x := t_index st]> (low_link st)) (<[x := true]> (on_stack st))
           (x :: stack st) (scc st) (scc_index st).

(** The invariant of the [for] of the call on [x] from the state [st_e],
    [done] being the out edges already seen. *)
Definition strongconnect_inv (g : Graph) (gray : list nat) (x : nat)
  (st_e : tarjan_state) (done : list nat) (st : tarjan_state) : Prop :=
  wf_env g st (x :: gray) ∧ sub_env g (entered x st_e) st ∧
  low_frame g st_e st ∧
  (∀ j e, j ∈ done → _edges g !! j = Some e → visited g st (to_node e)) ∧
  low st x ≤ num st x ∧
  (∃ y, y ∈ stack st ∧ num st y = low st x ∧ reach g None x y) ∧
  (∀ s w y, stack st = s ++ x :: stack st_e → w ∈ s → succ g w y →
     y ∈ x :: stack st_e → low st x ≤ num st y) ∧
  (∀ j e, j ∈ done → _edges g !! j = Some e → to_node e ∈ stack st →
     low st x ≤ num st (to_node e)).

(** The nodes not visited yet. *)
Definition white_count (g : Graph) (st : tarjan_state) : nat :=
  length (filter (fun v => num st v = -1) (seq 0 (length (_nodes g)))).

(** What the loop over the out edges assumes of the recursive call: from
    a state with at most [d] nodes not visited, on a node not visited that
    the nodes of [gray] reach, it returns and [strongconnect_post] holds. *)
Definition call_spec (g : Graph)
  (recurse : nat → tarjan_state → result tarjan_state) (d : nat) : Prop :=
  ∀ gray x st,
    wf_env g st gray → (x < length (_nodes g))%nat → num st x = -1 →
    (∀ z, z ∈ gray → reach g None z x) →
    (white_count g st ≤ d)%nat →
    ∃ st', recurse x st = inr st' ∧ strongconnect_post g gray x st st'.

(** The graph of the cycle of A and B as [_create] and the adjacency loop
    leave it, before the propagation. *)
Definition cycle_built : Graph :=
  mkGraph
    [NodeObject (mkObject 1 "A" true false []) 0;
     NodeObject (mkObject 2 "B" false false []) DEFAULT_COMPLEXITY;
     NodeTransition_init (mkTransition 1 0 2 0 false false 0);
     NodeTransition_init (mkTransition 2 0 1 0 false false 0)]
    [mkEdge 2 1 EdgeType.TRANSITION None false;
     mkEdge 0 2 EdgeType.CONSUME
            (Some (mkTransition 1 0 2 0 false false 0)) false;
     mkEdge 3 0 EdgeType.TRANSITION None false;
     mkEdge 1 3 EdgeType.CONSUME
            (Some (mkTransition 2 0 1 0 false false 0)) false]
    [[2%nat]; [0%nat]; [1%nat]; [3%nat]]
    [[1%nat]; [3%nat]; [0%nat]; [2%nat]]
    {[1 := 0%nat; 2 := 1%nat]}.

(** ** The graphs of the scenarios, and what the proofs keep track of *)

(** The stone graph, decorated. *)
Definition stone_graph : Graph :=
  mkGraph
    [NodeObject (mkObject 1 "Stone" true false []) 0;
     NodeObject (mkObject 2 "Stone Block" false false []) 1;
     NodeTransition stone_transition 1]
    [mkEdge 2 1 EdgeType.TRANSITION None false;
     mkEdge 0 2 EdgeType.BARE_HANDS (Some stone_transition) false]
    [[]; [0%nat]; [1%nat]] [[1%nat]; []; [0%nat]]
    {[1 := 0%nat; 2 := 1%nat]}.

Definition orphan_graph : Graph :=
  mkGraph
    [NodeObject (mkObject 1 "Stone" true false []) 0;
     NodeObject (mkObject 2 "Orphan" false false []) DEFAULT_COMPLEXITY]
    [] [[]; []] [[]; []] {[1 := 0%nat; 2 := 1%nat]}.

Definition flint_graph : Graph :=
  mkGraph
    [NodeObject (mkObject 1 "Flint" true false []) 0;
     NodeObject (mkObject 2 "Stone" true false []) 0;
     NodeObject (mkObject 3 "Chips" false false []) 1;
     NodeObject (mkObject 4 "Blade" false false []) 2;
     NodeTransition (mkTransition 0 1 2 3 false false 0) 1;
     NodeTransition (mkTransition 2 3 0 4 false false 0) 2]
    [mkEdge 4 1 EdgeType.TRANSITION None false;
     mkEdge 4 2 EdgeType.TRANSITION None false;
     mkEdge 0 4 EdgeType.BARE_HANDS
            (Some (mkTransition 0 1 2 3 false false 0)) false;
     mkEdge 5 3 EdgeType.TRANSITION None false;
     mkEdge 1 5 EdgeType.CONSUME
            (Some (mkTransition 2 3 0 4 false false 0)) false;
     mkEdge 2 5 EdgeType.CONSUME
            (Some (mkTransition 2 3 0 4 false false 0)) false]
    [[]; [0%nat]; [1%nat]; [3%nat]; [2%nat]; [4%nat; 5%nat]]
    [[2%nat]; [4%nat]; [5%nat]; []; [0%nat; 1%nat]; [3%nat]]
    {[1 := 0%nat; 2 := 1%nat; 3 := 2%nat; 4 := 3%nat]}.

Definition cycle_graph : Graph :=
  mkGraph
    [NodeObject (mkObject 1 "A" true false []) 0;
     NodeObject (mkObject 2 "B" false false []) 1;
     NodeTransition (mkTransition 1 0 2 0 false false 0) 1;
     NodeTransition (mkTransition 2 0 1 0 false false 0) 2]
    [mkEdge 2 1 EdgeType.TRANSITION None false;
     mkEdge 0 2 EdgeType.CONSUME
            (Some (mkTransition 1 0 2 0 false false 0)) false;
     mkEdge 3 0 EdgeType.TRANSITION None true;
     mkEdge 1 3 EdgeType.CONSUME
            (Some (mkTransition 2 0 1 0 false false 0)) false]
    [[2%nat]; [0%nat]; [1%nat]; [3%nat]]
    [[1%nat]; [3%nat]; [0%nat]; [2%nat]]
    {[1 := 0%nat; 2 := 1%nat]}.

Definition shortcut_graph : Graph :=
  mkGraph
    [NodeObject (mkObject 1 "N" true false []) 0;
     NodeObject (mkObject 2 "@q" false true [1]) 0;
     NodeObject (mkObject 3 "@p" false true [4]) 3;
     NodeObject (mkObject 4 "c" false false []) 2;
     NodeTransition (mkTransition (-1) 1 0 2 false false 10) 0;
     NodeTransition (mkTransition 2 3 0 4 false false 0) 4]
    [mkEdge 0 1 EdgeType.CATEGORY None false;
     mkEdge 3 2 EdgeType.CATEGORY None false;
     mkEdge 4 1 EdgeType.TRANSITION None false;
     mkEdge 0 4 EdgeType.NATURAL
            (Some (mkTransition (-1) 1 0 2 false false 10)) false;
     mkEdge 5 3 EdgeType.TRANSITION None true;
     mkEdge 1 5 EdgeType.CONSUME
            (Some (mkTransition 2 3 0 4 false false 0)) false;
     mkEdge 2 5 EdgeType.CONSUME
            (Some (mkTransition 2 3 0 4 false false 0)) false]
    [[]; [0%nat; 2%nat]; [1%nat]; [4%nat]; [3%nat]; [5%nat; 6%nat]]
    [[0%nat; 3%nat]; [5%nat]; [6%nat]; [1%nat]; [2%nat]; [4%nat]]
    {[1 := 0%nat; 2 := 1%nat; 3 := 2%nat; 4 := 3%nat]}.

(** The graph after the first loop. *)
Definition nodes_only (g : Graph) : Prop :=
  _edges g = [] ∧
  (∀ i n, _nodes g !! i = Some n →
     ∃ o, n = NodeObject o (if is_natural o then 0 else DEFAULT_COMPLEXITY)) ∧
  (∀ a na, obj_to_node g !! a = Some na →
     ∃ o c, _nodes g !! na = Some (NodeObject o c) ∧ identifier o = a).

(** What the body of the [for] does to the state, [u] being the node in
    progress, of complexity [d]. *)
Record edge_effect (ns : list GraphNode) (tv : gset nat) (u : nat) (d : Z)
  (e : Edge) (ns' : list GraphNode) (tv' : gset nat) (n n' : GraphNode)
  : Prop := mk_edge_effect {
  ee_old : ns !! to_node e = Some n;
  ee_new : ns' = <[to_node e := n']> ns;
  ee_tv_incl : ∀ i, i ∈ tv → i ∈ tv';
  ee_tv_new : ∀ i, i ∈ tv' → i ∈ tv ∨ i = to_node e;
  ee_reached : to_node e ∈ tv' → reached n';
  ee_bound : d + cost e < DEFAULT_COMPLEXITY;
  ee_self : to_node e = u → n' = n ∧ tv' = tv;
  ee_change :
    match n, n' with
    | NodeObject o cv, NodeObject o' cv' =>
        o' = o ∧ 0 ≤ cv' ∧ cv' ≤ cv ∧ cv' ≤ d + cost e ∧
        (to_node e ∉ tv' → cv' = cv)
    | NodeTransition tr cv, NodeTransition tr' cv' =>
        tr' = tr ∧ cv' ≠ -1 ∧ d + cost e ≤ cv' ∧ (cv ≠ -1 → cv ≤ cv') ∧
        (to_node e ∉ tv' →
         cv = -1 ∧ length (get_input_objects tr) ≠ 1%nat) ∧
        (cv' = d + cost e ∨ cv' = cv)
    | _, _ => False
    end
}.

(** The work-set holds reached nodes. *)
Definition rerun_inv (ns : list GraphNode) (tv : gset nat) : Prop :=
  ∀ i, i ∈ tv → ∃ n, ns !! i = Some n ∧ reached n.

Definition craft_built : Graph :=
  mkGraph
    [NodeObject (mkObject 1 "A" true false []) 0;
     NodeObject (mkObject 2 "B" true false []) 0;
     NodeObject (mkObject 3 "C" false false []) DEFAULT_COMPLEXITY;
     NodeTransition_init craft_transition]
    [mkEdge 3 2 EdgeType.TRANSITION None false;
     mkEdge 0 3 EdgeType.CONSUME (Some craft_transition) false;
     mkEdge 1 3 EdgeType.CONSUME (Some craft_transition) false]
    [[]; []; [0%nat]; [1%nat; 2%nat]]
    [[1%nat]; [2%nat]; []; [0%nat]]
    {[1 := 0%nat; 2 := 1%nat; 3 := 2%nat]}.

Definition craft_settled : list GraphNode :=
  [NodeObject (mkObject 1 "A" true false []) 0;
   NodeObject (mkObject 2 "B" true false []) 0;
   NodeObject (mkObject 3 "C" false false []) 1;
   NodeTransition craft_transition 1].

(** The cycle graph before [__remove_loops]. *)
Definition cycle_settled : Graph :=
  set_edges cycle_graph
    [mkEdge 2 1 EdgeType.TRANSITION None false;
     mkEdge 0 2 EdgeType.CONSUME
            (Some (mkTransition 1 0 2 0 false false 0)) false;
     mkEdge 3 0 EdgeType.TRANSITION None false;
     mkEdge 1 3 EdgeType.CONSUME
            (Some (mkTransition 2 0 1 0 false false 0)) false].

(** ** What the graph holds once built *)

(** The node [NodeObject(obj)] starts as. *)
Definition object_node (obj : Object) : GraphNode :=
  NodeObject obj (if is_natural obj then 0 else DEFAULT_COMPLEXITY).

(** The objects that get a node: [if obj.identifier > 0]. *)
Definition with_node (objects : list Object) : list Object :=
  filter (fun o => 0 < identifier o) objects.

(** [a] is the identifier of an object that gets a node. *)
Definition known (objects : list Object) (a : Z) : Prop :=
  ∃ o, o ∈ objects ∧ identifier o = a ∧ 0 < a.

(** The category of the edge from the input [a] into the node of [tr]:
    [_transition_type_to_edge_type], and [TOOL] for an input of a craft
    that is an output too. *)
Definition input_category (tr : Transition) (a : Z) : EdgeType.t :=
  match Transition_type tr with
  | TransitionType.NATURAL => EdgeType.NATURAL
  | TransitionType.BARE_HANDS => EdgeType.BARE_HANDS
  | TransitionType.INTERACT => EdgeType.INTERACT
  | TransitionType.DROP => EdgeType.DROP
  | TransitionType.CRAFT =>
      if bool_decide (a ∈ get_output_objects tr) then EdgeType.TOOL
      else EdgeType.CONSUME
  end.

Definition is_object (g : Graph) (i : nat) (o : Object) : Prop :=
  ∃ c, _nodes g !! i = Some (NodeObject o c).

Definition is_transition (g : Graph) (i : nat) (tr : Transition) : Prop :=
  ∃ c, _nodes g !! i = Some (NodeTransition tr c).

(** The three kinds of edges [_create] adds. *)
Definition edge_kind (g : Graph) (e : Edge) : Prop :=
  match category e with
  | EdgeType.CATEGORY =>
      transition e = None ∧
      ∃ o o', is_object g (from_node e) o ∧ is_object g (to_node e) o'
  | EdgeType.TRANSITION =>
      transition e = None ∧
      ∃ tr o, is_transition g (from_node e) tr ∧ is_object g (to_node e) o ∧
        identifier o ∈ get_output_objects tr ∧
        (identifier o ∉ get_input_objects tr)
  | EdgeType.OTHER => False
  | k =>
      ∃ tr o, transition e = Some tr ∧
        is_object g (from_node e) o ∧ is_transition g (to_node e) tr ∧
        identifier o ∈ get_input_objects tr ∧
        k = input_category tr (identifier o)
  end.

(** The indices of the edges that leave [u], and of those that enter it,
    in increasing order. *)
Definition edges_from (g : Graph) (u : nat) : list nat :=
  filter (fun j => from_node <$> _edges g !! j = Some u)
         (seq 0 (length (_edges g))).

Definition edges_to (g : Graph) (u : nat) : list nat :=
  filter (fun j => to_node <$> _edges g !! j = Some u)
         (seq 0 (length (_edges g))).

(** Two edges that differ by the looping flag at most. *)
Definition same_edge (e e' : Edge) : Prop :=
  from_node e' = from_node e ∧ to_node e' = to_node e ∧
  category e' = category e ∧ transition e' = transition e.

(** The adjacency lists are those of the edges, and the ends of the
    edges are nodes. *)
Definition linked (g : Graph) : Prop :=
  _out_edges g = edges_from g <$> seq 0 (length (_nodes g)) ∧
  _incoming_edges g = edges_to g <$> seq 0 (length (_nodes g)) ∧
  ∀ j e, _edges g !! j = Some e →
    (from_node e < length (_nodes g))%nat ∧
    (to_node e < length (_nodes g))%nat.

(** [p] is a parent of [node] in the whole graph that neither the
    ignored edges nor the ignored nodes hide: what [_get_all_parents]
    yields. *)
Definition shown_parent (sg : SubGraph) (node p : nat) : Prop :=
  ∃ inc j e, _incoming_edges (graph sg) !! node = Some inc ∧ j ∈ inc ∧
    _edges (graph sg) !! j = Some e ∧ from_node e = p ∧
    (j ∉ ignored_edges sg) ∧ (p ∉ ignored_nodes sg).

(** [graphviz(graph, object_)] of [print_object_graphviz.py]: the lines of
    the sub-graph leading to the object. *)
Definition graphviz (g : Graph) (object_ : Z)
  (r : result (list nat * list nat)) : Prop :=
  ∃ rs, leading_to_obj (SubGraph_init g) object_ rs ∧
    r = (subgraph ← rs; SubGraph_to_graphviz subgraph).

(** [v] is [start] or a parent of a parent ... of [start], as
    [_get_parents] gives them. *)
Inductive leads_to (sg : SubGraph) (start : nat) : nat → Prop :=
| leads_to_refl : leads_to sg start start
| leads_to_parent v ps p :
    leads_to sg start v → _get_parents sg v = inr ps → p ∈ ps →
    leads_to sg start p.

(** The component ids follow the edges downwards: the head of an edge
    whose tail has its id has an id that is not greater. *)
Definition comp_sorted (g : Graph) (sc : list Z) : Prop :=
  ∀ j e, _edges g !! j = Some e → sc !!! from_node e ≠ -1 →
         sc !!! to_node e ≤ sc !!! from_node e.

(** What the loop over the out edges assumes of the recursive call, for
    the order of the component ids. *)
Definition sorted_spec (g : Graph)
  (recurse : nat → tarjan_state → result tarjan_state) (d : nat) : Prop :=
  ∀ gray x st st',
    wf_env g st gray → (x < length (_nodes g))%nat → num st x = -1 →
    (∀ z, z ∈ gray → reach g None z x) →
    (white_count g st ≤ d)%nat →
    recurse x st = inr st' →
    comp_sorted g (scc st) → comp_sorted g (scc st').

(** The object nodes the propagation has reached, and their number. *)
Definition reached_object (n : GraphNode) : bool :=
  match n with
  | NodeObject _ c => c <? DEFAULT_COMPLEXITY
  | NodeTransition _ _ => false
  end.

Definition reached_objects (ns : list GraphNode) : nat :=
  length (filter (fun n => reached_object n = true) ns).

(** No complexity is beyond the number of object nodes reached: a reached
    object node is below it, a transition node at it at most. *)
Definition bounded (ns : list GraphNode) : Prop :=
  ∀ i n, ns !! i = Some n →
    match n with
    | NodeObject _ c =>
        c < DEFAULT_COMPLEXITY → c + 1 ≤ Z.of_nat (reached_objects ns)
    | NodeTransition _ c => c ≤ Z.of_nat (reached_objects ns)
    end.

(** What the iterations of the propagation consume: the complexities of the
    object nodes, then the object nodes waiting in the work set, then the
    transition nodes waiting in it. *)
Definition weight (n : GraphNode) : nat :=
  match n with
  | NodeObject _ c => Z.to_nat c
  | NodeTransition _ _ => 0%nat
  end.

Definition total_weight (ns : list GraphNode) : nat :=
  sum_list (weight <$> ns).

Definition waiting (g : Graph) (b : bool) (tv : gset nat) : nat :=
  size (filter (fun i => is_object_at (_nodes g) i = b) tv).

(** The triples of the first loop of [__remove_loops] name nodes and an
    edge of the graph. *)
Definition candidates_ok (g : Graph) (acc : list (nat * nat * nat)) : Prop :=
  ∀ p c j, (p, c, j) ∈ acc →
    (p < length (_nodes g))%nat ∧ (c < length (_nodes g))%nat ∧
    (j < length (_edges g))%nat.

(** The state of the inner [while] of [__remove_loops]: a distance for
    every node, set for the nodes of the work set. *)
Definition distances_ok (g : Graph) (ds : list Z) (tv : gset nat) : Prop :=
  length ds = length (_nodes g) ∧
  ∀ i, i ∈ tv → ∃ d, ds !! i = Some d ∧ 0 ≤ d.

(** What the iterations of that [while] consume: the nodes without a
    distance, then the distances, then the work set. *)
Definition unset (ds : list Z) : nat :=
  sum_list ((fun d => if d =? -1 then 1%nat else 0%nat) <$> ds).

Definition dsum (ds : list Z) : nat := sum_list (Z.to_nat <$> ds).

(** A walk from [to] along edges into nodes of the component of [to],
    with its cost: what the inner [while] of [__remove_loops] follows. *)
Definition in_comp (sc : list Z) (to v : nat) : Prop :=
  ∃ s, sc !! v = Some s ∧ sc !! to = Some s.

Inductive walk (g : Graph) (sc : list Z) (to : nat) : nat → Z → Prop :=
| walk_start : walk g sc to to 0
| walk_step u j e d :
    walk g sc to u d → _edges g !! j = Some e → from_node e = u →
    in_comp sc to (to_node e) →
    walk g sc to (to_node e) (d + cost e).

(** The edge [j] cannot lower the distance of its target. *)
Definition relaxed (g : Graph) (sc : list Z) (to : nat) (ds : list Z)
  (j : nat) : Prop :=
  ∀ e du, _edges g !! j = Some e → ds !! from_node e = Some du →
    du ≠ -1 → in_comp sc to (to_node e) →
    ∃ dv, ds !! to_node e = Some dv ∧ dv ≠ -1 ∧ dv ≤ du + cost e.

(** What the inner [while] keeps between two iterations. *)
Record dist_inv (g : Graph) (sc : list Z) (to : nat) (ds : list Z)
  (tv : gset nat) : Prop := mk_dist_inv {
  di_len : length ds = length (_nodes g);
  di_to : ds !! to = Some 0;
  di_walk : ∀ v d, ds !! v = Some d → d ≠ -1 → walk g sc to v d;
  di_tv : ∀ i, i ∈ tv → ∃ d, ds !! i = Some d ∧ d ≠ -1;
  di_relaxed : ∀ j e, _edges g !! j = Some e → from_node e ∉ tv →
    relaxed g sc to ds j
}.

(** * Theorems *)

(** ** Work-set loops *)

Section WorkSetFacts.
Context {S : Type}.
Variable body : nat → S → gset nat → result (S * gset nat).

Lemma ws_sched_run sched s tv r :
  ws_sched body sched s tv = Some r → ws_run body s tv r.
Proof.
  revert s tv. induction sched as [|c sched IH]; intros s tv; simpl.
  - case_decide; [|done]. intros [= <-]. subst tv. constructor.
  - case_decide; [|done].
    destruct (body c s (tv ∖ {[c]})) as [e|[s' tv']] eqn:Hb.
    + intros [= <-]. by eapply ws_raise.
    + intros Hr. eapply ws_pop; eauto.
Qed.

Lemma ws_all_run fuel s tv r :
  ws_run body s tv r →
  Some r ∈ ws_all body fuel s tv ∨ None ∈ ws_all body fuel s tv.
Proof.
  intros Hrun. revert fuel.
  induction Hrun as [s|s tv c s' tv' r Hc Hb Hrun IH|s tv c e Hc Hb];
    intros [|fuel]; simpl; try (right; apply list_elem_of_here).
  - left. rewrite decide_True by done. set_solver.
  - rewrite decide_False by set_solver.
    destruct (IH fuel) as [H|H]; [left|right];
      apply list_elem_of_In, in_flat_map; exists c;
      (split; [by apply list_elem_of_In, elem_of_elements|]);
      rewrite Hb; by apply list_elem_of_In.
  - rewrite decide_False by set_solver. left.
    apply list_elem_of_In, in_flat_map. exists c.
    split; [by apply list_elem_of_In, elem_of_elements|].
    rewrite Hb. left. done.
Qed.

Lemma ws_all_sound fuel s tv r :
  Some r ∈ ws_all body fuel s tv → ws_run body s tv r.
Proof.
  revert s tv. induction fuel as [|fuel IH]; intros s tv; simpl.
  - intros H. apply list_elem_of_singleton in H. discriminate.
  - case_decide as Htv.
    + intros H. apply list_elem_of_singleton in H. injection H as ->.
      subst tv. constructor.
    + intros H. apply list_elem_of_In, in_flat_map in H as (c & Hc & H).
      apply list_elem_of_In, elem_of_elements in Hc.
      destruct (body c s (tv ∖ {[c]})) as [e|[s' tv']] eqn:Hb.
      * destruct H as [[= <-]|[]]. by eapply ws_raise.
      * eapply ws_pop; eauto. by apply IH, list_elem_of_In.
Qed.

Lemma ws_all_nonempty fuel s tv : ws_all body fuel s tv ≠ [].
Proof.
  revert s tv. induction fuel as [|fuel IH]; intros s tv; simpl; [done|].
  case_decide as Htv; [done|].
  destruct (elements tv) as [|c l] eqn:Hel.
  - apply elements_empty_inv in Hel. by apply leibniz_equiv in Hel.
  - simpl. destruct (body c s (tv ∖ {[c]})) as [e|[s' tv']]; [done|].
    intros H. apply app_eq_nil in H as [H _]. by apply IH in H.
Qed.

(** When every execution explored gives [r0], so does every run, and
    there is one. *)
Lemma ws_all_unique fuel s tv r0 r :
  Forall (fun x => x = Some r0) (ws_all body fuel s tv) →
  ws_run body s tv r → r = r0.
Proof.
  intros Hall Hrun. rewrite Forall_forall in Hall.
  destruct (ws_all_run fuel _ _ _ Hrun) as [H|H];
    apply Hall in H; congruence.
Qed.

Lemma ws_all_exists fuel s tv r0 :
  Forall (fun x => x = Some r0) (ws_all body fuel s tv) →
  ws_run body s tv r0.
Proof.
  intros Hall. pose proof (ws_all_nonempty fuel s tv) as Hne.
  destruct (ws_all body fuel s tv) as [|x l] eqn:Heq; [done|].
  apply (ws_all_sound fuel). rewrite Heq.
  apply Forall_cons in Hall as [-> _]. left.
Qed.
End WorkSetFacts.

Ltac all_runs fuel :=
  eapply (ws_all_unique _ fuel); [|eassumption];
  vm_compute;
  repeat (apply List.Forall_cons; [reflexivity|]); apply List.Forall_nil.

Lemma stone_built :
  built stone_objects [stone_transition]
  = inr (mkGraph
           [NodeObject (mkObject 1 "Stone" true false []) 0;
            NodeObject (mkObject 2 "Stone Block" false false [])
                       DEFAULT_COMPLEXITY;
            NodeTransition_init stone_transition]
           [mkEdge 2 1 EdgeType.TRANSITION None false;
            mkEdge 0 2 EdgeType.BARE_HANDS (Some stone_transition) false]
           [[]; [0%nat]; [1%nat]] [[1%nat]; []; [0%nat]]
           {[1 := 0%nat; 2 := 1%nat]}).
Proof. vm_compute. reflexivity. Qed.

Lemma stone_runs g r :
  built stone_objects [stone_transition] = inr g →
  propagate_complexity g r →
  r = inr [NodeObject (mkObject 1 "Stone" true false []) 0;
           NodeObject (mkObject 2 "Stone Block" false false []) 1;
           NodeTransition stone_transition 1].
Proof.
  rewrite stone_built. intros [= <-] Hr. unfold propagate_complexity in Hr.
  all_runs 5%nat.
Qed.

(** C2 (as stated): in the stone scenario the transition node would settle
    at complexity 0.  It does not: it settles at 1. *)
Lemma C2_transition_complexity_is_not_0 : ¬ stone_scenario 0.
Proof.
  intros (g & Hg & stone & block & t & e_in & e_out & _ & _ & Ht & _ & _ & _
          & _ & [r Hr] & Hall).
  destruct (Hall r Hr) as (ns & -> & _ & Hc & _).
  pose proof (stone_runs g _ Hg Hr) as [= ->].
  rewrite stone_built in Hg. injection Hg as <-.
  destruct t as [|[|[|t]]]; try discriminate Ht. discriminate Hc.
Qed.

(** C2 (amended): the stone scenario yields complexity 0 for Stone, 1 for
    the transition node and 1 for Stone Block; the edge from Stone to the
    transition node is BARE_HANDS of cost 1 and the edge from the
    transition node to Stone Block is TRANSITION of cost 0. *)
Theorem C2_stone_scenario : stone_scenario 1.
Proof.
  eexists. split; [apply stone_built|].
  exists 0%nat, 1%nat, 2%nat, 1%nat, 0%nat.
  repeat split; try reflexivity.
  - eexists. apply (ws_sched_run _ [0; 2; 1]%nat). vm_compute. reflexivity.
  - intros r Hr. eexists. split; [eapply stone_runs; [apply stone_built|done]|].
    repeat split.
Qed.

(** ** The error monad and the loops *)

Lemma bind_inr {A B} (m : result A) (f : A → result B) b :
  (m ≫= f) = inr b ↔ ∃ a, m = inr a ∧ f a = inr b.
Proof.
  destruct m as [e|a]; simpl; split.
  - discriminate.
  - intros (a & [=] & _).
  - eauto.
  - by intros (a' & [= <-] & H).
Qed.

Lemma index_inr {A} (l : list A) i a : index l i = inr a ↔ l !! i = Some a.
Proof. unfold index. destruct (l !! i); split; (congruence || by intros [= ->]). Qed.

Lemma setitem_inr {A} (l : list A) i x l' :
  setitem l i x = inr l' ↔ (i < length l)%nat ∧ l' = <[i := x]> l.
Proof.
  unfold setitem. case_decide; split.
  - by intros [= <-].
  - by intros [_ ->].
  - discriminate.
  - by intros [? _].
Qed.

Lemma assert_inr b u : assert b = inr u ↔ b = true.
Proof. destruct b, u; simpl; split; (done || discriminate). Qed.

(** Destructs the binds of a hypothesis [H : ... = inr _]. *)
Ltac inv_bind H :=
  repeat match type of H with
  | (_ ≫= _) = inr _ =>
      let a := fresh "a" in let Ha := fresh "Ha" in
      apply bind_inr in H as (a & Ha & H)
  end.

Ltac inv_bind1 H :=
  let a := fresh "a" in let Ha := fresh "Ha" in
  apply bind_inr in H as (a & Ha & H).

Tactic Notation "inv_bind" hyp(H) "as" ident(a) ident(Ha) :=
  apply bind_inr in H as (a & Ha & H).

Lemma for_each_app {A S} (l1 l2 : list A) (body : A → S → result S) s :
  for_each (l1 ++ l2) body s = (s' ← for_each l1 body s; for_each l2 body s').
Proof.
  revert s. induction l1 as [|x l1 IH]; intros s; simpl; [done|].
  destruct (body x s); simpl; [done|]. apply IH.
Qed.

(** The invariant rule of a [for] loop: [P done s] holds once the elements
    [done] have been through the body. *)
Lemma for_each_inv {A S} (P : list A → S → Prop) (l : list A)
      (body : A → S → result S) s r :
  P [] s →
  (∀ done x rest s s', l = done ++ x :: rest → P done s →
     body x s = inr s' → P (done ++ [x]) s') →
  for_each l body s = inr r → P l r.
Proof.
  intros H0 Hstep.
  assert (Hgen : ∀ rest done s, l = done ++ rest → P done s →
            for_each rest body s = inr r → P l r).
  { induction rest as [|x rest IH]; intros done s0 Hl HP; simpl.
    - intros [= <-]. rewrite app_nil_r in Hl. by subst.
    - intros Hb. apply bind_inr in Hb as (s' & Hx & Hb).
      apply (IH (done ++ [x]) s'); [by rewrite <- app_assoc|eauto|done]. }
  intros Hr. by apply (Hgen l [] s).
Qed.

Lemma for_each_ext {A S} (l : list A) (body1 body2 : A → S → result S) s r :
  (∀ x s s', x ∈ l → body1 x s = inr s' → body2 x s = inr s') →
  for_each l body1 s = inr r → for_each l body2 s = inr r.
Proof.
  revert s. induction l as [|x l IH]; intros s Hb; simpl; [done|].
  intros H. apply bind_inr in H as (s' & Hx & H).
  apply bind_inr. exists s'. split.
  - apply Hb; [left|done].
  - apply IH; [|done]. intros ? ? ? ?. apply Hb. by right.
Qed.

(** ** The recursion depth of [__tarjan] *)

(** More depth changes nothing once the depth is enough. *)
Lemma strongconnect_mono g depth depth' node st st' :
  (depth ≤ depth')%nat →
  strongconnect g depth node st = inr st' →
  strongconnect g depth' node st = inr st'.
Proof.
  revert depth' node st st'.
  induction depth as [|depth IH]; intros depth' node st st' Hle; [done|].
  destruct depth' as [|depth']; [lia|]. simpl. intros H.
  inv_bind H as st0 Hst0. inv_bind H as out Hout. inv_bind H as st1 Hst1.
  do 2 (apply bind_inr; eexists; split; [eassumption|]).
  apply bind_inr. eexists. split; [|exact H].
  eapply for_each_ext; [|eassumption].
  intros edge_n s s' _ Hbody. unfold strongconnect_edge in *.
  inv_bind Hbody as e He. inv_bind Hbody as io Hio.
  do 2 (apply bind_inr; eexists; split; [eassumption|]).
  destruct (_ =? -1); [|done].
  inv_bind Hbody as s1 Hs1.
  apply bind_inr. eexists. split; [apply IH; [lia|eassumption]|done].
Qed.

Lemma tarjan_mono g depth depth' sc :
  (depth ≤ depth')%nat → tarjan g depth = inr sc → tarjan g depth' = inr sc.
Proof.
  intros Hle H. unfold tarjan in *. inv_bind1 H.
  apply bind_inr. eexists. split; [|exact H].
  eapply for_each_ext; [|eassumption].
  intros node s s' _ Hbody. simpl in *. inv_bind1 Hbody.
  apply bind_inr. eexists. split; [eassumption|].
  destruct (_ =? -1); [|done]. by eapply strongconnect_mono.
Qed.

(** ** Building concrete graphs *)

Lemma ws_all_iff {S} (body : nat → S → gset nat → result (S * gset nat))
      fuel s tv r0 :
  Forall (fun x => x = Some r0) (ws_all body fuel s tv) →
  ∀ r, ws_run body s tv r ↔ r = r0.
Proof.
  intros Hall r. split.
  - by apply (ws_all_unique body fuel).
  - intros ->. by apply (ws_all_exists body fuel).
Qed.

Ltac all_runs_iff fuel :=
  apply (ws_all_iff _ fuel); vm_compute;
  repeat (apply List.Forall_cons; [reflexivity|]); apply List.Forall_nil.

Lemma for_each_rel_nil_iff {A S} (body : A → S → result S → Prop) s r :
  for_each_rel body [] s r ↔ r = inr s.
Proof. split; [by inversion 1|intros ->; constructor]. Qed.

Lemma for_each_rel_cons_iff {A S} (body : A → S → result S → Prop)
      x l s r0 :
  (∀ r, body x s r ↔ r = r0) →
  ∀ r, for_each_rel body (x :: l) s r ↔
       match r0 with inl e => r = inl e | inr s' => for_each_rel body l s' r end.
Proof.
  intros Hx r. split.
  - inversion 1 as [|? ? ? s' ? Hb Hl|? ? ? e Hb]; subst;
      apply Hx in Hb; subst; done.
  - destruct r0 as [e|s'].
    + intros ->. apply for_each_rel_raise. by apply Hx.
    + intros Hl. eapply for_each_rel_cons; [by apply Hx|done].
Qed.

Lemma Graph_init_iff depth d0 objs trs g0 g1 ns sc possible del es :
  _create objs trs Graph_empty = inr g0 →
  update_adjacency g0 = inr g1 →
  (∀ rns, propagate_complexity g1 rns ↔ rns = inr ns) →
  tarjan (set_nodes g1 ns) d0 = inr sc → (d0 ≤ depth)%nat →
  possible_loops (set_nodes g1 ns) sc = inr possible →
  (∀ rdel, for_each_rel (check_loop (set_nodes g1 ns) sc) possible [] rdel
           ↔ rdel = inr del) →
  for_each del (fun delete es =>
      e ← index es delete; ok (<[delete := set_looping e]> es)) (_edges g1)
    = inr es →
  ∀ r, Graph_init depth objs trs r ↔
       r = inr (set_edges (set_nodes g1 ns) es).
Proof.
  intros Hc Ha Hp Ht Hd Hl Hdel Hes r.
  unfold Graph_init, _finish_computation. rewrite Hc, Ha.
  apply (tarjan_mono _ _ depth) in Ht; [|done]. split.
  - intros (rns & Hrns & H). apply Hp in Hrns as ->. rewrite Ht in H.
    unfold remove_loops in H. rewrite Hl in H.
    destruct H as (rdel & Hrdel & ->). apply Hdel in Hrdel as ->.
    simpl in *. by rewrite Hes.
  - intros ->. exists (inr ns). split; [by apply Hp|]. rewrite Ht.
    unfold remove_loops. rewrite Hl. exists (inr del).
    split; [by apply Hdel|]. simpl in *. by rewrite Hes.
Qed.

Lemma leading_to_obj_iff sg obj npe start fuel rv0 r0 :
  _edges_ignored_by_no_parent_nodes sg = inr npe →
  getitem (obj_to_node (graph sg)) obj = inr start →
  Forall (fun x => x = Some rv0)
    (ws_all (leading_visit sg) fuel
       ({[start]}, replicate (length (_nodes (graph sg))) 0) {[start]}) →
  ('(visited, _) ← rv0;
   ok (set_ignored_nodes sg
         (ignored_nodes sg ∪
          list_to_set (filter (fun i => i ∉ visited)
             (seq 0 (length (_nodes (graph sg)))))))) = r0 →
  ∀ r, leading_to_obj sg obj r ↔ r = r0.
Proof.
  intros Hn Hs Hall <- r. unfold leading_to_obj. rewrite Hn, Hs.
  pose proof (ws_all_iff _ _ _ _ _ Hall) as Hiff. split.
  - intros (rv & Hrv & ->). by apply Hiff in Hrv as ->.
  - intros ->. exists rv0. split; [by apply Hiff|done].
Qed.

Lemma stone_decorates : decorates stone_objects [stone_transition] stone_graph.
Proof.
  intros depth r Hd.
  etransitivity; [eapply (Graph_init_iff depth 3)|].
  - vm_compute; reflexivity.
  - vm_compute; reflexivity.
  - all_runs_iff 5%nat.
  - vm_compute; reflexivity.
  - exact Hd.
  - vm_compute; reflexivity.
  - apply for_each_rel_nil_iff.
  - reflexivity.
  - reflexivity.
Qed.

Ltac compute_eq := vm_compute; reflexivity.

(** Decorates a concrete graph in which no edge is a candidate of
    [__remove_loops]; [d] is the depth [__tarjan] needs and [fuel] bounds
    the iterations of the propagation. *)
Ltac decorate_no_loops d fuel :=
  let depth := fresh "depth" in let r := fresh "r" in
  let Hd := fresh "Hd" in
  intros depth r Hd;
  etransitivity; [eapply (Graph_init_iff depth d)|];
  [ compute_eq | compute_eq | all_runs_iff fuel | compute_eq | exact Hd
  | compute_eq | apply for_each_rel_nil_iff | reflexivity | reflexivity ].

Ltac leading fuel :=
  eapply (leading_to_obj_iff _ _ _ _ fuel);
  [ compute_eq | compute_eq
  | vm_compute;
    repeat (apply List.Forall_cons; [reflexivity|]); apply List.Forall_nil
  | compute_eq ].

(** ** The sub-graph view *)

(** [leading_to_obj] never touches the ignored edges: the union with the
    edges into the NO_PARENTS nodes is computed and dropped. *)
Lemma leading_to_obj_ignored_edges sg obj sg' :
  leading_to_obj sg obj (inr sg') → ignored_edges sg' = ignored_edges sg.
Proof.
  unfold leading_to_obj.
  destruct (_edges_ignored_by_no_parent_nodes sg); [done|].
  destruct (getitem _ _); [done|].
  intros ([e|[visited distances]] & _ & H); [done|].
  simpl in H. by injection H as ->.
Qed.

Lemma orphan_decorates : decorates orphan_objects [] orphan_graph.
Proof. decorate_no_loops 2%nat 5%nat. Qed.

(** C8 (failing input): the graph of a natural stone and of an object that
    is not natural and that nothing makes is built without error; with the
    default modes, [leading_to_obj] of that object raises [IndexError], at
    [parents[0]] of [_get_parents]: the object has no parent. *)
Theorem C8_leading_to_obj_raises :
  decorates orphan_objects [] orphan_graph ∧
  obj_to_node orphan_graph !! 2 = Some 1%nat ∧
  _get_parents (SubGraph_init orphan_graph) 1 = inl IndexError ∧
  ∀ r, leading_to_obj (SubGraph_init orphan_graph) 2 r ↔ r = inl IndexError.
Proof.
  split; [apply orphan_decorates|]. split; [reflexivity|].
  split; [compute_eq|]. intros r. leading 5%nat.
Qed.

Lemma flint_decorates : decorates flint_objects flint_transitions flint_graph.
Proof. decorate_no_loops 6%nat 12%nat. Qed.

(** C9 (failing input): in the flint graph the natural Stone (mode
    NO_PARENTS) has the incoming edge 0, from the first transition.  After
    [leading_to_obj] of the blade that edge is not in the ignored edges,
    and [to_graphviz] writes it. *)
Theorem C9_no_parent_edge_is_kept :
  decorates flint_objects flint_transitions flint_graph ∧
  ∃ sg decls es,
    (∀ r, leading_to_obj (SubGraph_init flint_graph) 4 r ↔ r = inr sg) ∧
    obj_to_node flint_graph !! 2 = Some 1%nat ∧
    _get_ignore_type sg 1 = inr IgnoreMode.NO_PARENTS ∧
    _incoming_edges flint_graph !! 1%nat = Some [0%nat] ∧
    (0%nat ∉ ignored_edges sg) ∧
    SubGraph_to_graphviz sg = inr (decls, es) ∧
    0%nat ∈ es.
Proof.
  split; [apply flint_decorates|]. do 3 eexists.
  split; [intros r; leading 12%nat|].
  split; [reflexivity|]. split; [compute_eq|]. split; [reflexivity|].
  split; [vm_compute; set_solver|]. split; [compute_eq|].
  set_solver.
Qed.

(** C7 (failing input): on the stone graph, towards the stone block,
    [max_distance] 0 and -1 keep every ancestor (no node is ignored), and
    [max_distance] -2 keeps the target alone: the stone and the transition
    node are ignored. *)
Theorem C7_max_distance_below_minus_1 :
  decorates stone_objects [stone_transition] stone_graph ∧
  obj_to_node stone_graph !! 2 = Some 1%nat ∧
  ∃ sg0 sg1 sg2,
    (∀ r, leading_to_obj (set_max_distance (SubGraph_init stone_graph) 0) 2 r
          ↔ r = inr sg0) ∧
    (∀ r, leading_to_obj (set_max_distance (SubGraph_init stone_graph) (-1))
            2 r ↔ r = inr sg1) ∧
    (∀ r, leading_to_obj (set_max_distance (SubGraph_init stone_graph) (-2))
            2 r ↔ r = inr sg2) ∧
    ignored_nodes sg0 = ∅ ∧ ignored_nodes sg1 = ∅ ∧
    ignored_nodes sg2 = {[0%nat; 2%nat]}.
Proof.
  split; [apply stone_decorates|]. split; [reflexivity|]. do 3 eexists.
  split; [intros r; leading 8%nat|].
  split; [intros r; leading 8%nat|].
  split; [intros r; leading 8%nat|].
  split; [compute_eq|]. split; compute_eq.
Qed.

(** ** The two-object cycle *)

Lemma check_loop_iff g sc from to edg del fuel d0 rd0 r0 :
  setitem (replicate (length (_nodes g)) (-1)) to 0 = inr d0 →
  Forall (fun x => x = Some rd0)
         (ws_all (distances_visit g sc to) fuel d0 {[to]}) →
  (distances ← rd0;
   nf ← index (_nodes g) from;
   nt ← index (_nodes g) to;
   let diff := complexity nf - complexity nt in
   df ← index distances from;
   if df <=? diff then ok (del ++ [edg]) else ok del) = r0 →
  ∀ r, check_loop g sc (from, to, edg) del r ↔ r = r0.
Proof.
  intros Hd Hall <- r. unfold check_loop. rewrite Hd.
  pose proof (ws_all_iff _ _ _ _ _ Hall) as Hiff. split.
  - intros (rd & Hrd & ->). by apply Hiff in Hrd as ->.
  - intros ->. exists rd0. split; [by apply Hiff|done].
Qed.

Ltac check_loop fuel :=
  eapply (check_loop_iff _ _ _ _ _ _ fuel);
  [ compute_eq
  | vm_compute;
    repeat (apply List.Forall_cons; [reflexivity|]); apply List.Forall_nil
  | compute_eq ].

Lemma cycle_decorates : decorates cycle_objects cycle_transitions cycle_graph.
Proof.
  intros depth r Hd.
  etransitivity; [eapply (Graph_init_iff depth 4)|].
  - compute_eq.
  - compute_eq.
  - all_runs_iff 8%nat.
  - compute_eq.
  - exact Hd.
  - compute_eq.
  - intros rdel. etransitivity.
    + eapply for_each_rel_cons_iff. check_loop 8%nat.
    + simpl. apply for_each_rel_nil_iff.
  - compute_eq.
  - reflexivity.
Qed.

(** C6: in the cycle of A and B (A natural, each made from the other by a
    transition whose input edge is a CONSUME edge of cost 1) the
    complexity of A is that of B minus 1, the distance from A back to B
    inside the component is exactly that gap, and the edge from the
    transition of B to A is the one marked looping. *)
Theorem C6_two_cycle_edge_is_looping :
  decorates cycle_objects cycle_transitions cycle_graph ∧
  ∃ a b t_ab t_ba sc ds ca cb,
    obj_to_node cycle_graph !! 1 = Some a ∧
    obj_to_node cycle_graph !! 2 = Some b ∧
    _edges cycle_graph
    = [mkEdge t_ab b EdgeType.TRANSITION None false;
       mkEdge a t_ab EdgeType.CONSUME
              (Some (mkTransition 1 0 2 0 false false 0)) false;
       mkEdge t_ba a EdgeType.TRANSITION None true;
       mkEdge b t_ba EdgeType.CONSUME
              (Some (mkTransition 2 0 1 0 false false 0)) false] ∧
    (cost <$> _edges cycle_graph !! 1%nat) = Some 1 ∧
    (cost <$> _edges cycle_graph !! 3%nat) = Some 1 ∧
    complexity_at (_nodes cycle_graph) a = Some ca ∧
    complexity_at (_nodes cycle_graph) b = Some cb ∧
    ca = cb - 1 ∧
    tarjan cycle_graph 4 = inr sc ∧
    (∀ rd, ws_run (distances_visit cycle_graph sc a)
                  (<[a := 0]> (replicate 4 (-1))) {[a]} rd ↔ rd = inr ds) ∧
    ds !! b = Some (cb - ca).
Proof.
  split; [apply cycle_decorates|].
  exists 0%nat, 1%nat, 2%nat, 3%nat. do 2 eexists. exists 0, 1.
  split; [reflexivity|]. split; [reflexivity|]. split; [reflexivity|].
  split; [reflexivity|]. split; [reflexivity|]. split; [reflexivity|].
  split; [reflexivity|]. split; [reflexivity|]. split; [compute_eq|].
  split; [all_runs_iff 8%nat|]. reflexivity.
Qed.

(** ** Removing a looping edge *)

Lemma Graph_init_intro depth d0 objs trs g0 g1 ns sc possible del es :
  _create objs trs Graph_empty = inr g0 →
  update_adjacency g0 = inr g1 →
  propagate_complexity g1 (inr ns) →
  tarjan (set_nodes g1 ns) d0 = inr sc → (d0 ≤ depth)%nat →
  possible_loops (set_nodes g1 ns) sc = inr possible →
  for_each_rel (check_loop (set_nodes g1 ns) sc) possible [] (inr del) →
  for_each del (fun delete es =>
      e ← index es delete; ok (<[delete := set_looping e]> es)) (_edges g1)
    = inr es →
  Graph_init depth objs trs (inr (set_edges (set_nodes g1 ns) es)).
Proof.
  intros Hc Ha Hp Ht Hd Hl Hdel Hes.
  unfold Graph_init, _finish_computation. rewrite Hc, Ha.
  apply (tarjan_mono _ _ depth) in Ht; [|done].
  exists (inr ns). split; [done|]. rewrite Ht.
  unfold remove_loops. rewrite Hl. exists (inr del).
  split; [done|]. simpl in *. by rewrite Hes.
Qed.

(** A set of nodes closed under the edges holds all that is reachable
    from it. *)
Lemma reach_closed g without (R : gset nat) u v :
  u ∈ R →
  (∀ j e, _edges g !! j = Some e → without ≠ Some j →
          from_node e ∈ R → to_node e ∈ R) →
  reach g without u v → v ∈ R.
Proof.
  intros Hu Hcl Hr. induction Hr as [|u j e w Hr IH He Hj Hw]; [done|].
  subst w. eapply Hcl; eauto.
Qed.

(** The pops [0, 1, 4, 1, 5, 3, 2, 5] of the propagation (the order in
    which CPython pops these small integers) build [shortcut_graph]. *)
Lemma shortcut_built depth :
  (6 ≤ depth)%nat →
  Graph_init depth shortcut_objects shortcut_transitions (inr shortcut_graph).
Proof.
  intros Hd.
  cut (∃ g, Graph_init depth shortcut_objects shortcut_transitions (inr g)
            ∧ g = shortcut_graph); [by intros (g & H & <-)|].
  eexists. split.
  { eapply (Graph_init_intro depth 6).
    - compute_eq.
    - compute_eq.
    - apply (ws_sched_run _ [0; 1; 4; 1; 5; 3; 2; 5]%nat). compute_eq.
    - compute_eq.
    - exact Hd.
    - compute_eq.
    - eapply for_each_rel_cons; [|apply for_each_rel_nil].
      eapply (check_loop_iff _ _ _ _ _ _ 8%nat);
        [ compute_eq
        | vm_compute;
          repeat (apply List.Forall_cons; [reflexivity|]);
          apply List.Forall_nil
        | compute_eq | reflexivity ].
    - compute_eq. }
  reflexivity.
Qed.

(** On the shortcut graph N, @q and the decay of N are all that can be
    derived: c is made of @q and @p together, and @p holds c alone. *)
Lemma shortcut_derivable v :
  derivable shortcut_graph v → v = 0%nat ∨ v = 1%nat ∨ v = 4%nat.
Proof.
  induction 1 as [i o c Hi Hn|j e o c He _ IH Ht
                 |t tr c a na Ht Hin Ha _ IH
                 |t tr c a b na nb Ht Hin Ha _ IHa Hb _ IHb].
  - do 6 (destruct i as [|i];
          [first [discriminate Hi
                 |injection Hi as <- <-; simpl in Hn;
                  first [discriminate Hn | by auto]]|]).
    discriminate Hi.
  - do 7 (destruct j as [|j];
          [injection He as <-; simpl in *;
           first [discriminate Ht | by auto | lia]|]).
    discriminate He.
  - do 6 (destruct t as [|t];
          [first [discriminate Ht | injection Ht as <- <-];
           first [discriminate Hin | by auto]|]).
    discriminate Ht.
  - do 6 (destruct t as [|t];
          [first [discriminate Ht | injection Ht as <- <-];
           try discriminate Hin|]); [|discriminate Ht].
    injection Hin as <- <-. vm_compute in Hb. injection Hb as <-. lia.
Qed.

(** C5 (failing input): on the shortcut graph, built by the pops
    [0, 1, 4, 1, 5, 3, 2, 5] of the propagation, the transition of @q and
    @p has fired on the two deliveries of @q: c (node 3), which cannot be
    derived from the natural objects, is at complexity 2.  The cycle
    analysis then marks the edge 4, from that transition to c, looping;
    it is the only edge into c, so that c, reachable from the nodes of
    complexity 0, is not once the edge is removed. *)
Theorem C5_removal_disconnects :
  ∃ g, (∀ depth, (6 ≤ depth)%nat →
          Graph_init depth shortcut_objects shortcut_transitions (inr g)) ∧
       ¬ derivable g 3 ∧
       complexity_at (_nodes g) 3 = Some 2 ∧
       ¬ looping_removal_is_safe g.
Proof.
  exists shortcut_graph. split; [apply shortcut_built|].
  split; [intros Hd; apply shortcut_derivable in Hd; lia|].
  split; [reflexivity|]. intros Hsafe.
  destruct (Hsafe 4%nat (mkEdge 5 3 EdgeType.TRANSITION None true) 3%nat)
    as (u & n & Hu & Hn & Hr); [reflexivity|reflexivity| |].
  - exists 1%nat. eexists. split; [reflexivity|]. split; [reflexivity|].
    eapply (reach_edge _ _ _ 4%nat); [|reflexivity|done|reflexivity].
    eapply (reach_edge _ _ _ 5%nat); [|reflexivity|done|reflexivity].
    apply reach_refl.
  - apply (reach_closed _ _ {[0; 1; 4; 5]}%nat) in Hr.
    + rewrite !elem_of_union, !elem_of_singleton in Hr. lia.
    + rewrite !elem_of_union, !elem_of_singleton.
      do 6 (destruct u as [|u]; [injection Hu as <-; simpl in Hn;
                                 first [discriminate Hn | lia]|]).
      discriminate Hu.
    + intros j e He Hj. rewrite !elem_of_union, !elem_of_singleton.
      do 7 (destruct j as [|j]; [injection He as <-; simpl;
                                 first [congruence | lia]|]).
      discriminate He.
Qed.

(** ** Counterexamples on the propagation *)


(** Where A is natural and B cannot be made, A is all that can be
    derived. *)
Lemma craft_derivable g v :
  built (craft_objects false) [craft_transition] = inr g →
  derivable g v → v = 0%nat.
Proof.
  intros Hb. vm_compute in Hb. injection Hb as <-.
  induction 1 as [i o c Hi Hn|j e o c He _ IH Ht
                 |t tr c a na Ht Hin Ha _ IH
                 |t tr c a b na nb Ht Hin Ha _ IHa Hb _ IHb].
  - do 4 (destruct i as [|i];
          [first [discriminate Hi
                 |injection Hi as <- <-; simpl in Hn;
                  first [discriminate Hn | done]]|]).
    discriminate Hi.
  - do 3 (destruct j as [|j];
          [injection He as <-; simpl in *;
           first [discriminate Ht | done | lia]|]).
    discriminate He.
  - do 4 (destruct t as [|t];
          [first [discriminate Ht | injection Ht as <- <-];
           first [discriminate Hin | done]|]).
    discriminate Ht.
  - do 4 (destruct t as [|t];
          [first [discriminate Ht | injection Ht as <- <-];
           try discriminate Hin|]); [|discriminate Ht].
    injection Hin as <- <-. vm_compute in Hb. injection Hb as <-. lia.
Qed.

(** C3 (failing input): where A is natural and B cannot be made, the
    transition of A and B receives A alone: the first run leaves B and C
    unreached.  Run again, the propagation delivers A once more and the
    node of the transition, already set, fires: C, which cannot be
    derived from the natural objects, goes from the unreached value to 1
    while B stays unreached. *)
Theorem C3_second_run_changes_a_node :
  ∃ g ns, built (craft_objects false) [craft_transition] = inr g ∧
    (∀ r, propagate_complexity g r ↔ r = inr ns) ∧
    complexity_at ns 1 = Some DEFAULT_COMPLEXITY ∧
    complexity_at ns 2 = Some DEFAULT_COMPLEXITY ∧
    ¬ derivable g 2 ∧
    (∀ r, propagate_complexity (set_nodes g ns) r →
          ∃ ns', r = inr ns' ∧
            complexity_at ns' 1 = Some DEFAULT_COMPLEXITY ∧
            complexity_at ns' 2 = Some 1) ∧
    ¬ rerun_changes_nothing g ns.
Proof.
  do 2 eexists. split; [compute_eq|]. split; [all_runs_iff 8%nat|].
  split; [reflexivity|]. split; [reflexivity|].
  split.
  { intros Hd. apply craft_derivable in Hd; [discriminate Hd|compute_eq]. }
  assert (Hre : ∀ r, propagate_complexity
            (set_nodes
               (mkGraph
                  [NodeObject (mkObject 1 "A" true false []) 0;
                   NodeObject (mkObject 2 "B" false false [])
                              DEFAULT_COMPLEXITY;
                   NodeObject (mkObject 3 "C" false false [])
                              DEFAULT_COMPLEXITY;
                   NodeTransition_init craft_transition]
                  [mkEdge 3 2 EdgeType.TRANSITION None false;
                   mkEdge 0 3 EdgeType.CONSUME (Some craft_transition) false;
                   mkEdge 1 3 EdgeType.CONSUME (Some craft_transition) false]
                  [[]; []; [0%nat]; [1%nat; 2%nat]]
                  [[1%nat]; [2%nat]; []; [0%nat]]
                  {[1 := 0%nat; 2 := 1%nat; 3 := 2%nat]})
               [NodeObject (mkObject 1 "A" true false []) 0;
                NodeObject (mkObject 2 "B" false false []) DEFAULT_COMPLEXITY;
                NodeObject (mkObject 3 "C" false false []) DEFAULT_COMPLEXITY;
                NodeTransition craft_transition 1]) r ↔
          r = inr [NodeObject (mkObject 1 "A" true false []) 0;
                   NodeObject (mkObject 2 "B" false false [])
                              DEFAULT_COMPLEXITY;
                   NodeObject (mkObject 3 "C" false false []) 1;
                   NodeTransition craft_transition 1]).
  { all_runs_iff 8%nat. }
  split.
  - intros r Hr. apply Hre in Hr as ->. eexists.
    split; [reflexivity|]. split; reflexivity.
  - intros [_ Hsame].
    pose proof (proj2 (Hsame _) eq_refl) as Hr. apply Hre in Hr.
    discriminate Hr.
Qed.

(** ** The propagation on a well-formed graph *)

Lemma update_complexity_spec n inc n' b :
  update_complexity n inc = inr (n', b) →
  inc < DEFAULT_COMPLEXITY ∧
  match n with
  | NodeObject o c =>
      (inc < c ∧ n' = NodeObject o inc ∧ b = true) ∨
      (c ≤ inc ∧ n' = n ∧ b = false)
  | NodeTransition t c =>
      (c = -1 ∧ n' = NodeTransition t inc ∧
       b = bool_decide (length (get_input_objects t) = 1%nat)) ∨
      (c ≠ -1 ∧ n' = NodeTransition t (Z.max c inc) ∧ b = true)
  end.
Proof.
  unfold update_complexity. intros H. inv_bind1 H.
  apply assert_inr, Z.ltb_lt in Ha. split; [done|].
  destruct n as [o c|t c].
  - destruct (Z.ltb_spec inc c); injection H as <- <-; [left|right]; done.
  - destruct (Z.eqb_spec c (-1)); injection H as <- <-; [left|right]; done.
Qed.

Lemma propagate_edge_spec g d j ns tv ns' tv' :
  propagate_edge g d j (ns, tv) = inr (ns', tv') →
  ∃ e n n' b, _edges g !! j = Some e ∧ ns !! to_node e = Some n ∧
    update_complexity n (d + cost e) = inr (n', b) ∧
    ns' = <[to_node e := n']> ns ∧
    tv' = if b : bool then {[to_node e]} ∪ tv else tv.
Proof.
  unfold propagate_edge. intros H. do 3 inv_bind1 H.
  destruct a1 as [n' b]. injection H as <- <-.
  apply index_inr in Ha, Ha0. by exists a, a0, n', b.
Qed.

Lemma same_payload_lookup l ns i n :
  Forall2 same_payload l ns → ns !! i = Some n →
  ∃ n0, l !! i = Some n0 ∧ same_payload n0 n.
Proof.
  intros HF Hn. destruct (Forall2_lookup_r _ _ _ _ _ HF Hn) as (n0 & ? & ?).
  eauto.
Qed.

Lemma cost_range e : 0 ≤ cost e ≤ 1.
Proof. unfold cost. destruct (category e); lia. Qed.

(** ** [_create] builds a well-formed graph *)

Lemma for_each_preserves {A S} (P : S → Prop) (l : list A)
      (body : A → S → result S) s r :
  P s → (∀ x s s', x ∈ l → P s → body x s = inr s' → P s') →
  for_each l body s = inr r → P r.
Proof.
  intros H0 Hstep.
  apply (for_each_inv (fun _ s => P s)); [done|].
  intros done x rest s1 s2 -> HP Hb. eapply Hstep; [|done..]. set_solver.
Qed.

Lemma getitem_inr d k v : getitem d k = inr v ↔ d !! k = Some v.
Proof.
  unfold getitem. destruct (d !! k); split; (congruence || by intros [= ->]).
Qed.

Lemma input_edges_mono g g' t inputs :
  (∀ j e, _edges g !! j = Some e → _edges g' !! j = Some e) →
  obj_to_node g' = obj_to_node g →
  input_edges g t inputs → input_edges g' t inputs.
Proof.
  intros He Ho (js & Hnd & HF). exists js. split; [done|].
  eapply Forall2_impl; [done|]. intros j a (e & Hj & ? & ?).
  exists e. rewrite Ho. eauto.
Qed.

Lemma create_node_nodes_only obj g g' :
  nodes_only g → create_node obj g = inr g' → nodes_only g'.
Proof.
  intros (He & Hn & Ho). unfold create_node.
  destruct (0 <? identifier obj); [|by intros [= <-]].
  intros H. inv_bind1 H. injection H as <-.
  unfold NodeObject_init in Ha. inv_bind1 Ha. injection Ha as <-.
  split; [done|]. split; simpl.
  - intros i n Hi. apply lookup_app_Some in Hi as [Hi|[_ Hi]]; [eauto|].
    apply list_lookup_singleton_Some in Hi as [_ <-]. eauto.
  - intros a na Ha. apply lookup_insert_Some in Ha as [[<- <-]|[_ Ha]].
    + exists obj. eexists. split; [|done].
      rewrite lookup_app_r by done. by rewrite Nat.sub_diag.
    + destruct (Ho _ _ Ha) as (o & c & Hl & Hid). exists o, c.
      split; [|done]. by apply lookup_app_l_Some.
Qed.

Lemma nodes_only_created g : nodes_only g → created_upto g None.
Proof.
  intros (He & Hn & Ho). split.
  - intros j e. by rewrite He.
  - intros j e tr c. by rewrite He.
  - intros j e tr c. by rewrite He.
  - intros t tr c Ht. by destruct (Hn _ _ Ht).
  - done.
  - intros i o c Hi. destruct (Hn _ _ Hi) as (o' & [= -> ->]). done.
  - intros i tr c Hi. by destruct (Hn _ _ Hi).
Qed.

(** Adding an edge that is not an input edge. *)
Lemma created_add_edge g during e :
  created_upto g during →
  (∃ o c, _nodes g !! to_node e = Some (NodeObject o c)) →
  (from_node e < length (_nodes g))%nat →
  created_upto (set_edges g (_edges g ++ [e])) during.
Proof.
  intros Hc (o & c & Hto) Hfrom.
  assert (Hcase : ∀ j e', (_edges g ++ [e]) !! j = Some e' →
            _edges g !! j = Some e' ∨ e' = e).
  { intros j e' Hj. apply lookup_app_Some in Hj as [?|[_ Hj]]; [by left|].
    apply list_lookup_singleton_Some in Hj as [_ <-]. by right. }
  split; simpl.
  - intros j e' Hj. destruct (Hcase _ _ Hj) as [Hj'| ->].
    + by eapply cr_bounds.
    + split; [done|]. by eapply lookup_lt_Some.
  - intros j e' tr c0 Hj Htr. destruct (Hcase _ _ Hj) as [Hj'| ->].
    + by eapply cr_into_transition.
    + congruence.
  - intros j e' tr c0 Hj Htr. destruct (Hcase _ _ Hj) as [Hj'| ->].
    + by eapply cr_from_transition.
    + eauto.
  - intros t tr c0 Ht.
    eapply input_edges_mono; [| |by eapply (cr_inputs _ _ Hc)]; [|done].
    intros j e' Hj. by apply lookup_app_l_Some.
  - apply (cr_obj _ _ Hc).
  - apply (cr_init_obj _ _ Hc).
  - apply (cr_init_tr _ _ Hc).
Qed.

Lemma create_category_edges_created obj g g' :
  created_upto g None → create_category_edges obj g = inr g' →
  created_upto g' None.
Proof.
  intros Hc. unfold create_category_edges.
  apply (for_each_preserves (fun g => created_upto g None)); [done|].
  intros contains g1 g2 _ Hc1 H. do 2 inv_bind1 H. injection H as <-.
  apply getitem_inr in Ha, Ha0.
  destruct (cr_obj _ _ Hc1 _ _ Ha) as (o1 & c1 & H1 & _).
  destruct (cr_obj _ _ Hc1 _ _ Ha0) as (o2 & c2 & H2 & _).
  apply created_add_edge; [done|simpl; eauto|].
  simpl. by eapply lookup_lt_Some.
Qed.

(** Adding the node of a transition. *)
Lemma created_add_transition g tr :
  created_upto g None →
  created_upto (set_nodes g (_nodes g ++ [NodeTransition_init tr]))
               (Some (length (_nodes g), [])).
Proof.
  intros Hc.
  assert (Hold : ∀ i n, (i < length (_nodes g))%nat →
            (_nodes g ++ [NodeTransition_init tr]) !! i = Some n →
            _nodes g !! i = Some n).
  { intros i n Hi. by rewrite lookup_app_l. }
  split; simpl.
  - intros j e Hj. rewrite length_app. simpl.
    destruct (cr_bounds _ _ Hc _ _ Hj). lia.
  - intros j e tr0 c Hj Ht. destruct (cr_bounds _ _ Hc _ _ Hj).
    apply Hold in Ht; [|done].
    destruct (cr_into_transition _ _ Hc _ _ _ _ Hj Ht)
      as (Hcost & a & o & c' & Ha & Ho & Hn).
    split; [done|]. exists a, o, c'. repeat split; try done.
    by apply lookup_app_l_Some.
  - intros j e tr0 c Hj Ht. destruct (cr_bounds _ _ Hc _ _ Hj).
    apply Hold in Ht; [|done].
    destruct (cr_from_transition _ _ Hc _ _ _ _ Hj Ht) as (o & c' & Hn).
    exists o, c'. by apply lookup_app_l_Some.
  - intros t tr0 c Ht. case_decide as Heq.
    + exists []. split; constructor.
    + apply lookup_app_Some in Ht as [Ht|[Hge Ht]].
      * by apply (cr_inputs _ _ Hc _ _ _ Ht).
      * apply list_lookup_singleton_Some in Ht as [Ht _]. lia.
  - intros a na Ha. destruct (cr_obj _ _ Hc _ _ Ha) as (o & c & Hn & Hid).
    exists o, c. split; [|done]. by apply lookup_app_l_Some.
  - intros i o c Hi. apply lookup_app_Some in Hi as [Hi|[_ Hi]].
    + by eapply cr_init_obj.
    + by apply list_lookup_singleton_Some in Hi as [_ ?].
  - intros i tr0 c Hi. apply lookup_app_Some in Hi as [Hi|[_ Hi]].
    + by eapply cr_init_tr.
    + apply list_lookup_singleton_Some in Hi as [_ Hi]. by injection Hi.
Qed.

(** Adding an input edge of the transition whose edges are being added. *)
Lemma created_add_input g t tr c done a e :
  created_upto g (Some (t, done)) →
  _nodes g !! t = Some (NodeTransition tr c) →
  a ∈ get_input_objects tr →
  obj_to_node g !! a = Some (from_node e) →
  to_node e = t → cost e = input_cost tr →
  created_upto (set_edges g (_edges g ++ [e])) (Some (t, done ++ [a])).
Proof.
  intros Hc Ht Ha Hfrom Hto Hcost.
  destruct (cr_obj _ _ Hc _ _ Hfrom) as (o & c' & Hn & _).
  assert (Hcase : ∀ j e', (_edges g ++ [e]) !! j = Some e' →
            _edges g !! j = Some e' ∨ e' = e).
  { intros j e' Hj. apply lookup_app_Some in Hj as [?|[_ Hj]]; [by left|].
    apply list_lookup_singleton_Some in Hj as [_ <-]. by right. }
  split; simpl.
  - intros j e' Hj. destruct (Hcase _ _ Hj) as [Hj'| ->].
    + by eapply cr_bounds.
    + split; eapply lookup_lt_Some; [done|]. by rewrite Hto.
  - intros j e' tr0 c0 Hj Htr. destruct (Hcase _ _ Hj) as [Hj'| ->].
    + by eapply cr_into_transition.
    + rewrite Hto, Ht in Htr. injection Htr as <- <-. split; [done|].
      exists a, o, c'. done.
  - intros j e' tr0 c0 Hj Htr. destruct (Hcase _ _ Hj) as [Hj'| ->].
    + by eapply cr_from_transition.
    + congruence.
  - intros t0 tr0 c0 Ht0.
    pose proof (cr_inputs _ _ Hc _ _ _ Ht0) as Hin. simpl in Hin.
    case_decide as Heq.
    + destruct Hin as (js & Hnd & HF). exists (js ++ [length (_edges g)]).
      split.
      * apply NoDup_app. split; [done|]. split; [|apply NoDup_singleton].
        intros j Hj Hj'. apply list_elem_of_singleton in Hj'. subst j.
        apply list_elem_of_lookup in Hj as [k Hk].
        destruct (Forall2_lookup_l _ _ _ _ _ HF Hk) as (a' & _ & e' & He' & _).
        apply lookup_lt_Some in He'. lia.
      * apply Forall2_app.
        -- eapply Forall2_impl; [done|]. intros j a' (e' & Hj & ? & ?).
           exists e'. split; [by apply lookup_app_l_Some|done].
        -- constructor; [|constructor]. exists e. simpl. split; [|by subst].
           rewrite lookup_app_r by done. by rewrite Nat.sub_diag.
    + eapply input_edges_mono; [| |done]; [|done].
      intros j e' Hj. by apply lookup_app_l_Some.
  - apply (cr_obj _ _ Hc).
  - apply (cr_init_obj _ _ Hc).
  - apply (cr_init_tr _ _ Hc).
Qed.

(** Once the edges of all its inputs are there. *)
Lemma created_close g t tr c :
  created_upto g (Some (t, get_input_objects tr)) →
  _nodes g !! t = Some (NodeTransition tr c) →
  created_upto g None.
Proof.
  intros Hc Ht. split; try apply Hc.
  intros t0 tr0 c0 Ht0. pose proof (cr_inputs _ _ Hc _ _ _ Ht0) as Hin.
  simpl in Hin. case_decide as Heq; [|done]. subst t0.
  rewrite Ht in Ht0. by injection Ht0 as <- <-.
Qed.

Lemma input_edge_cost tr a et :
  _transition_type_to_edge_type (Transition_type tr) = inr et →
  cost (Edge_init 0 0
          (if bool_decide (et = EdgeType.CONSUME)
              && bool_decide (a ∈ get_output_objects tr)
           then EdgeType.TOOL else et) None) = input_cost tr.
Proof.
  unfold _transition_type_to_edge_type, input_cost, cost.
  destruct (Transition_type tr); simpl; intros [= <-]; simpl; try done.
  by destruct (bool_decide _).
Qed.

Lemma create_transition_created tr g g' :
  created_upto g None → create_transition tr g = inr g' →
  created_upto g' None.
Proof.
  intros Hc H. unfold create_transition in H. inv_bind1 H.
  set (node := length (_nodes g)) in *.
  set (Q during (g : Graph) :=
         created_upto g (Some (node, during)) ∧
         _nodes g !! node = Some (NodeTransition tr (-1))).
  assert (Hout : Q [] a).
  { revert Ha. apply (for_each_preserves (Q [])).
    - split; [by apply created_add_transition|]. simpl.
      rewrite lookup_app_r by done. by rewrite Nat.sub_diag.
    - intros output g1 g2 _ [Hc1 Hn1] Hb. case_bool_decide.
      + by injection Hb as <-.
      + inv_bind1 Hb. injection Hb as <-. apply getitem_inr in Ha.
        destruct (cr_obj _ _ Hc1 _ _ Ha) as (o & c & Ho & _).
        split; [|done]. apply created_add_edge; [done|simpl; eauto|].
        simpl. by eapply lookup_lt_Some. }
  assert (Hin : Q (get_input_objects tr) g').
  { revert H. apply (for_each_inv (fun done g => Q done g)); [done|].
    intros done input_ rest g1 g2 Hl [Hc1 Hn1] Hb. do 2 inv_bind1 Hb.
    injection Hb as <-. apply getitem_inr in Ha1.
    split; [|done]. eapply created_add_input; try done.
    - rewrite Hl. set_solver.
    - rewrite <- (input_edge_cost _ input_ _ Ha0). done. }
  destruct Hin as [Hc' Hn']. by eapply created_close.
Qed.

Lemma _create_created objects transitions g :
  _create objects transitions Graph_empty = inr g → created_upto g None.
Proof.
  unfold _create. intros H. do 2 inv_bind1 H.
  assert (H1 : nodes_only a).
  { revert Ha. apply (for_each_preserves nodes_only).
    - split; [done|]. split; [by intros i n|by intros a' na].
    - intros obj g1 g2 _. apply create_node_nodes_only. }
  apply nodes_only_created in H1.
  assert (H2 : created_upto a0 None).
  { revert Ha0. apply (for_each_preserves (fun g => created_upto g None));
      [done|].
    intros obj g1 g2 _. apply create_category_edges_created. }
  revert H. apply (for_each_preserves (fun g => created_upto g None)); [done|].
  intros tr g1 g2 _. apply create_transition_created.
Qed.

(** The adjacency lists list the edges by their ends. *)
Lemma append_at_spec l i x l' :
  append_at l i x = inr l' →
  length l' = length l ∧
  ∀ u lu, l' !! u = Some lu →
    ∃ lu0, l !! u = Some lu0 ∧
      lu = if decide (u = i) then lu0 ++ [x] else lu0.
Proof.
  unfold append_at. intros H. inv_bind1 H. injection H as <-.
  apply index_inr in Ha. split; [by rewrite length_insert|].
  intros u lu Hu. destruct (decide (u = i)) as [->|Hne].
  - rewrite list_lookup_insert_eq in Hu by (by eapply lookup_lt_Some).
    injection Hu as <-. eauto.
  - rewrite list_lookup_insert_ne in Hu by done. eauto.
Qed.

Lemma update_adjacency_wf g g' :
  created_upto g None → update_adjacency g = inr g' → wf_graph g'.
Proof.
  intros Hc H. unfold update_adjacency in H. inv_bind1 H.
  destruct a as [inc out]. injection H as <-.
  set (n := length (_nodes g)) in *.
  set (P (done : list (nat * Edge)) (s : list (list nat) * list (list nat)) :=
         length s.2 = n ∧
         ∀ u lu j, s.2 !! u = Some lu →
           (j ∈ lu ↔ ∃ e, (j, e) ∈ done ∧ from_node e = u)).
  assert (HP : P (imap (fun i e => (i, e)) (_edges g)) (inc, out)).
  { revert Ha. apply (for_each_inv P).
    - split; [apply length_replicate|]. simpl. intros u lu j Hu.
      apply lookup_replicate in Hu as [-> _]. set_solver.
    - intros done [j e] rest [inc1 out1] [inc2 out2] Hl [Hlen Hout] Hb.
      simpl in *. do 2 inv_bind1 Hb. injection Hb as <- <-.
      apply append_at_spec in Ha as [Hlen' Hspec]. split; [simpl; lia|].
      simpl.
      intros u lu j' Hu. destruct (Hspec _ _ Hu) as (lu0 & Hu0 & ->).
      specialize (Hout _ _ j' Hu0). case_decide as Hi.
      + rewrite elem_of_app, list_elem_of_singleton, Hout. split.
        * intros [(e' & ? & ?)| ->]; [exists e'|exists e]; set_solver.
        * intros (e' & He' & Hf). apply elem_of_app in He' as [He'|He'].
          -- left. eauto.
          -- apply list_elem_of_singleton in He'. injection He' as -> ->.
             by right.
      + rewrite Hout. split.
        * intros (e' & ? & ?). exists e'. set_solver.
        * intros (e' & He' & Hf). apply elem_of_app in He' as [He'|He'].
          -- eauto.
          -- apply list_elem_of_singleton in He'. injection He' as -> ->.
             done. }
  destruct HP as [Hlen Hout]. simpl in *.
  split; [|split; [done|]].
  - destruct Hc. by split.
  - simpl. intros u lu j Hu. rewrite (Hout _ _ j Hu). split.
    + intros (e & He & Hf). exists e. split; [|done].
      apply elem_of_lookup_imap in He as (i & e' & [= -> ->] & He). done.
    + intros (e & He & Hf). exists e. split; [|done].
      apply elem_of_lookup_imap. eauto.
Qed.

(** The graph on which the propagation starts is well formed. *)
Lemma built_wf objects transitions g :
  built objects transitions = inr g → wf_graph g.
Proof.
  unfold built. intros H. inv_bind1 H.
  eapply update_adjacency_wf; [|done]. by eapply _create_created.
Qed.

Section WellFormed.
Variable g : Graph.
Hypothesis Hwf : wf_graph g.

Lemma wf_out u out j :
  _out_edges g !! u = Some out →
  (j ∈ out ↔ ∃ e, _edges g !! j = Some e ∧ from_node e = u).
Proof. apply Hwf. Qed.

Lemma wf_out_length : length (_out_edges g) = length (_nodes g).
Proof. apply Hwf. Qed.

Lemma wf_bounds j e :
  _edges g !! j = Some e →
  (from_node e < length (_nodes g))%nat ∧ (to_node e < length (_nodes g))%nat.
Proof. apply (cr_bounds _ _ (proj1 Hwf)). Qed.

Lemma wf_into_transition j e tr c :
  _edges g !! j = Some e →
  _nodes g !! to_node e = Some (NodeTransition tr c) →
  cost e = input_cost tr ∧
  ∃ a o c', a ∈ get_input_objects tr ∧
    obj_to_node g !! a = Some (from_node e) ∧
    _nodes g !! from_node e = Some (NodeObject o c').
Proof. apply (cr_into_transition _ _ (proj1 Hwf)). Qed.

Lemma wf_from_transition j e tr c :
  _edges g !! j = Some e →
  _nodes g !! from_node e = Some (NodeTransition tr c) →
  ∃ o c', _nodes g !! to_node e = Some (NodeObject o c').
Proof. apply (cr_from_transition _ _ (proj1 Hwf)). Qed.

Lemma wf_inputs t tr c :
  _nodes g !! t = Some (NodeTransition tr c) →
  input_edges g t (get_input_objects tr).
Proof. apply (cr_inputs _ _ (proj1 Hwf)). Qed.

Lemma wf_obj a na :
  obj_to_node g !! a = Some na →
  ∃ o c, _nodes g !! na = Some (NodeObject o c) ∧ identifier o = a.
Proof. apply (cr_obj _ _ (proj1 Hwf)). Qed.

Lemma wf_init_obj i o c :
  _nodes g !! i = Some (NodeObject o c) →
  c = if is_natural o then 0 else DEFAULT_COMPLEXITY.
Proof. apply (cr_init_obj _ _ (proj1 Hwf)). Qed.

Lemma wf_init_tr i tr c :
  _nodes g !! i = Some (NodeTransition tr c) → c = -1.
Proof. apply (cr_init_tr _ _ (proj1 Hwf)). Qed.
End WellFormed.

Section PropagationInvariant.
Variable g : Graph.
Hypothesis Hwf : wf_graph g.

Lemma kind_transition ns tv cur i tr c :
  prop_inv g ns tv cur → ns !! i = Some (NodeTransition tr c) →
  ∃ c0, _nodes g !! i = Some (NodeTransition tr c0).
Proof.
  intros Hinv Hi.
  destruct (same_payload_lookup _ _ _ _ (pi_kinds _ _ _ _ Hinv) Hi)
    as ([o c0|tr0 c0] & Hl & Hp); simpl in Hp; [done|]. subst. eauto.
Qed.

Lemma kind_object ns tv cur i o c :
  prop_inv g ns tv cur → ns !! i = Some (NodeObject o c) →
  ∃ c0, _nodes g !! i = Some (NodeObject o c0).
Proof.
  intros Hinv Hi.
  destruct (same_payload_lookup _ _ _ _ (pi_kinds _ _ _ _ Hinv) Hi)
    as ([o0 c0|tr0 c0] & Hl & Hp); simpl in Hp; [|done]. subst. eauto.
Qed.

Lemma reached_nonneg ns tv cur i n :
  prop_inv g ns tv cur → ns !! i = Some n → reached n → 0 ≤ complexity n.
Proof.
  intros Hinv Hi Hr. destruct n as [o c|tr c]; simpl in *.
  - by destruct (pi_obj_range _ _ _ _ Hinv _ _ _ Hi) as [[? ?] _].
  - destruct (pi_tr_range _ _ _ _ Hinv _ _ _ Hi); [done|lia].
Qed.

Lemma propagate_edge_effect ns tv u d done j e ns' tv' :
  prop_inv g ns tv (Some (u, d, done)) →
  _edges g !! j = Some e → from_node e = u →
  propagate_edge g d j (ns, tv) = inr (ns', tv') →
  ∃ n n', edge_effect ns tv u d e ns' tv' n n'.
Proof.
  intros Hinv He Hfrom Hstep.
  apply propagate_edge_spec in Hstep
    as (e' & n & n' & b & He' & Hn & Hupd & -> & ->).
  rewrite He in He'. injection He' as <-.
  apply update_complexity_spec in Hupd as [Hlt Hupd].
  destruct (pi_cur _ _ _ _ Hinv _ _ _ eq_refl)
    as (Hutv & (nu & Hnu & Hd & Hru) & _).
  pose proof (reached_nonneg _ _ _ _ _ Hinv Hnu Hru) as Hd0.
  rewrite Hd in Hd0. pose proof (cost_range e) as Hc.
  exists n, n'. split; try done.
  - intros i Hi. destruct b; set_solver.
  - intros i Hi. destruct b; set_solver.
  - intros Hv. destruct n as [o cv|tr cv].
    + destruct Hupd as [(? & -> & ->)|(? & -> & ->)]; simpl; [lia|].
      destruct (pi_tv _ _ _ _ Hinv _ Hv) as (n2 & Hn2 & Hr2).
      rewrite Hn in Hn2. by injection Hn2 as <-.
    + destruct Hupd as [(? & -> & _)|(? & -> & _)]; simpl; [lia|].
      destruct (pi_tr_range _ _ _ _ Hinv _ _ _ Hn); lia.
  - intros Hv. rewrite Hv, Hnu in Hn. injection Hn as ->.
    destruct n as [o cv|tr cv]; simpl in Hd; subst cv.
    + destruct Hupd as [(? & _)|(? & -> & ->)]; [lia|done].
    + destruct (kind_transition _ _ _ _ _ _ Hinv Hnu) as [c0 Hc0].
      rewrite <- Hfrom in Hc0.
      destruct (wf_from_transition _ Hwf _ _ _ _ He Hc0) as (o & c' & Ho).
      rewrite Hv, <- Hfrom in Ho. congruence.
  - destruct n as [o cv|tr cv].
    + destruct Hupd as [(? & -> & ->)|(? & -> & ->)].
      * repeat split; try lia; set_solver.
      * destruct (pi_obj_range _ _ _ _ Hinv _ _ _ Hn) as [[? ?] _].
        repeat split; lia.
    + destruct Hupd as [(? & -> & ->)|(? & -> & ->)].
      * case_bool_decide; repeat split; try lia; try done;
          first [set_solver | by left].
      * repeat split; try lia; set_solver.
Qed.
Lemma effect_lookup ns tv u d e ns' tv' n n' i :
  edge_effect ns tv u d e ns' tv' n n' →
  ns' !! i = if decide (i = to_node e) then Some n' else ns !! i.
Proof.
  intros H. rewrite (ee_new _ _ _ _ _ _ _ _ _ H). case_decide as Hi.
  - subst i. apply list_lookup_insert_eq.
    eapply lookup_lt_Some, (ee_old _ _ _ _ _ _ _ _ _ H).
  - by apply list_lookup_insert_ne.
Qed.

(** A source that waits for no visit after the step has the node it had
    before. *)
Lemma effect_source ns tv u d e ns' tv' n n' s o c :
  edge_effect ns tv u d e ns' tv' n n' →
  ns' !! s = Some (NodeObject o c) → s ∉ tv' →
  ns !! s = Some (NodeObject o c).
Proof.
  intros H Hs Hnot. rewrite (effect_lookup _ _ _ _ _ _ _ _ _ _ H) in Hs.
  case_decide as Hi; [|done]. subst s. injection Hs as ->.
  pose proof (ee_change _ _ _ _ _ _ _ _ _ H) as Hch.
  rewrite (ee_old _ _ _ _ _ _ _ _ _ H).
  destruct n as [o0 cv|]; [|done]. destruct Hch as (-> & _ & _ & _ & Heq).
  by rewrite (Heq Hnot).
Qed.

Lemma delivered_after_edge ns tv u d done j e ns' tv' n n' j' e' c' :
  prop_inv g ns tv (Some (u, d, done)) →
  edge_effect ns tv u d e ns' tv' n n' →
  _edges g !! j = Some e → from_node e = u →
  _edges g !! j' = Some e' →
  delivered ns' tv' (Some (u, d, done ++ [j])) j' e' c' →
  delivered ns tv (Some (u, d, done)) j' e' c' ∨ (j' = j ∧ e' = e ∧ c' = d).
Proof.
  intros Hinv Heff He Hfrom He' ([o Ho] & Hc' & Hnot & Hcur).
  pose proof (effect_source _ _ _ _ _ _ _ _ _ _ _ _ Heff Ho Hnot) as Ho'.
  assert (Hnot' : from_node e' ∉ tv).
  { intros Hin. by apply Hnot, (ee_tv_incl _ _ _ _ _ _ _ _ _ Heff). }
  destruct (decide (from_node e' = u)) as [Hu|Hu].
  - specialize (Hcur d (done ++ [j])). rewrite Hu in Hcur.
    specialize (Hcur eq_refl). apply elem_of_app in Hcur as [Hin|Hin].
    + left. repeat split; eauto. intros d0 done0 [= _ <- <-]. done.
    + apply list_elem_of_singleton in Hin. subst j'. right.
      rewrite He in He'. injection He' as <-. repeat split; [done..|].
      destruct (pi_cur _ _ _ _ Hinv _ _ _ eq_refl)
        as (_ & (nu & Hnu & Hd & _) & _).
      rewrite Hfrom, Hnu in Ho'. injection Ho' as ->. done.
  - left. repeat split; eauto. intros d0 done0 [= Heq _ _]. done.
Qed.

Lemma target_ok_after_edge ns tv u d e ns' tv' n n' e' c :
  edge_effect ns tv u d e ns' tv' n n' →
  target_ok ns e' c → target_ok ns' e' c.
Proof.
  intros Heff [Hb Hok]. split; [done|]. intros nv Hnv.
  rewrite (effect_lookup _ _ _ _ _ _ _ _ _ _ Heff) in Hnv.
  case_decide as Hi; [|by apply Hok]. injection Hnv as <-.
  pose proof (ee_change _ _ _ _ _ _ _ _ _ Heff) as Hch.
  rewrite Hi in Hok. specialize (Hok _ (ee_old _ _ _ _ _ _ _ _ _ Heff)).
  destruct n as [o cv|tr cv], n' as [o' cv'|tr' cv']; try done.
  - destruct Hch as (_ & _ & ? & _). lia.
  - destruct Hch as (_ & ? & _ & Hle & _ & _). destruct Hok as [Hne ?].
    specialize (Hle Hne). split; [done|lia].
Qed.

Lemma target_ok_new_edge ns tv u d e ns' tv' n n' :
  edge_effect ns tv u d e ns' tv' n n' → target_ok ns' e d.
Proof.
  intros Heff. split; [apply (ee_bound _ _ _ _ _ _ _ _ _ Heff)|].
  intros nv Hnv. rewrite (effect_lookup _ _ _ _ _ _ _ _ _ _ Heff) in Hnv.
  rewrite decide_True in Hnv by done. injection Hnv as <-.
  pose proof (ee_change _ _ _ _ _ _ _ _ _ Heff) as Hch.
  destruct n as [o cv|tr cv], n' as [o' cv'|tr' cv']; try done.
  - destruct Hch as (_ & _ & _ & ? & _). lia.
  - destruct Hch as (_ & ? & ? & _). done.
Qed.

(** The invariant goes through the body of the [for]. *)
Lemma prop_inv_edge ns tv u d done j ns' tv' :
  prop_inv g ns tv (Some (u, d, done)) →
  (∃ e, _edges g !! j = Some e ∧ from_node e = u) →
  propagate_edge g d j (ns, tv) = inr (ns', tv') →
  prop_inv g ns' tv' (Some (u, d, done ++ [j])).
Proof.
  intros Hinv (e & He & Hfrom) Hstep.
  destruct (propagate_edge_effect _ _ _ _ _ _ _ _ _ Hinv He Hfrom Hstep)
    as (n & n' & Heff).
  pose proof (ee_change _ _ _ _ _ _ _ _ _ Heff) as Hch.
  pose proof (ee_old _ _ _ _ _ _ _ _ _ Heff) as Hold.
  pose proof (fun i => effect_lookup _ _ _ _ _ _ _ _ _ i Heff) as Hlk.
  destruct (pi_cur _ _ _ _ Hinv _ _ _ eq_refl)
    as (Hutv & (nu & Hnu & Hd & Hru) & Hdone).
  split.
  - (* kinds *)
    rewrite (ee_new _ _ _ _ _ _ _ _ _ Heff).
    pose proof (pi_kinds _ _ _ _ Hinv) as HF.
    rewrite <- (list_insert_id (_nodes g) (to_node e)
                  (default n (_nodes g !! to_node e))).
    2:{ destruct (Forall2_lookup_r _ _ _ _ _ HF Hold) as (n0 & -> & _).
        done. }
    apply Forall2_insert; [done|].
    destruct (Forall2_lookup_r _ _ _ _ _ HF Hold) as (n0 & -> & Hp). simpl.
    destruct n0, n, n'; simpl in *; try done.
    + destruct Hch as (-> & _). done.
    + destruct Hch as (-> & _). done.
  - (* objects *)
    intros i o c Hi. rewrite Hlk in Hi. case_decide as Hiv.
    + injection Hi as ->. destruct n as [o0 cv|]; [|done].
      destruct Hch as (-> & ? & ? & ? & _).
      destruct (pi_obj_range _ _ _ _ Hinv _ _ _ Hold) as [[? ?] Hnat].
      split; [lia|]. intros Hn. specialize (Hnat Hn). lia.
    + by eapply (pi_obj_range _ _ _ _ Hinv).
  - (* transitions *)
    intros i tr c Hi. rewrite Hlk in Hi. case_decide as Hiv.
    + injection Hi as ->. destruct n as [|tr0 cv]; [done|].
      destruct Hch as (-> & ? & ? & _).
      pose proof (reached_nonneg _ _ _ _ _ Hinv Hnu Hru).
      pose proof (cost_range e). right. lia.
    + by eapply (pi_tr_range _ _ _ _ Hinv).
  - (* the work-set *)
    intros i Hi. rewrite Hlk. case_decide as Hiv.
    + subst i. eexists. split; [done|].
      by apply (ee_reached _ _ _ _ _ _ _ _ _ Heff).
    + destruct (ee_tv_new _ _ _ _ _ _ _ _ _ Heff _ Hi); [|done].
      by apply (pi_tv _ _ _ _ Hinv).
  - (* the node in progress *)
    intros u0 d0 done0 [= <- <- <-]. split; [|split].
    + intros Hin. destruct (ee_tv_new _ _ _ _ _ _ _ _ _ Heff _ Hin) as [|Hv];
        [done|].
      destruct (ee_self _ _ _ _ _ _ _ _ _ Heff (eq_sym Hv)) as [_ Htv].
      by rewrite Htv in Hin.
    + exists nu. split; [|done]. rewrite Hlk. case_decide as Hiv; [|done].
      destruct (ee_self _ _ _ _ _ _ _ _ _ Heff (eq_sym Hiv)) as [-> _].
      rewrite Hiv in Hnu. congruence.
    + intros j0 Hj0. apply elem_of_app in Hj0 as [Hj0|Hj0]; [by apply Hdone|].
      apply list_elem_of_singleton in Hj0. subst j0. eauto.
  - (* delivered edges *)
    intros j' e' c' He' Hdel.
    destruct (delivered_after_edge _ _ _ _ _ _ _ _ _ _ _ _ _ _
                Hinv Heff He Hfrom He' Hdel) as [Hold'|(-> & -> & ->)].
    + eapply target_ok_after_edge; [done|].
      by eapply (pi_deliv _ _ _ _ Hinv).
    + by eapply target_ok_new_edge.
  - (* transitions that wait for no visit *)
    intros t tr c Ht Hc Htv Hcur.
    assert (Htv0 : t ∉ tv).
    { intros Hin. by apply Htv, (ee_tv_incl _ _ _ _ _ _ _ _ _ Heff). }
    assert (Hcur0 : ∀ d0 done0, Some (u, d, done) ≠ Some (t, d0, done0)).
    { intros d0 done0 [= -> <- <-]. by apply (Hcur d (done ++ [j])). }
    rewrite Hlk in Ht. case_decide as Hiv.
    + (* the target of the edge: its first delivery *)
      injection Ht as ->. subst t.
      destruct n as [|tr0 cv]; [done|].
      destruct Hch as (-> & _ & _ & _ & Hfirst & _).
      destruct (Hfirst Htv) as [-> Hlen]. right. split; [done|].
      intros j1 e1 c1 j2 e2 c2 He1 He2 Ht1 Ht2 Hd1 Hd2.
      destruct (delivered_after_edge _ _ _ _ _ _ _ _ _ _ _ _ _ _
                  Hinv Heff He Hfrom He1 Hd1) as [Ho1|(-> & _)];
      destruct (delivered_after_edge _ _ _ _ _ _ _ _ _ _ _ _ _ _
                  Hinv Heff He Hfrom He2 Hd2) as [Ho2|(-> & _)]; try done.
      all: exfalso.
      all: first
        [ destruct (pi_deliv _ _ _ _ Hinv _ _ _ He1 Ho1) as [_ Hok];
          rewrite Ht1 in Hok
        | destruct (pi_deliv _ _ _ _ Hinv _ _ _ He2 Ho2) as [_ Hok];
          rewrite Ht2 in Hok ].
      all: by destruct (Hok _ Hold).
    + destruct (pi_fired _ _ _ _ Hinv _ _ _ Ht Hc Htv0 Hcur0)
        as [Hcl|[Hlen Hpend]].
      * left. intros j0 e0 He0 Hf0.
        eapply target_ok_after_edge; [done|]. by eapply Hcl.
      * right. split; [done|].
        intros j1 e1 c1 j2 e2 c2 He1 He2 Ht1 Ht2 Hd1 Hd2.
        destruct (delivered_after_edge _ _ _ _ _ _ _ _ _ _ _ _ _ _
                    Hinv Heff He Hfrom He1 Hd1) as [Ho1|(-> & -> & _)];
          [|done].
        destruct (delivered_after_edge _ _ _ _ _ _ _ _ _ _ _ _ _ _
                    Hinv Heff He Hfrom He2 Hd2) as [Ho2|(-> & -> & _)];
          [|done].
        by eapply Hpend.
  - (* the transition in progress *)
    intros t d0 done0 tr c [= <- <- <-] Ht j0 e0 Hj0 He0.
    assert (Ht0 : ns !! u = Some (NodeTransition tr c)).
    { rewrite Hlk in Ht. case_decide as Hiv; [|done].
      destruct (ee_self _ _ _ _ _ _ _ _ _ Heff (eq_sym Hiv)) as [-> _].
      by rewrite Hiv, Hold. }
    rewrite Hnu in Ht0. injection Ht0 as ->. simpl in Hd. subst c.
    apply elem_of_app in Hj0 as [Hj0|Hj0].
    + eapply target_ok_after_edge; [done|].
      by eapply (pi_cur_tr _ _ _ _ Hinv).
    + apply list_elem_of_singleton in Hj0. subst j0.
      rewrite He in He0. injection He0 as <-.
      by eapply target_ok_new_edge.
  - (* the upper bound of the transitions *)
    intros t tr c Ht Hc. rewrite Hlk in Ht. case_decide as Hiv.
    + injection Ht as ->. subst t. destruct n as [|tr0 cv]; [done|].
      destruct Hch as (-> & _ & _ & _ & _ & [->| ->]).
      * destruct (kind_transition _ _ _ _ _ _ Hinv Hold) as [c0 Hc0].
        destruct (wf_into_transition _ Hwf _ _ _ _ He Hc0)
          as (_ & a & o & c' & _ & _ & Ho).
        exists j, e, o, c'. repeat split; try done.
        destruct (same_payload_lookup _ _ _ _ (pi_kinds _ _ _ _ Hinv) Hnu)
          as (n0 & Hn0 & Hp).
        rewrite Hfrom, Hn0 in Ho. injection Ho as ->.
        destruct nu as [o' cu|]; [|done]. simpl in Hp, Hd. subst o' cu.
        destruct (pi_obj_range _ _ _ _ Hinv _ _ _ Hnu) as [[? ?] Hnat].
        rewrite <- Hfrom in Hn0.
        rewrite (wf_init_obj _ Hwf _ _ _ Hn0).
        destruct (is_natural o); [rewrite Hnat by done|]; lia.
      * by eapply (pi_upper _ _ _ _ Hinv).
    + by eapply (pi_upper _ _ _ _ Hinv).
Qed.
Lemma elem_of_zero_nodes ns i :
  i ∈ zero_nodes ns ↔ ∃ n, ns !! i = Some n ∧ complexity n = 0.
Proof.
  unfold zero_nodes. rewrite elem_of_list_to_set, list_elem_of_omap. split.
  - intros ([i' n] & Hin & Hf). apply elem_of_lookup_imap in Hin
      as (k & n0 & [= -> ->] & Hk).
    destruct (Z.eqb_spec (complexity n0) 0); [|done].
    injection Hf as <-. eauto.
  - intros (n & Hn & Hc). exists (i, n). split.
    + apply elem_of_lookup_imap. eauto.
    + by rewrite Hc.
Qed.

(** The invariant holds when the loop starts. *)
Lemma prop_inv_init : prop_inv g (_nodes g) (zero_nodes (_nodes g)) None.
Proof.
  split.
  - apply Forall2_same_length_lookup. split; [done|].
    intros i n n' Hn Hn'. rewrite Hn in Hn'. injection Hn' as <-.
    by destruct n.
  - intros i o c Hi. rewrite (wf_init_obj _ Hwf _ _ _ Hi).
    unfold DEFAULT_COMPLEXITY. destruct (is_natural o); split; done || lia.
  - intros i tr c Hi. left. by eapply wf_init_tr.
  - intros i Hi. apply elem_of_zero_nodes in Hi as (n & Hn & Hc).
    exists n. split; [done|]. destruct n; simpl in *; subst;
      unfold DEFAULT_COMPLEXITY; lia.
  - done.
  - intros j e c He ([o Ho] & Hc & Hnot & _). exfalso. apply Hnot.
    apply elem_of_zero_nodes. eexists. split; [done|]. simpl.
    rewrite (wf_init_obj _ Hwf _ _ _ Ho) in Hc |- *.
    destruct (is_natural o); [done|lia].
  - intros t tr c Ht Hc. by rewrite (wf_init_tr _ Hwf _ _ _ Ht) in Hc.
  - done.
  - intros t tr c Ht Hc. by rewrite (wf_init_tr _ Hwf _ _ _ Ht) in Hc.
Qed.

(** The invariant when a node is popped. *)
Lemma prop_inv_pop ns tv u n :
  prop_inv g ns tv None → u ∈ tv → ns !! u = Some n →
  prop_inv g ns (tv ∖ {[u]}) (Some (u, complexity n, [])).
Proof.
  intros Hinv Hu Hn.
  assert (Hdel : ∀ j e c,
    delivered ns (tv ∖ {[u]}) (Some (u, complexity n, [])) j e c →
    delivered ns tv None j e c).
  { intros j e c (Ho & Hc & Hnot & Hcur). repeat split; try done.
    intros Hin. destruct (decide (from_node e = u)) as [Heq|Hne].
    - rewrite Heq in Hcur. specialize (Hcur _ _ eq_refl).
      by apply elem_of_nil in Hcur.
    - apply Hnot. set_solver. }
  split.
  - apply (pi_kinds _ _ _ _ Hinv).
  - apply (pi_obj_range _ _ _ _ Hinv).
  - apply (pi_tr_range _ _ _ _ Hinv).
  - intros i Hi. apply (pi_tv _ _ _ _ Hinv). set_solver.
  - intros u0 d0 done0 [= <- <- <-]. split; [set_solver|]. split.
    + destruct (pi_tv _ _ _ _ Hinv _ Hu) as (n2 & Hn2 & Hr).
      rewrite Hn in Hn2. injection Hn2 as <-. eauto.
    + intros j Hj. by apply elem_of_nil in Hj.
  - intros j e c He Hd. apply (pi_deliv _ _ _ _ Hinv _ _ _ He). by apply Hdel.
  - intros t tr c Ht Hc Htv Hcur.
    assert (t ≠ u) by (intros ->; by eapply Hcur).
    destruct (pi_fired _ _ _ _ Hinv _ _ _ Ht Hc) as [Hcl|[Hlen Hp]];
      [set_solver|done|by left|].
    right. split; [done|].
    intros j1 e1 c1 j2 e2 c2 He1 He2 Ht1 Ht2 Hd1 Hd2.
    eapply Hp; eauto.
  - intros t d done tr c [= <- <- <-] _ j e Hj. by apply elem_of_nil in Hj.
  - apply (pi_upper _ _ _ _ Hinv).
Qed.

(** The invariant when the [for] is over. *)
Lemma prop_inv_finish ns tv u d out :
  prop_inv g ns tv (Some (u, d, out)) → _out_edges g !! u = Some out →
  prop_inv g ns tv None.
Proof.
  intros Hinv Hout.
  assert (Hdel : ∀ j e c, _edges g !! j = Some e →
    delivered ns tv None j e c → delivered ns tv (Some (u, d, out)) j e c).
  { intros j e c He (Ho & Hc & Hnot & _). repeat split; try done.
    intros d0 done0 [= Hu <- <-]. apply (wf_out _ Hwf _ _ _ Hout). eauto. }
  destruct (pi_cur _ _ _ _ Hinv _ _ _ eq_refl)
    as (Hutv & (nu & Hnu & Hd & Hru) & _).
  split.
  - apply (pi_kinds _ _ _ _ Hinv).
  - apply (pi_obj_range _ _ _ _ Hinv).
  - apply (pi_tr_range _ _ _ _ Hinv).
  - apply (pi_tv _ _ _ _ Hinv).
  - done.
  - intros j e c He Hd'. apply (pi_deliv _ _ _ _ Hinv _ _ _ He).
    by apply Hdel.
  - intros t tr c Ht Hc Htv _. destruct (decide (t = u)) as [->|Hne].
    + left. intros j e He Hfrom.
      eapply (pi_cur_tr _ _ _ _ Hinv); [done|done| |done].
      apply (wf_out _ Hwf _ _ _ Hout). eauto.
    + destruct (pi_fired _ _ _ _ Hinv _ _ _ Ht Hc Htv)
        as [Hcl|[Hlen Hp]]; [by intros d0 done0 [= -> _ _]|by left|].
      right. split; [done|].
      intros j1 e1 c1 j2 e2 c2 He1 He2 Ht1 Ht2 Hd1 Hd2.
      eapply Hp; eauto.
  - done.
  - apply (pi_upper _ _ _ _ Hinv).
Qed.

(** The invariant goes through one iteration of the [while]. *)
Lemma prop_inv_visit ns tv u ns' tv' :
  prop_inv g ns tv None → u ∈ tv →
  propagate_visit g u ns (tv ∖ {[u]}) = inr (ns', tv') →
  prop_inv g ns' tv' None.
Proof.
  intros Hinv Hu Hv. unfold propagate_visit in Hv. do 2 inv_bind1 Hv.
  apply index_inr in Ha, Ha0.
  pose proof (prop_inv_pop _ _ _ _ Hinv Hu Ha) as Hpop.
  eapply (prop_inv_finish ns' tv' u (complexity a) a0); [|done].
  revert Hv.
  apply (for_each_inv
           (fun done s => prop_inv g s.1 s.2 (Some (u, complexity a, done)))
           a0 (propagate_edge g (complexity a)) (ns, tv ∖ {[u]}) (ns', tv'));
    [done|].
  intros done j rest [ns1 tv1] [ns2 tv2] Hl Hi Hstep. simpl in *.
  eapply prop_inv_edge; [done| |done].
  apply (wf_out _ Hwf _ _ j Ha0). rewrite Hl. set_solver.
Qed.

(** The invariant holds when the loop ends. *)
Lemma prop_inv_run ns tv ns' :
  prop_inv g ns tv None →
  ws_run (propagate_visit g) ns tv (inr ns') →
  prop_inv g ns' ∅ None.
Proof.
  intros Hinv Hrun. remember (inr ns') as r eqn:Hr. revert Hinv Hr.
  induction Hrun as [s|s tv c s' tv' r Hc Hb Hrun IH|s tv c e Hc Hb];
    intros Hinv Hr.
  - by injection Hr as ->.
  - apply IH; [|done]. by eapply prop_inv_visit.
  - done.
Qed.

Lemma propagate_complexity_inv ns :
  propagate_complexity g (inr ns) → prop_inv g ns ∅ None.
Proof. apply prop_inv_run, prop_inv_init. Qed.
End PropagationInvariant.

(** ** What the propagation settles *)


Section Settled.
Variables (objects : list Object) (transitions : list Transition).
Variables (g : Graph) (ns : list GraphNode).
Hypothesis Hbuilt : built objects transitions = inr g.
Hypothesis Hrun : propagate_complexity g (inr ns).

Let Hwf : wf_graph g := built_wf _ _ _ Hbuilt.
Let Hinv : prop_inv g ns ∅ None := propagate_complexity_inv _ Hwf _ Hrun.

(** An edge from a reached object node has its target up to date. *)
Lemma settled_edge j e o c :
  _edges g !! j = Some e → ns !! from_node e = Some (NodeObject o c) →
  c < DEFAULT_COMPLEXITY → target_ok ns e c.
Proof.
  intros He Ho Hc. apply (pi_deliv _ _ _ _ Hinv _ _ _ He).
  split; [eauto|]. split; [done|]. split; [set_solver|done].
Qed.

(** The complexity of a transition node is at least that of each reached
    input plus the cost of the edge. *)
Lemma settled_input t tr c a na o ca :
  ns !! t = Some (NodeTransition tr c) → a ∈ get_input_objects tr →
  obj_to_node g !! a = Some na → ns !! na = Some (NodeObject o ca) →
  ca < DEFAULT_COMPLEXITY →
  c ≠ -1 ∧ ca + input_cost tr ≤ c.
Proof.
  intros Ht Ha Hna Ho Hca.
  destruct (kind_transition _ _ _ _ _ _ _ Hinv Ht) as [c0 Hc0].
  destruct (wf_inputs _ Hwf _ _ _ Hc0) as (js & _ & HF).
  apply list_elem_of_lookup in Ha as [k Hk].
  destruct (Forall2_lookup_r _ _ _ _ _ HF Hk) as (j & _ & e & He & Hto & Hf).
  rewrite Hna in Hf. injection Hf as ->.
  destruct (settled_edge _ _ _ _ He Ho Hca) as [_ Hok].
  rewrite Hto in Hok. specialize (Hok _ Ht). simpl in Hok.
  rewrite <- Hto in Hc0.
  destruct (wf_into_transition _ Hwf _ _ _ _ He Hc0) as [<- _]. done.
Qed.

(** It is at most what some input had at the start, plus the cost. *)
Lemma settled_upper t tr c :
  ns !! t = Some (NodeTransition tr c) → c ≠ -1 →
  ∃ a na o c0, a ∈ get_input_objects tr ∧ obj_to_node g !! a = Some na ∧
    _nodes g !! na = Some (NodeObject o c0) ∧ c ≤ c0 + input_cost tr.
Proof.
  intros Ht Hc.
  destruct (pi_upper _ _ _ _ Hinv _ _ _ Ht Hc)
    as (j & e & o & c0 & He & Hto & Ho & Hle).
  destruct (kind_transition _ _ _ _ _ _ _ Hinv Ht) as [c1 Hc1].
  rewrite <- Hto in Hc1.
  destruct (wf_into_transition _ Hwf _ _ _ _ He Hc1)
    as (Hcost & a & o' & c' & Ha & Hna & Ho').
  exists a, (from_node e), o, c0. rewrite <- Hcost. done.
Qed.
End Settled.


(** C10 (as stated) fails where A is natural and B cannot be made: C is
    reachable from A, through the transition of A and B, and stays at the
    unreached value. *)
Lemma C10_reachable_but_unreached :
  ∃ g ns, built (craft_objects false) [craft_transition] = inr g ∧
    (∀ r, propagate_complexity g r ↔ r = inr ns) ∧
    ¬ settles reachable_from_natural g ns.
Proof.
  do 2 eexists. split; [compute_eq|]. split; [all_runs_iff 8%nat|].
  intros [_ H].
  specialize (H 2%nat (mkObject 3 "C" false false []) DEFAULT_COMPLEXITY
                eq_refl).
  unfold DEFAULT_COMPLEXITY in H. cut (0 ≤ 9999999999 < 9999999999); [lia|].
  apply H. exists 0%nat. do 2 eexists. split; [reflexivity|].
  split; [reflexivity|].
  eapply (reach_edge _ _ _ 0%nat); [|reflexivity|done|reflexivity].
  eapply (reach_edge _ _ _ 1%nat); [|reflexivity|done|reflexivity].
  apply reach_refl.
Qed.

(** A derivable node is reached and, when it is a transition node, its
    outputs are up to date. *)
Lemma derivable_reached objects transitions g ns i :
  built objects transitions = inr g →
  propagate_complexity g (inr ns) →
  derivable g i →
  ∃ n, ns !! i = Some n ∧ reached n ∧
    ∀ tr c, n = NodeTransition tr c → fired_closed g ns i c.
Proof.
  intros Hb Hr Hd.
  pose proof (built_wf _ _ _ Hb) as Hwf.
  pose proof (propagate_complexity_inv _ Hwf _ Hr) as Hinv.
  assert (Hobj : ∀ i o c0, _nodes g !! i = Some (NodeObject o c0) →
            ∃ c, ns !! i = Some (NodeObject o c)).
  { intros i' o c0 Hi.
    destruct (Forall2_lookup_l _ _ _ _ _ (pi_kinds _ _ _ _ Hinv) Hi)
      as ([o' c|] & Hn & Hp); [|done]. simpl in Hp. subst. eauto. }
  assert (Htr : ∀ i tr c0, _nodes g !! i = Some (NodeTransition tr c0) →
            ∃ c, ns !! i = Some (NodeTransition tr c)).
  { intros i' tr c0 Hi.
    destruct (Forall2_lookup_l _ _ _ _ _ (pi_kinds _ _ _ _ Hinv) Hi)
      as ([|tr' c] & Hn & Hp); [done|]. simpl in Hp. subst. eauto. }
  assert (Hinput : ∀ a na, obj_to_node g !! a = Some na →
            (∃ n, ns !! na = Some n ∧ reached n ∧
               ∀ tr c, n = NodeTransition tr c → fired_closed g ns na c) →
            ∃ o c, ns !! na = Some (NodeObject o c) ∧ c < DEFAULT_COMPLEXITY).
  { intros a na Ha (n & Hn & Hre & _).
    destruct (wf_obj _ Hwf _ _ Ha) as (o & c0 & Ho & _).
    destruct (Hobj _ _ _ Ho) as [c Hc]. rewrite Hn in Hc.
    injection Hc as ->. eauto. }
  induction Hd as [i o c Hi Hnat|j e o c He Hd IH Hto
                   |t tr c a na Ht Hin Hna Hd IH
                   |t tr c a b na nb Ht Hin Hna Hda IHa Hnb Hdb IHb].
  - destruct (Hobj _ _ _ Hi) as [c' Hc']. eexists. split; [done|].
    destruct (pi_obj_range _ _ _ _ Hinv _ _ _ Hc') as [_ H0].
    rewrite (H0 Hnat). split; [by unfold reached, DEFAULT_COMPLEXITY|done].
  - destruct (Hobj _ _ _ Hto) as [c' Hc']. eexists. split; [done|].
    split; [|done]. destruct IH as (n & Hn & Hre & Hcl).
    assert (Hok : target_ok ns e (complexity n)).
    { destruct n as [o' cs|tr cs]; simpl in *.
      - by eapply settled_edge.
      - by eapply Hcl. }
    destruct Hok as [Hlt Hok]. specialize (Hok _ Hc'). simpl in *. lia.
  - destruct (Htr _ _ _ Ht) as [c' Hc'].
    destruct (Hinput _ _ Hna IH) as (o & ca & Ho & Hca).
    destruct (settled_input _ _ _ _ Hb Hr t tr c' a na o ca Hc')
      as [Hne _]; [rewrite Hin; set_solver|done..|].
    eexists. split; [done|]. split; [done|]. intros tr' c'' [= <- <-].
    destruct (pi_fired _ _ _ _ Hinv _ _ _ Hc' Hne) as [?|[Hlen _]];
      [set_solver|done|done|]. by rewrite Hin in Hlen.
  - destruct (Htr _ _ _ Ht) as [c' Hc'].
    destruct (Hinput _ _ Hna IHa) as (oa & ca & Hoa & Hca).
    destruct (Hinput _ _ Hnb IHb) as (ob & cb & Hob & Hcb).
    destruct (settled_input _ _ _ _ Hb Hr t tr c' a na oa ca Hc')
      as [Hne _]; [rewrite Hin; set_solver|done..|].
    eexists. split; [done|]. split; [done|]. intros tr' c'' [= <- <-].
    destruct (pi_fired _ _ _ _ Hinv _ _ _ Hc' Hne) as [?|[_ Hpend]];
      [set_solver|done|done|]. exfalso.
    destruct (wf_inputs _ Hwf _ _ _ Ht) as (js & Hnd & HF).
    rewrite Hin in HF.
    apply Forall2_cons_inv_r in HF
      as (j1 & js1 & (e1 & He1 & Ht1 & Hf1) & HF & ->).
    apply Forall2_cons_inv_r in HF
      as (j2 & js2 & (e2 & He2 & Ht2 & Hf2) & HF & ->).
    rewrite Hna in Hf1. injection Hf1 as ->.
    rewrite Hnb in Hf2. injection Hf2 as ->.
    assert (j1 = j2) as ->.
    { eapply (Hpend j1 e1 ca j2 e2 cb); try done.
      - split; [eauto|]. split; [done|]. split; [set_solver|done].
      - split; [eauto|]. split; [done|]. split; [set_solver|done]. }
    apply NoDup_cons in Hnd as [Hnd _]. set_solver.
Qed.

(** C10 (amended): after the propagation every natural object node has
    complexity 0, and every object node derivable from the natural ones
    (a transition counting once all its input objects are derivable) has
    a complexity from 0, below the unreached value. *)
Theorem C10_natural_and_derivable objects transitions g ns :
  built objects transitions = inr g →
  propagate_complexity g (inr ns) →
  settles derivable g ns.
Proof.
  intros Hb Hr.
  pose proof (built_wf _ _ _ Hb) as Hwf.
  pose proof (propagate_complexity_inv _ Hwf _ Hr) as Hinv.
  split.
  - intros i o c Hi. by apply (pi_obj_range _ _ _ _ Hinv _ _ _ Hi).
  - intros i o c Hi Hd.
    destruct (derivable_reached _ _ _ _ _ Hb Hr Hd) as (n & Hn & Hre & _).
    rewrite Hi in Hn. injection Hn as <-. simpl in Hre.
    destruct (pi_obj_range _ _ _ _ Hinv _ _ _ Hi) as [[? ?] _]. lia.
Qed.

(** ** Running the propagation again *)

Section Rerun.
Variables (objects : list Object) (transitions : list Transition).
Variables (g : Graph) (ns : list GraphNode).
Hypothesis Hbuilt : built objects transitions = inr g.
Hypothesis Hrun : propagate_complexity g (inr ns).
Hypothesis Hinputs : inputs_reached g ns.

Let Hwf : wf_graph g := built_wf _ _ _ Hbuilt.
Let Hinv : prop_inv g ns ∅ None := propagate_complexity_inv _ Hwf _ Hrun.

(** The outputs of every reached transition node are up to date. *)
Lemma rerun_transition_closed t tr c :
  ns !! t = Some (NodeTransition tr c) → c ≠ -1 → fired_closed g ns t c.
Proof.
  intros Ht Hc.
  destruct (pi_fired _ _ _ _ Hinv _ _ _ Ht Hc) as [?|[Hlen Hpend]];
    [set_solver|done|done|]. exfalso.
  destruct (kind_transition _ _ _ _ _ _ _ Hinv Ht) as [c0 Hc0].
  destruct (wf_inputs _ Hwf _ _ _ Hc0) as (js & Hnd & HF).
  assert (Hdel : ∀ k j, js !! k = Some j →
            ∃ e ca, _edges g !! j = Some e ∧ to_node e = t ∧
              delivered ns ∅ None j e ca).
  { intros k j Hk.
    destruct (Forall2_lookup_l _ _ _ _ _ HF Hk)
      as (a & Ha & e & He & Hto & Hf).
    destruct (Hinputs _ _ _ a Ht Hc) as (na & o & ca & Hna & Ho & Hca).
    { by eapply list_elem_of_lookup_2. }
    rewrite Hna in Hf. injection Hf as ->. exists e, ca.
    split; [done|]. split; [done|].
    split; [eauto|]. split; [done|]. split; [set_solver|done]. }
  destruct (settled_upper _ _ _ _ Hbuilt Hrun _ _ _ Ht Hc)
    as (a & _ & _ & _ & Ha & _).
  pose proof (Forall2_length _ _ _ HF) as Hl.
  destruct js as [|j1 [|j2 js]].
  - destruct (get_input_objects tr); [set_solver|done].
  - by rewrite <- Hl in Hlen.
  - destruct (Hdel 0%nat j1 eq_refl) as (e1 & c1 & He1 & Ht1 & Hd1).
    destruct (Hdel 1%nat j2 eq_refl) as (e2 & c2 & He2 & Ht2 & Hd2).
    assert (j1 = j2) as -> by (by eapply (Hpend j1 e1 c1 j2 e2 c2)).
    apply NoDup_cons in Hnd as [Hnd _]. set_solver.
Qed.

(** Every edge from a reached node has its target up to date. *)
Lemma rerun_closed j e n :
  _edges g !! j = Some e → ns !! from_node e = Some n → reached n →
  target_ok ns e (complexity n).
Proof.
  intros He Hn Hre. destruct n as [o c|tr c]; simpl in *.
  - by eapply settled_edge.
  - by eapply rerun_transition_closed.
Qed.

(** The body of the [for] changes no node, and adds to the work-set
    transition nodes only. *)
Lemma rerun_edge j e n tv :
  _edges g !! j = Some e → ns !! from_node e = Some n → reached n →
  ∃ b : bool,
    propagate_edge g (complexity n) j (ns, tv)
    = inr (ns, if b then {[to_node e]} ∪ tv else tv) ∧
    (b = true →
     is_object_at ns (to_node e) = false ∧ is_object_at ns (from_node e) = true
     ∧ ∃ n', ns !! to_node e = Some n' ∧ reached n').
Proof.
  intros He Hn Hre.
  destruct (rerun_closed _ _ _ He Hn Hre) as [Hlt Hok].
  destruct (wf_bounds _ Hwf _ _ He) as [_ Hto].
  rewrite (Forall2_length _ _ _ (pi_kinds _ _ _ _ Hinv)) in Hto.
  apply lookup_lt_is_Some in Hto as [nv Hnv]. specialize (Hok _ Hnv).
  unfold propagate_edge. rewrite (proj2 (index_inr _ _ _) He). simpl.
  rewrite (proj2 (index_inr _ _ _) Hnv). simpl.
  unfold update_complexity.
  rewrite (proj2 (assert_inr _ tt)) by (by apply Z.ltb_lt). simpl.
  destruct nv as [o cv|tr cv].
  - exists false. destruct (Z.ltb_spec (complexity n + cost e) cv); [lia|].
    simpl. rewrite list_insert_id by done. done.
  - exists true. destruct Hok as [Hne Hle].
    destruct (Z.eqb_spec cv (-1)); [done|]. simpl.
    rewrite Z.max_l by done. rewrite list_insert_id by done.
    split; [done|]. intros _. unfold is_object_at. rewrite Hnv.
    split; [done|]. split; [|eauto].
    destruct (kind_transition _ _ _ _ _ _ _ Hinv Hnv) as [c0 Hc0].
    destruct (wf_into_transition _ Hwf _ _ _ _ He Hc0)
      as (_ & a & o & c' & _ & _ & Ho).
    destruct (Forall2_lookup_l _ _ _ _ _ (pi_kinds _ _ _ _ Hinv) Ho)
      as ([o' c1|] & Hn1 & Hp); [|done]. by rewrite Hn1.
Qed.

Lemma rerun_edges u n out tv :
  ns !! u = Some n → reached n →
  (∀ j, j ∈ out → ∃ e, _edges g !! j = Some e ∧ from_node e = u) →
  ∃ tv', for_each out (propagate_edge g (complexity n)) (ns, tv)
         = inr (ns, tv') ∧
    tv ⊆ tv' ∧
    ∀ i, i ∈ tv' → i ∈ tv ∨
      (is_object_at ns i = false ∧ is_object_at ns u = true ∧
       ∃ n', ns !! i = Some n' ∧ reached n').
Proof.
  intros Hn Hre. revert tv. induction out as [|j out IH]; intros tv Hout.
  - exists tv. split; [done|]. split; [done|]. by left.
  - destruct (Hout j) as (e & He & Hfrom); [set_solver|]. subst u.
    destruct (rerun_edge j e n tv He Hn Hre) as (b & Hstep & Hb).
    destruct (IH (if b then {[to_node e]} ∪ tv else tv)) as (tv' & Hfor & Hsub & Hadd).
    { intros j' Hj'. apply Hout. set_solver. }
    exists tv'. change (for_each (j :: out) ?f ?s) with
      (s' ← f j s; for_each out f s'). rewrite Hstep. split; [done|]. split.
    + destruct b; set_solver.
    + intros i Hi. destruct (Hadd _ Hi) as [Hi'|?]; [|by right].
      destruct b; [|by left].
      apply elem_of_union in Hi' as [Hi'|?]; [|by left].
      apply elem_of_singleton in Hi'. subst i. right.
      destruct (Hb eq_refl) as (? & ? & ?). done.
Qed.

Lemma rerun_visit u tv :
  rerun_inv ns tv → u ∈ tv →
  ∃ tv', propagate_visit g u ns (tv ∖ {[u]}) = inr (ns, tv') ∧
    rerun_inv ns tv' ∧ (rerun_measure ns tv' < rerun_measure ns tv)%nat.
Proof.
  intros Hri Hu. destruct (Hri _ Hu) as (n & Hn & Hre).
  assert (Hlen : length (_out_edges g) = length ns).
  { rewrite (wf_out_length _ Hwf).
    apply (Forall2_length _ _ _ (pi_kinds _ _ _ _ Hinv)). }
  assert (Hout : is_Some (_out_edges g !! u)).
  { apply lookup_lt_is_Some. rewrite Hlen. by eapply lookup_lt_Some. }
  destruct Hout as [out Hout].
  destruct (rerun_edges u n out (tv ∖ {[u]}) Hn Hre)
    as (tv' & Hfor & Hsub & Hadd).
  { intros j Hj. by apply (wf_out _ Hwf _ _ _ Hout). }
  exists tv'. unfold propagate_visit.
  rewrite (proj2 (index_inr _ _ _) Hn). simpl.
  rewrite (proj2 (index_inr _ _ _) Hout). simpl. split; [done|].
  assert (Hri' : rerun_inv ns tv').
  { intros i Hi. destruct (Hadd _ Hi) as [?|(_ & _ & ?)]; [|done].
    apply Hri. set_solver. }
  split; [done|]. unfold rerun_measure.
  set (O := filter (fun i => is_object_at ns i = true)).
  set (T := filter (fun i => is_object_at ns i = false)).
  assert (HT : (size (T tv') ≤ length ns)%nat).
  { rewrite <- (size_set_seq (C := gset nat) 0 (length ns)).
    apply subseteq_size. intros i Hi. apply elem_of_filter in Hi as [_ Hi].
    apply elem_of_set_seq. destruct (Hri' _ Hi) as (n' & Hn' & _).
    apply lookup_lt_Some in Hn'. lia. }
  destruct (is_object_at ns u) eqn:Hobj.
  - assert (size (O tv') < size (O tv))%nat; [|nia].
    apply subset_size. split.
    + intros i Hi. apply elem_of_filter in Hi as [Hio Hi].
      apply elem_of_filter. split; [done|].
      destruct (Hadd _ Hi) as [?|(? & _)]; [set_solver|congruence].
    + intros Hsubs. assert (Hin : u ∈ O tv) by (by apply elem_of_filter).
      apply Hsubs, elem_of_filter in Hin as [_ Hin].
      destruct (Hadd _ Hin) as [?|(? & _)]; [set_solver|congruence].
  - assert (Heq : tv' = tv ∖ {[u]}).
    { apply set_eq. intros i. split; [|by apply Hsub].
      intros Hi. destruct (Hadd _ Hi) as [?|(_ & ? & _)]; [done|congruence]. }
    rewrite Heq.
    assert (size (O (tv ∖ {[u]})) ≤ size (O tv))%nat.
    { apply subseteq_size. intros i Hi. apply elem_of_filter in Hi as [? ?].
      apply elem_of_filter. set_solver. }
    assert (size (T (tv ∖ {[u]})) < size (T tv))%nat; [|nia].
    apply subset_size. split.
    + intros i Hi. apply elem_of_filter in Hi as [? ?].
      apply elem_of_filter. set_solver.
    + intros Hsubs. assert (Hin : u ∈ T tv) by (by apply elem_of_filter).
      apply Hsubs, elem_of_filter in Hin as [_ Hin]. set_solver.
Qed.
Lemma rerun_inv_zero : rerun_inv ns (zero_nodes ns).
Proof.
  intros i Hi. apply elem_of_zero_nodes in Hi as (n & Hn & Hc).
  exists n. split; [done|].
  destruct n; simpl in *; subst; unfold DEFAULT_COMPLEXITY; lia.
Qed.

Lemma rerun_sn tv :
  rerun_inv ns tv → sn (ws_step (propagate_visit g)) (ns, tv).
Proof.
  remember (S (rerun_measure ns tv)) as k eqn:Hk.
  assert (Hlt : (rerun_measure ns tv < k)%nat) by lia. clear Hk.
  revert tv Hlt. induction k as [|k IH]; intros tv Hlt Hri; [lia|].
  constructor. intros [s' tv'] Hstep. unfold flip in Hstep.
  inversion Hstep as [s0 tv0 u s1 tv1 Hu Hbody]; subst.
  destruct (rerun_visit u tv Hri Hu) as (tv2 & Hv & Hri2 & Hm).
  rewrite Hv in Hbody. injection Hbody as <- <-.
  apply IH; [lia|done].
Qed.

Lemma rerun_result s tv r :
  ws_run (propagate_visit g) s tv r → s = ns → rerun_inv ns tv → r = inr ns.
Proof.
  induction 1 as [s|s tv u s' tv' r Hu Hbody Hrun' IH|s tv u e Hu Hbody];
    intros -> Hri.
  - done.
  - destruct (rerun_visit u tv Hri Hu) as (tv2 & Hv & Hri2 & _).
    rewrite Hv in Hbody. injection Hbody as <- <-. by apply IH.
  - destruct (rerun_visit u tv Hri Hu) as (tv2 & Hv & _).
    by rewrite Hv in Hbody.
Qed.

Lemma rerun_exists tv :
  rerun_inv ns tv → ws_run (propagate_visit g) ns tv (inr ns).
Proof.
  remember (S (rerun_measure ns tv)) as k eqn:Hk.
  assert (Hlt : (rerun_measure ns tv < k)%nat) by lia. clear Hk.
  revert tv Hlt. induction k as [|k IH]; intros tv Hlt Hri; [lia|].
  destruct (decide (tv = ∅)) as [->|Hne]; [constructor|].
  apply set_choose_L in Hne as [u Hu].
  destruct (rerun_visit u tv Hri Hu) as (tv2 & Hv & Hri2 & Hm).
  eapply ws_pop; [done..|]. apply IH; [lia|done].
Qed.
End Rerun.

(** X26: when every transition node that the propagation has reached
    has all its input objects reached (so when no object node is left
    unreached), running the propagation again on the settled graph
    stops, whatever the pops, and changes no node. *)
Theorem X26_second_run_changes_nothing objects transitions g ns :
  built objects transitions = inr g →
  propagate_complexity g (inr ns) →
  inputs_reached g ns →
  rerun_changes_nothing g ns.
Proof.
  intros Hb Hr Hin. split.
  - eapply rerun_sn; eauto. by eapply rerun_inv_zero.
  - intros r. unfold propagate_complexity.
    change (propagate_visit (set_nodes g ns)) with (propagate_visit g).
    simpl. split.
    + intros Hrun. eapply rerun_result; eauto. by eapply rerun_inv_zero.
    + intros ->. eapply rerun_exists; eauto. by eapply rerun_inv_zero.
Qed.

(** When no object node is left unreached, the inputs of every transition
    node are reached. *)
Lemma all_objects_reached_inputs objects transitions g ns :
  built objects transitions = inr g →
  propagate_complexity g (inr ns) →
  (∀ i o c, ns !! i = Some (NodeObject o c) → c < DEFAULT_COMPLEXITY) →
  inputs_reached g ns.
Proof.
  intros Hb Hr Hall t tr c a Ht Hc Ha.
  pose proof (built_wf _ _ _ Hb) as Hwf.
  pose proof (propagate_complexity_inv _ Hwf _ Hr) as Hinv.
  destruct (kind_transition _ _ _ _ _ _ _ Hinv Ht) as [c0 Hc0].
  destruct (wf_inputs _ Hwf _ _ _ Hc0) as (js & _ & HF).
  apply list_elem_of_lookup in Ha as [k Hk].
  destruct (Forall2_lookup_r _ _ _ _ _ HF Hk) as (j & _ & e & He & Hto & Hf).
  destruct (wf_obj _ Hwf _ _ Hf) as (o & c1 & Ho & _).
  destruct (Forall2_lookup_l _ _ _ _ _ (pi_kinds _ _ _ _ Hinv) Ho)
    as ([o' c2|] & Hn & Hp); [|done]. simpl in Hp. subst o'.
  exists (from_node e), o, c2. split; [done|]. split; [done|]. by eapply Hall.
Qed.

(** ** What [__remove_loops] marks *)

Lemma get_out_spec g i outs :
  get_out g i = inr outs →
  ∃ out, _out_edges g !! i = Some out ∧
    ∀ c j, (c, j) ∈ outs →
      j ∈ out ∧ ∃ e, _edges g !! j = Some e ∧ to_node e = c.
Proof.
  unfold get_out. intros H. inv_bind1 H. apply index_inr in Ha.
  exists a. split; [done|]. revert H.
  apply (for_each_inv (fun done (acc : list (nat * nat)) =>
           ∀ c j, (c, j) ∈ acc →
             j ∈ done ∧ ∃ e, _edges g !! j = Some e ∧ to_node e = c)).
  - intros c j Hin. by apply elem_of_nil in Hin.
  - intros done j rest acc acc' _ Hacc Hb c j' Hin. inv_bind Hb as e0 Ha0.
    injection Hb as <-. apply index_inr in Ha0.
    apply elem_of_app in Hin as [Hin|Hin].
    + destruct (Hacc _ _ Hin) as [? ?]. split; [set_solver|done].
    + apply list_elem_of_singleton in Hin. injection Hin as -> ->.
      split; [set_solver|eauto].
Qed.

Lemma possible_loops_spec g sc possible :
  possible_loops g sc = inr possible →
  ∀ p c j, (p, c, j) ∈ possible → loop_candidate g sc p c j.
Proof.
  unfold possible_loops.
  apply (for_each_preserves (fun acc : list (nat * nat * nat) =>
           ∀ p c j, (p, c, j) ∈ acc → loop_candidate g sc p c j)).
  { intros p c j Hin. by apply elem_of_nil in Hin. }
  intros i acc acc' _ Hacc H.
  inv_bind H as inc Hinc. inv_bind H as in_edges Hie.
  apply index_inr in Hinc.
  assert (Hin_edges : ∀ e, e ∈ in_edges →
            ∃ k, k ∈ inc ∧ _edges g !! k = Some e).
  { revert Hie.
    apply (for_each_inv (fun done (l : list Edge) =>
             ∀ e, e ∈ l → ∃ k, k ∈ done ∧ _edges g !! k = Some e)).
    - intros e Hin. by apply elem_of_nil in Hin.
    - intros done k rest l l' _ Hl Hb e Hin. inv_bind Hb as e' He'.
      injection Hb as <-. apply index_inr in He'.
      apply elem_of_app in Hin as [Hin|Hin].
      + destruct (Hl _ Hin) as (k' & ? & ?). exists k'. set_solver.
      + apply list_elem_of_singleton in Hin. subst. exists k. set_solver. }
  revert H.
  apply (for_each_preserves (fun acc : list (nat * nat * nat) =>
           ∀ p c j, (p, c, j) ∈ acc → loop_candidate g sc p c j));
    [done|].
  intros ep acc1 acc2 Hep Hacc1 H.
  inv_bind H as scp Hscp. inv_bind H as sci Hsci.
  apply index_inr in Hscp, Hsci.
  destruct (Z.eqb_spec scp sci) as [->|]; [|by injection H as <-].
  destruct (action_category (category ep)) eqn:Hact; [|by injection H as <-].
  inv_bind H as np Hnp. inv_bind H as outs Houts.
  apply index_inr in Hnp.
  destruct (get_out_spec _ _ _ Houts) as (out & Hout & Hin_outs).
  destruct (Hin_edges _ Hep) as (k & Hk & Hek).
  revert H.
  apply (for_each_preserves (fun acc : list (nat * nat * nat) =>
           ∀ p c j, (p, c, j) ∈ acc → loop_candidate g sc p c j));
    [done|].
  intros [c j] acc3 acc4 Hcj Hacc3 H.
  inv_bind H as scc_c Hscc_c. inv_bind H as sci' Hsci'.
  apply index_inr in Hscc_c, Hsci'.
  rewrite Hsci in Hsci'. injection Hsci' as <-.
  destruct (Z.eqb_spec scc_c sci) as [->|]; [|by injection H as <-].
  inv_bind H as nc Hnc. apply index_inr in Hnc.
  destruct (Z.ltb_spec (complexity nc) (complexity np));
    [|by injection H as <-].
  injection H as <-. intros p' c' j' Hin.
  apply elem_of_app in Hin as [Hin|Hin]; [by apply Hacc3|].
  apply list_elem_of_singleton in Hin. injection Hin as -> -> ->.
  destruct (Hin_outs _ _ Hcj) as (Hj & ec & Hec & Hto).
  exists i, inc, k, ep, out, ec, np, nc, sci. repeat split; done.
Qed.

Lemma check_loops_spec g sc possible del0 del :
  for_each_rel (check_loop g sc) possible del0 (inr del) →
  ∀ j, j ∈ del → j ∈ del0 ∨
    ∃ p c, (p, c, j) ∈ possible ∧ return_check g sc p c.
Proof.
  intros H. remember (inr del) as r eqn:Hr. revert del Hr.
  induction H as [s|[[p c] edg] l s s' r Hx Hl IH|x l s e Hx];
    intros del Hr j Hj.
  - injection Hr as ->. by left.
  - destruct (IH _ Hr _ Hj) as [Hin|(p' & c' & Hin & Hpass)].
    + unfold check_loop in Hx.
      destruct (setitem _ c 0) as [|d0] eqn:Hd0; [done|].
      destruct Hx as (rd & Hrd & Heq). destruct rd as [|ds]; [done|].
      simpl in Heq. apply eq_sym in Heq.
      inv_bind Heq as nf Hnf. inv_bind Heq as nt Hnt.
      inv_bind Heq as df Hdf.
      apply index_inr in Hnf, Hnt, Hdf. apply setitem_inr in Hd0 as [_ ->].
      destruct (Z.leb_spec df (complexity nf - complexity nt));
        injection Heq as <-; [|by left].
      apply elem_of_app in Hin as [?|Hin]; [by left|].
      apply list_elem_of_singleton in Hin. subst j. right.
      exists p, c. split; [set_solver|]. by exists ds, df, nf, nt.
    + right. exists p', c'. split; [set_solver|done].
  - done.
Qed.

Lemma set_looping_spec del es0 es :
  for_each del (fun delete es =>
      e ← index es delete; ok (<[delete := set_looping e]> es)) es0
    = inr es →
  length es = length es0 ∧
  ∀ j e, es0 !! j = Some e →
    ∃ e', es !! j = Some e' ∧
      from_node e' = from_node e ∧ to_node e' = to_node e ∧
      category e' = category e ∧ transition e' = transition e ∧
      (looping e' = true → looping e = true ∨ j ∈ del).
Proof.
  apply (for_each_inv (fun done (es : list Edge) =>
    length es = length es0 ∧
    ∀ j e, es0 !! j = Some e →
      ∃ e', es !! j = Some e' ∧
        from_node e' = from_node e ∧ to_node e' = to_node e ∧
        category e' = category e ∧ transition e' = transition e ∧
        (looping e' = true → looping e = true ∨ j ∈ done))).
  - split; [done|]. intros j e He. exists e. repeat split; auto.
  - intros done d rest es1 es2 _ [Hlen H1] Hb. inv_bind Hb as a Ha.
    injection Hb as <-. apply index_inr in Ha.
    split; [by rewrite length_insert|]. intros j e He.
    destruct (H1 _ _ He) as (e1 & He1 & ? & ? & ? & ? & Hl).
    destruct (decide (j = d)) as [->|Hne].
    + exists (set_looping a). rewrite He1 in Ha. injection Ha as <-.
      rewrite list_lookup_insert_eq by (by eapply lookup_lt_Some).
      repeat split; try done. intros _. right. set_solver.
    + exists e1. rewrite list_lookup_insert_ne by done.
      repeat split; try done. intros Ht. destruct (Hl Ht); [by left|].
      right. set_solver.
Qed.

Lemma remove_loops_only_flags g sc g' :
  remove_loops g sc (inr g') →
  only_flags g g' (fun j =>
    ∃ p c, loop_candidate g sc p c j ∧ return_check g sc p c).
Proof.
  unfold remove_loops.
  destruct (possible_loops g sc) as [|possible] eqn:Hp; [done|].
  intros (rdel & Hdel & Heq). destruct rdel as [|del]; [done|].
  simpl in Heq. apply eq_sym in Heq. inv_bind Heq as es Ha.
  injection Heq as <-.
  destruct (set_looping_spec _ _ _ Ha) as [Hlen Hes].
  repeat split; try done. simpl. intros j e He.
  destruct (Hes _ _ He) as (e' & He' & ? & ? & ? & ? & Hl).
  exists e'. repeat split; try done. intros Ht.
  destruct (Hl Ht) as [?|Hin]; [by left|]. right.
  destruct (check_loops_spec _ _ _ _ _ Hdel _ Hin)
    as [Hnil|(p & c & Hpc & Hpass)]; [by apply elem_of_nil in Hnil|].
  exists p, c. split; [|done]. by eapply possible_loops_spec.
Qed.

Lemma only_flags_reach g g' flagged u v :
  only_flags g g' flagged → reach g None u v → reach g' None u v.
Proof.
  intros (_ & _ & _ & _ & _ & He) Hr.
  induction Hr as [|u j e w Hr IH Hj _ Hw]; [constructor|].
  destruct (He _ _ Hj) as (e' & He' & Hf & Ht & _).
  eapply reach_edge; [|done|done|congruence]. by rewrite Hf.
Qed.

(** X27: [__remove_loops] changes nothing but looping flags: every edge
    stays in the graph, with its ends, and every node reachable from the
    nodes of complexity 0 stays so in the graph it leaves; an edge it
    marks goes out of a node to a child of the same component, less
    complex than a parent of that node that comes in over an edge of an
    action, and at a distance back to that parent, inside the component,
    of at most the gap of the complexities. *)
Theorem X27_marked_edges_pass_the_check g sc g' :
  remove_loops g sc (inr g') →
  only_flags g g' (fun j =>
    ∃ p c, loop_candidate g sc p c j ∧ return_check g sc p c) ∧
  ∀ v, reachable_from_zero g None v → reachable_from_zero g' None v.
Proof.
  intros H. pose proof (remove_loops_only_flags _ _ _ H) as Hof.
  split; [done|]. intros v (u & n & Hu & Hc & Hr).
  exists u, n. rewrite (proj1 Hof).
  split; [done|]. split; [done|]. by eapply only_flags_reach.
Qed.

(** ** The theorems at concrete graphs *)

Lemma craft_built_eq :
  built (craft_objects true) [craft_transition] = inr craft_built.
Proof. compute_eq. Qed.

Lemma craft_settled_run : propagate_complexity craft_built (inr craft_settled).
Proof. apply (ws_sched_run _ [0; 1; 3; 2]%nat). compute_eq. Qed.


Lemma craft_inputs_reached : inputs_reached craft_built craft_settled.
Proof.
  intros t tr c a Ht Hc Ha.
  do 4 (destruct t as [|t]; [try discriminate Ht|]); [|discriminate Ht].
  injection Ht as <- <-.
  apply elem_of_cons in Ha as [->|Ha];
    [|apply list_elem_of_singleton in Ha as ->].
  - exists 0%nat. do 2 eexists. repeat split; reflexivity.
  - exists 1%nat. do 2 eexists. repeat split; reflexivity.
Qed.

Lemma X26_second_run_changes_nothing_witness :
  rerun_changes_nothing craft_built craft_settled.
Proof.
  apply (X26_second_run_changes_nothing (craft_objects true)
           [craft_transition]).
  - exact craft_built_eq.
  - exact craft_settled_run.
  - exact craft_inputs_reached.
Defined.

Lemma C10_natural_and_derivable_witness :
  settles derivable craft_built craft_settled.
Proof.
  apply (C10_natural_and_derivable (craft_objects true) [craft_transition]).
  - exact craft_built_eq.
  - exact craft_settled_run.
Defined.

Lemma cycle_remove_loops :
  remove_loops cycle_settled [0; 0; 0; 0] (inr cycle_graph).
Proof.
  unfold remove_loops.
  replace (possible_loops cycle_settled [0; 0; 0; 0])
    with (inr (B := list (nat * nat * nat)) (A := error) [(1, 0, 2)%nat])
    by compute_eq.
  exists (inr [2%nat]). split; [|reflexivity].
  eapply for_each_rel_cons; [|apply for_each_rel_nil].
  eapply (check_loop_iff _ _ _ _ _ _ 8%nat);
    [ compute_eq
    | vm_compute;
      repeat (apply List.Forall_cons; [reflexivity|]); apply List.Forall_nil
    | compute_eq | reflexivity ].
Qed.

Lemma X27_marked_edges_pass_the_check_witness :
  only_flags cycle_settled cycle_graph (fun j =>
    ∃ p c, loop_candidate cycle_settled [0; 0; 0; 0] p c j ∧
           return_check cycle_settled [0; 0; 0; 0] p c) ∧
  ∀ v, reachable_from_zero cycle_settled None v →
       reachable_from_zero cycle_graph None v.
Proof.
  apply (X27_marked_edges_pass_the_check cycle_settled [0; 0; 0; 0]
           cycle_graph).
  exact cycle_remove_loops.
Defined.

(** ** The strongly connected components *)

Lemma reach_trans g u v w :
  reach g None u v → reach g None v w → reach g None u w.
Proof.
  intros Huv Hvw. induction Hvw as [|v j e w Hr IH He Hj Hw]; [done|].
  eapply reach_edge; eauto.
Qed.

Lemma reach_succ g u v : succ g u v → reach g None u v.
Proof.
  intros (j & e & He & <- & <-).
  eapply reach_edge; [apply reach_refl|done|done|done].
Qed.

Lemma filter_length_le {A} (P Q : A → Prop) `{!∀ x, Decision (P x)}
      `{!∀ x, Decision (Q x)} (l : list A) :
  (∀ x, x ∈ l → P x → Q x) →
  (length (filter P l) ≤ length (filter Q l))%nat.
Proof.
  induction l as [|a l IH]; intros Himp; [done|].
  rewrite !filter_cons.
  assert (IH' : (length (filter P l) ≤ length (filter Q l))%nat).
  { apply IH. intros x Hx. apply Himp. by right. }
  destruct (decide (P a)) as [HP|HP].
  - rewrite decide_True by (apply Himp; [left|done]). simpl. lia.
  - destruct (decide (Q a)); simpl; lia.
Qed.

Lemma filter_length_lt {A} (P Q : A → Prop) `{!∀ x, Decision (P x)}
      `{!∀ x, Decision (Q x)} (l : list A) a :
  (∀ x, x ∈ l → P x → Q x) → a ∈ l → Q a → ¬ P a →
  (length (filter P l) < length (filter Q l))%nat.
Proof.
  induction l as [|b l IH]; intros Himp Ha HQ HP;
    [by apply elem_of_nil in Ha|].
  rewrite !filter_cons.
  assert (Hle : (length (filter P l) ≤ length (filter Q l))%nat).
  { apply filter_length_le. intros x Hx. apply Himp. by right. }
  apply elem_of_cons in Ha as [<-|Ha].
  - rewrite decide_False by done. rewrite decide_True by done. simpl. lia.
  - assert (length (filter P l) < length (filter Q l))%nat.
    { apply IH; try done. intros x Hx. apply Himp. by right. }
    destruct (decide (P b)).
    + rewrite decide_True by (apply Himp; [left|done]). simpl. lia.
    + destruct (decide (Q b)); simpl; lia.
Qed.

Section Tarjan.
Variable g : Graph.
Hypothesis Hadj : adjacency g.

Local Abbreviation N := (length (_nodes g)).

Lemma succ_bound u v : succ g u v → (u < N)%nat ∧ (v < N)%nat.
Proof.
  intros (j & e & He & <- & <-). by apply (proj2 (proj2 Hadj) j).
Qed.

Lemma reach_bound u v : (u < N)%nat → reach g None u v → (v < N)%nat.
Proof.
  intros Hu Hr. induction Hr as [|u j e w Hr IH He Hj Hw]; [done|].
  subst w. by apply (proj2 (proj2 Hadj) j).
Qed.

(** The out edges of a node are its successors. *)
Lemma out_edges_succ u out :
  _out_edges g !! u = Some out →
  (∀ j, j ∈ out → ∃ e, _edges g !! j = Some e ∧ from_node e = u) ∧
  (∀ v, succ g u v → ∃ j e, j ∈ out ∧ _edges g !! j = Some e ∧ to_node e = v).
Proof.
  intros Hout. destruct Hadj as (_ & Hwf & _). split.
  - intros j Hj. by apply (Hwf _ _ _ Hout).
  - intros v (j & e & He & Hf & Ht). exists j, e. split; [|done].
    apply (Hwf _ _ _ Hout). eauto.
Qed.

Lemma visited_bound st v : visited g st v → (v < N)%nat.
Proof. by intros [? _]. Qed.

Lemma white_count_le st st' :
  (∀ v, visited g st v → visited g st' v) →
  (white_count g st' ≤ white_count g st)%nat.
Proof.
  intros H. apply filter_length_le. intros v Hv Hw.
  apply elem_of_seq in Hv. destruct (decide (num st v = -1)); [done|].
  destruct (H v) as [_ ?]; [split; [lia|done]|done].
Qed.

Lemma white_count_lt st st' x :
  (∀ v, visited g st v → visited g st' v) →
  (x < N)%nat → num st x = -1 → num st' x ≠ -1 →
  (white_count g st' < white_count g st)%nat.
Proof.
  intros H Hx Hw Hv. apply (filter_length_lt _ _ _ x); try done.
  - intros v Hv' Hw'. apply elem_of_seq in Hv'.
    destruct (decide (num st v = -1)); [done|].
    destruct (H v) as [_ ?]; [split; [lia|done]|done].
  - apply elem_of_seq. lia.
Qed.

Lemma sub_env_refl st : sub_env g st st.
Proof.
  split; [|split; [done|split; [lia|done]]].
  exists []. split; [done|]. intros v Hv. by apply elem_of_nil in Hv.
Qed.

Lemma sub_env_visited st st' v :
  sub_env g st st' → visited g st v → visited g st' v.
Proof.
  intros (_ & H & _) [Hv Hn]. split; [done|]. rewrite (H v); done.
Qed.

Lemma sub_env_trans st1 st2 st3 :
  sub_env g st1 st2 → sub_env g st2 st3 → sub_env g st1 st3.
Proof.
  intros H12 H23. pose proof H12 as ((s1 & Hs1 & Hn1) & Hf1 & Ht1 & Hw1).
  pose proof H23 as ((s2 & Hs2 & Hn2) & Hf2 & Ht2 & Hw2).
  split; [|split; [|split]].
  - exists (s2 ++ s1). split; [by rewrite Hs2, Hs1, app_assoc|].
    intros v Hv Hvis. apply elem_of_app in Hv as [Hv|Hv].
    + apply (Hn2 v Hv). by eapply sub_env_visited.
    + by apply (Hn1 v Hv).
  - intros v Hv. rewrite <- (Hf1 v Hv).
    apply Hf2. by eapply sub_env_visited.
  - lia.
  - intros v Hv3 Hv1. destruct (decide (num st2 v = -1)) as [Hw|Hv2].
    + assert (t_index st2 ≤ num st3 v); [|lia].
      apply Hw2; [done|]. by intros [_ ?].
    + assert (visited g st2 v) as Hv2' by (split; [apply Hv3|done]).
      rewrite (Hf2 v Hv2'). by apply Hw1.
Qed.

Lemma index_total {A} `{!Inhabited A} (l : list A) i :
  (i < length l)%nat → index l i = inr (l !!! i).
Proof.
  intros Hi. unfold index. by rewrite (list_lookup_lookup_total_lt _ _ Hi).
Qed.

Lemma setitem_ok {A} (l : list A) i x :
  (i < length l)%nat → setitem l i x = inr (<[i := x]> l).
Proof. intros Hi. unfold setitem. by rewrite decide_True. Qed.

Lemma strongconnect_enter_eq st gray x :
  wf_env g st gray → (x < N)%nat →
  strongconnect_enter x st = inr (entered x st).
Proof.
  intros Hwf Hx. unfold strongconnect_enter.
  pose proof (we_len_indexes _ _ _ Hwf). pose proof (we_len_low _ _ _ Hwf).
  pose proof (we_len_on _ _ _ Hwf).
  rewrite !setitem_ok by lia. done.
Qed.

Lemma entered_num st gray x v :
  wf_env g st gray → (x < N)%nat →
  num (entered x st) v = if decide (v = x) then t_index st else num st v.
Proof.
  intros Hwf Hx. unfold num. simpl. rewrite list_lookup_total_insert.
  rewrite (we_len_indexes _ _ _ Hwf).
  repeat case_decide; naive_solver.
Qed.

Lemma entered_visited st gray x v :
  wf_env g st gray → (x < N)%nat →
  visited g (entered x st) v ↔ v = x ∨ visited g st v.
Proof.
  intros Hwf Hx. unfold visited.
  rewrite (entered_num _ _ _ _ Hwf Hx).
  pose proof (we_index_nonneg _ _ _ Hwf). case_decide as Hv.
  - subst v. split; [by left|]. intros _. split; [done|lia].
  - naive_solver.
Qed.
Lemma white_not_in_stack st gray x :
  wf_env g st gray → num st x = -1 → x ∉ stack st.
Proof.
  intros Hwf Hw Hin. by destruct (we_stack_visited _ _ _ Hwf _ Hin).
Qed.

Lemma entered_wf st gray x :
  wf_env g st gray → (x < N)%nat → num st x = -1 →
  (∀ z, z ∈ gray → reach g None z x) →
  wf_env g (entered x st) (x :: gray).
Proof.
  intros Hwf Hx Hw Hacc.
  pose proof (white_not_in_stack _ _ _ Hwf Hw) as Hxs.
  pose proof (we_index_nonneg _ _ _ Hwf) as Ht.
  assert (Hnum : ∀ v, v ≠ x → num (entered x st) v = num st v).
  { intros v Hv. rewrite (entered_num _ _ _ _ Hwf Hx).
    by rewrite decide_False. }
  assert (Hnumx : num (entered x st) x = t_index st).
  { rewrite (entered_num _ _ _ _ Hwf Hx). by rewrite decide_True. }
  assert (Hlt : ∀ v, visited g st v → v ≠ x ∧ num st v < t_index st).
  { intros v [Hv Hn]. split; [congruence|].
    destruct (we_num_range _ _ _ Hwf v Hv); [done|lia]. }
  assert (Hvis := fun v => entered_visited st gray x v Hwf Hx).
  split.
  - simpl. rewrite length_insert. apply Hwf.
  - simpl. rewrite length_insert. apply Hwf.
  - simpl. rewrite length_insert. apply Hwf.
  - apply Hwf.
  - simpl. lia.
  - apply Hwf.
  - intros v Hv. destruct (decide (v = x)) as [->|Hne].
    + rewrite Hnumx. simpl. lia.
    + rewrite Hnum by done. simpl.
      destruct (we_num_range _ _ _ Hwf v Hv); [by left|right; lia].
  - intros u v Hu Hv Heq. apply Hvis in Hu, Hv.
    destruct Hu as [->|Hu], Hv as [->|Hv]; try done.
    + destruct (Hlt _ Hv). rewrite Hnumx, Hnum in Heq by done. lia.
    + destruct (Hlt _ Hu). rewrite Hnumx, Hnum in Heq by done. lia.
    + destruct (Hlt _ Hu), (Hlt _ Hv). rewrite !Hnum in Heq by done.
      by apply (we_num_inj _ _ _ Hwf).
  - simpl. apply NoDup_cons. split; [done|apply Hwf].
  - intros v Hv. simpl. rewrite list_lookup_total_insert.
    rewrite (we_len_on _ _ _ Hwf). case_decide as Hd.
    + destruct Hd as [<- _]. split; [intros _; left|done].
    + rewrite (we_on_stack _ _ _ Hwf v Hv). rewrite elem_of_cons.
      split; [by right|]. intros [->|?]; [|done]. naive_solver.
  - intros v Hv. apply Hvis. apply elem_of_cons in Hv as [->|Hv];
      [by left|right]. by apply (we_stack_visited _ _ _ Hwf).
  - intros v Hv. change (comp (entered x st) v) with (comp st v).
    rewrite (we_comp _ _ _ Hwf v Hv), Hvis. simpl. rewrite elem_of_cons.
    split.
    + intros [Hv' Hns]. split; [by right|]. intros [->|?]; [|done].
      by destruct (Hlt _ Hv').
    + intros [[->|Hv'] Hns]; [naive_solver|]. split; [done|]. naive_solver.
  - apply Hwf.
  - intros z Hz. simpl. apply elem_of_cons in Hz as [->|Hz]; [left|right].
    by apply (we_gray _ _ _ Hwf).
  - intros s1 a s2 Hs b Hb. simpl in Hs. destruct s1 as [|a' s1].
    + injection Hs as <- <-.
      destruct (Hlt b (we_stack_visited _ _ _ Hwf _ Hb)).
      rewrite Hnumx, Hnum by done. done.
    + injection Hs as <- Hs.
      assert (Ha : a ∈ stack st) by (rewrite Hs; set_solver).
      assert (Hb' : b ∈ stack st) by (rewrite Hs; set_solver).
      destruct (Hlt a (we_stack_visited _ _ _ Hwf _ Ha)).
      destruct (Hlt b (we_stack_visited _ _ _ Hwf _ Hb')).
      rewrite !Hnum by done. by eapply (we_sorted _ _ _ Hwf).
  - intros u v Hu Hng Hs. apply Hvis. right.
    apply Hvis in Hu as [->|Hu]; [set_solver|].
    eapply (we_no_black_white _ _ _ Hwf); [done| |done]. set_solver.
  - intros a b Ha Hb Hle. simpl in Ha, Hb.
    apply elem_of_cons in Ha as [->|Ha], Hb as [->|Hb].
    + constructor.
    + destruct (Hlt b (we_stack_visited _ _ _ Hwf _ Hb)).
      rewrite Hnumx, Hnum in Hle by done. lia.
    + destruct (we_stack_gray _ _ _ Hwf _ Ha) as (z & Hz & _ & Hr).
      eapply reach_trans; [done|]. by apply Hacc.
    + destruct (Hlt a (we_stack_visited _ _ _ Hwf _ Ha)).
      destruct (Hlt b (we_stack_visited _ _ _ Hwf _ Hb)).
      rewrite !Hnum in Hle by done. by apply (we_stack_reach _ _ _ Hwf).
  - intros y Hy. simpl in Hy. apply elem_of_cons in Hy as [->|Hy].
    + exists x. split; [left|]. split; [done|constructor].
    + destruct (we_stack_gray _ _ _ Hwf _ Hy) as (z & Hz & Hle & Hr).
      exists z. split; [by right|]. split; [|done].
      destruct (Hlt y (we_stack_visited _ _ _ Hwf _ Hy)).
      destruct (Hlt z (we_stack_visited _ _ _ Hwf _
                         (we_gray _ _ _ Hwf _ Hz))).
      by rewrite !Hnum.
  - apply Hwf.
  - apply Hwf.
Qed.

Lemma entered_inv st gray x :
  wf_env g st gray → (x < N)%nat → num st x = -1 →
  (∀ z, z ∈ gray → reach g None z x) →
  strongconnect_inv g gray x st [] (entered x st).
Proof.
  intros Hwf Hx Hw Hacc.
  assert (Hlow : low (entered x st) x = num (entered x st) x).
  { unfold low, num. simpl. rewrite !list_lookup_total_insert_eq; [done|..].
    - by rewrite (we_len_indexes _ _ _ Hwf).
    - by rewrite (we_len_low _ _ _ Hwf). }
  split; [by apply entered_wf|]. split; [apply sub_env_refl|].
  split.
  { intros v [Hv Hn]. unfold low. simpl.
    rewrite list_lookup_total_insert_ne; [done|congruence]. }
  split; [intros j e Hj; by apply elem_of_nil in Hj|].
  split; [lia|]. split.
  { exists x. split; [left|]. split; [done|constructor]. }
  split.
  - intros s w y Hs Hw'. assert (s = []) as ->.
    { apply (f_equal length) in Hs. rewrite length_app in Hs.
      destruct s; [done|simpl in Hs; lia]. }
    by apply elem_of_nil in Hw'.
  - intros j e Hj. by apply elem_of_nil in Hj.
Qed.
Lemma set_low_link_wf st gray lls :
  length lls = N → wf_env g st gray → wf_env g (set_low_link st lls) gray.
Proof. intros Hl Hwf. destruct Hwf. by split. Qed.

Lemma white_count_pos st x :
  (x < N)%nat → num st x = -1 → (0 < white_count g st)%nat.
Proof.
  intros Hx Hw. unfold white_count.
  assert (Hin : x ∈ filter (λ v, num st v = -1) (seq 0 N)).
  { apply list_elem_of_filter. split; [done|]. apply elem_of_seq. lia. }
  destruct (filter _ _); [by apply elem_of_nil in Hin|simpl; lia].
Qed.

(** The [while] that pops a component: the stack loses its nodes down to
    [x], which leave the stack and get the component id. *)
Lemma pop_component_spec x s rest on sc idx :
  x ∉ s →
  (∀ v, v ∈ s ++ [x] → (v < length on)%nat ∧ (v < length sc)%nat) →
  ∃ on' sc',
    pop_component x (s ++ x :: rest) on sc idx = inr (rest, on', sc') ∧
    length on' = length on ∧ length sc' = length sc ∧
    (∀ v, v ∈ s ++ [x] → on' !!! v = false ∧ sc' !!! v = idx) ∧
    (∀ v, v ∉ s ++ [x] → on' !!! v = on !!! v ∧ sc' !!! v = sc !!! v).
Proof.
  revert on sc. induction s as [|a s IH]; intros on sc Hxs Hb.
  - destruct (Hb x) as [Hon Hsc]; [set_solver|].
    exists (<[x := false]> on), (<[x := idx]> sc). simpl.
    rewrite !setitem_ok by done. simpl. rewrite decide_True by done.
    split; [done|]. rewrite !length_insert. split; [done|]. split; [done|].
    split.
    + intros v Hv. apply list_elem_of_singleton in Hv as ->.
      by rewrite !list_lookup_total_insert_eq.
    + intros v Hv. rewrite !list_lookup_total_insert_ne; [done|..];
        intros ->; apply Hv; set_solver.
  - destruct (Hb a) as [Hon Hsc]; [set_solver|].
    destruct (IH (<[a := false]> on) (<[a := idx]> sc))
      as (on' & sc' & Hpop & Hlon & Hlsc & Hin & Hout).
    { set_solver. }
    { intros v Hv. rewrite !length_insert. apply Hb. set_solver. }
    exists on', sc'. simpl. rewrite !setitem_ok by done. simpl.
    rewrite decide_False by set_solver.
    split; [done|]. rewrite length_insert in Hlon.
    rewrite length_insert in Hlsc.
    split; [done|]. split; [done|]. split.
    + intros v Hv. destruct (decide (v ∈ s ++ [x])) as [Hv'|Hv'];
        [by apply Hin|].
      assert (v = a) as -> by set_solver.
      destruct (Hout a Hv') as [-> ->].
      by rewrite !list_lookup_total_insert_eq.
    + intros v Hv. assert (v ≠ a ∧ v ∉ s ++ [x]) as [Hne Hv'] by set_solver.
      destruct (Hout v Hv') as [-> ->].
      by rewrite !list_lookup_total_insert_ne.
Qed.

Section Call.
Variables (gray : list nat) (x : nat) (st_e : tarjan_state).
Hypothesis Hwf_e : wf_env g st_e gray.
Hypothesis Hx : (x < N)%nat.
Hypothesis Hwhite : num st_e x = -1.
Hypothesis Hacc : ∀ z, z ∈ gray → reach g None z x.

Lemma inv_facts done st :
  strongconnect_inv g gray x st_e done st →
  (∃ s, stack st = s ++ x :: stack st_e ∧
        ∀ v, v ∈ s → v ≠ x ∧ ¬ visited g st_e v) ∧
  num st x = t_index st_e ∧ visited g st x ∧
  (∀ v, visited g st_e v →
        v ≠ x ∧ visited g st v ∧ num st v = num st_e v ∧
        num st v < num st x).
Proof.
  intros (Hwf & Hsub & _).
  pose proof Hsub as ((s & Hs & Hn) & Hf & Ht & Hw').
  assert (Hvis := fun v => entered_visited st_e gray x v Hwf_e Hx).
  assert (Hvx : visited g (entered x st_e) x) by (apply Hvis; by left).
  assert (Hnx : num st x = t_index st_e).
  { rewrite (Hf x Hvx), (entered_num _ _ _ _ Hwf_e Hx).
    by rewrite decide_True. }
  split; [|split; [done|split]].
  - exists s. split; [done|]. intros v Hv. specialize (Hn v Hv).
    rewrite Hvis in Hn. naive_solver.
  - by eapply sub_env_visited.
  - intros v Hv. assert (v ≠ x) as Hne by (intros ->; by destruct Hv).
    split; [done|].
    assert (Hv' : visited g (entered x st_e) v) by (apply Hvis; by right).
    split; [by eapply sub_env_visited|].
    rewrite (Hf v Hv'), Hnx, (entered_num _ _ _ _ Hwf_e Hx).
    rewrite decide_False by done. split; [done|].
    destruct Hv as [Hv Hn']. destruct (we_num_range _ _ _ Hwf_e v Hv); lia.
Qed.

(** The invariant once [low_link[x]] has been set to [m]. *)
Lemma inv_lower done st m :
  wf_env g st (x :: gray) → sub_env g (entered x st_e) st →
  low_frame g st_e st →
  (∀ j e, j ∈ done → _edges g !! j = Some e → visited g st (to_node e)) →
  m ≤ num st x →
  (∃ y, y ∈ stack st ∧ num st y = m ∧ reach g None x y) →
  (∀ s w y, stack st = s ++ x :: stack st_e → w ∈ s → succ g w y →
     y ∈ x :: stack st_e → m ≤ num st y) →
  (∀ j e, j ∈ done → _edges g !! j = Some e → to_node e ∈ stack st →
     m ≤ num st (to_node e)) →
  strongconnect_inv g gray x st_e done
    (set_low_link st (<[x := m]> (low_link st))).
Proof.
  intros Hwf Hsub Hlf Hdone Hle Hy Hxe Hde.
  assert (Hlx : low (set_low_link st (<[x := m]> (low_link st))) x = m).
  { unfold low. simpl. apply list_lookup_total_insert_eq.
    by rewrite (we_len_low _ _ _ Hwf). }
  split.
  { apply set_low_link_wf; [|done]. rewrite length_insert. apply Hwf. }
  split; [done|]. split.
  { intros v Hv. rewrite <- (Hlf v Hv). unfold low. simpl.
    apply list_lookup_total_insert_ne. intros ->. by destruct Hv. }
  split; [done|]. rewrite Hlx. done.
Qed.

Lemma inv_on_stack done st j e :
  strongconnect_inv g gray x st_e done st →
  _edges g !! j = Some e → from_node e = x → to_node e ∈ stack st →
  strongconnect_inv g gray x st_e (done ++ [j])
    (set_low_link st
       (<[x := Z.min (low st x) (num st (to_node e))]> (low_link st))).
Proof.
  intros (Hwf & Hsub & Hlf & Hdone & Hle & (y0 & Hy0s & Hy0n & Hy0r) &
          Hxe & Hde) He Hfrom Hon.
  apply inv_lower; try done.
  - intros j' e' Hj' He'. apply elem_of_app in Hj' as [Hj'|Hj'].
    + by eapply Hdone.
    + apply list_elem_of_singleton in Hj' as ->.
      assert (e' = e) as -> by congruence.
      by apply (we_stack_visited _ _ _ Hwf).
  - lia.
  - destruct (Z.min_spec (low st x) (num st (to_node e)))
      as [[Hlt ->]|[Hge ->]].
    + by exists y0.
    + exists (to_node e). split; [done|]. split; [done|].
      apply reach_succ. by exists j, e.
  - intros s w y Hs Hw Hsucc Hy. specialize (Hxe s w y Hs Hw Hsucc Hy). lia.
  - intros j' e' Hj' He' Hon'. apply elem_of_app in Hj' as [Hj'|Hj'].
    + specialize (Hde j' e' Hj' He' Hon'). lia.
    + apply list_elem_of_singleton in Hj' as ->.
      assert (e' = e) as -> by congruence. lia.
Qed.

Lemma inv_off_stack done st j e :
  strongconnect_inv g gray x st_e done st →
  _edges g !! j = Some e → visited g st (to_node e) →
  (to_node e ∉ stack st) →
  strongconnect_inv g gray x st_e (done ++ [j]) st.
Proof.
  intros (Hwf & Hsub & Hlf & Hdone & Hle & Hy & Hxe & Hde) He Hv Hoff.
  split; [done|]. split; [done|]. split; [done|]. split.
  { intros j' e' Hj' He'. apply elem_of_app in Hj' as [Hj'|Hj'].
    - by eapply Hdone.
    - apply list_elem_of_singleton in Hj' as ->. congruence. }
  split; [done|]. split; [done|]. split; [done|].
  intros j' e' Hj' He' Hon'. apply elem_of_app in Hj' as [Hj'|Hj'].
  - by eapply Hde.
  - apply list_elem_of_singleton in Hj' as ->.
    assert (e' = e) as -> by congruence. done.
Qed.

Lemma inv_call done st st1 j e :
  strongconnect_inv g gray x st_e done st →
  _edges g !! j = Some e → from_node e = x → num st (to_node e) = -1 →
  strongconnect_post g (x :: gray) (to_node e) st st1 →
  strongconnect_inv g gray x st_e (done ++ [j])
    (set_low_link st1
       (<[x := Z.min (low st1 x) (low st1 (to_node e))]> (low_link st1))).
Proof.
  intros Hinv He Hfrom Hwv
    (Hwf1 & Hsub1 & Hlf1 & Hv1 & Hle1 & Hon1 & Hoff1 & Hxe1).
  destruct (inv_facts _ _ Hinv) as ((s & Hs & Hsn) & Hnx & Hvx & Hold).
  destruct Hinv as (Hwf & Hsub & Hlf & Hdone & Hle &
                    (y0 & Hy0s & Hy0n & Hy0r) & Hxe & Hde).
  pose proof Hsub1 as ((s1 & Hs1 & Hsn1) & Hf1 & Ht1 & Hw1).
  assert (Hlx : low st1 x = low st x) by (by apply Hlf1).
  assert (Hnx1 : num st1 x = num st x) by (by apply Hf1).
  assert (Hnv : num st x < num st1 (to_node e)).
  { assert (t_index st ≤ num st1 (to_node e)).
    { apply Hw1; [done|]. by intros [_ ?]. }
    destruct (we_num_range _ _ _ Hwf x Hx); [by destruct Hvx|lia]. }
  apply inv_lower; try done.
  - by eapply sub_env_trans.
  - intros v Hv. destruct (Hold v Hv) as (_ & Hv' & _).
    rewrite (Hlf1 v Hv'). by apply Hlf.
  - intros j' e' Hj' He'. apply elem_of_app in Hj' as [Hj'|Hj'].
    + eapply sub_env_visited; [done|]. by eapply Hdone.
    + apply list_elem_of_singleton in Hj' as ->.
      assert (e' = e) as -> by congruence. done.
  - lia.
  - destruct (Z.min_spec (low st1 x) (low st1 (to_node e)))
      as [[Hlt ->]|[Hge ->]].
    + exists y0. split; [rewrite Hs1; set_solver|]. split; [|done].
      rewrite (Hf1 y0); [lia|]. by apply (we_stack_visited _ _ _ Hwf).
    + destruct (decide (to_node e ∈ stack st1)) as [Hin|Hout].
      * destruct (Hon1 Hin) as (y & Hy & Hyn & Hyr). exists y.
        split; [done|]. split; [done|]. eapply reach_trans; [|done].
        apply reach_succ. by exists j, e.
      * rewrite (Hoff1 Hout) in Hge. lia.
  - intros s' w y Hs' Hw Hsucc Hy. rewrite Hs1, Hs in Hs'.
    assert (s' = s1 ++ s) as ->.
    { apply (app_inv_tail (x :: stack st_e)). by rewrite <- app_assoc. }
    assert (Hys : y ∈ stack st) by (rewrite Hs; set_solver).
    apply elem_of_app in Hw as [Hw|Hw].
    + specialize (Hxe1 s1 w y Hs1 Hw Hsucc Hys). lia.
    + specialize (Hxe s w y Hs Hw Hsucc Hy).
      rewrite (Hf1 y) by (by apply (we_stack_visited _ _ _ Hwf)). lia.
  - intros j' e' Hj' He' Hon'. apply elem_of_app in Hj' as [Hj'|Hj'].
    + assert (Hvis : visited g st (to_node e')) by (by eapply Hdone).
      rewrite Hs1 in Hon'. apply elem_of_app in Hon' as [Hon'|Hon'].
      * by destruct (Hsn1 _ Hon').
      * specialize (Hde j' e' Hj' He' Hon'). rewrite (Hf1 _ Hvis). lia.
    + apply list_elem_of_singleton in Hj' as ->.
      assert (e' = e) as -> by congruence. lia.
Qed.

(** One turn of the [for] over the out edges keeps the invariant. *)
Lemma strongconnect_edge_inv recurse d done st j e :
  call_spec g recurse d → (white_count g st_e ≤ S d)%nat →
  strongconnect_inv g gray x st_e done st →
  _edges g !! j = Some e → from_node e = x →
  ∃ st', strongconnect_edge recurse g x j st = inr st' ∧
         strongconnect_inv g gray x st_e (done ++ [j]) st'.
Proof.
  intros Hrec Hd Hinv He Hfrom.
  destruct (inv_facts _ _ Hinv) as ((s & Hs & Hsn) & Hnx & Hvx & Hold).
  pose proof Hinv as (Hwf & Hsub & _).
  assert (Hv : (to_node e < N)%nat) by apply (proj2 (proj2 Hadj) j e He).
  pose proof (we_len_indexes _ _ _ Hwf) as Hli.
  pose proof (we_len_low _ _ _ Hwf) as Hll.
  pose proof (we_len_on _ _ _ Hwf) as Hlo.
  unfold strongconnect_edge.
  rewrite (proj2 (index_inr _ _ _) He). simpl.
  rewrite index_total by lia. simpl. fold (num st (to_node e)).
  destruct (Z.eqb_spec (num st (to_node e)) (-1)) as [Hwv|Hnv].
  - destruct (Hrec (x :: gray) (to_node e) st Hwf Hv Hwv)
      as (st1 & Hcall & Hpost).
    { intros z Hz. assert (Hxv : reach g None x (to_node e)).
      { apply reach_succ. by exists j, e. }
      apply elem_of_cons in Hz as [->|Hz]; [done|].
      eapply reach_trans; [|done]. by apply Hacc. }
    { assert (white_count g (entered x st_e) < white_count g st_e)%nat.
      { apply (white_count_lt _ _ x); try done.
        - intros v Hv'. apply (entered_visited _ _ _ _ Hwf_e Hx). by right.
        - rewrite (entered_num _ _ _ _ Hwf_e Hx), decide_True by done.
          pose proof (we_index_nonneg _ _ _ Hwf_e). lia. }
      assert (white_count g st ≤ white_count g (entered x st_e))%nat.
      { apply white_count_le. intros v. by apply sub_env_visited. }
      lia. }
    rewrite Hcall. simpl.
    pose proof Hpost as (Hwf1 & _).
    pose proof (we_len_low _ _ _ Hwf1) as Hll1.
    rewrite !index_total by lia. simpl. rewrite setitem_ok by lia. simpl.
    eexists. split; [done|]. by apply (inv_call done st).
  - assert (Hvis : visited g st (to_node e)) by done.
    rewrite !index_total by lia. simpl.
    destruct (on_stack st !!! to_node e) eqn:Hon.
    + rewrite setitem_ok by lia. simpl.
      eexists. split; [done|]. apply inv_on_stack; try done.
      by apply (we_on_stack _ _ _ Hwf).
    + eexists. split; [done|]. apply (inv_off_stack _ _ j e); try done.
      rewrite <- (we_on_stack _ _ _ Hwf) by done. by rewrite Hon.
Qed.

Lemma strongconnect_loop recurse d todo :
  call_spec g recurse d → (white_count g st_e ≤ S d)%nat →
  ∀ done st,
    (∀ j, j ∈ todo → ∃ e, _edges g !! j = Some e ∧ from_node e = x) →
    strongconnect_inv g gray x st_e done st →
    ∃ st', for_each todo (strongconnect_edge recurse g x) st = inr st' ∧
           strongconnect_inv g gray x st_e (done ++ todo) st'.
Proof.
  intros Hrec Hd. induction todo as [|j todo IH]; intros done st Hout Hinv.
  - exists st. by rewrite app_nil_r.
  - destruct (Hout j) as (e & He & Hfrom); [left|].
    destruct (strongconnect_edge_inv recurse d done st j e)
      as (st1 & Hedge & Hinv1); try done.
    destruct (IH (done ++ [j]) st1) as (st' & Hloop & Hinv'); [|done|].
    { intros j' Hj'. apply Hout. by right. }
    exists st'. simpl. rewrite Hedge. simpl.
    split; [done|]. by rewrite <- app_assoc in Hinv'.
Qed.

Lemma inv_sub_env done st :
  strongconnect_inv g gray x st_e done st →
  (∀ v, visited g st_e v → num st v = num st_e v) ∧
  t_index st_e ≤ t_index st ∧
  (∀ v, visited g st v → ¬ visited g st_e v → t_index st_e ≤ num st v).
Proof.
  intros Hinv.
  destruct (inv_facts _ _ Hinv) as (_ & Hnx & Hvx & Hold).
  destruct Hinv as (_ & (_ & Hf & Ht & Hw') & _). simpl in Ht.
  split; [intros v Hv; by apply Hold|]. split; [lia|].
  intros v Hv Hnv. destruct (decide (v = x)) as [->|Hne]; [lia|].
  assert (t_index (entered x st_e) ≤ num st v); [|simpl in *; lia].
  apply Hw'; [done|]. rewrite (entered_visited _ _ _ _ Hwf_e Hx).
  naive_solver.
Qed.

(** When the [for] is over, the successors of [x] are visited, and those
    on the stack are not below the low link of [x]. *)
Lemma inv_successors out st :
  _out_edges g !! x = Some out →
  strongconnect_inv g gray x st_e out st →
  ∀ v, succ g x v →
       visited g st v ∧ (v ∈ stack st → low st x ≤ num st v).
Proof.
  intros Hout (_ & _ & _ & Hdone & _ & _ & _ & Hde) v Hsucc.
  destruct (proj2 (out_edges_succ _ _ Hout) v Hsucc)
    as (j & e & Hj & He & <-).
  split; [by eapply Hdone|by eapply Hde].
Qed.

Lemma exit_nonroot out st :
  _out_edges g !! x = Some out →
  strongconnect_inv g gray x st_e out st →
  low st x ≠ num st x →
  strongconnect_post g gray x st_e st.
Proof.
  intros Hout Hinv Hne.
  pose proof (inv_successors _ _ Hout Hinv) as Hall.
  destruct (inv_facts _ _ Hinv) as ((s & Hs & Hsn) & Hnx & Hvx & Hold).
  destruct (inv_sub_env _ _ Hinv) as (Hf & Ht & Hnew).
  destruct Hinv as (Hwf & Hsub & Hlf & Hdone & Hle &
                    (y0 & Hy0s & Hy0n & Hy0r) & Hxe & Hde).
  split.
  { pose proof Hwf as [? ? ? ? ? ? ? ? ? ? ? ? ? Hg ? Hbw ? Hsg ? ?].
    split; try done.
    - intros z Hz. apply Hg. by right.
    - intros u v Hu Hng Hsucc. destruct (decide (u = x)) as [->|Hux].
      + by apply Hall.
      + eapply Hbw; [done| |done]. set_solver.
    - intros y Hy. destruct (Hsg y Hy) as (z & Hz & Hzle & Hzr).
      apply elem_of_cons in Hz as [->|Hz]; [|by exists z].
      destruct (Hsg y0 Hy0s) as (z0 & Hz0 & Hz0le & Hz0r).
      apply elem_of_cons in Hz0 as [->|Hz0]; [lia|].
      exists z0. split; [done|]. split; [lia|].
      eapply reach_trans; [done|]. by eapply reach_trans. }
  split.
  { split; [|done]. exists (s ++ [x]).
    split; [by rewrite Hs, <- app_assoc|].
    intros v Hv. apply elem_of_app in Hv as [Hv|Hv]; [by apply Hsn|].
    apply list_elem_of_singleton in Hv as ->. by intros [_ ?]. }
  split; [done|]. split; [done|]. split; [done|]. split.
  { intros _. by exists y0. }
  split.
  { intros Hnot. exfalso. apply Hnot. rewrite Hs. set_solver. }
  intros s' w y Hs' Hw Hsucc Hy.
  assert (s' = s ++ [x]) as ->.
  { apply (app_inv_tail (stack st_e)). rewrite <- Hs', Hs.
    by rewrite <- app_assoc. }
  apply elem_of_app in Hw as [Hw|Hw].
  - apply (Hxe s w y Hs Hw Hsucc). by right.
  - apply list_elem_of_singleton in Hw as ->. apply Hall; [done|].
    rewrite Hs. set_solver.
Qed.

Lemma reach_done st gr a b :
  wf_env g st gr → (a < N)%nat → comp st a ≠ -1 → reach g None a b →
  (b < N)%nat ∧ comp st b ≠ -1.
Proof.
  intros Hwf Ha Hc Hr. induction Hr as [|a j e w Hr IH He Hj Hw]; [done|].
  destruct (IH Ha Hc) as [Hf Hcf]. subst w.
  split; [by apply (proj2 (proj2 Hadj) j)|].
  apply (we_done_closed _ _ _ Hwf (from_node e) (to_node e)); [done|done|].
  by exists j, e.
Qed.

Lemma exit_root out st on' sc' s :
  _out_edges g !! x = Some out →
  strongconnect_inv g gray x st_e out st →
  low st x = num st x →
  stack st = s ++ x :: stack st_e →
  length on' = N → length sc' = N →
  (∀ v, v ∈ s ++ [x] → on' !!! v = false ∧ sc' !!! v = scc_index st) →
  (∀ v, v ∉ s ++ [x] →
        on' !!! v = on_stack st !!! v ∧ sc' !!! v = scc st !!! v) →
  strongconnect_post g gray x st_e
    (mkTarjan (t_index st) (indexes st) (low_link st) on' (stack st_e) sc'
              (scc_index st + 1)).
Proof.
  intros Hout Hinv Hroot Hs Hlon Hlsc Hin Hoth.
  pose proof (inv_successors _ _ Hout Hinv) as Hall.
  destruct (inv_facts _ _ Hinv) as (_ & Hnx & Hvx & Hold).
  destruct (inv_sub_env _ _ Hinv) as (Hf & Ht & Hnew).
  destruct Hinv as (Hwf & Hsub & Hlf & Hdone & Hle & _ & Hxe & Hde).
  pose proof (we_scc_index_nonneg _ _ _ Hwf) as Hidx.
  pose proof (we_stack_nodup _ _ _ Hwf) as Hnd. rewrite Hs in Hnd.
  apply NoDup_app in Hnd as (Hnds & Hdisj & Hndx).
  apply NoDup_cons in Hndx as [Hxe' Hnde].
  assert (Hsplit : ∀ v, v ∈ stack st ↔ v ∈ s ++ [x] ∨ v ∈ stack st_e).
  { intros v. rewrite Hs. set_solver. }
  assert (Hpop : ∀ v, v ∈ s ++ [x] → v ∈ stack st ∧ v ∉ stack st_e).
  { intros v Hv. split; [apply Hsplit; by left|].
    apply elem_of_app in Hv as [Hv|Hv].
    - specialize (Hdisj v Hv). set_solver.
    - by apply list_elem_of_singleton in Hv as ->. }
  assert (Hbelow : ∀ y, y ∈ stack st_e → num st y < num st x).
  { apply (we_sorted _ _ _ Hwf s x (stack st_e) Hs). }
  assert (Habove : ∀ v, v ∈ s ++ [x] → num st x ≤ num st v).
  { intros v Hv. apply elem_of_app in Hv as [Hv|Hv].
    - apply list_elem_of_split in Hv as (l1 & l2 & ->).
      assert (num st x < num st v); [|lia].
      apply (we_sorted _ _ _ Hwf l1 v (l2 ++ x :: stack st_e)).
      + by rewrite Hs, <- app_assoc.
      + set_solver.
    - apply list_elem_of_singleton in Hv as ->. lia. }
  assert (Hgray : ∀ z, z ∈ gray → z ∈ stack st_e).
  { apply (we_gray _ _ _ Hwf_e). }
  assert (Hmut : ∀ v, v ∈ s ++ [x] →
                      reach g None x v ∧ reach g None v x).
  { intros v Hv. destruct (Hpop v Hv) as [Hvs _]. split.
    - apply (we_stack_reach _ _ _ Hwf); [apply Hsplit; left; set_solver|
                                          done|by apply Habove].
    - destruct (we_stack_gray _ _ _ Hwf v Hvs) as (z & Hz & Hzle & Hzr).
      apply elem_of_cons in Hz as [->|Hz]; [done|].
      eapply reach_trans; [done|].
      apply (we_stack_reach _ _ _ Hwf).
      + apply Hsplit. right. by apply Hgray.
      + apply Hsplit. left. set_solver.
      + specialize (Hbelow z (Hgray z Hz)). lia. }
  assert (Hcpop : ∀ v, v ∈ s ++ [x] → comp st v = -1).
  { intros v Hv. destruct (Hpop v Hv) as [Hvs _].
    destruct (decide (comp st v = -1)) as [|Hc]; [done|].
    apply (we_comp _ _ _ Hwf) in Hc as [_ ?]; [done|].
    by apply (we_stack_visited _ _ _ Hwf). }
  assert (Hspop : ∀ u v, u ∈ s ++ [x] → succ g u v →
                         v ∈ s ++ [x] ∨ comp st v ≠ -1).
  { intros u v Hu Hsucc. destruct (succ_bound _ _ Hsucc) as [_ Hv].
    assert (Hvis : visited g st v ∧ (v ∈ stack st_e → num st x ≤ num st v)).
    { apply elem_of_app in Hu as [Hu|Hu].
      - split.
        + eapply (we_no_black_white _ _ _ Hwf); [| |done].
          * apply (we_stack_visited _ _ _ Hwf). apply Hsplit. left.
            set_solver.
          * specialize (Hdisj u Hu). intros Hin'. apply Hdisj.
            apply elem_of_cons in Hin' as [->|Hin']; [left|right].
            by apply Hgray.
        + intros Hv'. rewrite <- Hroot. apply (Hxe s u v Hs Hu Hsucc).
          by right.
      - apply list_elem_of_singleton in Hu as ->.
        destruct (Hall v Hsucc) as [? Hb]. split; [done|].
        intros Hv'. rewrite <- Hroot. apply Hb. apply Hsplit. by right. }
    destruct Hvis as [Hvis Hb].
    destruct (decide (v ∈ stack st)) as [Hvs|Hvs].
    - apply Hsplit in Hvs as [?|Hvs]; [by left|].
      specialize (Hbelow v Hvs). specialize (Hb Hvs). lia.
    - right. by apply (we_comp _ _ _ Hwf). }
  assert (Hrpop : ∀ u w, u ∈ s ++ [x] → reach g None u w →
                         w ∈ s ++ [x] ∨ ((w < N)%nat ∧ comp st w ≠ -1)).
  { intros u w Hu Hr. induction Hr as [|u j e w Hr IH He Hj Hw];
      [by left|].
    assert (Hsucc : succ g (from_node e) w) by (by exists j, e).
    destruct (succ_bound _ _ Hsucc) as [Hfb Hwb].
    destruct (IH Hu) as [Hp|[_ Hc]].
    - destruct (Hspop _ _ Hp Hsucc); [by left|by right].
    - right. split; [done|].
      by apply (we_done_closed _ _ _ Hwf (from_node e) w). }
  split.
  { split.
    - apply Hwf.
    - apply Hwf.
    - done.
    - done.
    - apply Hwf.
    - simpl. lia.
    - apply (we_num_range _ _ _ Hwf).
    - apply (we_num_inj _ _ _ Hwf).
    - apply Hwf_e.
    - intros v Hv. simpl. destruct (decide (v ∈ s ++ [x])) as [Hp|Hp].
      + rewrite (proj1 (Hin v Hp)). split; [done|]. intros Hin'.
        by destruct (Hpop v Hp).
      + rewrite (proj1 (Hoth v Hp)), (we_on_stack _ _ _ Hwf v Hv), Hsplit.
        naive_solver.
    - intros v Hv. apply (we_stack_visited _ _ _ Hwf). apply Hsplit.
      by right.
    - intros v Hv. unfold comp. simpl.
      change (visited g _ v) with (visited g st v).
      destruct (decide (v ∈ s ++ [x])) as [Hp|Hp].
      + rewrite (proj2 (Hin v Hp)). destruct (Hpop v Hp). split.
        * intros _. split; [|done]. by apply (we_stack_visited _ _ _ Hwf).
        * intros _. lia.
      + rewrite (proj2 (Hoth v Hp)). fold (comp st v).
        rewrite (we_comp _ _ _ Hwf v Hv), Hsplit. naive_solver.
    - intros v Hv. unfold comp. simpl.
      destruct (decide (v ∈ s ++ [x])) as [Hp|Hp].
      + rewrite (proj2 (Hin v Hp)). right. lia.
      + rewrite (proj2 (Hoth v Hp)). fold (comp st v).
        destruct (we_comp_range _ _ _ Hwf v Hv); [by left|right; lia].
    - done.
    - intros s1 a s2 Hs' b Hb. simpl in Hs'.
      apply (we_sorted _ _ _ Hwf ((s ++ [x]) ++ s1) a s2); [|done].
      by rewrite Hs, Hs', <- !app_assoc.
    - intros u v Hu Hng Hsucc. destruct (decide (u = x)) as [->|Hux].
      + by apply Hall.
      + eapply (we_no_black_white _ _ _ Hwf); [done| |done]. set_solver.
    - intros a b Ha Hb Hab. apply (we_stack_reach _ _ _ Hwf); [..|done];
        apply Hsplit; by right.
    - intros y Hy. simpl in Hy.
      destruct (we_stack_gray _ _ _ Hwf y) as (z & Hz & Hzle & Hzr).
      { apply Hsplit. by right. }
      apply elem_of_cons in Hz as [->|Hz]; [|by exists z].
      specialize (Hbelow y Hy). change (num st x ≤ num st y) in Hzle. lia.
    - intros u v Hu Hcu Hsucc. destruct (succ_bound _ _ Hsucc) as [_ Hv].
      unfold comp in *. simpl in *.
      assert (Hgoal : v ∈ s ++ [x] ∨ scc st !!! v ≠ -1).
      { destruct (decide (u ∈ s ++ [x])) as [Hp|Hp].
        - by apply (Hspop u v).
        - right. rewrite (proj2 (Hoth u Hp)) in Hcu.
          by apply (we_done_closed _ _ _ Hwf u v). }
      destruct (decide (v ∈ s ++ [x])) as [Hq|Hq].
      + rewrite (proj2 (Hin v Hq)). lia.
      + rewrite (proj2 (Hoth v Hq)). by destruct Hgoal.
    - intros v w Hv Hw Hcv. unfold comp in *. simpl in *.
      destruct (decide (v ∈ s ++ [x])) as [Hpv|Hpv];
        destruct (decide (w ∈ s ++ [x])) as [Hpw|Hpw].
      + rewrite (proj2 (Hin v Hpv)), (proj2 (Hin w Hpw)).
        split; [intros _|done].
        destruct (Hmut v Hpv), (Hmut w Hpw).
        split; eapply reach_trans; done.
      + rewrite (proj2 (Hin v Hpv)), (proj2 (Hoth w Hpw)). split.
        * intros Heq.
          destruct (we_comp_range _ _ _ Hwf w Hw) as [Hc|Hc];
            unfold comp in Hc; lia.
        * intros [Hvw Hwv]. exfalso.
          destruct (Hrpop v w Hpv Hvw) as [?|[_ Hcw]]; [done|].
          destruct (reach_done st _ w v Hwf Hw Hcw Hwv) as [_ Hc].
          apply Hc, (Hcpop v Hpv).
      + rewrite (proj2 (Hoth v Hpv)), (proj2 (Hin w Hpw)).
        rewrite (proj2 (Hoth v Hpv)) in Hcv. split.
        * intros Heq.
          destruct (we_comp_range _ _ _ Hwf v Hv) as [Hc|Hc];
            unfold comp in Hc; lia.
        * intros [Hvw Hwv]. exfalso.
          destruct (reach_done st _ v w Hwf Hv Hcv Hvw) as [_ Hc].
          apply Hc, (Hcpop w Hpw).
      + rewrite (proj2 (Hoth v Hpv)), (proj2 (Hoth w Hpw)).
        rewrite (proj2 (Hoth v Hpv)) in Hcv.
        by apply (we_scc _ _ _ Hwf). }
  split.
  { split; [|done]. exists []. split; [done|]. intros v Hv.
    by apply elem_of_nil in Hv. }
  split; [done|]. split; [done|].
  split; [change (low st x ≤ num st x); lia|].
  split; [done|]. split; [done|].
  intros s' w y Hs' Hw. simpl in Hs'. assert (s' = []) as ->.
  { apply (f_equal length) in Hs'. rewrite length_app in Hs'.
    destruct s'; [done|simpl in Hs'; lia]. }
  by apply elem_of_nil in Hw.
Qed.

(** The end of the call: the component of [x] is popped when [x] is its
    own low link. *)
Lemma strongconnect_exit_post out st :
  _out_edges g !! x = Some out →
  strongconnect_inv g gray x st_e out st →
  ∃ st', strongconnect_exit x st = inr st' ∧
         strongconnect_post g gray x st_e st'.
Proof.
  intros Hout Hinv.
  destruct (inv_facts _ _ Hinv) as ((s & Hs & Hsn) & Hnx & Hvx & Hold).
  pose proof Hinv as (Hwf & _).
  pose proof (we_len_indexes _ _ _ Hwf) as Hli.
  pose proof (we_len_low _ _ _ Hwf) as Hll.
  pose proof (we_len_on _ _ _ Hwf) as Hlo.
  pose proof (we_len_scc _ _ _ Hwf) as Hls.
  unfold strongconnect_exit. rewrite !index_total by lia. simpl.
  fold (low st x) (num st x).
  destruct (Z.eqb_spec (low st x) (num st x)) as [Hroot|Hnon].
  - pose proof (we_stack_nodup _ _ _ Hwf) as Hnd. rewrite Hs in Hnd.
    apply NoDup_app in Hnd as (_ & Hdisj & _).
    destruct (pop_component_spec x s (stack st_e) (on_stack st) (scc st)
                (scc_index st)) as (on' & sc' & Hpop & Hlon & Hlsc & Hin &
                                    Hoth).
    { intros Hxs. apply (Hdisj x Hxs). left. }
    { intros v Hv. assert (Hvs : v ∈ stack st) by (rewrite Hs; set_solver).
      destruct (we_stack_visited _ _ _ Hwf v Hvs). lia. }
    rewrite Hs, Hpop. simpl. eexists. split; [done|].
    eapply exit_root; try done; lia.
  - eexists. split; [done|]. by eapply exit_nonroot.
Qed.
End Call.

(** [__strongconnect] returns, within the recursion depth, on a node
    not visited, and leaves the state well formed. *)
Lemma strongconnect_spec depth : call_spec g (strongconnect g depth) depth.
Proof.
  induction depth as [|d IH]; intros gray x st Hwf Hx Hw Hacc Hd.
  - pose proof (white_count_pos st x Hx Hw). lia.
  - simpl. rewrite (strongconnect_enter_eq _ _ _ Hwf Hx). simpl.
    assert (Hout : ∃ out, _out_edges g !! x = Some out).
    { apply lookup_lt_is_Some. rewrite (proj1 Hadj). done. }
    destruct Hout as [out Hout].
    rewrite (proj2 (index_inr _ _ _) Hout). simpl.
    destruct (strongconnect_loop gray x st Hwf Hx Hw Hacc
                (strongconnect g d) d out IH Hd [] (entered x st))
      as (st1 & Hloop & Hinv).
    { intros j Hj. by apply (proj1 (out_edges_succ _ _ Hout)). }
    { by apply entered_inv. }
    rewrite Hloop. simpl.
    by eapply (strongconnect_exit_post gray x st).
Qed.

Lemma tarjan_init_wf : wf_env g (tarjan_init N) [].
Proof.
  assert (Hnum : ∀ v, (v < N)%nat → num (tarjan_init N) v = -1).
  { intros v Hv. unfold num. simpl. by apply lookup_total_replicate_2. }
  assert (Hcomp : ∀ v, (v < N)%nat → comp (tarjan_init N) v = -1).
  { intros v Hv. unfold comp. simpl. by apply lookup_total_replicate_2. }
  assert (Hvis : ∀ v, ¬ visited g (tarjan_init N) v).
  { intros v [Hv Hn]. by apply Hn, Hnum. }
  split; simpl; try (by rewrite length_replicate); try done.
  - intros v Hv. left. by apply Hnum.
  - intros u v Hu. by destruct (Hvis u).
  - constructor.
  - intros v Hv. rewrite lookup_total_replicate_2 by done.
    split; [done|]. intros Hin. by apply elem_of_nil in Hin.
  - intros v Hin. by apply elem_of_nil in Hin.
  - intros v Hv. split; [by rewrite Hcomp|]. intros [Hv' _].
    by destruct (Hvis v).
  - intros v Hv. left. by apply Hcomp.
  - intros s1 a s2 Hs. by destruct s1.
  - intros u v Hu. by destruct (Hvis u).
  - intros a b Ha. by apply elem_of_nil in Ha.
  - intros y Hy. by apply elem_of_nil in Hy.
  - intros u v Hu Hc. by rewrite Hcomp in Hc.
  - intros v w Hv Hw Hc. by rewrite Hcomp in Hc.
Qed.

Lemma white_count_bound st : (white_count g st ≤ N)%nat.
Proof.
  unfold white_count.
  etransitivity; [apply length_filter|]. by rewrite length_seq.
Qed.

(** The [for node in range(len(self._nodes))] of [__tarjan]. *)
Lemma tarjan_loop depth len :
  (N ≤ depth)%nat →
  ∀ a st, (a + len = N)%nat → wf_env g st [] →
    (∀ v, (v < a)%nat → visited g st v) →
    ∃ st',
      for_each (seq a len) (fun node st =>
          ix ← index (indexes st) node;
          if ix =? -1 then strongconnect g depth node st else ok st) st
      = inr st' ∧
      wf_env g st' [] ∧ ∀ v, (v < N)%nat → visited g st' v.
Proof.
  intros Hdepth. induction len as [|len IH]; intros a st Ha Hwf Hvis.
  - exists st. split; [done|]. split; [done|]. intros v Hv. apply Hvis. lia.
  - simpl. rewrite index_total by (rewrite (we_len_indexes _ _ _ Hwf); lia).
    simpl. fold (num st a).
    destruct (Z.eqb_spec (num st a) (-1)) as [Hw|Hnw].
    + destruct (strongconnect_spec depth [] a st) as (st1 & Hcall & Hpost);
        try done.
      { lia. }
      { intros z Hz. by apply elem_of_nil in Hz. }
      { pose proof (white_count_bound st). lia. }
      rewrite Hcall. simpl.
      destruct Hpost as (Hwf1 & Hsub & _ & Hva & _).
      apply IH; [lia|done|]. intros v Hv.
      destruct (decide (v = a)) as [->|Hne]; [done|].
      eapply sub_env_visited; [done|]. apply Hvis. lia.
    + apply IH; [lia|done|]. intros v Hv.
      destruct (decide (v = a)) as [->|Hne]; [split; [lia|done]|].
      apply Hvis. lia.
Qed.

(** [__tarjan] returns, within the recursion depth, the component of each
    node: the ids are not negative, and two nodes have the same id when
    each reaches the other. *)
Lemma tarjan_spec depth :
  (N ≤ depth)%nat →
  ∃ sc, tarjan g depth = inr sc ∧ length sc = N ∧
    (∀ v, (v < N)%nat → 0 ≤ sc !!! v) ∧
    (∀ v w, (v < N)%nat → (w < N)%nat →
       (sc !!! v = sc !!! w ↔ reach g None v w ∧ reach g None w v)).
Proof.
  intros Hdepth.
  destruct (tarjan_loop depth N Hdepth 0%nat (tarjan_init N))
    as (st & Hloop & Hwf & Hvis); [done|apply tarjan_init_wf|lia|].
  assert (Hstack : ∀ v, v ∉ stack st).
  { intros v Hv. destruct (we_stack_gray _ _ _ Hwf v Hv) as (z & Hz & _).
    by apply elem_of_nil in Hz. }
  assert (Hcomp : ∀ v, (v < N)%nat → comp st v ≠ -1).
  { intros v Hv. apply (we_comp _ _ _ Hwf v Hv). split; [by apply Hvis|].
    apply Hstack. }
  exists (scc st). split.
  { unfold tarjan. rewrite Hloop. simpl.
    rewrite bool_decide_eq_false_2; [done|].
    intros Hin. apply list_elem_of_lookup in Hin as [v Hin].
    apply (Hcomp v).
    - rewrite <- (we_len_scc _ _ _ Hwf). by eapply lookup_lt_Some.
    - unfold comp. by apply list_lookup_total_correct. }
  split; [apply Hwf|]. split.
  - intros v Hv. specialize (Hcomp v Hv).
    destruct (we_comp_range _ _ _ Hwf v Hv) as [?|?]; [done|].
    change (scc st !!! v) with (comp st v). lia.
  - intros v w Hv Hw.
    change (comp st v = comp st w ↔ reach g None v w ∧ reach g None w v).
    rewrite (we_scc _ _ _ Hwf w v Hw Hv (Hcomp w Hw)). naive_solver.
Qed.
End Tarjan.

(** ** The components of the constructed graph *)

Lemma wf_graph_adjacency g ns :
  wf_graph g → length ns = length (_nodes g) → adjacency (set_nodes g ns).
Proof.
  intros (Hcr & Hlen & Hout) Hns. unfold adjacency. simpl.
  split; [congruence|]. split; [done|].
  intros j e He. rewrite Hns. by apply (cr_bounds _ _ Hcr j).
Qed.

(** C4: on the graph built from the objects and the transitions, with the
    complexities the propagation has left, [__tarjan] returns within a
    recursion depth of the number of nodes; its result gives every node one
    component id, which is not negative, and two nodes have the same id
    if and only if each is reachable from the other along the edges. *)
Theorem C4_tarjan_partition objects transitions g ns depth :
  built objects transitions = inr g →
  propagate_complexity g (inr ns) →
  (length (_nodes g) ≤ depth)%nat →
  ∃ sc, tarjan (set_nodes g ns) depth = inr sc ∧
    length sc = length (_nodes g) ∧
    (∀ v, (v < length (_nodes g))%nat → ∃ c, sc !! v = Some c ∧ 0 ≤ c) ∧
    (∀ v w cv cw, sc !! v = Some cv → sc !! w = Some cw →
       (cv = cw ↔ reach (set_nodes g ns) None v w ∧
                  reach (set_nodes g ns) None w v)).
Proof.
  intros Hb Hp Hd. pose proof (built_wf _ _ _ Hb) as Hwf.
  assert (Hlen : length ns = length (_nodes g)).
  { symmetry. eapply Forall2_length.
    apply (pi_kinds _ _ _ _ (propagate_complexity_inv g Hwf ns Hp)). }
  destruct (tarjan_spec (set_nodes g ns) (wf_graph_adjacency g ns Hwf Hlen)
              depth) as (sc & Hsc & Hl & Hpos & Hiff).
  { simpl. lia. }
  simpl in Hl, Hpos, Hiff. exists sc. split; [done|].
  split; [lia|]. split.
  - intros v Hv. exists (sc !!! v). split.
    + apply list_lookup_lookup_total_lt. lia.
    + apply Hpos. lia.
  - intros v w cv cw Hv Hw.
    rewrite <- (list_lookup_total_correct _ _ _ Hv).
    rewrite <- (list_lookup_total_correct _ _ _ Hw).
    apply Hiff; rewrite <- Hl; by eapply lookup_lt_Some.
Qed.

Lemma cycle_built_eq : built cycle_objects cycle_transitions = inr cycle_built.
Proof. compute_eq. Qed.

Lemma cycle_settled_run :
  propagate_complexity cycle_built (inr (_nodes cycle_settled)).
Proof. apply (ws_sched_run _ [0; 2; 1; 3]%nat). compute_eq. Qed.

Lemma C4_tarjan_partition_witness :
  ∃ sc, tarjan (set_nodes cycle_built (_nodes cycle_settled)) 4 = inr sc ∧
    length sc = length (_nodes cycle_built) ∧
    (∀ v, (v < length (_nodes cycle_built))%nat →
          ∃ c, sc !! v = Some c ∧ 0 ≤ c) ∧
    (∀ v w cv cw, sc !! v = Some cv → sc !! w = Some cw →
       (cv = cw ↔
        reach (set_nodes cycle_built (_nodes cycle_settled)) None v w ∧
        reach (set_nodes cycle_built (_nodes cycle_settled)) None w v)).
Proof.
  apply (C4_tarjan_partition cycle_objects cycle_transitions cycle_built
           (_nodes cycle_settled) 4).
  - exact cycle_built_eq.
  - exact cycle_settled_run.
  - simpl. lia.
Defined.

(** ** Transitions *)

(** X1: a transition the constructor accepts is NATURAL exactly when it
    has a decay time; when it is not a craft it has one input object, the
    target, or the actor for a drop. *)
Theorem X1_transition_inputs_by_type t :
  Transition_asserts t = true →
  (Transition_type t = TransitionType.NATURAL ↔ auto_decay_seconds t ≠ 0) ∧
  match Transition_type t with
  | TransitionType.NATURAL | TransitionType.BARE_HANDS
  | TransitionType.INTERACT => get_input_objects t = [target t]
  | TransitionType.DROP => get_input_objects t = [actor t]
  | TransitionType.CRAFT =>
      actor t ≠ -1 ∧ actor t ≠ 0 ∧ actor t ≠ -2 ∧ target t ≠ -1
  end.
Proof.
  unfold Transition_asserts, Transition_type, get_input_objects.
  intros H. apply andb_true_iff in H as [H1 H2].
  apply eqb_prop in H2. split.
  - destruct (Z.eqb_spec (auto_decay_seconds t) 0) as [Hz|Hz]; simpl in H2.
    + apply bool_decide_eq_false in H2. split; [done|]. intros Hn. done.
    + apply bool_decide_eq_true in H2. split; [done|]. intros _. done.
  - destruct (Z.eqb_spec (actor t) (-1)) as [Ha|Ha].
    { apply Z.ltb_lt in H1.
      destruct (Z.ltb_spec 0 (actor t)); [lia|].
      destruct (Z.ltb_spec 0 (target t)); [done|lia]. }
    destruct (Z.eqb_spec (actor t) 0) as [Ha0|Ha0].
    { apply Z.ltb_lt in H1.
      destruct (Z.ltb_spec 0 (actor t)); [lia|].
      destruct (Z.ltb_spec 0 (target t)); [done|lia]. }
    destruct (Z.eqb_spec (actor t) (-2)) as [Ha2|Ha2].
    { apply Z.ltb_lt in H1.
      destruct (Z.ltb_spec 0 (actor t)); [lia|].
      destruct (Z.ltb_spec 0 (target t)); [done|lia]. }
    destruct (Z.eqb_spec (target t) (-1)) as [Ht|Ht].
    { apply Z.ltb_lt in H1.
      destruct (Z.ltb_spec 0 (actor t)); [|lia].
      destruct (Z.ltb_spec 0 (target t)); [lia|done]. }
    done.
Qed.

Lemma X1_transition_inputs_by_type_witness :
  (Transition_type stone_transition = TransitionType.NATURAL ↔
   auto_decay_seconds stone_transition ≠ 0) ∧
  match Transition_type stone_transition with
  | TransitionType.NATURAL | TransitionType.BARE_HANDS
  | TransitionType.INTERACT =>
      get_input_objects stone_transition = [target stone_transition]
  | TransitionType.DROP =>
      get_input_objects stone_transition = [actor stone_transition]
  | TransitionType.CRAFT =>
      actor stone_transition ≠ -1 ∧ actor stone_transition ≠ 0 ∧
      actor stone_transition ≠ -2 ∧ target stone_transition ≠ -1
  end.
Proof. apply (X1_transition_inputs_by_type stone_transition). reflexivity. Defined.

(** ** [_create] *)

Lemma for_each_total {A S} (I : S → Prop) (l : list A)
      (body : A → S → result S) s :
  I s → (∀ x s, x ∈ l → I s → ∃ s', body x s = inr s' ∧ I s') →
  ∃ r, for_each l body s = inr r ∧ I r.
Proof.
  revert s. induction l as [|x l IH]; intros s Hs Hb; simpl; [eauto|].
  destruct (Hb x s) as (s' & Hx & Hs'); [left|done|]. rewrite Hx. simpl.
  apply IH; [done|]. intros y s0 Hy. apply Hb. by right.
Qed.

Lemma for_each_elems {A S} (I : S → Prop) (C : A → Prop) (l : list A)
      (body : A → S → result S) s r :
  I s → (∀ x s s', x ∈ l → I s → body x s = inr s' → I s' ∧ C x) →
  for_each l body s = inr r → I r ∧ ∀ x, x ∈ l → C x.
Proof.
  revert s. induction l as [|x l IH]; intros s Hs Hb; simpl.
  - intros [= <-]. split; [done|]. intros x Hx. by apply elem_of_nil in Hx.
  - intros H. apply bind_inr in H as (s' & Hx & H).
    destruct (Hb x s s') as [Hs' Hc]; [left|done|done|].
    destruct (IH s') as [Hr Hl]; [done| |done|].
    { intros y s0 s1 Hy. apply Hb. by right. }
    split; [done|]. intros y Hy. apply elem_of_cons in Hy as [->|Hy]; eauto.
Qed.

Lemma with_node_snoc done o :
  with_node (done ++ [o]) =
  with_node done ++ (if decide (0 < identifier o) then [o] else []).
Proof.
  unfold with_node. by rewrite filter_app.
Qed.

Lemma known_snoc done o a :
  known (done ++ [o]) a ↔ known done a ∨ (identifier o = a ∧ 0 < a).
Proof.
  unfold known. split.
  - intros (o' & Ho' & Hid & Hpos). apply elem_of_app in Ho' as [?|Ho'].
    + left. eauto.
    + apply list_elem_of_singleton in Ho' as ->. by right.
  - intros [(o' & Ho' & Hid & Hpos)|[Hid Hpos]].
    + exists o'. set_solver.
    + exists o. set_solver.
Qed.

Lemma NodeObject_init_inr obj n :
  NodeObject_init obj = inr n ↔
  identifier obj < DEFAULT_COMPLEXITY ∧ n = object_node obj.
Proof.
  unfold NodeObject_init, object_node.
  destruct (Z.ltb_spec (identifier obj) DEFAULT_COMPLEXITY); simpl; split.
  - by intros [= <-].
  - by intros [_ ->].
  - done.
  - lia.
Qed.

(** The first loop: the nodes of the objects and [obj_to_node]. *)
Lemma create_nodes_spec objects g :
  for_each objects create_node Graph_empty = inr g →
  _nodes g = object_node <$> with_node objects ∧
  _edges g = [] ∧ _incoming_edges g = [] ∧ _out_edges g = [] ∧
  (∀ a i, obj_to_node g !! a = Some i →
     ∃ o, with_node objects !! i = Some o ∧ identifier o = a) ∧
  (∀ a, is_Some (obj_to_node g !! a) ↔ known objects a) ∧
  (NoDup (identifier <$> with_node objects) →
   ∀ i o, with_node objects !! i = Some o →
          obj_to_node g !! identifier o = Some i).
Proof.
  apply (for_each_inv (fun done g =>
    _nodes g = object_node <$> with_node done ∧
    _edges g = [] ∧ _incoming_edges g = [] ∧ _out_edges g = [] ∧
    (∀ a i, obj_to_node g !! a = Some i →
       ∃ o, with_node done !! i = Some o ∧ identifier o = a) ∧
    (∀ a, is_Some (obj_to_node g !! a) ↔ known done a) ∧
    (NoDup (identifier <$> with_node done) →
     ∀ i o, with_node done !! i = Some o →
            obj_to_node g !! identifier o = Some i))).
  - do 4 (split; [done|]). split; [|split].
    + intros a i H. simpl in H. by rewrite lookup_empty in H.
    + intros a. split.
      * intros [? H]. simpl in H. by rewrite lookup_empty in H.
      * intros (o & Ho & _). by apply elem_of_nil in Ho.
    + intros _ i o H. by destruct i.
  - intros done o rest g1 g2 _ (Hn & He & Hi & Ho & Hl & Hd & Hr) Hb.
    unfold create_node in Hb. rewrite with_node_snoc.
    destruct (Z.ltb_spec 0 (identifier o)) as [Hpos|Hpos].
    + rewrite decide_True by done.
      apply bind_inr in Hb as (n & Hinit & Hb). injection Hb as <-.
      apply NodeObject_init_inr in Hinit as [Hlt ->]. simpl.
      assert (Hlen : length (_nodes g1) = length (with_node done)).
      { by rewrite Hn, length_fmap. }
      split; [by rewrite Hn, fmap_app|]. do 3 (split; [done|]).
      split; [|split].
      * intros a i Hai. apply lookup_insert_Some in Hai as [[<- <-]|[Hne Hai]].
        -- exists o. split; [|done]. rewrite Hlen.
           by rewrite lookup_app_r, Nat.sub_diag.
        -- destruct (Hl _ _ Hai) as (o' & Ho' & Hid). exists o'.
           split; [|done]. by apply lookup_app_l_Some.
      * intros a. rewrite known_snoc, <- Hd.
        destruct (decide (identifier o = a)) as [<-|Hne].
        -- rewrite lookup_insert_eq. split; [intros _; by right|eauto].
        -- rewrite lookup_insert_ne by done. naive_solver.
      * intros Hnd i o' Hio. rewrite fmap_app in Hnd.
        apply NoDup_app in Hnd as (Hnd1 & Hdisj & _).
        apply lookup_app_Some in Hio as [Hio|[Hge Hio]].
        -- rewrite lookup_insert_ne; [by apply Hr|].
           intros Heq. apply (Hdisj (identifier o')).
           ++ apply list_elem_of_fmap. exists o'. split; [done|].
              by eapply list_elem_of_lookup_2.
           ++ rewrite <- Heq. set_solver.
        -- apply list_lookup_singleton_Some in Hio as [Hi0 <-].
           rewrite lookup_insert_eq. f_equal. lia.
    + rewrite decide_False by lia. injection Hb as <-. rewrite app_nil_r.
      do 5 (split; [done|]). split; [|done].
      intros a. rewrite known_snoc, <- Hd. split; [by left|].
      intros [?|[<- ?]]; [done|lia].
Qed.

(** The second and the third loop add edges, and the third the nodes of
    the transitions; [obj_to_node] and the adjacency lists stay. *)
Lemma create_category_edges_frame obj g g' :
  create_category_edges obj g = inr g' →
  _nodes g' = _nodes g ∧ obj_to_node g' = obj_to_node g ∧
  _incoming_edges g' = _incoming_edges g ∧ _out_edges g' = _out_edges g.
Proof.
  unfold create_category_edges.
  apply (for_each_preserves (fun g' =>
    _nodes g' = _nodes g ∧ obj_to_node g' = obj_to_node g ∧
    _incoming_edges g' = _incoming_edges g ∧ _out_edges g' = _out_edges g));
    [done|].
  intros c g1 g2 _ H Hb. apply bind_inr in Hb as (f & _ & Hb).
  apply bind_inr in Hb as (t & _ & Hb). by injection Hb as <-.
Qed.

Lemma create_transition_frame tr g g' :
  create_transition tr g = inr g' →
  _nodes g' = _nodes g ++ [NodeTransition_init tr] ∧
  obj_to_node g' = obj_to_node g ∧
  _incoming_edges g' = _incoming_edges g ∧ _out_edges g' = _out_edges g.
Proof.
  unfold create_transition. intros H. apply bind_inr in H as (g1 & H1 & H2).
  set (F (g' : Graph) :=
    _nodes g' = _nodes g ++ [NodeTransition_init tr] ∧
    obj_to_node g' = obj_to_node g ∧
    _incoming_edges g' = _incoming_edges g ∧ _out_edges g' = _out_edges g).
  assert (F g1) as HF1.
  { revert H1. apply (for_each_preserves F); [done|].
    intros a g2 g3 _ HF Hb. case_bool_decide; [by injection Hb as <-|].
    apply bind_inr in Hb as (t & _ & Hb). by injection Hb as <-. }
  revert H2. apply (for_each_preserves F); [done|].
  intros a g2 g3 _ HF Hb. apply bind_inr in Hb as (et & _ & Hb).
  apply bind_inr in Hb as (f & _ & Hb). by injection Hb as <-.
Qed.

Lemma create_transitions_frame transitions g g' :
  for_each transitions create_transition g = inr g' →
  _nodes g' = _nodes g ++ (NodeTransition_init <$> transitions) ∧
  obj_to_node g' = obj_to_node g ∧
  _incoming_edges g' = _incoming_edges g ∧ _out_edges g' = _out_edges g.
Proof.
  apply (for_each_inv (fun done g' =>
    _nodes g' = _nodes g ++ (NodeTransition_init <$> done) ∧
    obj_to_node g' = obj_to_node g ∧
    _incoming_edges g' = _incoming_edges g ∧ _out_edges g' = _out_edges g)).
  - by rewrite app_nil_r.
  - intros done tr rest g1 g2 _ (Hn & Ho & Hi & Hu) Hb.
    apply create_transition_frame in Hb as (Hn' & Ho' & Hi' & Hu').
    rewrite Hn', Ho', Hi', Hu', Hn, fmap_app, <- app_assoc. done.
Qed.

Lemma create_categories_frame objects g g' :
  for_each objects create_category_edges g = inr g' →
  _nodes g' = _nodes g ∧ obj_to_node g' = obj_to_node g ∧
  _incoming_edges g' = _incoming_edges g ∧ _out_edges g' = _out_edges g.
Proof.
  apply (for_each_preserves (fun g' =>
    _nodes g' = _nodes g ∧ obj_to_node g' = obj_to_node g ∧
    _incoming_edges g' = _incoming_edges g ∧ _out_edges g' = _out_edges g));
    [done|].
  intros o g1 g2 _ (Hn & Ho & Hi & Hu) Hb.
  apply create_category_edges_frame in Hb as (Hn' & Ho' & Hi' & Hu').
  by rewrite Hn', Ho', Hi', Hu'.
Qed.

Lemma _create_layout objects transitions g :
  _create objects transitions Graph_empty = inr g →
  _nodes g = (object_node <$> with_node objects) ++
             (NodeTransition_init <$> transitions) ∧
  _incoming_edges g = [] ∧ _out_edges g = [] ∧
  (∀ a i, obj_to_node g !! a = Some i →
     ∃ o, with_node objects !! i = Some o ∧ identifier o = a) ∧
  (∀ a, is_Some (obj_to_node g !! a) ↔ known objects a) ∧
  (NoDup (identifier <$> with_node objects) →
   ∀ i o, with_node objects !! i = Some o →
          obj_to_node g !! identifier o = Some i).
Proof.
  unfold _create. intros H. apply bind_inr in H as (g1 & H1 & H).
  apply bind_inr in H as (g2 & H2 & H3).
  apply create_nodes_spec in H1 as (Hn & _ & Hi & Hu & Hl & Hd & Hr).
  apply create_categories_frame in H2 as (Hn2 & Ho2 & Hi2 & Hu2).
  apply create_transitions_frame in H3 as (Hn3 & Ho3 & Hi3 & Hu3).
  rewrite Hn3, Ho3, Hi3, Hu3, Hn2, Ho2, Hi2, Hu2, Hn. done.
Qed.

Lemma update_adjacency_frame g g' :
  update_adjacency g = inr g' →
  _nodes g' = _nodes g ∧ _edges g' = _edges g ∧
  obj_to_node g' = obj_to_node g.
Proof.
  unfold update_adjacency. intros H. apply bind_inr in H as ([inc out] & _ & H).
  by injection H as <-.
Qed.

(** X2: the nodes of the graph are the nodes of the objects of positive
    identifier, in the order of the objects, natural ones at complexity 0
    and the others at the default, then one node per transition, in
    their order, at complexity -1. *)
Theorem X2_nodes_layout objects transitions g :
  built objects transitions = inr g →
  _nodes g = (object_node <$> with_node objects) ++
             (NodeTransition_init <$> transitions).
Proof.
  unfold built. intros H. apply bind_inr in H as (g0 & H0 & H1).
  apply update_adjacency_frame in H1 as (-> & _).
  by apply _create_layout in H0 as (-> & _).
Qed.

Lemma X2_nodes_layout_witness :
  _nodes craft_built =
  (object_node <$> with_node (craft_objects true)) ++
  (NodeTransition_init <$> [craft_transition]).
Proof.
  apply (X2_nodes_layout (craft_objects true) [craft_transition] craft_built).
  exact craft_built_eq.
Defined.

(** X3: [obj_to_node] maps the identifier of an object to the index of
    the node holding an object of that identifier, and only the positive
    identifiers of the objects are keys; when the identifiers are distinct
    the node holds the object itself, at its rank among the objects of
    positive identifier. *)
Theorem X3_obj_to_node_round_trip objects transitions g :
  built objects transitions = inr g →
  (∀ a, is_Some (obj_to_node g !! a) ↔ known objects a) ∧
  (∀ a i, obj_to_node g !! a = Some i →
     ∃ o, with_node objects !! i = Some o ∧ identifier o = a ∧
          _nodes g !! i = Some (object_node o)) ∧
  (NoDup (identifier <$> with_node objects) →
   ∀ o, o ∈ objects → 0 < identifier o →
     ∃ i, obj_to_node g !! identifier o = Some i ∧
          with_node objects !! i = Some o ∧
          _nodes g !! i = Some (object_node o)).
Proof.
  unfold built. intros H. apply bind_inr in H as (g0 & H0 & H1).
  apply update_adjacency_frame in H1 as (Hn & _ & Ho).
  apply _create_layout in H0 as (Hn0 & _ & _ & Hl & Hd & Hr).
  rewrite Hn, Ho, Hn0.
  assert (Hnode : ∀ i o, with_node objects !! i = Some o →
            ((object_node <$> with_node objects) ++
             (NodeTransition_init <$> transitions)) !! i =
            Some (object_node o)).
  { intros i o Hi. apply lookup_app_l_Some.
    by rewrite list_lookup_fmap, Hi. }
  split; [done|]. split.
  - intros a i Hai. destruct (Hl _ _ Hai) as (o & Hi & Hid). eauto.
  - intros Hnd o Hin Hpos.
    assert (Hw : o ∈ with_node objects).
    { apply list_elem_of_filter. done. }
    apply list_elem_of_lookup in Hw as [i Hi]. exists i.
    split; [by apply Hr|]. split; [done|by apply Hnode].
Qed.

Lemma X3_obj_to_node_round_trip_witness :
  (∀ a, is_Some (obj_to_node craft_built !! a) ↔
        known (craft_objects true) a) ∧
  (∀ a i, obj_to_node craft_built !! a = Some i →
     ∃ o, with_node (craft_objects true) !! i = Some o ∧ identifier o = a ∧
          _nodes craft_built !! i = Some (object_node o)) ∧
  (NoDup (identifier <$> with_node (craft_objects true)) →
   ∀ o, o ∈ craft_objects true → 0 < identifier o →
     ∃ i, obj_to_node craft_built !! identifier o = Some i ∧
          with_node (craft_objects true) !! i = Some o ∧
          _nodes craft_built !! i = Some (object_node o)).
Proof.
  apply (X3_obj_to_node_round_trip (craft_objects true) [craft_transition]).
  exact craft_built_eq.
Defined.

Lemma for_each_succeeds_iff {A S} (I : S → Prop) (C : A → Prop) (l : list A)
      (body : A → S → result S) s :
  I s →
  (∀ x s, I s → (∃ s', body x s = inr s') ↔ C x) →
  (∀ x s s', I s → body x s = inr s' → I s') →
  (∃ r, for_each l body s = inr r ∧ I r) ↔ ∀ x, x ∈ l → C x.
Proof.
  intros Hs Hiff Hpres. split.
  - intros (r & Hr & _). revert Hr.
    intros Hr. eapply (for_each_elems I C); [done| |done].
    intros x s1 s2 _ H1 Hb. split; [by eapply Hpres|].
    apply (Hiff x s1 H1). eauto.
  - intros Hall. apply for_each_total; [done|].
    intros x s1 Hx H1. destruct (proj2 (Hiff x s1 H1) (Hall x Hx)) as [s' Hb].
    exists s'. split; [done|]. by eapply Hpres.
Qed.

Lemma getitem_is_Some d k : (∃ v, getitem d k = inr v) ↔ is_Some (d !! k).
Proof.
  unfold getitem. destruct (d !! k); split.
  - eauto.
  - eauto.
  - by intros [? ?].
  - by intros [? ?].
Qed.

Lemma _transition_type_to_edge_type_inr tt :
  ∃ et, _transition_type_to_edge_type tt = inr et ∧ et ≠ EdgeType.OTHER ∧
        et ≠ EdgeType.TRANSITION ∧ et ≠ EdgeType.CATEGORY ∧
        et ≠ EdgeType.TOOL.
Proof. destruct tt; eexists; (split; [reflexivity|done]). Qed.

Lemma create_category_edges_succeeds obj g :
  (∃ g', create_category_edges obj g = inr g') ↔
  ∀ c, c ∈ category_contains obj →
       is_Some (obj_to_node g !! c) ∧
       is_Some (obj_to_node g !! identifier obj).
Proof.
  unfold create_category_edges.
  rewrite <- (for_each_succeeds_iff
                (fun g' => obj_to_node g' = obj_to_node g)); [|done|..].
  - split; [|by intros (r & ? & _); eauto]. intros [g' Hg']. exists g'.
    split; [done|]. by apply create_category_edges_frame in Hg' as (_ & ? & _).
  - intros c g1 Hg1. cbv beta. rewrite Hg1, <- !getitem_is_Some. split.
    + intros (s' & Hb). apply bind_inr in Hb as (f & Hf & Hb).
      apply bind_inr in Hb as (t & Ht & _). eauto.
    + intros [[f Hf] [t Ht]]. rewrite Hf. simpl. rewrite Ht. simpl. eauto.
  - intros c g1 g2 Hg1 Hb. apply bind_inr in Hb as (f & _ & Hb).
    apply bind_inr in Hb as (t & _ & Hb). by injection Hb as <-.
Qed.

Lemma create_transition_succeeds tr g :
  (∃ g', create_transition tr g = inr g') ↔
  ∀ a, a ∈ get_input_objects tr ∨ a ∈ get_output_objects tr →
       is_Some (obj_to_node g !! a).
Proof.
  unfold create_transition.
  set (g0 := set_nodes g (_nodes g ++ [NodeTransition_init tr])).
  set (I (g' : Graph) := obj_to_node g' = obj_to_node g).
  set (node := length (_nodes g)).
  assert (H1 : (∃ r, for_each (get_output_objects tr)
      (fun output gg =>
         if bool_decide (output ∈ get_input_objects tr) then ok gg
         else
           t ← getitem (obj_to_node gg) output;
           ok (set_edges gg
                 (_edges gg ++ [Edge_init node t
                                          EdgeType.TRANSITION None]))) g0
      = inr r ∧ I r) ↔
    ∀ a, a ∈ get_output_objects tr →
         a ∈ get_input_objects tr ∨ is_Some (obj_to_node g !! a)).
  { apply for_each_succeeds_iff; [done|..].
    - intros a g1 Hg1. cbv beta. rewrite Hg1. case_bool_decide as Hin.
      + split; [by left|eauto].
      + rewrite <- getitem_is_Some. split.
        * intros (s' & Hb). apply bind_inr in Hb as (t & Ht & _). eauto.
        * intros [?|[t Ht]]; [done|]. rewrite Ht. simpl. eauto.
    - intros a g1 g2 Hg1 Hb. case_bool_decide; [by injection Hb as <-|].
      apply bind_inr in Hb as (t & _ & Hb). by injection Hb as <-. }
  assert (H2 : ∀ g1, I g1 →
    (∃ r, for_each (get_input_objects tr)
      (fun input_ gg =>
         edge_type ← _transition_type_to_edge_type (Transition_type tr);
         let edge_type :=
           if bool_decide (edge_type = EdgeType.CONSUME)
              && bool_decide (input_ ∈ get_output_objects tr)
           then EdgeType.TOOL else edge_type in
         f ← getitem (obj_to_node gg) input_;
         ok (set_edges gg (_edges gg ++ [Edge_init f node
                                                   edge_type (Some tr)]))) g1
      = inr r ∧ I r) ↔
    ∀ a, a ∈ get_input_objects tr → is_Some (obj_to_node g !! a)).
  { intros g1 Hg1. apply for_each_succeeds_iff; [done|..].
    - intros a g2 Hg2. cbv beta. rewrite Hg2, <- getitem_is_Some.
      destruct (_transition_type_to_edge_type_inr (Transition_type tr))
        as (et & -> & _). simpl. split.
      + intros (s' & Hb). apply bind_inr in Hb as (f & Hf & _). eauto.
      + intros [f Hf]. rewrite Hf. simpl. eauto.
    - intros a g2 g3 Hg2 Hb. apply bind_inr in Hb as (et & _ & Hb).
      apply bind_inr in Hb as (f & _ & Hb). by injection Hb as <-. }
  split.
  - intros [g' Hg']. apply bind_inr in Hg' as (g1 & Hg1 & Hg').
    assert (Hout : ∃ r, for_each (get_output_objects tr)
      (fun output gg =>
         if bool_decide (output ∈ get_input_objects tr) then ok gg
         else
           t ← getitem (obj_to_node gg) output;
           ok (set_edges gg
                 (_edges gg ++ [Edge_init node t
                                          EdgeType.TRANSITION None]))) g0
      = inr r ∧ I r).
    { exists g1. split; [done|]. revert Hg1.
      apply (for_each_preserves I); [done|].
      intros a g2 g3 _ Hg2 Hb. case_bool_decide; [by injection Hb as <-|].
      apply bind_inr in Hb as (t & _ & Hb). by injection Hb as <-. }
    pose proof Hout as (r & Hr & HIr).
    assert (r = g1) as -> by congruence.
    assert (Hin : ∀ a, a ∈ get_input_objects tr →
                       is_Some (obj_to_node g !! a)).
    { apply (H2 g1 HIr). exists g'. split; [done|]. revert Hg'.
      apply (for_each_preserves I); [done|].
      intros a g2 g3 _ Hg2 Hb. apply bind_inr in Hb as (et & _ & Hb).
      apply bind_inr in Hb as (f & _ & Hb). by injection Hb as <-. }
    intros a [Ha|Ha]; [by apply Hin|].
    destruct (proj1 H1 Hout a Ha); [by apply Hin|done].
  - intros Hall.
    destruct (proj2 H1) as (g1 & Hg1 & HI1).
    { intros a Ha. right. apply Hall. by right. }
    destruct (proj2 (H2 g1 HI1)) as (g' & Hg' & _).
    { intros a Ha. apply Hall. by left. }
    exists g'. fold g0. rewrite Hg1. done.
Qed.

(** X4: [_create] returns, rather than raises, exactly when the positive
    identifiers are below the default complexity, the objects of a
    category and the category itself have a node, and so have the input
    and the output objects of every transition. *)
Theorem X4_create_succeeds_iff objects transitions :
  (∃ g, _create objects transitions Graph_empty = inr g) ↔
  (∀ o, o ∈ objects → 0 < identifier o →
        identifier o < DEFAULT_COMPLEXITY) ∧
  (∀ o c, o ∈ objects → c ∈ category_contains o →
          known objects c ∧ 0 < identifier o) ∧
  (∀ tr a, tr ∈ transitions →
           a ∈ get_input_objects tr ∨ a ∈ get_output_objects tr →
           known objects a).
Proof.
  unfold _create.
  assert (H1 : (∃ r, for_each objects create_node Graph_empty = inr r ∧ True)
               ↔ ∀ o, o ∈ objects →
                   0 < identifier o → identifier o < DEFAULT_COMPLEXITY).
  { apply for_each_succeeds_iff; [done| |done].
    intros o g _. unfold create_node.
    destruct (Z.ltb_spec 0 (identifier o)) as [Hpos|Hpos].
    - split.
      + intros (g' & Hb) _. apply bind_inr in Hb as (n & Hn & _).
        by apply NodeObject_init_inr in Hn as [? _].
      + intros Hlt.
        destruct (proj2 (NodeObject_init_inr o (object_node o))) as [];
          [by split; [apply Hlt|]|].
        rewrite (proj2 (NodeObject_init_inr o (object_node o)));
          [|by split; [apply Hlt|]]. simpl. eauto.
    - split; [lia|eauto]. }
  assert (Hknown : ∀ o, o ∈ objects →
            (0 < identifier o ↔ known objects (identifier o))).
  { intros o Ho. split; [intros ?; by exists o|by intros (_ & _ & _ & ?)]. }
  assert (H2 : ∀ g1, (∀ a, is_Some (obj_to_node g1 !! a) ↔ known objects a) →
    (∃ r, for_each objects create_category_edges g1 = inr r ∧
          obj_to_node r = obj_to_node g1) ↔
    ∀ o, o ∈ objects → ∀ c, c ∈ category_contains o →
         known objects c ∧ known objects (identifier o)).
  { intros g1 Hd. apply for_each_succeeds_iff; [done|..].
    - intros o g2 Hg2. rewrite create_category_edges_succeeds, Hg2.
      by setoid_rewrite Hd.
    - intros o g2 g3 Hg2 Hb.
      apply create_category_edges_frame in Hb as (_ & -> & _). done. }
  assert (H3 : ∀ g2, (∀ a, is_Some (obj_to_node g2 !! a) ↔ known objects a) →
    (∃ r, for_each transitions create_transition g2 = inr r ∧
          obj_to_node r = obj_to_node g2) ↔
    ∀ tr, tr ∈ transitions →
      ∀ a, a ∈ get_input_objects tr ∨ a ∈ get_output_objects tr →
           known objects a).
  { intros g2 Hd. apply for_each_succeeds_iff; [done|..].
    - intros tr g3 Hg3. rewrite create_transition_succeeds, Hg3.
      by setoid_rewrite Hd.
    - intros tr g3 g4 Hg3 Hb.
      apply create_transition_frame in Hb as (_ & -> & _). done. }
  split.
  - intros [g Hg]. apply bind_inr in Hg as (g1 & Hg1 & Hg).
    apply bind_inr in Hg as (g2 & Hg2 & Hg3).
    pose proof (create_nodes_spec _ _ Hg1) as (_ & _ & _ & _ & _ & Hd & _).
    pose proof (create_categories_frame _ _ _ Hg2) as (_ & Ho2 & _).
    pose proof (create_transitions_frame _ _ _ Hg3) as (_ & Ho3 & _).
    split; [apply H1; eauto|]. split.
    + intros o c Ho Hc.
      destruct (proj1 (H2 g1 Hd) (ex_intro _ g2 (conj Hg2 Ho2)) o Ho c Hc).
      split; [done|]. by apply Hknown.
    + intros tr a Htr Ha.
      assert (Hd2 : ∀ a, is_Some (obj_to_node g2 !! a) ↔ known objects a).
      { intros a'. rewrite Ho2. apply Hd. }
      by apply (proj1 (H3 g2 Hd2) (ex_intro _ g (conj Hg3 Ho3)) tr Htr a).
  - intros (C1 & C2 & C3).
    destruct (proj2 H1 C1) as (g1 & Hg1 & _).
    pose proof (create_nodes_spec _ _ Hg1) as (_ & _ & _ & _ & _ & Hd & _).
    destruct (proj2 (H2 g1 Hd)) as (g2 & Hg2 & Ho2).
    { intros o Ho c Hc. destruct (C2 o c Ho Hc). split; [done|].
      by apply Hknown. }
    assert (Hd2 : ∀ a, is_Some (obj_to_node g2 !! a) ↔ known objects a).
    { intros a'. rewrite Ho2. apply Hd. }
    destruct (proj2 (H3 g2 Hd2)) as (g3 & Hg3 & _).
    { intros tr Htr a Ha. by eapply C3. }
    exists g3. rewrite Hg1. simpl. rewrite Hg2. simpl. done.
Qed.

(** *** The kinds of the edges *)

Lemma edge_kind_mono g g' e :
  (∀ i n, _nodes g !! i = Some n → _nodes g' !! i = Some n) →
  edge_kind g e → edge_kind g' e.
Proof.
  intros Hsub. unfold edge_kind, is_object, is_transition.
  destruct (category e); naive_solver.
Qed.

Lemma edges_kind_add g e :
  (∀ j e', _edges g !! j = Some e' → edge_kind g e') → edge_kind g e →
  ∀ j e', (_edges g ++ [e]) !! j = Some e' → edge_kind g e'.
Proof.
  intros Hall He j e' Hj. apply lookup_app_Some in Hj as [Hj|[_ Hj]].
  - by eapply Hall.
  - by apply list_lookup_singleton_Some in Hj as [_ <-].
Qed.

Lemma input_category_eq tr a et :
  _transition_type_to_edge_type (Transition_type tr) = inr et →
  (if bool_decide (et = EdgeType.CONSUME)
      && bool_decide (a ∈ get_output_objects tr)
   then EdgeType.TOOL else et) = input_category tr a.
Proof.
  unfold _transition_type_to_edge_type, input_category.
  destruct (Transition_type tr); simpl; intros [= <-]; simpl; done.
Qed.

Lemma edge_kind_input g f node tr o :
  is_object g f o → is_transition g node tr →
  identifier o ∈ get_input_objects tr →
  edge_kind g (Edge_init f node (input_category tr (identifier o)) (Some tr)).
Proof.
  intros Ho Ht Hin. unfold edge_kind. simpl.
  destruct (input_category tr (identifier o)) eqn:Hk;
    try (by exists tr, o);
    unfold input_category in Hk; destruct (Transition_type tr);
    try done; by case_bool_decide.
Qed.

Lemma create_category_edges_kind obj g g' :
  created_upto g None →
  (∀ j e, _edges g !! j = Some e → edge_kind g e) →
  create_category_edges obj g = inr g' →
  ∀ j e, _edges g' !! j = Some e → edge_kind g' e.
Proof.
  intros Hc Hk H.
  cut (created_upto g' None ∧
       ∀ j e, _edges g' !! j = Some e → edge_kind g' e); [by intros [_ ?]|].
  revert H. unfold create_category_edges.
  apply (for_each_preserves (fun g' => created_upto g' None ∧
           ∀ j e, _edges g' !! j = Some e → edge_kind g' e)); [done|].
  intros c g1 g2 _ [Hc1 Hk1] Hb.
  apply bind_inr in Hb as (f & Hf & Hb). apply bind_inr in Hb as (t & Ht & Hb).
  injection Hb as <-. apply getitem_inr in Hf, Ht.
  destruct (cr_obj _ _ Hc1 _ _ Hf) as (o1 & c1 & H1 & _).
  destruct (cr_obj _ _ Hc1 _ _ Ht) as (o2 & c2 & H2 & _).
  split.
  - apply created_add_edge; [done|simpl; eauto|].
    simpl. by eapply lookup_lt_Some.
  - simpl. apply edges_kind_add; [done|]. unfold edge_kind. simpl.
    split; [done|]. exists o1, o2. split; eexists; done.
Qed.

Lemma create_transition_kind tr g g' :
  created_upto g None →
  (∀ j e, _edges g !! j = Some e → edge_kind g e) →
  create_transition tr g = inr g' →
  ∀ j e, _edges g' !! j = Some e → edge_kind g' e.
Proof.
  intros Hc Hk H. unfold create_transition in H.
  apply bind_inr in H as (g1 & H1 & H2).
  set (node := length (_nodes g)) in *.
  set (Q during (g : Graph) :=
         created_upto g (Some (node, during)) ∧
         _nodes g !! node = Some (NodeTransition tr (-1)) ∧
         ∀ j e, _edges g !! j = Some e → edge_kind g e).
  assert (Hout : Q [] g1).
  { revert H1. apply (for_each_preserves (Q [])).
    - split; [by apply created_add_transition|]. simpl. split.
      + rewrite lookup_app_r by done. by rewrite Nat.sub_diag.
      + intros j e He. eapply edge_kind_mono; [|by eapply Hk].
        intros i n Hi. simpl. by apply lookup_app_l_Some.
    - intros output g2 g3 Hin (Hc2 & Hn2 & Hk2) Hb. case_bool_decide as Hni.
      + by injection Hb as <-.
      + apply bind_inr in Hb as (t & Ht & Hb). injection Hb as <-.
        apply getitem_inr in Ht.
        destruct (cr_obj _ _ Hc2 _ _ Ht) as (o & c & Ho & Hid).
        split; [|split; [done|]].
        * apply created_add_edge; [done|simpl; eauto|].
          simpl. by eapply lookup_lt_Some.
        * simpl. apply edges_kind_add; [done|]. unfold edge_kind. simpl.
          split; [done|]. exists tr, o. rewrite Hid.
          split; [by eexists|]. split; [by eexists|]. done. }
  assert (Hin : Q (get_input_objects tr) g').
  { revert H2. apply (for_each_inv (fun done g => Q done g)); [done|].
    intros done input_ rest g2 g3 Hl (Hc2 & Hn2 & Hk2) Hb.
    apply bind_inr in Hb as (et & Het & Hb).
    apply bind_inr in Hb as (f & Hf & Hb).
    injection Hb as <-. apply getitem_inr in Hf.
    assert (Hmem : input_ ∈ get_input_objects tr) by (rewrite Hl; set_solver).
    destruct (cr_obj _ _ Hc2 _ _ Hf) as (o & c & Ho & Hid).
    split; [|split; [done|]].
    - eapply created_add_input; try done.
      rewrite <- (input_edge_cost _ input_ _ Het). done.
    - simpl. apply edges_kind_add; [done|].
      rewrite (input_category_eq _ _ _ Het), <- Hid.
      apply edge_kind_input; [by eexists|by eexists|by rewrite Hid]. }
  by destruct Hin as (_ & _ & ?).
Qed.

Lemma _create_kind objects transitions g :
  _create objects transitions Graph_empty = inr g →
  ∀ j e, _edges g !! j = Some e → edge_kind g e.
Proof.
  unfold _create. intros H. apply bind_inr in H as (g1 & H1 & H).
  apply bind_inr in H as (g2 & H2 & H3).
  set (P (g : Graph) := created_upto g None ∧
         ∀ j e, _edges g !! j = Some e → edge_kind g e).
  assert (P g1) as HP1.
  { split.
    - apply nodes_only_created. revert H1.
      apply (for_each_preserves nodes_only).
      + split; [done|]. split; [by intros i n|by intros a' na].
      + intros obj g3 g4 _. apply create_node_nodes_only.
    - apply create_nodes_spec in H1 as (_ & -> & _). by intros [|j] e. }
  assert (P g2) as HP2.
  { revert H2. apply (for_each_preserves P); [done|].
    intros obj g3 g4 _ [Hc Hk] Hb. split.
    - by eapply create_category_edges_created.
    - by eapply create_category_edges_kind. }
  cut (P g); [by intros [_ ?]|].
  revert H3. apply (for_each_preserves P); [done|].
  intros tr g3 g4 _ [Hc Hk] Hb. split.
  - by eapply create_transition_created.
  - by eapply create_transition_kind.
Qed.

(** X5: the edges of the graph are of three kinds: a CATEGORY edge joins
    the nodes of two objects; a TRANSITION edge goes from the node of a
    transition to the node of one of its outputs that is not an input;
    any other edge goes from the node of an input of a transition to the
    node of that transition, carries the transition, and is a TOOL edge
    exactly when the transition is a craft and the input is an output
    too.  No edge joins the nodes of two transitions. *)
Theorem X5_edge_kinds objects transitions g j e :
  built objects transitions = inr g → _edges g !! j = Some e →
  edge_kind g e.
Proof.
  unfold built. intros H He. apply bind_inr in H as (g0 & H0 & H1).
  apply update_adjacency_frame in H1 as (Hn & Hes & _).
  rewrite Hes in He. eapply edge_kind_mono; [|by eapply _create_kind].
  intros i n. by rewrite Hn.
Qed.

Lemma X5_edge_kinds_witness :
  edge_kind craft_built
    (mkEdge 0 3 EdgeType.CONSUME (Some craft_transition) false).
Proof.
  apply (X5_edge_kinds (craft_objects true) [craft_transition] craft_built
           1%nat).
  - exact craft_built_eq.
  - reflexivity.
Defined.

(** ** The adjacency lists *)

Lemma append_at_fmap (F : nat → list nat) n i x l' :
  append_at (F <$> seq 0 n) i x = inr l' →
  (i < n)%nat ∧
  l' = (fun u => if decide (u = i) then F u ++ [x] else F u) <$> seq 0 n.
Proof.
  unfold append_at. intros H. apply bind_inr in H as (li & Hli & H).
  injection H as <-. apply index_inr in Hli.
  rewrite list_lookup_fmap in Hli.
  destruct (seq 0 n !! i) as [u|] eqn:Hu; [|done].
  apply lookup_seq in Hu as [-> Hi]. simpl in Hli. injection Hli as <-.
  split; [done|]. apply list_eq. intros u.
  destruct (decide (u = i)) as [->|Hne].
  - rewrite list_lookup_insert_eq by (by rewrite length_fmap, length_seq).
    rewrite list_lookup_fmap, lookup_seq_lt by done. simpl.
    by rewrite decide_True.
  - rewrite list_lookup_insert_ne by done. rewrite !list_lookup_fmap.
    destruct (seq 0 n !! u) as [v|] eqn:Hv; [|done].
    apply lookup_seq in Hv as [-> _]. simpl. by rewrite decide_False.
Qed.

Lemma fmap_const_seq {A} (x : A) (f : nat → A) n :
  (∀ u, f u = x) → f <$> seq 0 n = replicate n x.
Proof.
  intros Hf. apply list_eq. intros u. rewrite list_lookup_fmap.
  destruct (decide (u < n)%nat).
  - rewrite lookup_seq_lt, lookup_replicate_2 by done. simpl. by rewrite Hf.
  - rewrite lookup_seq_ge by lia. symmetry. apply lookup_ge_None_2.
    rewrite length_replicate. lia.
Qed.

Lemma filter_seq_snoc (P : nat → Prop) `{!∀ j, Decision (P j)} k :
  filter P (seq 0 (S k)) = filter P (seq 0 k) ++ (if decide (P k) then [k] else []).
Proof. by rewrite seq_S, filter_app. Qed.

Lemma imap_pair_split {A} (l : list A) done j x rest :
  imap (fun i e => (i, e)) l = done ++ (j, x) :: rest →
  j = length done ∧ l !! j = Some x ∧ (length done < length l)%nat.
Proof.
  intros Hl.
  assert (H : imap (fun i e => (i, e)) l !! length done = Some (j, x)).
  { rewrite Hl. by rewrite lookup_app_r, Nat.sub_diag. }
  rewrite list_lookup_imap in H.
  destruct (l !! length done) as [y|] eqn:Hy; [|done].
  simpl in H. injection H as <- <-. split; [done|]. split; [done|].
  by eapply lookup_lt_Some.
Qed.

Lemma adjacency_exact g g' :
  update_adjacency g = inr g' →
  _out_edges g' = edges_from g <$> seq 0 (length (_nodes g)) ∧
  _incoming_edges g' = edges_to g <$> seq 0 (length (_nodes g)) ∧
  _nodes g' = _nodes g ∧ _edges g' = _edges g ∧
  obj_to_node g' = obj_to_node g.
Proof.
  unfold update_adjacency. intros H.
  apply bind_inr in H as ([inc out] & Hloop & H). injection H as <-. simpl.
  set (n := length (_nodes g)) in *.
  set (F k u := filter (fun j => from_node <$> _edges g !! j = Some u)
                       (seq 0 k)).
  set (T k u := filter (fun j => to_node <$> _edges g !! j = Some u)
                       (seq 0 k)).
  cut (inc = T (length (_edges g)) <$> seq 0 n ∧
       out = F (length (_edges g)) <$> seq 0 n); [by intros [-> ->]|].
  assert (Hlen : length (imap (fun i e => (i, e)) (_edges g))
                 = length (_edges g)) by apply length_imap.
  rewrite <- Hlen. revert Hloop.
  apply (for_each_inv (fun done (s : list (list nat) * list (list nat)) =>
           s.1 = T (length done) <$> seq 0 n ∧
           s.2 = F (length done) <$> seq 0 n)).
  - simpl. by rewrite !(fmap_const_seq []).
  - intros done [j e] rest [inc1 out1] [inc2 out2] Hl [Hi Ho] Hb.
    simpl in *. subst inc1 out1.
    apply imap_pair_split in Hl as (-> & He & _).
    apply bind_inr in Hb as (out' & Hout & Hb).
    apply bind_inr in Hb as (inc' & Hinc & Hb). injection Hb as <- <-.
    apply append_at_fmap in Hout as [_ ->].
    apply append_at_fmap in Hinc as [_ ->].
    rewrite length_app. simpl. rewrite Nat.add_1_r.
    split; apply list_fmap_ext; intros _ u _; unfold T, F;
      rewrite filter_seq_snoc, He; simpl;
      repeat case_decide; simplify_eq; by rewrite ?app_nil_r.
Qed.

(** X6: after the adjacency loop of [_finish_computation] the out list of
    a node is the increasing list of the indices of the edges that leave
    it, and its incoming list that of the edges that enter it; nodes and
    edges are as they were. *)
Theorem X6_adjacency_lists g g' :
  update_adjacency g = inr g' →
  _out_edges g' = edges_from g <$> seq 0 (length (_nodes g)) ∧
  _incoming_edges g' = edges_to g <$> seq 0 (length (_nodes g)) ∧
  _nodes g' = _nodes g ∧ _edges g' = _edges g ∧
  obj_to_node g' = obj_to_node g.
Proof. apply adjacency_exact. Qed.

Lemma X6_adjacency_lists_witness :
  _out_edges craft_built =
    edges_from craft_built <$> seq 0 (length (_nodes craft_built)) ∧
  _incoming_edges craft_built =
    edges_to craft_built <$> seq 0 (length (_nodes craft_built)) ∧
  _nodes craft_built = _nodes craft_built ∧
  _edges craft_built = _edges craft_built ∧
  obj_to_node craft_built = obj_to_node craft_built.
Proof.
  apply (X6_adjacency_lists craft_built craft_built). reflexivity.
Defined.

(** X7: the adjacency loop raises (an IndexError) exactly when an edge
    has an end that is not the index of a node. *)
Theorem X7_adjacency_succeeds_iff g :
  (∃ g', update_adjacency g = inr g') ↔
  ∀ e, e ∈ _edges g →
       (from_node e < length (_nodes g))%nat ∧
       (to_node e < length (_nodes g))%nat.
Proof.
  unfold update_adjacency. set (n := length (_nodes g)).
  assert (H : (∃ r, for_each (imap (fun i e => (i, e)) (_edges g))
      (fun '(i, edge) '(inc, out) =>
         out ← append_at out (from_node edge) i;
         inc ← append_at inc (to_node edge) i;
         ok (inc, out))
      (replicate n [], replicate n []) = inr r ∧
      (length r.1 = n ∧ length r.2 = n)) ↔
    ∀ x, x ∈ imap (fun i e => (i, e)) (_edges g) →
         (from_node x.2 < n)%nat ∧ (to_node x.2 < n)%nat).
  { apply for_each_succeeds_iff.
    - simpl. by rewrite !length_replicate.
    - intros [j e] [inc out] [Hi Ho]. simpl in *. unfold append_at. split.
      + intros ([inc' out'] & Hb).
        apply bind_inr in Hb as (o1 & Hb1 & Hb).
        apply bind_inr in Hb1 as (l1 & Hl1 & _).
        apply bind_inr in Hb as (i1 & Hb2 & _).
        apply bind_inr in Hb2 as (l2 & Hl2 & _).
        apply index_inr, lookup_lt_Some in Hl1, Hl2. lia.
      + intros [Hf Ht].
        rewrite !index_total by lia. simpl. eauto.
    - intros [j e] [inc out] [inc' out'] [Hi Ho] Hb. simpl in *.
      apply bind_inr in Hb as (o1 & Hb1 & Hb).
      apply bind_inr in Hb as (i1 & Hb2 & Hb). injection Hb as <- <-.
      apply append_at_spec in Hb1 as [-> _].
      apply append_at_spec in Hb2 as [-> _]. done. }
  split.
  - intros [g' Hg']. apply bind_inr in Hg' as ([inc out] & Hloop & _).
    intros e He. apply list_elem_of_lookup in He as [j Hj].
    apply (proj1 H) with (x := (j, e)).
    + exists (inc, out). split; [done|].
      revert Hloop.
      apply (for_each_preserves
               (fun s : list (list nat) * list (list nat) =>
                  length s.1 = n ∧ length s.2 = n)).
      * simpl. by rewrite !length_replicate.
      * intros [j0 e0] [inc1 out1] [inc2 out2] _ [Hi Ho] Hb. simpl in *.
        apply bind_inr in Hb as (o1 & Hb1 & Hb).
        apply bind_inr in Hb as (i1 & Hb2 & Hb). injection Hb as <- <-.
        apply append_at_spec in Hb1 as [-> _].
        apply append_at_spec in Hb2 as [-> _]. done.
    + apply elem_of_lookup_imap. eauto.
  - intros Hall. destruct (proj2 H) as ([inc out] & Hloop & _).
    + intros [j e] Hx. apply elem_of_lookup_imap in Hx as (i & e' & [= -> ->] & He).
      apply Hall. by eapply list_elem_of_lookup_2.
    + rewrite Hloop. simpl. eauto.
Qed.

(** ** What the propagation leaves *)

Lemma built_edge_kind objects transitions g j e :
  built objects transitions = inr g → _edges g !! j = Some e →
  edge_kind g e.
Proof.
  unfold built. intros H He. apply bind_inr in H as (g0 & H0 & H1).
  apply update_adjacency_frame in H1 as (Hn & Hes & _).
  rewrite Hes in He. eapply edge_kind_mono; [|by eapply _create_kind].
  intros i n. by rewrite Hn.
Qed.

(** An edge that leaves the node of a transition costs nothing. *)
Lemma edge_from_transition_cost g e tr :
  edge_kind g e → is_transition g (from_node e) tr → cost e = 0.
Proof.
  unfold edge_kind, cost, is_transition, is_object. intros Hk [c Hc].
  destruct (category e); try done; naive_solver.
Qed.

Lemma settled_lookup objects transitions g ns i :
  built objects transitions = inr g → propagate_complexity g (inr ns) →
  (i < length (_nodes g))%nat →
  ∃ n0 n, _nodes g !! i = Some n0 ∧ ns !! i = Some n ∧ same_payload n0 n.
Proof.
  intros Hb Hr Hi. pose proof (built_wf _ _ _ Hb) as Hwf.
  pose proof (pi_kinds _ _ _ _ (propagate_complexity_inv _ Hwf _ Hr)) as HF.
  destruct (lookup_lt_is_Some_2 _ _ Hi) as [n0 Hn0].
  destruct (Forall2_lookup_l _ _ _ _ _ HF Hn0) as (n & Hn & Hp). eauto.
Qed.

(** X8: once the propagation is over, every edge that leaves the node
    of a reached object is relaxed: an object at its head is at most the
    complexity of the tail plus the cost of the edge, and a transition at
    its head is reached, at that sum or above. *)
Theorem X8_object_edges_relaxed objects transitions g ns j e o c :
  built objects transitions = inr g →
  propagate_complexity g (inr ns) →
  _edges g !! j = Some e →
  ns !! from_node e = Some (NodeObject o c) → c < DEFAULT_COMPLEXITY →
  ∃ nv, ns !! to_node e = Some nv ∧
    match nv with
    | NodeObject _ cv => cv ≤ c + cost e
    | NodeTransition _ cv => cv ≠ -1 ∧ c + cost e ≤ cv
    end.
Proof.
  intros Hb Hr He Ho Hc.
  destruct (settled_edge _ _ _ _ Hb Hr _ _ _ _ He Ho Hc) as [_ Hok].
  destruct (wf_bounds _ (built_wf _ _ _ Hb) _ _ He) as [_ Hto].
  destruct (settled_lookup _ _ _ _ _ Hb Hr Hto) as (n0 & nv & _ & Hnv & _).
  exists nv. split; [done|]. by apply Hok.
Qed.

Lemma X8_object_edges_relaxed_witness :
  ∃ nv, craft_settled !! 3%nat = Some nv ∧
    match nv with
    | NodeObject _ cv => cv ≤ 0 + 1
    | NodeTransition _ cv => cv ≠ -1 ∧ 0 + 1 ≤ cv
    end.
Proof.
  apply (X8_object_edges_relaxed (craft_objects true) [craft_transition]
           craft_built craft_settled 1%nat
           (mkEdge 0 3 EdgeType.CONSUME (Some craft_transition) false)
           (mkObject 1 "A" true false []) 0).
  - exact craft_built_eq.
  - exact craft_settled_run.
  - reflexivity.
  - reflexivity.
  - reflexivity.
Defined.

(** X9: once the propagation is over, a reached transition whose input
    objects are all reached has passed its complexity on: no output
    object is more complex than the node of the transition. *)
Theorem X9_transition_outputs_relaxed objects transitions g ns j e tr c o cv :
  built objects transitions = inr g →
  propagate_complexity g (inr ns) →
  _edges g !! j = Some e →
  ns !! from_node e = Some (NodeTransition tr c) → c ≠ -1 →
  (∀ a, a ∈ get_input_objects tr →
     ∃ na oa ca, obj_to_node g !! a = Some na ∧
       ns !! na = Some (NodeObject oa ca) ∧ ca < DEFAULT_COMPLEXITY) →
  ns !! to_node e = Some (NodeObject o cv) →
  cv ≤ c.
Proof.
  intros Hb Hr He Ht Hc Hinputs Hto.
  pose proof (built_wf _ _ _ Hb) as Hwf.
  pose proof (propagate_complexity_inv _ Hwf _ Hr) as Hinv.
  destruct (kind_transition _ _ _ _ _ _ _ Hinv Ht) as [c0 Hc0].
  assert (Hcost : cost e = 0).
  { eapply edge_from_transition_cost; [by eapply built_edge_kind|].
    by exists c0. }
  cut (fired_closed g ns (from_node e) c).
  { intros Hcl. destruct (Hcl j e He eq_refl) as [_ Hok].
    specialize (Hok _ Hto). simpl in Hok. lia. }
  destruct (pi_fired _ _ _ _ Hinv _ _ _ Ht Hc) as [?|[Hlen Hpend]];
    [set_solver|done|done|]. exfalso.
  destruct (wf_inputs _ Hwf _ _ _ Hc0) as (js & Hnd & HF).
  assert (Hdel : ∀ k j', js !! k = Some j' →
            ∃ e' ca, _edges g !! j' = Some e' ∧ to_node e' = from_node e ∧
              delivered ns ∅ None j' e' ca).
  { intros k j' Hk.
    destruct (Forall2_lookup_l _ _ _ _ _ HF Hk)
      as (a & Ha & e' & He' & Hto' & Hf).
    destruct (Hinputs a) as (na & oa & ca & Hna & Hoa & Hca).
    { by eapply list_elem_of_lookup_2. }
    rewrite Hna in Hf. injection Hf as ->. exists e', ca.
    split; [done|]. split; [done|].
    split; [eauto|]. split; [done|]. split; [set_solver|done]. }
  destruct (settled_upper _ _ _ _ Hb Hr _ _ _ Ht Hc)
    as (a & _ & _ & _ & Ha & _).
  pose proof (Forall2_length _ _ _ HF) as Hl.
  destruct js as [|j1 [|j2 js]].
  - destruct (get_input_objects tr); [set_solver|done].
  - by rewrite <- Hl in Hlen.
  - destruct (Hdel 0%nat j1 eq_refl) as (e1 & c1 & He1 & Ht1 & Hd1).
    destruct (Hdel 1%nat j2 eq_refl) as (e2 & c2 & He2 & Ht2 & Hd2).
    assert (j1 = j2) as -> by (by eapply (Hpend j1 e1 c1 j2 e2 c2)).
    apply NoDup_cons in Hnd as [Hnd _]. set_solver.
Qed.

Lemma X9_transition_outputs_relaxed_witness : 1 ≤ 1.
Proof.
  apply (X9_transition_outputs_relaxed (craft_objects true) [craft_transition]
           craft_built craft_settled 0%nat
           (mkEdge 3 2 EdgeType.TRANSITION None false)
           craft_transition 1 (mkObject 3 "C" false false []) 1).
  - exact craft_built_eq.
  - exact craft_settled_run.
  - reflexivity.
  - reflexivity.
  - lia.
  - intros a Ha. change (a ∈ [1; 2]) in Ha.
    apply elem_of_cons in Ha as [->|Ha].
    + exists 0%nat, (mkObject 1 "A" true false []), 0.
      split; [reflexivity|]. split; [reflexivity|]. reflexivity.
    + apply list_elem_of_singleton in Ha as ->.
      exists 1%nat, (mkObject 2 "B" true false []), 0.
      split; [reflexivity|]. split; [reflexivity|]. reflexivity.
  - reflexivity.
Defined.

Lemma propagation_frame objects transitions g ns :
  built objects transitions = inr g →
  propagate_complexity g (inr ns) →
  length ns = length (_nodes g) ∧
  ∀ i n, ns !! i = Some n →
    match n with
    | NodeObject o c =>
        _nodes g !! i = Some (object_node o) ∧
        0 ≤ c ≤ complexity (object_node o)
    | NodeTransition tr c =>
        _nodes g !! i = Some (NodeTransition_init tr) ∧ (c = -1 ∨ 0 ≤ c)
    end.
Proof.
  intros Hb Hr. pose proof (built_wf _ _ _ Hb) as Hwf.
  pose proof (propagate_complexity_inv _ Hwf _ Hr) as Hinv.
  pose proof (pi_kinds _ _ _ _ Hinv) as HF.
  split; [symmetry; by eapply Forall2_length|].
  intros i n Hn. destruct n as [o c|tr c].
  - destruct (kind_object _ _ _ _ _ _ _ Hinv Hn) as [c0 Hc0].
    rewrite (wf_init_obj _ Hwf _ _ _ Hc0) in Hc0. split; [done|].
    destruct (pi_obj_range _ _ _ _ Hinv _ _ _ Hn) as [Hrange Hnat].
    unfold object_node. simpl. destruct (is_natural o); [|done].
    rewrite Hnat by done. done.
  - destruct (kind_transition _ _ _ _ _ _ _ Hinv Hn) as [c0 Hc0].
    rewrite (wf_init_tr _ Hwf _ _ _ Hc0) in Hc0. split; [done|].
    by apply (pi_tr_range _ _ _ _ Hinv _ _ _ Hn).
Qed.

(** X10: the propagation changes complexities only: every node keeps its
    object or its transition; the complexity of an object node stays
    between 0 and the value it started with (0 for a natural object, the
    default for another), and that of a transition node is -1 or is not
    negative. *)
Theorem X10_propagation_keeps_nodes objects transitions g ns :
  built objects transitions = inr g →
  propagate_complexity g (inr ns) →
  length ns = length (_nodes g) ∧
  ∀ i n, ns !! i = Some n →
    match n with
    | NodeObject o c =>
        _nodes g !! i = Some (object_node o) ∧
        0 ≤ c ≤ complexity (object_node o)
    | NodeTransition tr c =>
        _nodes g !! i = Some (NodeTransition_init tr) ∧ (c = -1 ∨ 0 ≤ c)
    end.
Proof. apply propagation_frame. Qed.

Lemma X10_propagation_keeps_nodes_witness :
  length craft_settled = length (_nodes craft_built) ∧
  ∀ i n, craft_settled !! i = Some n →
    match n with
    | NodeObject o c =>
        _nodes craft_built !! i = Some (object_node o) ∧
        0 ≤ c ≤ complexity (object_node o)
    | NodeTransition tr c =>
        _nodes craft_built !! i = Some (NodeTransition_init tr) ∧
        (c = -1 ∨ 0 ≤ c)
    end.
Proof.
  apply (X10_propagation_keeps_nodes (craft_objects true) [craft_transition]).
  - exact craft_built_eq.
  - exact craft_settled_run.
Defined.

(** ** [Graph.__init__] as a whole *)

Lemma Graph_init_inv depth objects transitions g' :
  Graph_init depth objects transitions (inr g') →
  ∃ g ns sc, built objects transitions = inr g ∧
    propagate_complexity g (inr ns) ∧
    tarjan (set_nodes g ns) depth = inr sc ∧
    remove_loops (set_nodes g ns) sc (inr g').
Proof.
  unfold Graph_init, _finish_computation, built.
  destruct (_create objects transitions Graph_empty) as [|g0]; [done|].
  simpl. destruct (update_adjacency g0) as [|g]; [done|].
  intros (rns & Hrun & H). destruct rns as [|ns]; [done|].
  destruct (tarjan (set_nodes g ns) depth) as [|sc] eqn:Ht; [done|].
  by exists g, ns, sc.
Qed.

Lemma only_flags_same_edges g g' flagged :
  only_flags g g' flagged → Forall2 same_edge (_edges g) (_edges g').
Proof.
  intros (_ & _ & _ & _ & Hlen & He).
  apply Forall2_same_length_lookup. split; [done|].
  intros j e e' Hj Hj'. destruct (He _ _ Hj) as (e'' & He'' & ? & ? & ? & ? & _).
  assert (e'' = e') as -> by congruence. done.
Qed.

(** X11: the graph [Graph(objects, transitions)] ends with is the one
    [_create] and the adjacency loop build, with the complexities a run
    of the propagation leaves and with looping flags: the same adjacency
    lists and [obj_to_node], and edge by edge the same ends, category and
    transition. *)
Theorem X11_decoration_keeps_structure depth objects transitions g' :
  Graph_init depth objects transitions (inr g') →
  ∃ g, built objects transitions = inr g ∧
    propagate_complexity g (inr (_nodes g')) ∧
    _incoming_edges g' = _incoming_edges g ∧
    _out_edges g' = _out_edges g ∧
    obj_to_node g' = obj_to_node g ∧
    Forall2 same_edge (_edges g) (_edges g').
Proof.
  intros H. apply Graph_init_inv in H as (g & ns & sc & Hb & Hr & _ & Hl).
  apply remove_loops_only_flags in Hl.
  pose proof (only_flags_same_edges _ _ _ Hl) as HF.
  destruct Hl as (Hn & Hi & Ho & Hm & _). simpl in *.
  exists g. rewrite Hn. done.
Qed.

Lemma cycle_init :
  Graph_init 4%nat cycle_objects cycle_transitions (inr cycle_graph).
Proof. by apply (cycle_decorates 4%nat). Qed.

Lemma X11_decoration_keeps_structure_witness :
  ∃ g, built cycle_objects cycle_transitions = inr g ∧
    propagate_complexity g (inr (_nodes cycle_graph)) ∧
    _incoming_edges cycle_graph = _incoming_edges g ∧
    _out_edges cycle_graph = _out_edges g ∧
    obj_to_node cycle_graph = obj_to_node g ∧
    Forall2 same_edge (_edges g) (_edges cycle_graph).
Proof.
  apply (X11_decoration_keeps_structure 4%nat cycle_objects
           cycle_transitions).
  exact cycle_init.
Defined.

Lemma same_edges_from es es' :
  Forall2 same_edge es es' →
  ∀ u j, (from_node <$> es' !! j = Some u ↔ from_node <$> es !! j = Some u) ∧
         (to_node <$> es' !! j = Some u ↔ to_node <$> es !! j = Some u).
Proof.
  intros HF u j.
  destruct (es !! j) as [e|] eqn:He.
  - destruct (Forall2_lookup_l _ _ _ _ _ HF He) as (e' & -> & Hf & Ht & _).
    simpl. by rewrite Hf, Ht.
  - assert (es' !! j = None) as ->; [|done].
    apply lookup_ge_None. rewrite <- (Forall2_length _ _ _ HF).
    by apply lookup_ge_None.
Qed.

Lemma built_linked objects transitions g :
  built objects transitions = inr g → linked g.
Proof.
  intros Hb. pose proof (built_wf _ _ _ Hb) as Hwf. unfold built in Hb.
  apply bind_inr in Hb as (g0 & _ & Ha).
  apply adjacency_exact in Ha as (Ho & Hi & Hn & He & _).
  unfold linked, edges_from, edges_to. rewrite Ho, Hi, Hn, He.
  split; [done|]. split; [done|]. rewrite <- He, <- Hn.
  apply (wf_bounds _ Hwf).
Qed.

Lemma Graph_init_linked depth objects transitions g' :
  Graph_init depth objects transitions (inr g') →
  linked g' ∧ ∀ j e, _edges g' !! j = Some e → edge_kind g' e.
Proof.
  intros H. apply Graph_init_inv in H as (g & ns & sc & Hb & Hr & _ & Hl).
  apply remove_loops_only_flags in Hl.
  pose proof (only_flags_same_edges _ _ _ Hl) as HF.
  destruct Hl as (Hn & Hi & Ho & Hm & Hlen & _). simpl in *.
  destruct (built_linked _ _ _ Hb) as (Hout & Hinc & Hbd).
  destruct (propagation_frame _ _ _ _ Hb Hr) as [Hlns Hkind].
  pose proof (same_edges_from _ _ HF) as Hsame.
  split; [split; [|split]|].
  - rewrite Ho, Hout, Hn, Hlns. unfold edges_from. rewrite Hlen.
    apply list_fmap_ext. intros _ u _. apply list_filter_iff.
    intros j. symmetry. apply Hsame.
  - rewrite Hi, Hinc, Hn, Hlns. unfold edges_to. rewrite Hlen.
    apply list_fmap_ext. intros _ u _. apply list_filter_iff.
    intros j. symmetry. apply Hsame.
  - intros j e' He'.
    destruct (Forall2_lookup_r _ _ _ _ _ HF He') as (e & He & Hf & Ht & _).
    rewrite Hn, Hlns, Hf, Ht. by eapply Hbd.
  - intros j e' He'.
    destruct (Forall2_lookup_r _ _ _ _ _ HF He')
      as (e & He & Hf & Ht & Hc & Htr).
    pose proof (built_edge_kind _ _ _ _ _ Hb He) as Hk.
    assert (Hobj : ∀ i o, is_object g i o → is_object g' i o).
    { intros i o [c Hc']. destruct (lookup_lt_is_Some_2 ns i) as [n Hn'].
      { rewrite Hlns. by eapply lookup_lt_Some. }
      specialize (Hkind i n Hn'). unfold is_object. rewrite Hn.
      destruct n as [o' c'|tr c'].
      - destruct Hkind as [Hk' _]. rewrite Hc' in Hk'.
        injection Hk' as -> _. by exists c'.
      - destruct Hkind as [Hk' _]. by rewrite Hc' in Hk'. }
    assert (Htrn : ∀ i tr, is_transition g i tr → is_transition g' i tr).
    { intros i tr [c Hc']. destruct (lookup_lt_is_Some_2 ns i) as [n Hn'].
      { rewrite Hlns. by eapply lookup_lt_Some. }
      specialize (Hkind i n Hn'). unfold is_transition. rewrite Hn.
      destruct n as [o' c'|tr' c'].
      - destruct Hkind as [Hk' _]. by rewrite Hc' in Hk'.
      - destruct Hkind as [Hk' _]. rewrite Hc' in Hk'.
        injection Hk' as -> _. by exists c'. }
    unfold edge_kind in *. rewrite Hc, Htr, Hf, Ht.
    destruct (category e); try done; naive_solver.
Qed.

(** ** Parents and children in the sub-graph *)

Lemma get_all_parents_spec sg node parents :
  _get_all_parents sg node = inr parents →
  ∀ p, p ∈ parents ↔ shown_parent sg node p.
Proof.
  unfold _get_all_parents, shown_parent. intros H.
  apply bind_inr in H as (inc & Hinc & H). apply index_inr in Hinc.
  cut (∀ p, p ∈ parents ↔ ∃ j e, j ∈ inc ∧
         _edges (graph sg) !! j = Some e ∧ from_node e = p ∧
         (j ∉ ignored_edges sg) ∧ (p ∉ ignored_nodes sg)).
  { intros Hc p. rewrite Hc. split.
    - intros (j & e & ?). by exists inc, j, e.
    - intros (inc' & j & e & Hi & ?). exists j, e.
      by assert (inc' = inc) as -> by congruence. }
  revert H.
  apply (for_each_inv (fun done (acc : list nat) =>
           ∀ p, p ∈ acc ↔ ∃ j e, j ∈ done ∧
             _edges (graph sg) !! j = Some e ∧ from_node e = p ∧
             (j ∉ ignored_edges sg) ∧ (p ∉ ignored_nodes sg))).
  - intros p. split.
    + intros Hp. by apply elem_of_nil in Hp.
    + intros (j & e & Hj & _). by apply elem_of_nil in Hj.
  - intros done j rest acc acc' _ Hacc Hb p.
    assert (Hsnoc : ∀ Q : nat → Edge → Prop,
      (∃ j' e, j' ∈ done ++ [j] ∧ Q j' e) ↔
      (∃ j' e, j' ∈ done ∧ Q j' e) ∨ ∃ e, Q j e).
    { intros Q. split.
      - intros (j' & e & Hj' & ?). apply elem_of_app in Hj' as [?|Hj'].
        + left. eauto.
        + apply list_elem_of_singleton in Hj' as ->. right. eauto.
      - intros [(j' & e & ? & ?)|(e & ?)]; [exists j', e|exists j, e];
          (split; [set_solver|done]). }
    rewrite (Hsnoc (fun j' e => _edges (graph sg) !! j' = Some e ∧
               from_node e = p ∧ (j' ∉ ignored_edges sg) ∧
               (p ∉ ignored_nodes sg))), <- Hacc.
    case_decide as Hign.
    + injection Hb as <-. split; [by left|]. intros [?|(e & _ & _ & ? & _)]; done.
    + apply bind_inr in Hb as (e & He & Hb). apply index_inr in He.
      case_decide as Hpn.
      * injection Hb as <-. split; [by left|].
        intros [?|(e' & He' & <- & _ & Hn)]; [done|].
        assert (e' = e) as -> by congruence. done.
      * injection Hb as <-. rewrite elem_of_app, list_elem_of_singleton.
        split.
        -- intros [?| ->]; [by left|right]. by exists e.
        -- intros [?|(e' & He' & <- & _)]; [by left|right]. congruence.
Qed.

Lemma least_complex_spec g parents chosen c r nch :
  least_complex g parents chosen c = inr r →
  _nodes g !! chosen = Some nch → complexity nch = c →
  ∃ nr, _nodes g !! r = Some nr ∧ (r = chosen ∨ r ∈ parents) ∧
    complexity nr ≤ c ∧
    ∀ q nq, q ∈ parents → _nodes g !! q = Some nq →
            complexity nr ≤ complexity nq.
Proof.
  revert chosen c nch. induction parents as [|p parents IH];
    intros chosen c nch H Hch Hc; simpl in H.
  - injection H as <-. exists nch. split; [done|]. split; [by left|].
    split; [lia|]. intros q nq Hq. by apply elem_of_nil in Hq.
  - apply bind_inr in H as (n & Hn & H). apply index_inr in Hn.
    destruct (Z.ltb_spec (complexity n) c) as [Hlt|Hge].
    + destruct (IH _ _ _ H Hn eq_refl) as (nr & Hr & Hin & Hle & Hmin).
      exists nr. split; [done|]. split; [set_solver|]. split; [lia|].
      intros q nq Hq Hnq. apply elem_of_cons in Hq as [->|Hq]; [|eauto].
      assert (nq = n) as -> by congruence. done.
    + destruct (IH _ _ _ H Hch Hc) as (nr & Hr & Hin & Hle & Hmin).
      exists nr. split; [done|]. split; [set_solver|]. split; [lia|].
      intros q nq Hq Hnq. apply elem_of_cons in Hq as [->|Hq]; [|eauto].
      assert (nq = n) as -> by congruence. lia.
Qed.

Lemma least_parent_spec sg node ps :
  _get_ignore_type sg node = inr IgnoreMode.LEAST_COMPLEX_PARENT →
  _get_parents sg node = inr ps →
  ∃ p np, ps = [p] ∧ shown_parent sg node p ∧
    _nodes (graph sg) !! p = Some np ∧
    ∀ q nq, shown_parent sg node q → _nodes (graph sg) !! q = Some nq →
            complexity np ≤ complexity nq.
Proof.
  intros Hmode H. unfold _get_parents in H. rewrite Hmode in H. simpl in H.
  apply bind_inr in H as (parents & Hall & H).
  apply bind_inr in H as (chosen & Hch & H). apply index_inr in Hch.
  apply bind_inr in H as (n & Hn & H). apply index_inr in Hn.
  apply bind_inr in H as (r & Hr & H). injection H as <-.
  pose proof (get_all_parents_spec _ _ _ Hall) as Hspec.
  destruct (least_complex_spec _ _ _ _ _ _ Hr Hn eq_refl)
    as (nr & Hnr & Hin & _ & Hmin).
  exists r, nr. split; [done|]. split.
  - apply Hspec. destruct Hin as [->|?]; [|done].
    by eapply list_elem_of_lookup_2.
  - split; [done|]. intros q nq Hq. apply Hmin. by apply Hspec.
Qed.

(** X12: in the mode LEAST_COMPLEX_PARENT [_get_parents] yields one node:
    a parent of the node that the ignored edges and nodes do not hide,
    and no such parent is less complex. *)
Theorem X12_least_complex_parent sg node ps :
  _get_ignore_type sg node = inr IgnoreMode.LEAST_COMPLEX_PARENT →
  _get_parents sg node = inr ps →
  ∃ p np, ps = [p] ∧ shown_parent sg node p ∧
    _nodes (graph sg) !! p = Some np ∧
    ∀ q nq, shown_parent sg node q → _nodes (graph sg) !! q = Some nq →
            complexity np ≤ complexity nq.
Proof. apply least_parent_spec. Qed.

Lemma get_parents_shown sg node ps :
  _get_parents sg node = inr ps →
  (∀ p, p ∈ ps → shown_parent sg node p) ∧
  (_get_ignore_type sg node = inr IgnoreMode.NO_PARENTS ∨
   _get_ignore_type sg node = inr IgnoreMode.ONLY_EXISTING_PARENTS →
   ps = []).
Proof.
  intros H. pose proof H as H'. unfold _get_parents in H.
  apply bind_inr in H as (mode & Hmode & H). split.
  - destruct mode.
    + injection H as <-. intros p Hp. by apply elem_of_nil in Hp.
    + destruct (least_parent_spec _ _ _ Hmode H')
        as (p & np & -> & Hp & _).
      intros p' Hp'. by apply list_elem_of_singleton in Hp' as ->.
    + injection H as <-. intros p Hp. by apply elem_of_nil in Hp.
    + intros p Hp. by apply (get_all_parents_spec _ _ _ H).
  - rewrite Hmode. intros [[= ->]|[= ->]]; by injection H as <-.
Qed.

(** X13: whatever the mode, a node [_get_parents] yields is the tail of
    an incoming edge of the node, the edge is not among the ignored
    edges and the parent not among the ignored nodes; in the modes
    NO_PARENTS and ONLY_EXISTING_PARENTS it yields nothing. *)
Theorem X13_parents_are_shown sg node ps :
  _get_parents sg node = inr ps →
  (∀ p, p ∈ ps → shown_parent sg node p) ∧
  (_get_ignore_type sg node = inr IgnoreMode.NO_PARENTS ∨
   _get_ignore_type sg node = inr IgnoreMode.ONLY_EXISTING_PARENTS →
   ps = []).
Proof. apply get_parents_shown. Qed.

Lemma X12_least_complex_parent_witness :
  ∃ p np, [2%nat] = [p] ∧ shown_parent (SubGraph_init stone_graph) 1 p ∧
    _nodes (graph (SubGraph_init stone_graph)) !! p = Some np ∧
    ∀ q nq, shown_parent (SubGraph_init stone_graph) 1 q →
            _nodes (graph (SubGraph_init stone_graph)) !! q = Some nq →
            complexity np ≤ complexity nq.
Proof.
  apply (X12_least_complex_parent (SubGraph_init stone_graph) 1 [2%nat]).
  - vm_compute. reflexivity.
  - vm_compute. reflexivity.
Defined.

Lemma X13_parents_are_shown_witness :
  (∀ p, p ∈ [2%nat] → shown_parent (SubGraph_init stone_graph) 1 p) ∧
  (_get_ignore_type (SubGraph_init stone_graph) 1
     = inr IgnoreMode.NO_PARENTS ∨
   _get_ignore_type (SubGraph_init stone_graph) 1
     = inr IgnoreMode.ONLY_EXISTING_PARENTS →
   [2%nat] = []).
Proof.
  apply (X13_parents_are_shown (SubGraph_init stone_graph) 1 [2%nat]).
  vm_compute. reflexivity.
Defined.

Lemma linked_out g u out :
  linked g → _out_edges g !! u = Some out →
  ∀ j, j ∈ out ↔ ∃ e, _edges g !! j = Some e ∧ from_node e = u.
Proof.
  intros (Ho & _ & _) Hu j. rewrite Ho, list_lookup_fmap in Hu.
  destruct (seq 0 (length (_nodes g)) !! u) as [u'|] eqn:Hu'; [|done].
  apply lookup_seq in Hu' as [-> _]. simpl in Hu. injection Hu as <-.
  unfold edges_from. rewrite list_elem_of_filter, elem_of_seq. split.
  - intros [Hf _]. destruct (_edges g !! j) as [e|]; [|done].
    simpl in Hf. injection Hf as <-. eauto.
  - intros (e & He & <-). rewrite He. split; [done|].
    apply lookup_lt_Some in He. lia.
Qed.

Lemma linked_inc g u inc :
  linked g → _incoming_edges g !! u = Some inc →
  ∀ j, j ∈ inc ↔ ∃ e, _edges g !! j = Some e ∧ to_node e = u.
Proof.
  intros (_ & Hi & _) Hu j. rewrite Hi, list_lookup_fmap in Hu.
  destruct (seq 0 (length (_nodes g)) !! u) as [u'|] eqn:Hu'; [|done].
  apply lookup_seq in Hu' as [-> _]. simpl in Hu. injection Hu as <-.
  unfold edges_to. rewrite list_elem_of_filter, elem_of_seq. split.
  - intros [Hf _]. destruct (_edges g !! j) as [e|]; [|done].
    simpl in Hf. injection Hf as <-. eauto.
  - intros (e & He & <-). rewrite He. split; [done|].
    apply lookup_lt_Some in He. lia.
Qed.

Lemma linked_lengths g :
  linked g →
  length (_out_edges g) = length (_nodes g) ∧
  length (_incoming_edges g) = length (_nodes g).
Proof.
  intros (-> & -> & _). by rewrite !length_fmap, !length_seq.
Qed.

Lemma get_children_spec sg node cs :
  _get_children sg node = inr cs →
  ∃ out, _out_edges (graph sg) !! node = Some out ∧
    ∀ c, c ∈ cs ↔ ∃ j e ps, j ∈ out ∧
      _edges (graph sg) !! j = Some e ∧ to_node e = c ∧
      (j ∉ ignored_edges sg) ∧ (c ∉ ignored_nodes sg) ∧
      _get_parents sg c = inr ps ∧ node ∈ ps.
Proof.
  unfold _get_children. intros H.
  apply bind_inr in H as (out & Hout & H). apply index_inr in Hout.
  exists out. split; [done|]. revert H.
  apply (for_each_inv (fun done (acc : list nat) =>
           ∀ c, c ∈ acc ↔ ∃ j e ps, j ∈ done ∧
             _edges (graph sg) !! j = Some e ∧ to_node e = c ∧
             (j ∉ ignored_edges sg) ∧ (c ∉ ignored_nodes sg) ∧
             _get_parents sg c = inr ps ∧ node ∈ ps)).
  - intros c. split.
    + intros Hc. by apply elem_of_nil in Hc.
    + intros (j & e & ps & Hj & _). by apply elem_of_nil in Hj.
  - intros done j rest acc acc' _ Hacc Hb c.
    assert (Hsnoc : ∀ Q : nat → Edge → list nat → Prop,
      (∃ j' e ps, j' ∈ done ++ [j] ∧ Q j' e ps) ↔
      (∃ j' e ps, j' ∈ done ∧ Q j' e ps) ∨ ∃ e ps, Q j e ps).
    { intros Q. split.
      - intros (j' & e & ps & Hj' & ?). apply elem_of_app in Hj' as [?|Hj'].
        + left. eauto.
        + apply list_elem_of_singleton in Hj' as ->. right. eauto.
      - intros [(j' & e & ps & ? & ?)|(e & ps & ?)];
          [exists j', e, ps|exists j, e, ps]; (split; [set_solver|done]). }
    rewrite (Hsnoc (fun j' e ps => _edges (graph sg) !! j' = Some e ∧
               to_node e = c ∧ (j' ∉ ignored_edges sg) ∧
               (c ∉ ignored_nodes sg) ∧
               _get_parents sg c = inr ps ∧ node ∈ ps)), <- Hacc.
    case_decide as Hign.
    + injection Hb as <-. split; [by left|].
      intros [?|(e & ps & _ & _ & ? & _)]; done.
    + apply bind_inr in Hb as (e & He & Hb). apply index_inr in He.
      case_decide as Hcn.
      * injection Hb as <-. split; [by left|].
        intros [?|(e' & ps & He' & <- & _ & Hn & _)]; [done|].
        assert (e' = e) as -> by congruence. done.
      * apply bind_inr in Hb as (ps & Hps & Hb). case_bool_decide as Hin.
        -- injection Hb as <-.
           rewrite elem_of_app, list_elem_of_singleton. split.
           ++ intros [?| ->]; [by left|right]. by exists e, ps.
           ++ intros [?|(e' & ps' & He' & <- & _)]; [by left|right].
              congruence.
        -- injection Hb as <-. split; [by left|].
           intros [?|(e' & ps' & He' & <- & _ & _ & Hps' & Hin')]; [done|].
           assert (e' = e) as -> by congruence.
           assert (ps' = ps) as -> by congruence. done.
Qed.

(** X14: on a graph whose adjacency lists are those of its edges, the
    children and the parents of the sub-graph agree: a node that is not
    ignored is among the children [_get_children] yields for [node]
    exactly when [node] is among the parents [_get_parents] yields for
    it. *)
Theorem X14_children_parents_agree sg node cs c ps :
  linked (graph sg) →
  _get_children sg node = inr cs → _get_parents sg c = inr ps →
  (c ∉ ignored_nodes sg) →
  (c ∈ cs ↔ node ∈ ps).
Proof.
  intros Hl Hcs Hps Hc.
  destruct (get_children_spec _ _ _ Hcs) as (out & Hout & Hspec).
  rewrite Hspec. split.
  - intros (j & e & ps' & _ & _ & _ & _ & _ & Hps' & Hin). congruence.
  - intros Hin.
    destruct (proj1 (get_parents_shown _ _ _ Hps) _ Hin)
      as (inc & j & e & Hinc & Hj & He & Hf & Hje & _).
    exists j, e, ps. split.
    { apply (linked_out _ _ _ Hl Hout). eauto. }
    split; [done|]. split; [|done].
    apply (linked_inc _ _ _ Hl Hinc) in Hj as (e' & He' & Ht). congruence.
Qed.

Lemma stone_init :
  Graph_init 3%nat stone_objects [stone_transition] (inr stone_graph).
Proof. by apply (stone_decorates 3%nat). Qed.

Lemma X14_children_parents_agree_witness :
  1%nat ∈ [1%nat] ↔ 2%nat ∈ [2%nat].
Proof.
  apply (X14_children_parents_agree (SubGraph_init stone_graph) 2 [1%nat]
           1 [2%nat]).
  - exact (proj1 (Graph_init_linked _ _ _ _ stone_init)).
  - vm_compute. reflexivity.
  - vm_compute. reflexivity.
  - apply not_elem_of_empty.
Defined.

(** ** The lines [to_graphviz] writes *)

Lemma is_edge_valid_spec g j ign_n ign_e proxy b :
  _is_edge_valid g j ign_n ign_e proxy = inr b →
  (b = true ↔ ∃ e, _edges g !! j = Some e ∧ (j ∉ ign_e) ∧
     _get_node_through_proxy (from_node e) proxy ≠
       _get_node_through_proxy (to_node e) proxy ∧
     (_get_node_through_proxy (from_node e) proxy ∉ ign_n) ∧
     (_get_node_through_proxy (to_node e) proxy ∉ ign_n)).
Proof.
  unfold _is_edge_valid. case_decide as Hj.
  { intros [= <-]. split; [done|]. by intros (e & _ & ? & _). }
  intros H. apply bind_inr in H as (e & He & H). apply index_inr in He.
  case_decide as Heq.
  { injection H as <-. split; [done|]. intros (e' & He' & _ & Hne & _).
    assert (e' = e) as -> by congruence. done. }
  injection H as <-. rewrite negb_true_iff, orb_false_iff.
  rewrite !bool_decide_eq_false. split.
  - intros [? ?]. by exists e.
  - intros (e' & He' & _ & _ & ? & ?).
    by assert (e' = e) as -> by congruence.
Qed.

Lemma to_graphviz_spec g ign_n ign_e proxy decls es :
  to_graphviz g ign_n ign_e proxy = inr (decls, es) →
  (∀ i, i ∈ decls ↔
        (i < length (_nodes g))%nat ∧ (i ∉ ign_n) ∧ proxy !! i = None) ∧
  (∀ j, j ∈ es ↔ ∃ e, _edges g !! j = Some e ∧ (j ∉ ign_e) ∧
     _get_node_through_proxy (from_node e) proxy ≠
       _get_node_through_proxy (to_node e) proxy ∧
     (_get_node_through_proxy (from_node e) proxy ∉ ign_n) ∧
     (_get_node_through_proxy (to_node e) proxy ∉ ign_n)).
Proof.
  unfold to_graphviz. intros H. apply bind_inr in H as (es' & Hes & H).
  injection H as <- <-. split.
  - intros i. rewrite list_elem_of_filter, elem_of_seq. naive_solver lia.
  - cut (∀ j, j ∈ es' ↔ j ∈ seq 0 (length (_edges g)) ∧
           ∃ e, _edges g !! j = Some e ∧ (j ∉ ign_e) ∧
             _get_node_through_proxy (from_node e) proxy ≠
               _get_node_through_proxy (to_node e) proxy ∧
             (_get_node_through_proxy (from_node e) proxy ∉ ign_n) ∧
             (_get_node_through_proxy (to_node e) proxy ∉ ign_n)).
    { intros Hc j. rewrite Hc, elem_of_seq. split; [by intros [_ ?]|].
      intros (e & He & ?). split; [|by exists e].
      apply lookup_lt_Some in He. lia. }
    revert Hes.
    apply (for_each_inv (fun done (acc : list nat) =>
      ∀ j, j ∈ acc ↔ j ∈ done ∧
        ∃ e, _edges g !! j = Some e ∧ (j ∉ ign_e) ∧
          _get_node_through_proxy (from_node e) proxy ≠
            _get_node_through_proxy (to_node e) proxy ∧
          (_get_node_through_proxy (from_node e) proxy ∉ ign_n) ∧
          (_get_node_through_proxy (to_node e) proxy ∉ ign_n))).
    + intros j. split.
      * intros Hj. by apply elem_of_nil in Hj.
      * intros [Hj _]. by apply elem_of_nil in Hj.
    + intros done j rest acc acc' _ Hacc Hb j'.
      apply bind_inr in Hb as (b & Hv & Hb). injection Hb as <-.
      apply is_edge_valid_spec in Hv.
      rewrite elem_of_app, list_elem_of_singleton.
      destruct b.
      * rewrite elem_of_app, list_elem_of_singleton, Hacc. split.
        -- intros [[? ?]| ->]; [by split; [left|]|].
           split; [by right|]. by apply Hv.
        -- intros [[?| ->] ?]; [by left|by right].
      * rewrite Hacc. split.
        -- intros [? ?]. by split; [left|].
        -- intros [[?| ->] Hval]; [done|]. by apply Hv in Hval.
Qed.

Lemma compute_proxy_spec sg proxy :
  _compute_proxy sg = inr proxy →
  ∀ i c, proxy !! i = Some c →
    (∃ tr cc, _nodes (graph sg) !! i = Some (NodeTransition tr cc)) ∧
    _get_children sg i = inr [c] ∧ ∃ p, _get_parents sg i = inr [p].
Proof.
  unfold _compute_proxy.
  apply (for_each_preserves (fun proxy : gmap nat nat =>
    ∀ i c, proxy !! i = Some c →
      (∃ tr cc, _nodes (graph sg) !! i = Some (NodeTransition tr cc)) ∧
      _get_children sg i = inr [c] ∧ ∃ p, _get_parents sg i = inr [p])).
  - intros i c H. by rewrite lookup_empty in H.
  - intros [i node] p1 p2 Hin Hp Hb.
    apply elem_of_lookup_imap in Hin as (i' & n' & [= <- <-] & Hn).
    destruct node as [o cc|tr cc]; simpl in Hb; [by injection Hb as <-|].
    apply bind_inr in Hb as (ps & Hps & Hb).
    case_bool_decide as Hlen; [|by injection Hb as <-].
    apply bind_inr in Hb as (children & Hch & Hb).
    destruct children as [|child [|? ?]]; try by injection Hb as <-.
    injection Hb as <-. intros i0 c Hl.
    apply lookup_insert_Some in Hl as [[<- <-]|[_ Hl]]; [|by apply Hp].
    split; [eauto|]. split; [done|].
    destruct ps as [|p [|? ?]]; try done. eauto.
Qed.

Lemma child_of_transition g i tr out j e :
  linked g → (∀ j e, _edges g !! j = Some e → edge_kind g e) →
  is_transition g i tr →
  _out_edges g !! i = Some out → j ∈ out → _edges g !! j = Some e →
  ∃ o, is_object g (to_node e) o.
Proof.
  intros Hl Hk [c Hc] Hout Hj He.
  apply (linked_out _ _ _ Hl Hout) in Hj as (e' & He' & Hf).
  assert (e' = e) as -> by congruence.
  specialize (Hk _ _ He). revert Hk.
  unfold edge_kind, is_object, is_transition. rewrite Hf.
  assert (Hobj : ∀ o co, _nodes g !! i = Some (NodeObject o co) → False)
    by (intros o co; congruence).
  destruct (category e); intros Hk;
    [destruct Hk as (tr' & o & _ & [co Ho] & _); by destruct (Hobj o co)..
    |destruct Hk as (_ & tr' & o & _ & Ho & _); eauto
    |destruct Hk as (_ & o & o' & [co Ho] & _); by destruct (Hobj o co)
    |done].
Qed.

Lemma proxy_target_object depth objects transitions sg proxy i c :
  Graph_init depth objects transitions (inr (graph sg)) →
  _compute_proxy sg = inr proxy → proxy !! i = Some c →
  (∃ tr, is_transition (graph sg) i tr) ∧
  (∃ o, is_object (graph sg) c o) ∧ proxy !! c = None.
Proof.
  intros Hg Hp Hi. destruct (Graph_init_linked _ _ _ _ Hg) as [Hl Hk].
  destruct (compute_proxy_spec _ _ Hp _ _ Hi) as ((tr & cc & Hn) & Hch & _).
  assert (Htr : is_transition (graph sg) i tr) by (by exists cc).
  destruct (get_children_spec _ _ _ Hch) as (out & Hout & Hspec).
  destruct (proj1 (Hspec c)) as (j & e & ps & Hj & He & Ht & _); [set_solver|].
  destruct (child_of_transition _ _ _ _ _ _ Hl Hk Htr Hout Hj He) as [o Ho].
  rewrite Ht in Ho. split; [eauto|]. split; [eauto|].
  destruct (proxy !! c) as [c'|] eqn:Hc; [|done].
  destruct (compute_proxy_spec _ _ Hp _ _ Hc) as ((tr' & cc' & Hn') & _).
  destruct Ho as [co Ho]. congruence.
Qed.

(** X15: on a constructed graph [_compute_proxy] replaces only nodes of
    transitions, each by its one child in the sub-graph, which is the
    node of an object: a replacing node is never replaced itself. *)
Theorem X15_proxy_is_single_step depth objects transitions sg proxy i c :
  Graph_init depth objects transitions (inr (graph sg)) →
  _compute_proxy sg = inr proxy → proxy !! i = Some c →
  (∃ tr, is_transition (graph sg) i tr) ∧
  (∃ o, is_object (graph sg) c o) ∧ proxy !! c = None ∧
  _get_children sg i = inr [c] ∧ ∃ p, _get_parents sg i = inr [p].
Proof.
  intros Hg Hp Hi.
  destruct (proxy_target_object _ _ _ _ _ _ _ Hg Hp Hi) as (? & ? & ?).
  destruct (compute_proxy_spec _ _ Hp _ _ Hi) as (_ & ? & ?). done.
Qed.

Lemma X15_proxy_is_single_step_witness :
  (∃ tr, is_transition (graph (SubGraph_init stone_graph)) 2 tr) ∧
  (∃ o, is_object (graph (SubGraph_init stone_graph)) 1 o) ∧
  ({[2%nat := 1%nat]} : gmap nat nat) !! 1%nat = None ∧
  _get_children (SubGraph_init stone_graph) 2 = inr [1%nat] ∧
  ∃ p, _get_parents (SubGraph_init stone_graph) 2 = inr [p].
Proof.
  apply (X15_proxy_is_single_step 3%nat stone_objects [stone_transition]
           (SubGraph_init stone_graph) {[2%nat := 1%nat]} 2%nat 1%nat).
  - exact stone_init.
  - vm_compute. reflexivity.
  - reflexivity.
Defined.

(** X16: on a constructed graph every edge line [SubGraph.to_graphviz]
    writes joins two different nodes that both have a declaration line;
    the edge is not an ignored one, and its ends are taken through the
    proxies. *)
Theorem X16_written_edges_join_declared depth objects transitions sg
        decls es j :
  Graph_init depth objects transitions (inr (graph sg)) →
  SubGraph_to_graphviz sg = inr (decls, es) → j ∈ es →
  ∃ e proxy, _compute_proxy sg = inr proxy ∧
    _edges (graph sg) !! j = Some e ∧ (j ∉ ignored_edges sg) ∧
    _get_node_through_proxy (from_node e) proxy ∈ decls ∧
    _get_node_through_proxy (to_node e) proxy ∈ decls ∧
    _get_node_through_proxy (from_node e) proxy ≠
      _get_node_through_proxy (to_node e) proxy.
Proof.
  intros Hg H Hj. unfold SubGraph_to_graphviz in H.
  apply bind_inr in H as (proxy & Hp & H).
  destruct (to_graphviz_spec _ _ _ _ _ _ H) as [Hdecl Hes].
  apply Hes in Hj as (e & He & Hje & Hne & Hf & Ht).
  exists e, proxy. split; [done|]. split; [done|]. split; [done|].
  destruct (Graph_init_linked _ _ _ _ Hg) as [(_ & _ & Hbd) _].
  destruct (Hbd _ _ He) as [Hfb Htb].
  assert (Hdecl' : ∀ v, (v < length (_nodes (graph sg)))%nat →
            (_get_node_through_proxy v proxy ∉ ignored_nodes sg) →
            _get_node_through_proxy v proxy ∈ decls).
  { intros v Hv Hn. apply Hdecl. unfold _get_node_through_proxy in *.
    destruct (proxy !! v) as [c|] eqn:Hc.
    - destruct (proxy_target_object _ _ _ _ _ _ _ Hg Hp Hc)
        as (_ & (o & co & Ho) & Hnone).
      split; [by eapply lookup_lt_Some|done].
    - done. }
  split; [by apply Hdecl'|]. split; [by apply Hdecl'|done].
Qed.

Lemma X16_written_edges_join_declared_witness :
  ∃ e proxy, _compute_proxy (SubGraph_init stone_graph) = inr proxy ∧
    _edges (graph (SubGraph_init stone_graph)) !! 1%nat = Some e ∧
    (1%nat ∉ ignored_edges (SubGraph_init stone_graph)) ∧
    _get_node_through_proxy (from_node e) proxy ∈ [0%nat; 1%nat] ∧
    _get_node_through_proxy (to_node e) proxy ∈ [0%nat; 1%nat] ∧
    _get_node_through_proxy (from_node e) proxy ≠
      _get_node_through_proxy (to_node e) proxy.
Proof.
  apply (X16_written_edges_join_declared 3%nat stone_objects
           [stone_transition] (SubGraph_init stone_graph)
           [0%nat; 1%nat] [1%nat] 1%nat).
  - exact stone_init.
  - vm_compute. reflexivity.
  - apply list_elem_of_singleton. reflexivity.
Defined.

(** ** [leading_to_obj] and the script *)

Lemma leading_visit_inv sg start current visited distances tv s' tv' :
  (∀ v, v ∈ visited → leads_to sg start v) →
  tv ⊆ visited → current ∈ visited →
  leading_visit sg current (visited, distances) tv = inr (s', tv') →
  visited ⊆ s'.1 ∧ (∀ v, v ∈ s'.1 → leads_to sg start v) ∧ tv' ⊆ s'.1.
Proof.
  intros Hlead Htv Hcur H. unfold leading_visit in H.
  apply bind_inr in H as (distance & _ & H).
  destruct (max_distance sg <? distance).
  { injection H as <- <-. done. }
  apply bind_inr in H as (ps & Hps & H).
  cut (visited ⊆ (s', tv').1.1 ∧
       (∀ v, v ∈ (s', tv').1.1 → leads_to sg start v) ∧
       (s', tv').2 ⊆ (s', tv').1.1); [done|].
  revert H.
  apply (for_each_preserves
           (fun st : (gset nat * list Z) * gset nat =>
              visited ⊆ st.1.1 ∧
              (∀ v, v ∈ st.1.1 → leads_to sg start v) ∧
              st.2 ⊆ st.1.1)); [done|].
  intros parent [[vis ds] tv1] [[vis2 ds2] tv2] Hp (Hsub & Hl & Ht) Hb.
  simpl in *. case_decide as Hin.
  - apply bind_inr in Hb as (ds' & _ & Hb). injection Hb as <- <- <-.
    split; [set_solver|]. split; [|set_solver].
    intros v Hv. apply elem_of_union in Hv as [Hv|Hv]; [|by apply Hl].
    apply elem_of_singleton in Hv as ->.
    eapply leads_to_parent; [|done|done]. by apply Hlead.
  - assert (parent ∈ vis) by (by destruct (decide (parent ∈ vis))).
    apply bind_inr in Hb as (dp & _ & Hb). destruct (dp <? distance + 1).
    + apply bind_inr in Hb as (ds' & _ & Hb). injection Hb as <- <- <-.
      split; [done|]. split; [done|]. set_solver.
    + injection Hb as <- <- <-. done.
Qed.

Lemma leading_run_inv sg start s tv s' :
  ws_run (leading_visit sg) s tv (inr s') →
  start ∈ s.1 → (∀ v, v ∈ s.1 → leads_to sg start v) → tv ⊆ s.1 →
  start ∈ s'.1 ∧ ∀ v, v ∈ s'.1 → leads_to sg start v.
Proof.
  intros Hrun. remember (inr s') as r eqn:Hr. revert Hr.
  induction Hrun as [s|s tv c s1 tv1 r Hc Hb Hrun IH|s tv c e Hc Hb];
    intros Hr Hs Hl Ht.
  - by injection Hr as ->.
  - destruct s as [visited distances].
    destruct (leading_visit_inv _ start _ _ _ _ _ _ Hl
                (λ x Hx, Ht x (proj1 (proj1 (elem_of_difference _ _ _) Hx)))
                (Ht _ Hc) Hb)
      as (Hsub & Hl' & Ht').
    apply IH; [done|set_solver|done|done].
  - done.
Qed.

Lemma leading_to_obj_inv sg obj sg' :
  leading_to_obj sg obj (inr sg') →
  ∃ (start : nat) (visited : gset nat),
    obj_to_node (graph sg) !! obj = Some start ∧
    start ∈ visited ∧ (∀ v, v ∈ visited → leads_to sg start v) ∧
    sg' = set_ignored_nodes sg
            (ignored_nodes sg ∪
             list_to_set (filter (fun i => i ∉ visited)
                            (seq 0 (length (_nodes (graph sg)))))).
Proof.
  unfold leading_to_obj.
  destruct (_edges_ignored_by_no_parent_nodes sg) as [|npe]; [done|].
  destruct (getitem (obj_to_node (graph sg)) obj) as [|start] eqn:Hs;
    [done|].
  apply getitem_inr in Hs. intros (rv & Hrun & Hr).
  destruct rv as [|[visited distances]]; [done|]. simpl in Hr.
  injection Hr as ->.
  destruct (leading_run_inv sg start _ _ _ Hrun) as [Hin Hl]; simpl.
  - set_solver.
  - intros v Hv. apply elem_of_singleton in Hv as ->. constructor.
  - done.
  - by exists start, visited.
Qed.

Lemma leading_ancestors sg obj sg' :
  leading_to_obj sg obj (inr sg') →
  graph sg' = graph sg ∧ ignored_edges sg' = ignored_edges sg ∧
  max_distance sg' = max_distance sg ∧
  ignored_nodes sg ⊆ ignored_nodes sg' ∧
  ∃ start, obj_to_node (graph sg) !! obj = Some start ∧
    (start ∈ ignored_nodes sg' → start ∈ ignored_nodes sg) ∧
    ∀ v, (v < length (_nodes (graph sg)))%nat →
         (v ∉ ignored_nodes sg') → leads_to sg start v.
Proof.
  intros H.
  apply leading_to_obj_inv in H as (start & visited & Hs & Hin & Hl & ->).
  simpl. do 3 (split; [done|]). split; [set_solver|].
  exists start. split; [done|]. split.
  - rewrite elem_of_union, elem_of_list_to_set, list_elem_of_filter.
    intros [?|[? _]]; done.
  - intros v Hv Hn. apply Hl.
    destruct (decide (v ∈ visited)) as [|Hnv]; [done|].
    exfalso. apply Hn. apply elem_of_union. right.
    apply elem_of_list_to_set, list_elem_of_filter. split; [done|].
    apply elem_of_seq. lia.
Qed.

(** X17: [leading_to_obj] changes the ignored nodes only, and only adds
    to them; it never adds the node of the object asked for, and a node
    it leaves out of them is that node or a parent of a parent ... of it,
    as [_get_parents] gives the parents. *)
Theorem X17_leading_keeps_ancestors sg obj sg' :
  leading_to_obj sg obj (inr sg') →
  graph sg' = graph sg ∧ ignored_edges sg' = ignored_edges sg ∧
  max_distance sg' = max_distance sg ∧
  ignored_nodes sg ⊆ ignored_nodes sg' ∧
  ∃ start, obj_to_node (graph sg) !! obj = Some start ∧
    (start ∈ ignored_nodes sg' → start ∈ ignored_nodes sg) ∧
    ∀ v, (v < length (_nodes (graph sg)))%nat →
         (v ∉ ignored_nodes sg') → leads_to sg start v.
Proof. apply leading_ancestors. Qed.

Lemma stone_leading :
  leading_to_obj (SubGraph_init stone_graph) 2
                 (inr (SubGraph_init stone_graph)).
Proof.
  assert (H : ∀ r, leading_to_obj (SubGraph_init stone_graph) 2 r ↔
                   r = inr (SubGraph_init stone_graph))
    by (leading 6%nat).
  by apply H.
Qed.

Lemma X17_leading_keeps_ancestors_witness :
  graph (SubGraph_init stone_graph) = graph (SubGraph_init stone_graph) ∧
  ignored_edges (SubGraph_init stone_graph)
    = ignored_edges (SubGraph_init stone_graph) ∧
  max_distance (SubGraph_init stone_graph)
    = max_distance (SubGraph_init stone_graph) ∧
  ignored_nodes (SubGraph_init stone_graph)
    ⊆ ignored_nodes (SubGraph_init stone_graph) ∧
  ∃ start,
    obj_to_node (graph (SubGraph_init stone_graph)) !! 2 = Some start ∧
    (start ∈ ignored_nodes (SubGraph_init stone_graph) →
     start ∈ ignored_nodes (SubGraph_init stone_graph)) ∧
    ∀ v, (v < length (_nodes (graph (SubGraph_init stone_graph))))%nat →
         (v ∉ ignored_nodes (SubGraph_init stone_graph)) →
         leads_to (SubGraph_init stone_graph) start v.
Proof.
  apply (X17_leading_keeps_ancestors (SubGraph_init stone_graph) 2
           (SubGraph_init stone_graph)).
  exact stone_leading.
Defined.

Lemma subgraph_init_ignored g j :
  j ∈ ignored_edges (SubGraph_init g) ↔
  ∃ e, _edges g !! j = Some e ∧ looping e = true.
Proof.
  unfold SubGraph_init. simpl. rewrite elem_of_list_to_set, list_elem_of_omap.
  split.
  - intros ([i e] & Hin & Hj).
    apply elem_of_lookup_imap in Hin as (i' & e' & [= <- <-] & He).
    destruct (looping e) eqn:Hl; [|done]. injection Hj as ->. eauto.
  - intros (e & He & Hl). exists (j, e). rewrite Hl. split; [|done].
    apply elem_of_lookup_imap. eauto.
Qed.

Lemma Graph_init_obj_node depth objects transitions g a i :
  Graph_init depth objects transitions (inr g) →
  obj_to_node g !! a = Some i → ∃ o, is_object g i o.
Proof.
  intros H Ha.
  apply Graph_init_inv in H as (g0 & ns & sc & Hb & Hr & _ & Hl).
  apply remove_loops_only_flags in Hl as (Hn & _ & _ & Ho & _).
  simpl in *. rewrite Ho in Ha.
  destruct (wf_obj _ (built_wf _ _ _ Hb) _ _ Ha) as (o & c & Hi & _).
  pose proof (built_wf _ _ _ Hb) as Hwf.
  pose proof (pi_kinds _ _ _ _ (propagate_complexity_inv _ Hwf _ Hr)) as HF.
  destruct (Forall2_lookup_l _ _ _ _ _ HF Hi) as ([o' c'|] & Hn' & Hp);
    [|done]. simpl in Hp. subst o'. exists o, c'. by rewrite Hn.
Qed.

Lemma edges_ignored_total sg :
  linked (graph sg) → ∃ npe, _edges_ignored_by_no_parent_nodes sg = inr npe.
Proof.
  intros Hl. destruct (linked_lengths _ Hl) as [_ Hinc].
  unfold _edges_ignored_by_no_parent_nodes.
  destruct (for_each_total (fun _ : gset nat => True)
              (seq 0 (length (_nodes (graph sg))))
              (fun i (ignored : gset nat) =>
                 mode ← _get_ignore_type sg i;
                 if decide (mode = IgnoreMode.NO_PARENTS) then
                   inc ← index (_incoming_edges (graph sg)) i;
                   ok (ignored ∪ list_to_set inc)
                 else ok ignored) ∅) as (r & Hr & _); [done| |eauto].
  intros i ign Hi _. apply elem_of_seq in Hi.
  unfold _get_ignore_type.
  destruct (lookup_lt_is_Some_2 (_nodes (graph sg)) i) as [n Hn]; [lia|].
  rewrite (proj2 (index_inr _ _ _) Hn). simpl.
  destruct (lookup_lt_is_Some_2 (_incoming_edges (graph sg)) i) as [inc Hi'];
    [lia|].
  rewrite (proj2 (index_inr _ _ _) Hi').
  destruct n as [o c|tr c]; simpl.
  - destruct (c =? 0); [|destruct (is_category o)]; simpl;
      case_decide; simpl; eauto.
  - eauto.
Qed.

(** X18: for a constructed graph, the lines [graphviz(graph, object_)]
    of the script returns declare the node of the object asked for, and
    every node they declare is that node or a parent of a parent ... of
    it; no line is the line of an edge marked looping. *)
Theorem X18_graphviz_shows_ancestors depth objects transitions g object_
        decls es :
  Graph_init depth objects transitions (inr g) →
  graphviz g object_ (inr (decls, es)) →
  (∃ start, obj_to_node g !! object_ = Some start ∧ start ∈ decls ∧
     ∀ v, v ∈ decls → leads_to (SubGraph_init g) start v) ∧
  (∀ j, j ∈ es → ∃ e, _edges g !! j = Some e ∧ looping e = false).
Proof.
  intros Hg (rs & Hlead & Hr). destruct rs as [|sg']; [done|].
  simpl in Hr. symmetry in Hr.
  pose proof Hr as Hr'. unfold SubGraph_to_graphviz in Hr.
  apply bind_inr in Hr as (proxy & Hp & Hr).
  destruct (to_graphviz_spec _ _ _ _ _ _ Hr) as [Hdecl Hes].
  destruct (leading_ancestors _ _ _ Hlead)
    as (Hgr & Hie & _ & _ & start & Hs & Hstart & Hanc).
  simpl in *. rewrite Hgr in *. split.
  - exists start. split; [done|]. split.
    + apply Hdecl. destruct (Graph_init_obj_node _ _ _ _ _ _ Hg Hs)
        as (o & c & Ho).
      split; [by eapply lookup_lt_Some|]. split.
      * intros Hin. specialize (Hstart Hin). by apply elem_of_empty in Hstart.
      * destruct (proxy !! start) as [c'|] eqn:Hc; [|done].
        destruct (compute_proxy_spec _ _ Hp _ _ Hc) as ((tr & cc & Hn) & _).
        rewrite Hgr in Hn. congruence.
    + intros v Hv. apply Hdecl in Hv as (Hv & Hn & _). by apply Hanc.
  - intros j Hj. apply Hes in Hj as (e & He & Hn & _).
    exists e. split; [done|]. destruct (looping e) eqn:Hl; [|done].
    exfalso. apply Hn. rewrite Hie. apply subgraph_init_ignored. eauto.
Qed.

Lemma X18_graphviz_shows_ancestors_witness :
  (∃ start, obj_to_node stone_graph !! 2 = Some start ∧
     start ∈ [0%nat; 1%nat] ∧
     ∀ v, v ∈ [0%nat; 1%nat] →
          leads_to (SubGraph_init stone_graph) start v) ∧
  (∀ j, j ∈ [1%nat] →
        ∃ e, _edges stone_graph !! j = Some e ∧ looping e = false).
Proof.
  apply (X18_graphviz_shows_ancestors 3%nat stone_objects [stone_transition]
           stone_graph 2 [0%nat; 1%nat] [1%nat]).
  - exact stone_init.
  - exists (inr (SubGraph_init stone_graph)).
    split; [exact stone_leading|]. vm_compute. reflexivity.
Defined.

(** X19: for a constructed graph, asking the script for an object that
    has no node raises KeyError, whatever else the graph holds. *)
Theorem X19_graphviz_unknown_object depth objects transitions g object_ :
  Graph_init depth objects transitions (inr g) →
  obj_to_node g !! object_ = None →
  ∀ r, graphviz g object_ r ↔ r = inl KeyError.
Proof.
  intros Hg Hnone r. destruct (Graph_init_linked _ _ _ _ Hg) as [Hl _].
  destruct (edges_ignored_total (SubGraph_init g) Hl) as [npe Hnpe].
  unfold graphviz, leading_to_obj. rewrite Hnpe. simpl.
  unfold getitem. rewrite Hnone. split.
  - by intros (rs & -> & ->).
  - intros ->. by exists (inl KeyError).
Qed.

Lemma X19_graphviz_unknown_object_witness :
  graphviz stone_graph 7 (inl KeyError) ↔
  inl (B := list nat * list nat) KeyError = inl KeyError.
Proof.
  apply (X19_graphviz_unknown_object 3%nat stone_objects [stone_transition]
           stone_graph 7).
  - exact stone_init.
  - reflexivity.
Defined.

(** ** The order of the component ids *)

Lemma edge_scc recurse g x j st st' :
  strongconnect_edge recurse g x j st = inr st' →
  ∃ e, _edges g !! j = Some e ∧
    (scc st' = scc st ∨
     ∃ st1, num st (to_node e) = -1 ∧ recurse (to_node e) st = inr st1 ∧
            scc st' = scc st1).
Proof.
  unfold strongconnect_edge. intros H.
  apply bind_inr in H as (e & He & H). apply index_inr in He.
  exists e. split; [done|].
  apply bind_inr in H as (io & Hio & H). apply index_inr in Hio.
  assert (Hnum : num st (to_node e) = io).
  { unfold num. by apply list_lookup_total_correct. }
  destruct (Z.eqb_spec io (-1)) as [->|Hne].
  - apply bind_inr in H as (st1 & Hrec & H).
    apply bind_inr in H as (ln & _ & H). apply bind_inr in H as (lo & _ & H).
    apply bind_inr in H as (lls & _ & H). injection H as <-.
    right. by exists st1.
  - apply bind_inr in H as (os & _ & H). destruct os.
    + apply bind_inr in H as (ln & _ & H).
      apply bind_inr in H as (io' & _ & H).
      apply bind_inr in H as (lls & _ & H). injection H as <-. by left.
    + injection H as <-. by left.
Qed.

Lemma pop_component_comp node stk on sc idx stk' on' sc' :
  pop_component node stk on sc idx = inr (stk', on', sc') →
  ∀ v, sc' !!! v = sc !!! v ∨ (sc' !!! v = idx ∧ v ∈ stk).
Proof.
  revert on sc. induction stk as [|other stk IH]; intros on sc H; [done|].
  simpl in H. apply bind_inr in H as (on1 & _ & H).
  apply bind_inr in H as (sc1 & Hsc1 & H).
  apply setitem_inr in Hsc1 as [Hlt ->].
  assert (Hins : ∀ v, <[other := idx]> sc !!! v = sc !!! v ∨
                      (<[other := idx]> sc !!! v = idx ∧ v = other)).
  { intros v. destruct (decide (v = other)) as [->|Hne].
    - right. by rewrite list_lookup_total_insert_eq.
    - left. by rewrite list_lookup_total_insert_ne. }
  case_decide as Heq.
  - injection H as <- <- <-. intros v.
    destruct (Hins v) as [?|[? ->]]; [by left|right]. split; [done|left].
  - intros v. destruct (IH _ _ H v) as [Hv|[Hv Hin]].
    + rewrite Hv. destruct (Hins v) as [?|[? ->]]; [by left|right].
      split; [done|left].
    + right. split; [done|by right].
Qed.

Lemma exit_comp x st st' :
  strongconnect_exit x st = inr st' →
  scc_index st' ≤ scc_index st + 1 ∧
  ∀ v, comp st' v = comp st v ∨
       (comp st' v = scc_index st ∧ v ∈ stack st).
Proof.
  unfold strongconnect_exit. intros H.
  apply bind_inr in H as (ln & _ & H). apply bind_inr in H as (ix & _ & H).
  destruct (ln =? ix).
  - apply bind_inr in H as ([[stk ons] sc] & Hpop & H). injection H as <-.
    simpl. split; [lia|]. unfold comp. simpl.
    by apply (pop_component_comp _ _ _ _ _ _ _ _ Hpop).
  - injection H as <-. split; [lia|]. intros v. by left.
Qed.

Section Sorted.
Variable g : Graph.
Hypothesis Hadj : adjacency g.

Lemma comp_sorted_exit gray x st_e out st st' :
  wf_env g st_e gray → (x < length (_nodes g))%nat → num st_e x = -1 →
  (∀ z, z ∈ gray → reach g None z x) →
  _out_edges g !! x = Some out →
  strongconnect_inv g gray x st_e out st →
  strongconnect_exit x st = inr st' →
  comp_sorted g (scc st) → comp_sorted g (scc st').
Proof.
  intros Hwfe Hx Hw Hacc Hout Hinv Hexit Hs.
  destruct (strongconnect_exit_post g Hadj gray x st_e Hwfe Hx Hw Hacc
              out st Hout Hinv) as (st'' & Heq & Hwf' & _).
  assert (st'' = st') as -> by congruence.
  destruct Hinv as (Hwf & _).
  destruct (exit_comp _ _ _ Hexit) as [Hidx Hcomp].
  pose proof (we_scc_index_nonneg _ _ _ Hwf) as Hnn.
  assert (Hkeep : ∀ v, (v < length (_nodes g))%nat → comp st v ≠ -1 →
                       comp st' v = comp st v).
  { intros v Hv Hc. destruct (Hcomp v) as [?|[_ Hin]]; [done|].
    apply (we_comp _ _ _ Hwf v Hv) in Hc as [_ ?]. done. }
  intros j e He Hfrom.
  destruct (proj2 (proj2 Hadj) j e He) as [Hfb Htb].
  change (comp st' (from_node e) ≠ -1) in Hfrom.
  change (comp st' (to_node e) ≤ comp st' (from_node e)).
  destruct (decide (comp st (from_node e) = -1)) as [Hn|Hn].
  - assert (comp st' (from_node e) = scc_index st) as ->.
    { destruct (Hcomp (from_node e)) as [?|[? _]]; [congruence|done]. }
    destruct (we_comp_range _ _ _ Hwf' (to_node e) Htb); lia.
  - assert (Hto : comp st (to_node e) ≠ -1).
    { apply (we_done_closed _ _ _ Hwf (from_node e)); [done|done|].
      by exists j, e. }
    rewrite !Hkeep by done. by apply (Hs j e).
Qed.

Lemma comp_sorted_loop gray x st_e recurse d todo :
  wf_env g st_e gray → (x < length (_nodes g))%nat → num st_e x = -1 →
  (∀ z, z ∈ gray → reach g None z x) →
  call_spec g recurse d → sorted_spec g recurse d →
  (white_count g st_e ≤ S d)%nat →
  ∀ done st st',
    (∀ j, j ∈ todo → ∃ e, _edges g !! j = Some e ∧ from_node e = x) →
    strongconnect_inv g gray x st_e done st →
    for_each todo (strongconnect_edge recurse g x) st = inr st' →
    comp_sorted g (scc st) → comp_sorted g (scc st').
Proof.
  intros Hwfe Hx Hw Hacc Hrec Hsrt Hd.
  induction todo as [|j todo IH]; intros done st st' Htodo Hinv Hloop Hs.
  - by injection Hloop as <-.
  - simpl in Hloop. apply bind_inr in Hloop as (st1 & Hedge & Hloop).
    destruct (Htodo j) as (e & He & Hfrom); [left|].
    destruct (strongconnect_edge_inv g Hadj gray x st_e Hwfe Hx Hw Hacc
                recurse d done st j e Hrec Hd Hinv He Hfrom)
      as (st1' & Heq & Hinv1).
    assert (st1' = st1) as -> by congruence.
    apply (IH (done ++ [j]) st1 st'); try done.
    { intros j' Hj'. apply Htodo. by right. }
    destruct (edge_scc _ _ _ _ _ _ Hedge) as (e' & He' & Hcase).
    assert (e' = e) as -> by congruence.
    destruct Hcase as [->|(st2 & Hwv & Hcall & ->)]; [done|].
    pose proof Hinv as (Hwf & Hsub & _).
    destruct (proj2 (proj2 Hadj) j e He) as [_ Htb].
    apply (Hsrt (x :: gray) (to_node e) st st2); try done.
    + intros z Hz. assert (Hxv : reach g None x (to_node e)).
      { apply reach_succ. by exists j, e. }
      apply elem_of_cons in Hz as [->|Hz]; [done|].
      eapply reach_trans; [|done]. by apply Hacc.
    + assert (white_count g (entered x st_e) < white_count g st_e)%nat.
      { apply (white_count_lt _ _ _ x); try done.
        - intros v Hv'. apply (entered_visited _ _ _ _ _ Hwfe Hx). by right.
        - rewrite (entered_num _ _ _ _ _ Hwfe Hx), decide_True by done.
          pose proof (we_index_nonneg _ _ _ Hwfe). lia. }
      assert (white_count g st ≤ white_count g (entered x st_e))%nat.
      { apply white_count_le. intros v. by apply sub_env_visited. }
      lia.
Qed.

Lemma strongconnect_sorted depth : sorted_spec g (strongconnect g depth) depth.
Proof.
  induction depth as [|d IH]; intros gray x st st' Hwf Hx Hw Hacc Hd H Hs.
  - done.
  - simpl in H. rewrite (strongconnect_enter_eq _ _ _ _ Hwf Hx) in H.
    simpl in H. apply bind_inr in H as (out & Hout & H).
    apply index_inr in Hout. apply bind_inr in H as (st1 & Hloop & Hexit).
    assert (Hedges : ∀ j, j ∈ out →
              ∃ e, _edges g !! j = Some e ∧ from_node e = x).
    { intros j Hj. by apply (proj1 (proj2 Hadj) x out j Hout). }
    pose proof (entered_inv g Hadj st gray x Hwf Hx Hw Hacc) as Hinv0.
    destruct (strongconnect_loop g Hadj gray x st Hwf Hx Hw Hacc
                (strongconnect g d) d out (strongconnect_spec g Hadj d) Hd
                [] (entered x st) Hedges Hinv0) as (st1' & Heq & Hinv1).
    assert (st1' = st1) as -> by congruence.
    apply (comp_sorted_exit gray x st out st1 st' Hwf Hx Hw Hacc Hout
             Hinv1 Hexit).
    by apply (comp_sorted_loop gray x st (strongconnect g d) d out Hwf Hx Hw
                Hacc (strongconnect_spec g Hadj d) IH Hd [] (entered x st)
                st1 Hedges Hinv0 Hloop).
Qed.

Lemma tarjan_loop_sorted depth len :
  (length (_nodes g) ≤ depth)%nat →
  ∀ a st st', (a + len = length (_nodes g))%nat → wf_env g st [] →
    for_each (seq a len) (fun node st =>
        ix ← index (indexes st) node;
        if ix =? -1 then strongconnect g depth node st else ok st) st
    = inr st' →
    comp_sorted g (scc st) → comp_sorted g (scc st').
Proof.
  intros Hdepth. induction len as [|len IH]; intros a st st' Ha Hwf H Hs.
  - by injection H as <-.
  - simpl in H. apply bind_inr in H as (st1 & Hb & H).
    apply bind_inr in Hb as (ix & Hix & Hb). apply index_inr in Hix.
    assert (Hnum : num st a = ix).
    { unfold num. by apply list_lookup_total_correct. }
    destruct (Z.eqb_spec ix (-1)) as [->|Hne].
    + assert (Hwhite : (white_count g st ≤ depth)%nat).
      { pose proof (white_count_bound g st). lia. }
      assert (Hacc : ∀ z, z ∈ [] → reach g None z a).
      { intros z Hz. by apply elem_of_nil in Hz. }
      assert (Hlt : (a < length (_nodes g))%nat) by lia.
      destruct (strongconnect_spec g Hadj depth [] a st Hwf Hlt Hnum Hacc
                  Hwhite) as (st1' & Heq & Hwf1 & _).
      assert (st1' = st1) as -> by congruence.
      apply (IH (S a) st1 st'); [lia|done|done|].
      by apply (strongconnect_sorted depth [] a st st1).
    + injection Hb as <-. apply (IH (S a) st st'); [lia|done|done|done].
Qed.

Lemma tarjan_sorted depth sc :
  (length (_nodes g) ≤ depth)%nat → tarjan g depth = inr sc →
  comp_sorted g sc.
Proof.
  intros Hdepth H. unfold tarjan in H.
  apply bind_inr in H as (st & Hloop & H).
  apply bind_inr in H as (? & _ & H). injection H as <-.
  eapply (tarjan_loop_sorted depth (length (_nodes g)) Hdepth 0%nat);
    [done|apply tarjan_init_wf|done|].
  intros j e He Hfrom. simpl in Hfrom.
  destruct (proj2 (proj2 Hadj) j e He) as [Hfb _].
  by rewrite lookup_total_replicate_2 in Hfrom.
Qed.
End Sorted.

(** X20: the component ids [__tarjan] gives on the constructed graph are
    in the order of the edges: the head of an edge never has a greater id
    than its tail. *)
Theorem X20_component_ids_follow_edges objects transitions g ns depth sc j e
        cu cv :
  built objects transitions = inr g →
  propagate_complexity g (inr ns) →
  (length (_nodes g) ≤ depth)%nat →
  tarjan (set_nodes g ns) depth = inr sc →
  _edges g !! j = Some e →
  sc !! from_node e = Some cu → sc !! to_node e = Some cv →
  cv ≤ cu.
Proof.
  intros Hb Hp Hd Ht He Hu Hv. pose proof (built_wf _ _ _ Hb) as Hwf.
  assert (Hlen : length ns = length (_nodes g)).
  { symmetry. eapply Forall2_length.
    apply (pi_kinds _ _ _ _ (propagate_complexity_inv g Hwf ns Hp)). }
  pose proof (wf_graph_adjacency g ns Hwf Hlen) as Hadj.
  destruct (tarjan_spec _ Hadj depth) as (sc' & Hsc & Hl & Hpos & _).
  { simpl. lia. }
  assert (sc' = sc) as -> by congruence.
  pose proof (tarjan_sorted _ Hadj depth sc) as Hs.
  rewrite <- (list_lookup_total_correct _ _ _ Hu).
  rewrite <- (list_lookup_total_correct _ _ _ Hv).
  apply (Hs ltac:(simpl; lia) Ht j e He).
  assert (0 ≤ sc !!! from_node e); [|lia].
  apply Hpos. rewrite <- Hl. by eapply lookup_lt_Some.
Qed.

Lemma craft_tarjan :
  tarjan (set_nodes craft_built craft_settled) 4 = inr [2; 3; 0; 1].
Proof. vm_compute. reflexivity. Qed.

Lemma X20_component_ids_follow_edges_witness : 1 ≤ 2.
Proof.
  apply (X20_component_ids_follow_edges (craft_objects true)
           [craft_transition] craft_built craft_settled 4%nat [2; 3; 0; 1]
           1%nat (mkEdge 0 3 EdgeType.CONSUME (Some craft_transition) false)
           2 1).
  - exact craft_built_eq.
  - exact craft_settled_run.
  - simpl. lia.
  - exact craft_tarjan.
  - reflexivity.
  - reflexivity.
  - reflexivity.
Defined.

(** ** The propagation does not raise *)

Lemma for_each_total_inv {A S} (P : list A → S → Prop) (l : list A)
      (body : A → S → result S) s :
  P [] s →
  (∀ done x rest s, l = done ++ x :: rest → P done s →
     ∃ s', body x s = inr s' ∧ P (done ++ [x]) s') →
  ∃ r, for_each l body s = inr r ∧ P l r.
Proof.
  intros H0 Hstep.
  assert (Hgen : ∀ rest done s, l = done ++ rest → P done s →
            ∃ r, for_each rest body s = inr r ∧ P l r).
  { induction rest as [|x rest IH]; intros done s1 Hl Hs.
    - rewrite app_nil_r in Hl. subst. simpl. eauto.
    - destruct (Hstep done x rest s1 Hl Hs) as (s2 & Hb & Hs2).
      simpl. rewrite Hb. simpl. apply (IH (done ++ [x])); [|done].
      by rewrite <- app_assoc. }
  by apply (Hgen l []).
Qed.

Lemma reached_objects_le ns : (reached_objects ns ≤ length ns)%nat.
Proof. apply length_filter. Qed.

Lemma reached_objects_insert ns i n n' :
  ns !! i = Some n →
  reached_objects (<[i := n']> ns) =
  (reached_objects ns + (if reached_object n' then 1 else 0)
   - (if reached_object n then 1 else 0))%nat ∧
  ((if reached_object n then 1 else 0) ≤ reached_objects ns)%nat.
Proof.
  unfold reached_objects. revert i.
  induction ns as [|a ns IH]; intros i Hi; [done|].
  destruct i as [|i]; simpl in *.
  - injection Hi as ->. rewrite !filter_cons.
    destruct (reached_object n), (reached_object n'); simpl;
      repeat case_decide; simpl; try done; lia.
  - destruct (IH _ Hi) as [IH1 IH2]. rewrite !filter_cons.
    destruct (decide (reached_object a = true)); simpl; lia.
Qed.

Lemma reached_objects_pos ns i n :
  ns !! i = Some n → reached_object n = true → (0 < reached_objects ns)%nat.
Proof.
  intros Hi Hr. destruct (reached_objects_insert ns i n n Hi) as [_ H].
  rewrite Hr in H. lia.
Qed.

Lemma bounded_insert ns i n n' :
  bounded ns → ns !! i = Some n →
  (reached_objects ns ≤ reached_objects (<[i := n']> ns))%nat →
  match n' with
  | NodeObject _ c =>
      c < DEFAULT_COMPLEXITY →
      c + 1 ≤ Z.of_nat (reached_objects (<[i := n']> ns))
  | NodeTransition _ c => c ≤ Z.of_nat (reached_objects (<[i := n']> ns))
  end →
  bounded (<[i := n']> ns).
Proof.
  intros Hb Hi Hle Hn' k m Hk. destruct (decide (k = i)) as [->|Hne].
  - rewrite list_lookup_insert_eq in Hk by (by eapply lookup_lt_Some).
    by injection Hk as <-.
  - rewrite list_lookup_insert_ne in Hk by done. specialize (Hb k m Hk).
    destruct m; [intros Hc; specialize (Hb Hc)|]; lia.
Qed.

Section Safe.
Variables (objects : list Object) (transitions : list Transition).
Variable g : Graph.
Hypothesis Hbuilt : built objects transitions = inr g.
Hypothesis Hsmall : Z.of_nat (length (_nodes g)) < DEFAULT_COMPLEXITY.

Lemma safe_edge ns tv u d done j e :
  prop_inv g ns tv (Some (u, d, done)) → bounded ns →
  _edges g !! j = Some e →
  d + cost e ≤ Z.of_nat (reached_objects ns) →
  ∃ ns' tv', propagate_edge g d j (ns, tv) = inr (ns', tv') ∧
    bounded ns' ∧ (reached_objects ns ≤ reached_objects ns')%nat.
Proof.
  intros Hinv Hbd He Hd. pose proof (built_wf _ _ _ Hbuilt) as Hwf.
  pose proof (Forall2_length _ _ _ (pi_kinds _ _ _ _ Hinv)) as Hlen.
  destruct (wf_bounds _ Hwf _ _ He) as [_ Hto].
  destruct (lookup_lt_is_Some_2 ns (to_node e)) as [n Hn]; [lia|].
  pose proof (reached_objects_le ns) as HR.
  unfold propagate_edge. rewrite (proj2 (index_inr _ _ _) He). simpl.
  rewrite (proj2 (index_inr _ _ _) Hn). simpl.
  unfold update_complexity.
  destruct (Z.ltb_spec (d + cost e) DEFAULT_COMPLEXITY) as [_|?]; [|lia].
  simpl. destruct (reached_objects_insert ns (to_node e) n n Hn) as [_ Hone].
  destruct n as [o c|tr c].
  - destruct (Z.ltb_spec (d + cost e) c) as [Hlt|Hge]; simpl.
    + destruct (reached_objects_insert ns (to_node e) _
                  (NodeObject o (d + cost e)) Hn) as [HR' _].
      simpl in HR', Hone.
      destruct (Z.ltb_spec (d + cost e) DEFAULT_COMPLEXITY); [|lia].
      eexists _, _. split; [done|].
      assert (Hle : (reached_objects ns ≤
                reached_objects (<[to_node e := NodeObject o (d + cost e)]>
                                   ns))%nat).
      { rewrite HR'. destruct (c <? DEFAULT_COMPLEXITY); lia. }
      split; [|done].
      apply (bounded_insert ns (to_node e) (NodeObject o c));
        [done|done|done|].
      intros _. rewrite HR'.
      destruct (Z.ltb_spec c DEFAULT_COMPLEXITY) as [Hc|Hc].
      * specialize (Hbd _ _ Hn Hc). simpl in Hbd. lia.
      * lia.
    + eexists _, _. split; [done|]. rewrite list_insert_id by done. done.
  - destruct (reached_objects_insert ns (to_node e) _
                (NodeTransition tr (d + cost e)) Hn) as [HR1 _].
    destruct (reached_objects_insert ns (to_node e) _
                (NodeTransition tr (Z.max c (d + cost e))) Hn) as [HR2 _].
    simpl in HR1, HR2. pose proof (Hbd _ _ Hn) as Hbn. simpl in Hbn.
    destruct (Z.eqb_spec c (-1)); simpl; eexists _, _;
      (split; [reflexivity|]).
    + split; [|lia].
      apply (bounded_insert ns (to_node e) (NodeTransition tr c));
        [done|done|lia|lia].
    + split; [|lia].
      apply (bounded_insert ns (to_node e) (NodeTransition tr c));
        [done|done|lia|lia].
Qed.

Lemma safe_visit ns tv u :
  prop_inv g ns tv None → bounded ns → u ∈ tv →
  ∃ ns' tv', propagate_visit g u ns (tv ∖ {[u]}) = inr (ns', tv') ∧
    bounded ns'.
Proof.
  intros Hinv Hbd Hu. pose proof (built_wf _ _ _ Hbuilt) as Hwf.
  pose proof (Forall2_length _ _ _ (pi_kinds _ _ _ _ Hinv)) as Hlen.
  destruct (pi_tv _ _ _ _ Hinv _ Hu) as (n & Hn & Hre).
  assert (Hlt : (u < length (_nodes g))%nat).
  { rewrite Hlen. by eapply lookup_lt_Some. }
  destruct (lookup_lt_is_Some_2 (_out_edges g) u) as [out Hout].
  { by rewrite (wf_out_length _ Hwf). }
  unfold propagate_visit. rewrite (proj2 (index_inr _ _ _) Hn). simpl.
  rewrite (proj2 (index_inr _ _ _) Hout). simpl.
  pose proof (prop_inv_pop _ Hwf _ _ _ _ Hinv Hu Hn) as Hpop.
  set (d := complexity n) in *.
  assert (Hd0 : ∀ j e, j ∈ out → _edges g !! j = Some e →
                  d + cost e ≤ Z.of_nat (reached_objects ns)).
  { intros j e Hj He.
    apply (wf_out _ Hwf _ _ _ Hout) in Hj as (e' & He' & Hf).
    assert (e' = e) as -> by congruence.
    pose proof (cost_range e). specialize (Hbd _ _ Hn).
    destruct n as [o c|tr c]; simpl in *.
    - unfold d. simpl. lia.
    - destruct (kind_transition _ _ _ _ _ _ _ Hinv Hn) as [c0 Hc0].
      rewrite (edge_from_transition_cost g e tr).
      + unfold d. simpl. lia.
      + by eapply built_edge_kind.
      + rewrite Hf. by exists c0. }
  destruct (for_each_total_inv
              (fun done (s : list GraphNode * gset nat) =>
                 prop_inv g s.1 s.2 (Some (u, d, done)) ∧ bounded s.1 ∧
                 (reached_objects ns ≤ reached_objects s.1)%nat)
              out (propagate_edge g d) (ns, tv ∖ {[u]}))
    as ([ns' tv'] & Hloop & _ & Hbd' & _).
  - done.
  - intros done j rest [ns1 tv1] Hl (Hinv1 & Hbd1 & Hle1). simpl in *.
    assert (Hj : j ∈ out) by (rewrite Hl; set_solver).
    pose proof Hj as Hj'.
    apply (wf_out _ Hwf _ _ _ Hout) in Hj' as (e & He & Hf).
    destruct (safe_edge ns1 tv1 u d done j e Hinv1 Hbd1 He)
      as (ns2 & tv2 & Heq & Hbd2 & Hle2).
    { specialize (Hd0 j e Hj He). lia. }
    exists (ns2, tv2). split; [done|]. simpl. split; [|split; [done|lia]].
    eapply (prop_inv_edge _ Hwf); [done| |done]. eauto.
  - exists ns', tv'. done.
Qed.

Lemma safe_run ns tv r :
  ws_run (propagate_visit g) ns tv r →
  prop_inv g ns tv None → bounded ns → ∃ ns', r = inr ns'.
Proof.
  pose proof (built_wf _ _ _ Hbuilt) as Hwf.
  induction 1 as [s|s tv c s' tv' r Hc Hb Hrun IH|s tv c e Hc Hb];
    intros Hinv Hbd.
  - eauto.
  - destruct (safe_visit _ _ _ Hinv Hbd Hc) as (ns2 & tv2 & Heq & Hbd2).
    assert (ns2 = s' ∧ tv2 = tv') as [-> ->] by (split; congruence).
    apply IH; [|done]. by eapply (prop_inv_visit _ Hwf).
  - destruct (safe_visit _ _ _ Hinv Hbd Hc) as (ns2 & tv2 & Heq & _).
    congruence.
Qed.

Lemma bounded_init : bounded (_nodes g).
Proof.
  pose proof (built_wf _ _ _ Hbuilt) as Hwf. intros i n Hn.
  destruct n as [o c|tr c].
  - intros Hc.
    assert (0 < reached_objects (_nodes g))%nat.
    { eapply reached_objects_pos; [done|]. simpl. by apply Z.ltb_lt. }
    rewrite (wf_init_obj _ Hwf _ _ _ Hn) in *.
    destruct (is_natural o); [lia|done].
  - rewrite (wf_init_tr _ Hwf _ _ _ Hn). lia.
Qed.
End Safe.

(** X21: on a constructed graph of fewer nodes than the default
    complexity, no run of the propagation raises: whatever the order of
    the pops, neither an index is out of range nor the assertion of
    [update_complexity] fails. *)
Theorem X21_propagation_does_not_raise objects transitions g r :
  built objects transitions = inr g →
  Z.of_nat (length (_nodes g)) < DEFAULT_COMPLEXITY →
  propagate_complexity g r → ∃ ns, r = inr ns.
Proof.
  intros Hb Hsmall Hrun.
  apply (safe_run _ _ _ Hb Hsmall _ _ _ Hrun).
  - apply prop_inv_init. by eapply built_wf.
  - by eapply bounded_init.
Qed.

Lemma X21_propagation_does_not_raise_witness :
  ∃ ns, inr (A := error) craft_settled = inr ns.
Proof.
  apply (X21_propagation_does_not_raise (craft_objects true)
           [craft_transition] craft_built (inr craft_settled)).
  - exact craft_built_eq.
  - reflexivity.
  - exact craft_settled_run.
Defined.

(** ** The propagation ends *)

Lemma total_weight_insert ns i n n' :
  ns !! i = Some n →
  (total_weight (<[i := n']> ns) + weight n = total_weight ns + weight n')%nat.
Proof.
  unfold total_weight. revert i.
  induction ns as [|m ns IH]; intros [|i] Hn; simpl in *; try done.
  - injection Hn as ->.
    generalize (weight n) (weight n')
      (sum_list_with id (list_fmap GraphNode nat weight ns)). lia.
  - rewrite <- !Nat.add_assoc. f_equal. exact (IH _ Hn).
Qed.

Section Terminates.
Variable g : Graph.
Hypothesis Hwf : wf_graph g.

Lemma is_object_at_kind ns tv cur i n :
  prop_inv g ns tv cur → ns !! i = Some n →
  is_object_at (_nodes g) i =
    match n with NodeObject _ _ => true | NodeTransition _ _ => false end.
Proof.
  intros Hinv Hn. unfold is_object_at.
  destruct (same_payload_lookup _ _ _ _ (pi_kinds _ _ _ _ Hinv) Hn)
    as (n0 & -> & Hp).
  destruct n0, n; simpl in Hp; done.
Qed.

Lemma progress_edge ns tv u d done j e ns' tv' :
  prop_inv g ns tv (Some (u, d, done)) →
  _edges g !! j = Some e → from_node e = u →
  propagate_edge g d j (ns, tv) = inr (ns', tv') →
  (total_weight ns' ≤ total_weight ns)%nat ∧
  (total_weight ns' = total_weight ns →
   ∀ i, i ∈ tv' → i ∈ tv ∨
     (is_object_at (_nodes g) i = false ∧ is_object_at (_nodes g) u = true)).
Proof.
  intros Hinv He Hf Hstep.
  destruct (propagate_edge_spec _ _ _ _ _ _ _ Hstep)
    as (e' & n & n' & b & He' & Hn & Hup & -> & ->).
  assert (e' = e) as -> by congruence.
  destruct (pi_cur _ _ _ _ Hinv u d done eq_refl)
    as (_ & (nu & Hnu & Hd & Hre) & _).
  assert (Hd0 : 0 ≤ d).
  { subst d. destruct nu as [o c|tr c]; simpl in *.
    - destruct (pi_obj_range _ _ _ _ Hinv _ _ _ Hnu). lia.
    - destruct (pi_tr_range _ _ _ _ Hinv _ _ _ Hnu); lia. }
  pose proof (cost_range e) as Hcost.
  pose proof (total_weight_insert ns (to_node e) n n' Hn) as Hw.
  destruct (update_complexity_spec _ _ _ _ Hup) as [_ Hcase].
  destruct n as [o c|tr c].
  - destruct Hcase as [(Hlt & -> & ->)|(Hge & -> & ->)].
    + simpl in Hw. split; [lia|]. intros Heq. lia.
    + rewrite list_insert_id by done. split; [done|]. intros _ i Hi. by left.
  - assert (Hw' : total_weight (<[to_node e := n']> ns) = total_weight ns).
    { destruct Hcase as [(_ & -> & _)|(_ & -> & _)]; simpl in Hw; lia. }
    split; [lia|]. intros _ i Hi.
    assert (Hi' : i = to_node e ∨ i ∈ tv).
    { destruct b; set_solver. }
    destruct Hi' as [->|?]; [|by left]. right.
    destruct (kind_transition _ _ _ _ _ _ _ Hinv Hn) as [c0 Hc0].
    destruct (wf_into_transition _ Hwf _ _ _ _ He Hc0)
      as (_ & a & o & c' & _ & _ & Hfrom).
    unfold is_object_at. rewrite Hc0. rewrite <- Hf, Hfrom. done.
Qed.

Lemma progress_visit ns tv u ns' tv' :
  prop_inv g ns tv None → u ∈ tv →
  propagate_visit g u ns (tv ∖ {[u]}) = inr (ns', tv') →
  (total_weight ns' < total_weight ns)%nat ∨
  (total_weight ns' = total_weight ns ∧
   ((waiting g true tv' < waiting g true tv)%nat ∨
    (waiting g true tv' ≤ waiting g true tv ∧
     waiting g false tv' < waiting g false tv)%nat)).
Proof.
  intros Hinv Hu Hv. unfold propagate_visit in Hv. do 2 inv_bind1 Hv.
  apply index_inr in Ha, Ha0.
  pose proof (prop_inv_pop _ Hwf _ _ _ _ Hinv Hu Ha) as Hpop.
  set (d := complexity a) in *.
  assert (Hloop :
    prop_inv g ns' tv' (Some (u, d, a0)) ∧
    (total_weight ns' ≤ total_weight ns)%nat ∧
    (total_weight ns' = total_weight ns →
     ∀ i, i ∈ tv' → i ∈ tv ∖ {[u]} ∨
       (is_object_at (_nodes g) i = false ∧
        is_object_at (_nodes g) u = true))).
  { apply (for_each_inv
      (fun done (s : list GraphNode * gset nat) =>
         prop_inv g s.1 s.2 (Some (u, d, done)) ∧
         (total_weight s.1 ≤ total_weight ns)%nat ∧
         (total_weight s.1 = total_weight ns →
          ∀ i, i ∈ s.2 → i ∈ tv ∖ {[u]} ∨
            (is_object_at (_nodes g) i = false ∧
             is_object_at (_nodes g) u = true)))
      a0 (propagate_edge g d) (ns, tv ∖ {[u]}) (ns', tv')); [| |done].
    - simpl. split; [done|]. split; [done|]. intros _ i Hi. by left.
    - intros done j rest [ns1 tv1] [ns2 tv2] Hl (Hinv1 & Hle1 & Hsub1) Hb.
      simpl in *.
      assert (Hj : j ∈ a0) by (rewrite Hl; set_solver).
      apply (wf_out _ Hwf _ _ _ Ha0) in Hj as (e & He & Hf).
      destruct (progress_edge _ _ _ _ _ _ _ _ _ Hinv1 He Hf Hb)
        as [Hle2 Hsub2].
      split; [|split; [lia|]].
      + eapply (prop_inv_edge _ Hwf); [done| |done]. eauto.
      + intros Heq i Hi.
        destruct (Hsub2 ltac:(lia) i Hi) as [Hi1|?]; [|by right].
        apply Hsub1; [lia|done]. }
  destruct Hloop as (_ & Hle & Hsub).
  destruct (decide (total_weight ns' = total_weight ns)) as [Heq|Hne];
    [|left; lia].
  right. split; [done|]. specialize (Hsub Heq). unfold waiting.
  destruct (is_object_at (_nodes g) u) eqn:Hobj.
  - left. apply subset_size. split.
    + intros i Hi. apply elem_of_filter in Hi as [Hio Hi].
      apply elem_of_filter. split; [done|].
      destruct (Hsub _ Hi) as [?|(? & _)]; [set_solver|congruence].
    + intros Hsubs.
      assert (Hin : u ∈ filter (fun i => is_object_at (_nodes g) i = true) tv)
        by (by apply elem_of_filter).
      apply Hsubs, elem_of_filter in Hin as [_ Hin].
      destruct (Hsub _ Hin) as [?|(? & _)]; [set_solver|congruence].
  - right. split.
    + apply subseteq_size. intros i Hi. apply elem_of_filter in Hi as [? Hi].
      apply elem_of_filter. split; [done|].
      destruct (Hsub _ Hi) as [?|(_ & ?)]; [set_solver|congruence].
    + apply subset_size. split.
      * intros i Hi. apply elem_of_filter in Hi as [? Hi].
        apply elem_of_filter. split; [done|].
        destruct (Hsub _ Hi) as [?|(_ & ?)]; [set_solver|congruence].
      * intros Hsubs.
        assert (Hin : u ∈ filter (fun i => is_object_at (_nodes g) i = false)
                          tv) by (by apply elem_of_filter).
        apply Hsubs, elem_of_filter in Hin as [_ Hin].
        destruct (Hsub _ Hin) as [?|(_ & ?)]; [set_solver|congruence].
Qed.

Lemma propagation_sn ns tv :
  prop_inv g ns tv None → sn (ws_step (propagate_visit g)) (ns, tv).
Proof.
  remember (total_weight ns) as w eqn:Hw.
  remember (waiting g true tv) as a eqn:Ha.
  remember (waiting g false tv) as b eqn:Hb.
  revert a b ns tv Hw Ha Hb.
  induction w as [w IHw] using lt_wf_ind. intros a.
  induction a as [a IHa] using lt_wf_ind. intros b.
  induction b as [b IHb] using lt_wf_ind.
  intros ns tv -> -> -> Hinv. constructor. intros [ns' tv'] Hstep.
  unfold flip in Hstep.
  inversion Hstep as [s0 tv0 u s1 tv1 Hu Hbody]; subst.
  pose proof (prop_inv_visit _ Hwf _ _ _ _ _ Hinv Hu Hbody) as Hinv'.
  destruct (progress_visit _ _ _ _ _ Hinv Hu Hbody)
    as [Hlt|[Heq [Hlt|[Hle Hlt]]]].
  - by eapply (IHw _ Hlt).
  - eapply (IHa _ Hlt); [|done..]. by rewrite Heq.
  - destruct (decide (waiting g true tv' = waiting g true tv)) as [Heq2|Hne].
    + by eapply (IHb _ Hlt); rewrite ?Heq, ?Heq2.
    + eapply (IHa (waiting g true tv')); [lia| |done..]. by rewrite Heq.
Qed.
End Terminates.

Lemma sn_ws_run {S} (body : nat → S → gset nat → result (S * gset nat))
      s tv :
  sn (ws_step body) (s, tv) → ∃ r, ws_run body s tv r.
Proof.
  intros Hsn. remember (s, tv) as x eqn:Hx. revert s tv Hx.
  induction Hsn as [x _ IH]. intros s tv ->.
  destruct (decide (tv = ∅)) as [->|Hne]; [eexists; constructor|].
  apply set_choose_L in Hne as [u Hu].
  destruct (body u s (tv ∖ {[u]})) as [e|[s' tv']] eqn:Hb.
  - eexists. by eapply ws_raise.
  - destruct (IH (s', tv') ltac:(by econstructor) s' tv' eq_refl) as [r Hr].
    exists r. by eapply ws_pop.
Qed.

(** X22: the [while] loop of the propagation ends on a constructed graph,
    whatever node each [pop] takes: there is no endless sequence of
    iterations, and so some run gives the method's result. *)
Theorem X22_propagation_terminates objects transitions g :
  built objects transitions = inr g →
  sn (ws_step (propagate_visit g)) (_nodes g, zero_nodes (_nodes g)) ∧
  ∃ r, propagate_complexity g r.
Proof.
  intros Hb. pose proof (built_wf _ _ _ Hb) as Hwf.
  assert (Hsn : sn (ws_step (propagate_visit g))
                  (_nodes g, zero_nodes (_nodes g))).
  { apply (propagation_sn g Hwf). by apply prop_inv_init. }
  split; [done|]. by apply sn_ws_run.
Qed.

Lemma X22_propagation_terminates_witness :
  sn (ws_step (propagate_visit craft_built))
     (_nodes craft_built, zero_nodes (_nodes craft_built)) ∧
  ∃ r, propagate_complexity craft_built r.
Proof.
  apply (X22_propagation_terminates (craft_objects true) [craft_transition]).
  exact craft_built_eq.
Defined.

(** ** [__remove_loops] returns *)

Lemma sum_fmap_insert {A} (f : A → nat) (l : list A) i x y :
  l !! i = Some x →
  (sum_list (f <$> <[i := y]> l) + f x = sum_list (f <$> l) + f y)%nat.
Proof.
  revert i. induction l as [|m l IH]; intros [|i] Hn; simpl in *; try done.
  - injection Hn as ->.
    generalize (f x) (f y) (sum_list_with id (list_fmap A nat f l)). lia.
  - rewrite <- !Nat.add_assoc. f_equal. exact (IH _ Hn).
Qed.

Section RemoveLoops.
Variables (g : Graph) (sc : list Z).
Hypothesis Hl : linked g.
Hypothesis Hsc : length sc = length (_nodes g).

Lemma get_out_total i :
  (i < length (_nodes g))%nat →
  ∃ outs, get_out g i = inr outs ∧
    ∀ c j, (c, j) ∈ outs →
      (c < length (_nodes g))%nat ∧ (j < length (_edges g))%nat.
Proof.
  intros Hi. destruct (linked_lengths _ Hl) as [Hlo _].
  pose proof Hl as (_ & _ & Hbd).
  destruct (lookup_lt_is_Some_2 (_out_edges g) i) as [out Hout]; [lia|].
  unfold get_out. rewrite (proj2 (index_inr _ _ _) Hout). simpl.
  apply (for_each_total (fun acc : list (nat * nat) =>
           ∀ c j, (c, j) ∈ acc →
             (c < length (_nodes g))%nat ∧ (j < length (_edges g))%nat)).
  - intros c j H. by apply elem_of_nil in H.
  - intros j acc Hj Hacc.
    apply (linked_out _ _ _ Hl Hout) in Hj as (e & He & Hf).
    rewrite (proj2 (index_inr _ _ _) He). simpl. eexists. split; [done|].
    intros c j' Hin. apply elem_of_app in Hin as [Hin|Hin]; [by apply Hacc|].
    apply list_elem_of_singleton in Hin. injection Hin as -> ->.
    destruct (Hbd _ _ He). split; [done|]. by eapply lookup_lt_Some.
Qed.

Lemma possible_loops_total :
  ∃ possible, possible_loops g sc = inr possible ∧ candidates_ok g possible.
Proof.
  destruct (linked_lengths _ Hl) as [Hlo Hli].
  pose proof Hl as (_ & _ & Hbd).
  unfold possible_loops. apply (for_each_total (candidates_ok g)).
  { intros p c j H. by apply elem_of_nil in H. }
  intros i acc Hi Hacc. apply elem_of_seq in Hi as [_ Hi]. simpl in Hi.
  destruct (lookup_lt_is_Some_2 (_incoming_edges g) i) as [inc Hinc]; [lia|].
  rewrite (proj2 (index_inr _ _ _) Hinc). simpl.
  destruct (for_each_total
              (fun l : list Edge => ∀ e, e ∈ l → ∃ k, _edges g !! k = Some e)
              inc (fun j l => e ← index (_edges g) j; ok (l ++ [e])) [])
    as (in_edges & -> & Hin).
  { intros e H. by apply elem_of_nil in H. }
  { intros j l Hj Hlok.
    apply (linked_inc _ _ _ Hl Hinc) in Hj as (e & He & _).
    rewrite (proj2 (index_inr _ _ _) He). simpl. eexists. split; [done|].
    intros e' H. apply elem_of_app in H as [H|H]; [by apply Hlok|].
    apply list_elem_of_singleton in H. subst. eauto. }
  simpl. apply for_each_total; [done|].
  intros e acc1 He Hacc1. destruct (Hin _ He) as [k Hk].
  destruct (Hbd _ _ Hk) as [Hf Ht].
  destruct (lookup_lt_is_Some_2 sc (from_node e)) as [scp Hscp]; [lia|].
  destruct (lookup_lt_is_Some_2 sc i) as [sci Hsci]; [lia|].
  rewrite (proj2 (index_inr _ _ _) Hscp). simpl.
  rewrite (proj2 (index_inr _ _ _) Hsci). simpl.
  destruct (scp =? sci); [|eauto].
  destruct (action_category (category e)); [|eauto].
  destruct (lookup_lt_is_Some_2 (_nodes g) (from_node e)) as [np Hnp]; [lia|].
  rewrite (proj2 (index_inr _ _ _) Hnp). simpl.
  destruct (get_out_total i Hi) as (outs & -> & Houts). simpl.
  apply for_each_total; [done|].
  intros [c j] acc2 Hcj Hacc2. destruct (Houts _ _ Hcj) as [Hc Hj].
  destruct (lookup_lt_is_Some_2 sc c) as [scc_c Hscc]; [lia|].
  rewrite (proj2 (index_inr _ _ _) Hscc). simpl.
  destruct (scc_c =? sci); [|eauto].
  destruct (lookup_lt_is_Some_2 (_nodes g) c) as [nc Hnc]; [lia|].
  rewrite (proj2 (index_inr _ _ _) Hnc). simpl.
  destruct (complexity nc <? complexity np); [|eauto].
  eexists. split; [done|]. intros p c' j' H.
  apply elem_of_app in H as [H|H]; [by apply Hacc2|].
  apply list_elem_of_singleton in H. injection H as -> -> ->. done.
Qed.

Lemma distances_visit_progress to current ds tv :
  (to < length (_nodes g))%nat → distances_ok g ds tv → current ∈ tv →
  ∃ ds' tv',
    distances_visit g sc to current ds (tv ∖ {[current]}) = inr (ds', tv') ∧
    distances_ok g ds' tv' ∧
    ((unset ds' < unset ds)%nat ∨
     (unset ds' = unset ds ∧
      ((dsum ds' < dsum ds)%nat ∨
       (dsum ds' = dsum ds ∧ (size tv' < size tv)%nat)))).
Proof.
  intros Hto [Hlen Htv] Hcur.
  destruct (Htv _ Hcur) as (cd & Hcd & Hcd0).
  assert (Hcn : (current < length (_nodes g))%nat).
  { rewrite <- Hlen. by eapply lookup_lt_Some. }
  unfold distances_visit. rewrite (proj2 (index_inr _ _ _) Hcd). simpl.
  destruct (get_out_total current Hcn) as (outs & -> & Houts). simpl.
  destruct (lookup_lt_is_Some_2 sc to) as [scc_to Hscto]; [lia|].
  match goal with |- context [for_each outs ?f ?s0] =>
    destruct (for_each_total_inv
      (fun (_ : list (nat * nat)) (s : list Z * gset nat) =>
         distances_ok g s.1 s.2 ∧ (unset s.1 ≤ unset ds)%nat ∧
         (unset s.1 = unset ds →
          (dsum s.1 ≤ dsum ds)%nat ∧
          (dsum s.1 = dsum ds → s.2 ⊆ tv ∖ {[current]})))
      outs f s0) as ([ds' tv'] & Hloop & Hok' & Hu & Hd)
  end.
  - simpl. split; [|done]. split; [done|]. intros i Hi. apply Htv. set_solver.
  - intros done [child child_edge] rest [ds1 tv1] Ho ([Hlen1 Htv1] & Hu1 & Hd1).
    simpl in *.
    destruct (Houts child child_edge) as [Hc Hj]; [rewrite Ho; set_solver|].
    destruct (lookup_lt_is_Some_2 sc child) as [scc_child Hscc]; [lia|].
    rewrite (proj2 (index_inr _ _ _) Hscc). simpl.
    rewrite (proj2 (index_inr _ _ _) Hscto). simpl.
    destruct (scc_child =? scc_to); simpl; [|by eexists].
    destruct (lookup_lt_is_Some_2 (_edges g) child_edge) as [e He]; [lia|].
    rewrite (proj2 (index_inr _ _ _) He). simpl.
    pose proof (cost_range e) as Hcost.
    destruct (lookup_lt_is_Some_2 ds1 child) as [dc Hdc]; [lia|].
    rewrite (proj2 (index_inr _ _ _) Hdc). simpl.
    destruct ((dc =? -1) || (cd + cost e <? dc)) eqn:Hcond; [|by eexists].
    rewrite setitem_ok by lia. simpl. eexists. split; [done|]. simpl.
    pose proof (sum_fmap_insert
                  (fun d => if d =? -1 then 1%nat else 0%nat)
                  ds1 child dc (cd + cost e) Hdc) as Hun.
    pose proof (sum_fmap_insert Z.to_nat ds1 child dc (cd + cost e) Hdc)
      as Hsum.
    fold (unset (<[child := cd + cost e]> ds1)) in Hun.
    fold (unset ds1) in Hun.
    fold (dsum (<[child := cd + cost e]> ds1)) in Hsum.
    fold (dsum ds1) in Hsum. simpl in Hun.
    destruct (Z.eqb_spec (cd + cost e) (-1)) as [?|_]; [lia|].
    split; [split|].
    + by rewrite length_insert.
    + intros i Hi. destruct (decide (i = child)) as [->|Hne].
      * exists (cd + cost e). split; [|lia].
        apply list_lookup_insert_eq. lia.
      * rewrite list_lookup_insert_ne by done. apply Htv1. set_solver.
    + destruct (Z.eqb_spec dc (-1)) as [->|Hdn]; simpl in Hcond.
      * split; [lia|]. intros Heq. lia.
      * apply Z.ltb_lt in Hcond. split; [lia|]. intros Heq.
        destruct (Hd1 ltac:(lia)) as [Hle _]. split; [lia|]. lia.
  - exists ds', tv'. split; [done|]. split; [done|]. simpl in *.
    destruct (decide (unset ds' = unset ds)) as [Heq|Hne]; [|left; lia].
    right. split; [done|]. destruct (Hd Heq) as [Hle Hsub].
    destruct (decide (dsum ds' = dsum ds)) as [Heq2|Hne]; [|left; lia].
    right. split; [done|]. apply subset_size. specialize (Hsub Heq2).
    set_solver.
Qed.

Lemma distances_sn to ds tv :
  (to < length (_nodes g))%nat → distances_ok g ds tv →
  sn (ws_step (distances_visit g sc to)) (ds, tv).
Proof.
  intros Hto.
  remember (unset ds) as a eqn:Ha. remember (dsum ds) as b eqn:Hb.
  remember (size tv) as c eqn:Hc. revert b c ds tv Ha Hb Hc.
  induction a as [a IHa] using lt_wf_ind. intros b.
  induction b as [b IHb] using lt_wf_ind. intros c.
  induction c as [c IHc] using lt_wf_ind.
  intros ds tv -> -> -> Hok. constructor. intros [ds' tv'] Hstep.
  unfold flip in Hstep.
  inversion Hstep as [s0 tv0 u s1 tv1 Hu Hbody]; subst.
  destruct (distances_visit_progress to u ds tv Hto Hok Hu)
    as (ds2 & tv2 & Heq & Hok2 & Hdec).
  assert (ds2 = ds' ∧ tv2 = tv') as [-> ->] by (split; congruence).
  destruct Hdec as [Hlt|[Hue [Hlt|[Hde Hlt]]]].
  - by eapply (IHa _ Hlt).
  - eapply (IHb _ Hlt); [by rewrite Hue|done..].
  - eapply (IHc _ Hlt); [by rewrite Hue|by rewrite Hde|done..].
Qed.

Lemma distances_safe to ds tv r :
  (to < length (_nodes g))%nat →
  ws_run (distances_visit g sc to) ds tv r → distances_ok g ds tv →
  ∃ ds', r = inr ds' ∧ length ds' = length (_nodes g).
Proof.
  intros Hto.
  induction 1 as [s|s tv c s' tv' r Hc Hb Hrun IH|s tv c e Hc Hb]; intros Hok.
  - exists s. split; [done|]. apply Hok.
  - destruct (distances_visit_progress to c s tv Hto Hok Hc)
      as (ds2 & tv2 & Heq & Hok2 & _).
    assert (ds2 = s' ∧ tv2 = tv') as [-> ->] by (split; congruence).
    by apply IH.
  - destruct (distances_visit_progress to c s tv Hto Hok Hc)
      as (ds2 & tv2 & Heq & _). congruence.
Qed.

Lemma check_loop_total from to edg del :
  (from < length (_nodes g))%nat → (to < length (_nodes g))%nat →
  (∃ r, check_loop g sc (from, to, edg) del r) ∧
  ∀ r, check_loop g sc (from, to, edg) del r →
    r = inr (del ++ [edg]) ∨ r = inr del.
Proof.
  intros Hf Ht. unfold check_loop.
  rewrite setitem_ok by (rewrite length_replicate; lia).
  assert (Hok : distances_ok g
                  (<[to := 0]> (replicate (length (_nodes g)) (-1))) {[to]}).
  { split; [by rewrite length_insert, length_replicate|].
    intros i Hi. apply elem_of_singleton in Hi as ->. exists 0.
    split; [|done]. apply list_lookup_insert_eq.
    rewrite length_replicate. lia. }
  split.
  - destruct (sn_ws_run _ _ _ (distances_sn to _ _ Ht Hok)) as [rd Hrd].
    eexists. exists rd. split; [done|reflexivity].
  - intros r (rd & Hrd & ->).
    destruct (distances_safe _ _ _ _ Ht Hrd Hok) as (ds & -> & Hlen).
    simpl.
    destruct (lookup_lt_is_Some_2 (_nodes g) from) as [nf Hnf]; [lia|].
    destruct (lookup_lt_is_Some_2 (_nodes g) to) as [nt Hnt]; [lia|].
    destruct (lookup_lt_is_Some_2 ds from) as [df Hdf]; [lia|].
    rewrite (proj2 (index_inr _ _ _) Hnf). simpl.
    rewrite (proj2 (index_inr _ _ _) Hnt). simpl.
    rewrite (proj2 (index_inr _ _ _) Hdf). simpl.
    destruct (df <=? complexity nf - complexity nt); eauto.
Qed.

Lemma check_loops_total possible del :
  candidates_ok g possible →
  Forall (fun j => (j < length (_edges g))%nat) del →
  (∃ r, for_each_rel (check_loop g sc) possible del r) ∧
  ∀ r, for_each_rel (check_loop g sc) possible del r →
    ∃ del', r = inr del' ∧
      Forall (fun j => (j < length (_edges g))%nat) del'.
Proof.
  revert del. induction possible as [|[[p c] j] possible IH]; intros del Hc Hd.
  - split; [eexists; constructor|]. intros r Hr. inversion Hr; subst. eauto.
  - destruct (Hc p c j) as (Hp & Hcn & Hj); [left|].
    assert (Hc' : candidates_ok g possible).
    { intros p' c' j' H. apply Hc. by right. }
    destruct (check_loop_total p c j del Hp Hcn) as [[r1 Hr1] Hall].
    assert (Hstep : ∀ r, check_loop g sc (p, c, j) del r →
              ∃ del', r = inr del' ∧
                Forall (fun j => (j < length (_edges g))%nat) del').
    { intros r Hr. destruct (Hall r Hr) as [->| ->]; eexists;
        (split; [done|]); [|done].
      apply Forall_app. split; [done|]. by constructor. }
    split.
    + destruct (Hstep _ Hr1) as (del1 & -> & Hd1).
      destruct (IH del1 Hc' Hd1) as [[r2 Hr2] _]. exists r2.
      by eapply for_each_rel_cons.
    + intros r Hr. inversion Hr as [|x l s s' r0 Hb Hrest|x l s e Hb]; subst.
      * destruct (Hstep _ Hb) as (del1 & [= <-] & Hd1).
        by apply (IH s' Hc' Hd1).
      * destruct (Hstep _ Hb) as (del1 & [=] & _).
Qed.

Lemma remove_loops_total :
  (∃ g', remove_loops g sc (inr g')) ∧
  ∀ r, remove_loops g sc r → ∃ g', r = inr g'.
Proof.
  unfold remove_loops. destruct possible_loops_total as (possible & -> & Hc).
  destruct (check_loops_total possible [] Hc (Forall_nil_2 _))
    as [[r Hr] Hall].
  assert (Hflags : ∀ del,
    Forall (fun j => (j < length (_edges g))%nat) del →
    ∃ es, for_each del (fun delete es =>
            e ← index es delete;
            ok (<[delete := set_looping e]> es)) (_edges g) = inr es).
  { intros del Hd. rewrite Forall_forall in Hd.
    destruct (for_each_total (fun es => length es = length (_edges g)) del
                (fun delete es =>
                   e ← index es delete;
                   ok (<[delete := set_looping e]> es)) (_edges g))
      as (es & Hes & _); [done| |eauto].
    intros j es Hj Hlen.
    destruct (lookup_lt_is_Some_2 es j) as [e He].
    { rewrite Hlen. by apply Hd. }
    rewrite (proj2 (index_inr _ _ _) He). simpl. eexists. split; [done|].
    by rewrite length_insert. }
  split.
  - destruct (Hall r Hr) as (del & -> & Hd).
    destruct (Hflags del Hd) as [es Hes].
    exists (set_edges g es), (inr del). split; [done|]. simpl.
    by rewrite Hes.
  - intros r0 (rdel & Hrdel & ->).
    destruct (Hall _ Hrdel) as (del & -> & Hd).
    destruct (Hflags del Hd) as [es Hes]. simpl. rewrite Hes. simpl. eauto.
Qed.
End RemoveLoops.

(** X23: [__remove_loops] returns on a graph whose adjacency lists are
    those of its edges, given one component id per node: no run raises,
    whatever node each [pop] of the inner [while] takes, and some run
    gives the graph. *)
Theorem X23_remove_loops_returns g sc :
  linked g → length sc = length (_nodes g) →
  (∃ g', remove_loops g sc (inr g')) ∧
  ∀ r, remove_loops g sc r → ∃ g', r = inr g'.
Proof. intros Hl Hsc. by apply remove_loops_total. Qed.

Lemma X23_remove_loops_returns_witness :
  (∃ g', remove_loops craft_built [2; 3; 0; 1] (inr g')) ∧
  ∀ r, remove_loops craft_built [2; 3; 0; 1] r → ∃ g', r = inr g'.
Proof.
  apply (X23_remove_loops_returns craft_built [2; 3; 0; 1]).
  - exact (built_linked _ _ _ craft_built_eq).
  - reflexivity.
Defined.

(** ** [Graph(objects, transitions)] returns *)

Lemma linked_set_nodes g ns :
  linked g → length ns = length (_nodes g) → linked (set_nodes g ns).
Proof.
  intros (Ho & Hi & Hbd) Hlen. unfold linked. simpl. rewrite Hlen.
  split; [done|]. split; [done|]. done.
Qed.

Lemma finish_total objects transitions g depth ns :
  built objects transitions = inr g →
  (length (_nodes g) ≤ depth)%nat →
  propagate_complexity g (inr ns) →
  ∃ sc, tarjan (set_nodes g ns) depth = inr sc ∧
    (∃ g', remove_loops (set_nodes g ns) sc (inr g')) ∧
    ∀ r, remove_loops (set_nodes g ns) sc r → ∃ g', r = inr g'.
Proof.
  intros Hb Hdepth Hrun. pose proof (built_wf _ _ _ Hb) as Hwf.
  destruct (propagation_frame _ _ _ _ Hb Hrun) as [Hlen _].
  destruct (tarjan_spec (set_nodes g ns)
              (wf_graph_adjacency g ns Hwf Hlen) depth)
    as (sc & Ht & Hlsc & _).
  { simpl. lia. }
  exists sc. split; [done|]. apply remove_loops_total.
  - apply linked_set_nodes; [|done]. by eapply built_linked.
  - done.
Qed.

(** X24: [Graph(objects, transitions)] returns a graph whenever [_create]
    and the adjacency loop succeed, the nodes are fewer than the default
    complexity and the recursion of [__strongconnect] may go as deep as
    there are nodes: no run raises, whatever the pops of the two [while]
    loops, and some run gives the graph. *)
Theorem X24_graph_init_returns objects transitions g depth :
  built objects transitions = inr g →
  Z.of_nat (length (_nodes g)) < DEFAULT_COMPLEXITY →
  (length (_nodes g) ≤ depth)%nat →
  (∃ g', Graph_init depth objects transitions (inr g')) ∧
  ∀ r, Graph_init depth objects transitions r → ∃ g', r = inr g'.
Proof.
  intros Hb Hsmall Hdepth. pose proof (built_wf _ _ _ Hb) as Hwf.
  assert (Hsafe : ∀ rns, propagate_complexity g rns → ∃ ns, rns = inr ns).
  { intros rns Hrun. apply (safe_run _ _ _ Hb Hsmall _ _ _ Hrun).
    - by apply prop_inv_init.
    - by eapply bounded_init. }
  pose proof Hb as Hb'. unfold built in Hb'.
  apply bind_inr in Hb' as (g0 & Hc & Ha).
  unfold Graph_init, _finish_computation. rewrite Hc, Ha. split.
  - destruct (sn_ws_run _ _ _
                (propagation_sn g Hwf _ _ (prop_inv_init g Hwf)))
      as [rns Hrun].
    destruct (Hsafe _ Hrun) as [ns ->].
    destruct (finish_total _ _ _ _ _ Hb Hdepth Hrun)
      as (sc & Ht & [g' Hg'] & _).
    exists g', (inr ns). split; [done|]. by rewrite Ht.
  - intros r (rns & Hrun & Hr). destruct (Hsafe _ Hrun) as [ns ->].
    destruct (finish_total _ _ _ _ _ Hb Hdepth Hrun)
      as (sc & Ht & _ & Hall).
    rewrite Ht in Hr. by apply Hall.
Qed.

Lemma X24_graph_init_returns_witness :
  (∃ g', Graph_init 4%nat (craft_objects true) [craft_transition] (inr g')) ∧
  ∀ r, Graph_init 4%nat (craft_objects true) [craft_transition] r →
    ∃ g', r = inr g'.
Proof.
  apply (X24_graph_init_returns (craft_objects true) [craft_transition]
           craft_built 4%nat).
  - exact craft_built_eq.
  - reflexivity.
  - simpl. lia.
Defined.

(** ** The distances of [__remove_loops] *)

Lemma walk_nonneg g sc to v d : walk g sc to v d → 0 ≤ d.
Proof.
  induction 1 as [|u j e d _ IH _ _ _]; [done|].
  pose proof (cost_range e). lia.
Qed.

Lemma get_out_complete g i outs out :
  get_out g i = inr outs → _out_edges g !! i = Some out →
  ∀ j, j ∈ out → ∃ e, _edges g !! j = Some e ∧ (to_node e, j) ∈ outs.
Proof.
  unfold get_out. intros H Hout. rewrite (proj2 (index_inr _ _ _) Hout) in H.
  simpl in H. revert H.
  apply (for_each_inv (fun done (acc : list (nat * nat)) =>
           ∀ j, j ∈ done →
             ∃ e, _edges g !! j = Some e ∧ (to_node e, j) ∈ acc)).
  - intros j Hj. by apply elem_of_nil in Hj.
  - intros done j rest acc acc' _ Hacc Hb j' Hj'. inv_bind Hb as e0 Ha0.
    injection Hb as <-. apply index_inr in Ha0.
    apply elem_of_app in Hj' as [Hj'|Hj'].
    + destruct (Hacc _ Hj') as (e & He & Hin). exists e. split; [done|].
      apply elem_of_app. by left.
    + apply list_elem_of_singleton in Hj' as ->. exists e0. split; [done|].
      apply elem_of_app. right. by apply list_elem_of_singleton.
Qed.

Section Distances.
Variables (g : Graph) (sc : list Z) (to : nat).
Hypothesis Hl : linked g.

Lemma dist_inv_init :
  (to < length (_nodes g))%nat →
  dist_inv g sc to (<[to := 0]> (replicate (length (_nodes g)) (-1))) {[to]}.
Proof.
  clear Hl. intros Hto.
  assert (Hother : ∀ v d,
    <[to := 0]> (replicate (length (_nodes g)) (-1)) !! v = Some d →
    d ≠ -1 → v = to ∧ d = 0).
  { intros v d Hv Hd. destruct (decide (v = to)) as [->|Hne].
    - rewrite list_lookup_insert_eq in Hv
        by (rewrite length_replicate; lia).
      by injection Hv as <-.
    - rewrite list_lookup_insert_ne in Hv by done.
      apply lookup_replicate in Hv as [-> _]. done. }
  split.
  - by rewrite length_insert, length_replicate.
  - apply list_lookup_insert_eq. rewrite length_replicate. lia.
  - intros v d Hv Hd. destruct (Hother _ _ Hv Hd) as [-> ->]. constructor.
  - intros i Hi. apply elem_of_singleton in Hi as ->. exists 0.
    split; [|done]. apply list_lookup_insert_eq.
    rewrite length_replicate. lia.
  - intros j e He Hf e' du He' Hdu Hne _.
    assert (e' = e) as -> by congruence.
    destruct (Hother _ _ Hdu Hne) as [Heq _]. set_solver.
Qed.

Lemma dist_inv_visit u ds tv ds' tv' :
  dist_inv g sc to ds tv → u ∈ tv →
  distances_visit g sc to u ds (tv ∖ {[u]}) = inr (ds', tv') →
  dist_inv g sc to ds' tv'.
Proof.
  intros Hinv Hu Hv. unfold distances_visit in Hv.
  inv_bind Hv as cd Hcd. inv_bind Hv as outs Houts. apply index_inr in Hcd.
  destruct (get_out_spec _ _ _ Houts) as (out & Hout & Hsound).
  assert (Hcd0 : 0 ≤ cd).
  { destruct (di_tv _ _ _ _ _ Hinv _ Hu) as (d & Hd & Hne).
    assert (d = cd) as -> by congruence.
    by eapply walk_nonneg, (di_walk _ _ _ _ _ Hinv). }
  assert (Hloop :
    dist_inv g sc to ds' (tv' ∪ {[u]}) ∧ ds' !! u = Some cd ∧
    ∀ c j, (c, j) ∈ outs → ∀ e, _edges g !! j = Some e →
      in_comp sc to (to_node e) →
      ∃ dv, ds' !! to_node e = Some dv ∧ dv ≠ -1 ∧ dv ≤ cd + cost e).
  { revert Hv.
    apply (for_each_inv
      (fun done (s : list Z * gset nat) =>
         dist_inv g sc to s.1 (s.2 ∪ {[u]}) ∧ s.1 !! u = Some cd ∧
         ∀ c j, (c, j) ∈ done → ∀ e, _edges g !! j = Some e →
           in_comp sc to (to_node e) →
           ∃ dv, s.1 !! to_node e = Some dv ∧ dv ≠ -1 ∧ dv ≤ cd + cost e)
      outs _ (ds, tv ∖ {[u]}) (ds', tv')).
    - simpl. split; [|split; [done|]].
      + destruct Hinv as [H1 H2 H3 H4 H5]. split; try done.
        * intros i Hi. apply H4. set_solver.
        * intros j e He Hf. apply (H5 j e He). intros Hin. apply Hf.
          destruct (decide (from_node e = u)); set_solver.
      + intros c j H. by apply elem_of_nil in H.
    - intros done [child j] rest [ds1 tv1] [ds2 tv2] Ho (Hinv1 & Hcd1 & Hdone)
        Hb. simpl in *.
      destruct (Hsound child j) as (Hj & e & He & Hte);
        [rewrite Ho; set_solver|].
      destruct (proj1 (linked_out _ _ _ Hl Hout j) Hj) as (e0 & He0 & Hfe).
      assert (e0 = e) as -> by congruence.
      pose proof (cost_range e) as Hcost.
      inv_bind Hb as scc_child Hsc1. inv_bind Hb as scc_to Hsc2.
      apply index_inr in Hsc1, Hsc2.
      assert (Hold : ∀ c' j', (c', j') ∈ done ++ [(child, j)] →
                (c', j') ∈ done ∨ (c' = child ∧ j' = j)).
      { intros c' j' H. apply elem_of_app in H as [H|H]; [by left|].
        apply list_elem_of_singleton in H. injection H as -> ->. by right. }
      destruct (Z.eqb_spec scc_child scc_to) as [Heq|Hneq]; simpl in Hb.
      2: { injection Hb as <- <-. split; [done|]. split; [done|].
           intros c' j' H e' He' Hin.
           destruct (Hold _ _ H) as [H'|[-> ->]]; [by eapply Hdone|].
           assert (e' = e) as -> by congruence.
           destruct Hin as (s0 & Hs1 & Hs2). congruence. }
      inv_bind Hb as e1 He1. apply index_inr in He1.
      assert (e1 = e) as -> by congruence.
      inv_bind Hb as dc Hdc. apply index_inr in Hdc.
      destruct ((dc =? -1) || (cd + cost e <? dc)) eqn:Hcond.
      + inv_bind Hb as ds3 Hset. apply setitem_inr in Hset as [Hlt ->].
        injection Hb as <- <-.
        assert (Hlow : dc ≠ -1 → cd + cost e < dc).
        { intros Hd. apply orb_true_iff in Hcond as [Hc|Hc].
          - apply Z.eqb_eq in Hc. done.
          - by apply Z.ltb_lt. }
        assert (Hcu : child ≠ u).
        { intros ->. assert (dc = cd) as -> by congruence.
          specialize (Hlow ltac:(lia)). lia. }
        destruct Hinv1 as [H1 H2 H3 H4 H5].
        assert (Hct : child ≠ to).
        { intros ->. assert (dc = 0) as -> by congruence.
          specialize (Hlow ltac:(lia)). lia. }
        split; [split|split].
        * by rewrite length_insert.
        * by rewrite list_lookup_insert_ne.
        * intros v d Hvd Hne. destruct (decide (v = child)) as [->|Hvc].
          -- rewrite list_lookup_insert_eq in Hvd by done.
             injection Hvd as <-. rewrite <- Hte.
             apply (walk_step g sc to u j e cd); try done.
             ++ apply (H3 u cd Hcd1). lia.
             ++ exists scc_child. rewrite Hte. split; [done|congruence].
          -- rewrite list_lookup_insert_ne in Hvd by done. by apply H3.
        * intros i Hi. destruct (decide (i = child)) as [->|Hic].
          -- exists (cd + cost e). split; [|lia].
             by apply list_lookup_insert_eq.
          -- rewrite list_lookup_insert_ne by done. apply H4. set_solver.
        * intros j' e' He' Hf' e'' du He'' Hdu Hne Hin.
          assert (e'' = e') as -> by congruence.
          assert (Hfc : from_node e' ≠ child) by set_solver.
          rewrite list_lookup_insert_ne in Hdu by done.
          destruct (H5 j' e' He' ltac:(set_solver) e' du He' Hdu Hne Hin)
            as (dv & Hdv & Hdvn & Hle).
          destruct (decide (to_node e' = child)) as [Htc|Htc].
          -- rewrite Htc in *. assert (dv = dc) as -> by congruence.
             exists (cd + cost e). specialize (Hlow Hdvn).
             split; [by apply list_lookup_insert_eq|]. lia.
          -- exists dv. by rewrite list_lookup_insert_ne.
        * by rewrite list_lookup_insert_ne.
        * intros c' j' H e' He' Hin.
          destruct (Hold _ _ H) as [H'|[-> ->]].
          -- destruct (Hdone _ _ H' e' He' Hin) as (dv & Hdv & Hdvn & Hle).
             destruct (decide (to_node e' = child)) as [Htc|Htc].
             ++ rewrite Htc in *. assert (dv = dc) as -> by congruence.
                exists (cd + cost e). specialize (Hlow Hdvn).
                split; [by apply list_lookup_insert_eq|]. lia.
             ++ exists dv. by rewrite list_lookup_insert_ne.
          -- assert (e' = e) as -> by congruence. rewrite Hte.
             exists (cd + cost e).
             split; [by apply list_lookup_insert_eq|]. lia.
      + injection Hb as <- <-. split; [done|]. split; [done|].
        intros c' j' H e' He' Hin.
        destruct (Hold _ _ H) as [H'|[-> ->]]; [by eapply Hdone|].
        assert (e' = e) as -> by congruence. rewrite Hte.
        apply orb_false_iff in Hcond as [Hc1 Hc2].
        apply Z.eqb_neq in Hc1. apply Z.ltb_ge in Hc2.
        exists dc. done. }
  destruct Hloop as ([H1 H2 H3 H4 H5] & Hcd' & Hdone). split; try done.
  - intros i Hi. apply H4. set_solver.
  - intros j e He Hf. destruct (decide (from_node e = u)) as [Hfu|Hfu].
    + intros e' du He' Hdu Hne Hin. assert (e' = e) as -> by congruence.
      rewrite Hfu in Hdu. assert (du = cd) as -> by congruence.
      assert (Hj : j ∈ out) by (apply (linked_out _ _ _ Hl Hout); eauto).
      destruct (get_out_complete _ _ _ _ Houts Hout j Hj) as (e0 & He0 & Hin0).
      assert (e0 = e) as -> by congruence.
      by apply (Hdone _ _ Hin0 e He).
    + apply (H5 j e He). set_solver.
Qed.

Lemma dist_inv_run ds tv r :
  ws_run (distances_visit g sc to) ds tv r →
  ∀ ds', r = inr ds' → dist_inv g sc to ds tv → dist_inv g sc to ds' ∅.
Proof.
  induction 1 as [s|s tv c s' tv' r Hc Hb Hrun IH|s tv c e Hc Hb];
    intros ds' Hr Hinv.
  - by injection Hr as <-.
  - apply IH; [done|]. by eapply dist_inv_visit.
  - done.
Qed.

Lemma dist_inv_least ds v d' :
  dist_inv g sc to ds ∅ → walk g sc to v d' →
  ∃ d, ds !! v = Some d ∧ d ≠ -1 ∧ d ≤ d'.
Proof.
  clear Hl. intros Hinv. induction 1 as [|u j e d Hw IH He Hf Hin].
  - exists 0. split; [by apply (di_to _ _ _ _ _ Hinv)|]. lia.
  - destruct IH as (du & Hdu & Hne & Hle). rewrite <- Hf in Hdu.
    destruct (di_relaxed _ _ _ _ _ Hinv j e He ltac:(set_solver)
                e du He Hdu Hne Hin) as (dv & Hdv & Hdvn & Hle').
    exists dv. split; [done|]. split; [done|]. lia.
Qed.
End Distances.

(** X25: the distances the inner [while] of [__remove_loops] ends with
    are the least costs of the walks from [to_node] along edges into
    nodes of its component: a node no such walk reaches keeps -1, and any
    other has the cost of a cheapest walk, whatever node each [pop]
    took. *)
Theorem X25_distances_least_walk g sc to ds :
  linked g → (to < length (_nodes g))%nat →
  ws_run (distances_visit g sc to)
         (<[to := 0]> (replicate (length (_nodes g)) (-1))) {[to]}
         (inr ds) →
  ∀ v, (v < length (_nodes g))%nat →
    ∃ d, ds !! v = Some d ∧
      (d = -1 → ∀ d', ¬ walk g sc to v d') ∧
      (d ≠ -1 → walk g sc to v d ∧ ∀ d', walk g sc to v d' → d ≤ d').
Proof.
  intros Hl Hto Hrun v Hv.
  assert (Hinv : dist_inv g sc to ds ∅).
  { eapply dist_inv_run; [done|done|done|]. by apply dist_inv_init. }
  destruct (lookup_lt_is_Some_2 ds v) as [d Hd].
  { by rewrite (di_len _ _ _ _ _ Hinv). }
  exists d. split; [done|]. split.
  - intros -> d' Hw.
    destruct (dist_inv_least g sc to ds v d' Hinv Hw) as (d0 & Hd0 & Hne & _).
    congruence.
  - intros Hne. split; [by apply (di_walk _ _ _ _ _ Hinv)|].
    intros d' Hw.
    destruct (dist_inv_least g sc to ds v d' Hinv Hw) as (d0 & Hd0 & _ & Hle).
    congruence.
Qed.

Lemma cycle_distances_run :
  ws_run (distances_visit cycle_built [0; 0; 0; 0] 0)
         (<[0%nat := 0]> (replicate (length (_nodes cycle_built)) (-1)))
         {[0%nat]} (inr [0; 1; 1; 2]).
Proof. apply (ws_sched_run _ [0; 2; 1; 3]%nat). vm_compute. reflexivity. Qed.

Lemma X25_distances_least_walk_witness :
  ∃ d, [0; 1; 1; 2] !! 3%nat = Some d ∧
    (d = -1 → ∀ d', ¬ walk cycle_built [0; 0; 0; 0] 0 3 d') ∧
    (d ≠ -1 → walk cycle_built [0; 0; 0; 0] 0 3 d ∧
              ∀ d', walk cycle_built [0; 0; 0; 0] 0 3 d' → d ≤ d').
Proof.
  apply (X25_distances_least_walk cycle_built [0; 0; 0; 0] 0 [0; 1; 1; 2]).
  - exact (built_linked _ _ _ cycle_built_eq).
  - simpl. lia.
  - exact cycle_distances_run.
  - simpl. lia.
Defined.
